(* ===== verification/_CoqProject ===== *)
-Q . S2P
Prelude.v
GoStrings.v
GoTime.v
Netip.v
GoParse.v
BlocklistParse.v
BlocklistMatcher.v
Dns.v
BlocklistSource.v
Blocklist.v
BlocklistConcurrency.v
BlocklistHistory.v
Directives.v
Contest.v
Race.v
ProbeStore.v
PeercacheStore.v
PeercacheStoreSpec.v
Peercache.v
PeercacheDiscovery.v
PeercacheListener.v
PeercacheLifecycle.v
PeercacheSystem.v
PeercacheNetwork.v
Latency.v
Chain.v
Buildinfo.v
Loadgen.v
LoadgenRun.v
Caddy.v
BlocklistSetup.v
RaceSetup.v
PeercacheSetup.v
