(* ===== verification/Prelude.v ===== *)
(** * homedns: a verification development

    homedns is a CoreDNS distribution with three plugins of its own.  This
    library models their Go code under [src/] as executable Rocq definitions and
    proves what makes them correct.  This file is the prelude; the text below
    documents the whole development.

    ** The program

    - [plugin/blocklist] downloads lists of domain names and answers NXDOMAIN
      for them and everything under them.
    - [plugin/race] sends a query to all upstreams at once and answers with the
      first useful reply.
    - [plugin/peercache] asks the sibling replicas and the upstream at once on a
      local cache miss, and serves siblings from a small store of its own.
    - [internal/detached] is the response writer the racing legs write to,
      [directives.go] places the plugins in CoreDNS's chain, [buildinfo.go]
      reports the build, and [scripts/loadgen] is a load generator that fires a
      file of names at a server and judges the answers.

    A query passes the chain from top to bottom; a plugin answers or hands the
    query on.  [Dns] has what the plugins share: messages, errors, counters, a
    handler call's effect ([outcome]: the messages written and the pair
    returned) and the classes [DnsLib], [CoreLib] for the functions of miekg/dns
    and CoreDNS that they call, with the documented behaviour relied on as
    [DnsLaws].

    ** Files

    - [Prelude]: byte strings, results, string order and sorting, automation.
    - [GoStrings], [GoTime], [Netip]: the parts of Go's standard library the
      plugins compute with: [strings] and UTF-8, durations at their width and
      the [float64] seconds, [net/netip] addresses and host:port strings.
    - [BlocklistParse] ([parse.go]), [BlocklistMatcher] ([matcher.go]),
      [BlocklistSource] ([source.go]), [Blocklist] ([blocklist.go],
      [metrics.go]): the blocklist, each operation a function on explicit state;
      [BlocklistConcurrency]: [start], the refresh goroutine, the fail-open
      timer, queries and [shutdown] as one step relation, a step per effect;
      [BlocklistHistory]: the abstract blocklist, a function of the sources'
      responses, which that relation implements.
    - [Directives] ([directives.go]).
    - [Contest]: the shape [race.dispatch] and [peercache.race] share (legs as
      goroutines, a channel buffered for all of them, a receiving loop that
      selects between results and cancellation) as a step relation and as a
      sequential function, over an interface both plugins instantiate.
    - [Race] ([race.go], [metrics.go]).
    - [ProbeStore]: the interface of the probe store; [PeercacheStore]
      ([store.go]) implements it, with records on a heap, and refines the map of
      answers of [PeercacheStoreSpec]; [Peercache]
      ([peercache.go], [metrics.go], [writer.go]) and [PeercacheListener]
      ([listener.go]) use it; [PeercacheDiscovery] ([republish] of
      [discovery.go]) publishes the peers; [PeercacheLifecycle] has [start],
      [shutdown], [discover], [listen], [serve] and [bind] with the informer and
      its event handler as one step relation; [PeercacheSystem] puts two
      replicas together, [PeercacheNetwork] any number of them with the packets
      between them and a clock.
    - [Latency]: the two receiving loops with the times of the legs' results.
    - [Chain]: a query through blocklist, peercache and race in the order of
      the chain, on a local cache miss.
    - [GoParse]: [strconv.Atoi], [time.ParseDuration], [Addr.String]; [Caddy]:
      the interface of caddy's dispenser and the two parser loops;
      [BlocklistSetup], [RaceSetup], [PeercacheSetup] ([setup.go] of each
      plugin): the Corefile parsers and the registration of the plugins.
    - [Buildinfo] ([buildinfo.go]).
    - [Loadgen] ([scripts/loadgen/main.go]): names, percentiles, rounding, one
      query, the report, the exit code; [LoadgenRun]: [run] and [worker] as a
      step relation labelled with what the network did, and [main].

    ** What the theorems show

    - Blocklist: parsing yields exactly the names a list spells and only
      blockable ones; the set built from them covers the same queries, is
      minimal and canonical, and binary search on it is right; from download to
      answer, listed names are blocked; a dead source keeps its last good names;
      in every interleaving each query is answered from one complete pass of a
      reload, each source contributing its response or, where the fetch failed,
      its last good copy, and while the plugin is not shut down that pass misses
      at most the reload in progress (the sources need not be distinct);
      in every interleaving readiness has a published list or the timer behind
      it, the domain gauge is the size of that list outside the window between
      the two writes, and serving unfiltered shows in the fail-open gauge; the
      converse fails: [stale_gauge_is_reachable] exhibits a filtering plugin
      whose fail-open gauge stays at 1; shutdown cannot deadlock.
    - Contest: the goroutines refine the sequential loop and the other way
      round; no leg ever blocks, so none leaks; the caller can always return.
    - Race: one useful upstream is enough in whatever order results arrive;
      what is returned otherwise; each query is counted once; dead pooled
      connections never decide a leg.
    - Peercache: the store is a map of the answers accepted last, which expire;
      an answer put is the answer got, with its TTLs rebased within
      proved bounds and no aliasing between the store and its users; the first
      useful answer decides a race and nothing a sibling does can make the
      outcome worse than the upstream's; the listener serves running siblings
      only; across two replicas a stored answer decides the sibling's race; and
      among any number of them, whatever is offered or answered is an upstream's
      answer, which loses at least a second of its TTL per hop and ends no later
      than the upstream's did plus the network's delays.
      In every interleaving of its goroutines the published peers are those of
      one listing, a pod event that is pending after [discover]'s own [republish]
      brings them up to date if listings succeed, [shutdown] cannot deadlock and releases what was started; [stale_peers_reachable] exhibits
      the interleaving after which the peers stay out of date.
    - Latency: a race is over with its first useful answer, so a useful upstream
      is never delayed by a sibling; a failure waits for the slowest one, at most
      the probe timeout ([failure_waits_for_every_sibling]).
    - Chain: a blocked name goes nowhere: blocklist's handler, which is given
      the rest of the chain with its state, never runs it; an unblocked one that some upstream
      answers is answered once, cleanly, whatever the siblings do, and stored.
    - Load generator: every run ends, and with what; in every interleaving the
      merged results are what happened; exit code 0 means that every name was
      asked and answered as expected; [run] hangs when its workers give up
      ([unreachable_server_hangs]); the percentiles are exact and the names
      written are the names read.
    - Setup: what each parser accepts, and that a configuration it returns
      satisfies what the running plugin relies on.

    ** Bounds and fuel

    Loops over data recurse on the data.  [search_loop], [covers_loop] and the
    UTF-8 decoders take the length of their input as fuel, which their
    specifications show to be enough; [itoa] takes the number of bits.  The
    bounded retry loops ([connect_loop], [bind_loop]) recurse on the number of
    attempts the source allows.  The step relations of [PeercacheLifecycle] and
    [LoadgenRun] have no fuel: a weight that every step decreases bounds their
    runs.  [PeercacheNetwork]'s packets are at most [delay] under way, which
    stands for the probe timeout, and its clock is one for all replicas (the
    code only ever compares times of one replica).  Counters and gauges are unbounded integers;
    the resolver's [uint32] rotation, TTLs, durations and the conversion to
    [float64] and back are kept at their width.

    ** What is not modelled

    Network and file I/O, TLS, Kubernetes, Prometheus, CoreDNS and caddy are
    parameters: what an exchange returns, which pods are listed, when a timer
    fires and what the caddy dispenser holds are arguments.  Log messages, what
    [net/http] does with its timeouts, [main.go] (it only starts CoreDNS), the
    formatting of the load generator's printed lines, its [flag] parsing and the
    Helm chart are left out.  CoreDNS's own plugins between the three (the cache
    above all) are transparent in [Chain], which is a query on a cache miss.  The [time.Now()] a duration histogram observes
    is reduced to the number of observations. *)

From Stdlib Require Import Lia ZArith Ascii.
From stdpp Require Import base list strings gmap sorting numbers option relations.

(** ** Byte strings

    A Go [string] (and a [[]byte]) is a sequence of bytes, modelled as a list
    of [ascii] (eight bits each); [lit "..."] writes one from a literal. *)

Abbreviation str := (list ascii).

Definition lit (s : string) : str := String.list_ascii_of_string s.
Arguments lit s%_string.

(** The numeric value of a byte, as Go compares and computes with it. *)
Definition bval (c : ascii) : Z := Z.of_N (N_of_ascii c).

(** The byte of a number, truncated to eight bits as Go's [byte(x)]. *)
Definition byte_of (z : Z) : ascii := ascii_of_N (Z.to_N (z mod 256)).

(** ** Results of fallible code: a value or an error *)

Inductive result (E A : Type) : Type :=
| Ok (a : A)
| Err (e : E).
Arguments Ok {E A} a.
Arguments Err {E A} e.

Definition result_bind {E A B} (m : result E A) (k : A -> result E B) : result E B :=
  match m with
  | Ok a => k a
  | Err e => Err e
  end.

Definition is_ok {E A} (m : result E A) : bool :=
  match m with Ok _ => true | Err _ => false end.

Declare Scope go_scope.
Delimit Scope go_scope with go.
Notation "'let?' x ':=' m 'in' k" := (result_bind m (fun x => k))
  (at level 10, x pattern, m at level 200, k at level 200) : go_scope.
Open Scope go_scope.

(** ** Lexicographic byte order: Go's [<=] on strings *)

Fixpoint str_leb (s t : str) : bool :=
  match s, t with
  | [], _ => true
  | _ :: _, [] => false
  | c :: s', d :: t' =>
      if (bval c <? bval d)%Z then true
      else if (bval d <? bval c)%Z then false
      else str_leb s' t'
  end.

Definition str_le (s t : str) : Prop := str_leb s t = true.

#[export] Instance str_le_dec : RelDecision str_le :=
  fun s t => bool_eq_dec (str_leb s t) true.

(** Go's [<] on strings. *)
Definition str_ltb (s t : str) : bool := negb (str_leb t s).

(** Go's [sort.Strings] and [slices.Sort] on strings: the ascending
    rearrangement.  The order is total and antisymmetric, so the result does
    not depend on the sorting algorithm ([sort_strings_unique]). *)
Definition sort_strings (l : list str) : list str := merge_sort str_le l.

(** ** Automation *)

Create HintDb go.
Create Rewrite HintDb go.

(** Case analysis on every [if] and [match] on a boolean or option test. *)
Ltac break_if :=
  match goal with
  | |- context [if ?c then _ else _] => destruct c eqn:?
  | H : context [if ?c then _ else _] |- _ => destruct c eqn:?
  end.

(** Boolean facts into propositions, for [lia] and [congruence]. *)
Ltac bprop :=
  repeat match goal with
  | H : andb _ _ = true |- _ => apply andb_true_iff in H; destruct H
  | H : orb _ _ = false |- _ => apply orb_false_iff in H; destruct H
  | H : negb _ = true |- _ => apply negb_true_iff in H
  | H : negb _ = false |- _ => apply negb_false_iff in H
  | H : Z.leb _ _ = true |- _ => apply Z.leb_le in H
  | H : Z.leb _ _ = false |- _ => apply Z.leb_gt in H
  | H : Z.ltb _ _ = true |- _ => apply Z.ltb_lt in H
  | H : Z.ltb _ _ = false |- _ => apply Z.ltb_ge in H
  | H : Z.eqb _ _ = true |- _ => apply Z.eqb_eq in H
  | H : Z.eqb _ _ = false |- _ => apply Z.eqb_neq in H
  | H : Nat.ltb _ _ = true |- _ => apply Nat.ltb_lt in H
  | H : Nat.ltb _ _ = false |- _ => apply Nat.ltb_ge in H
  | H : Nat.leb _ _ = true |- _ => apply Nat.leb_le in H
  | H : Nat.leb _ _ = false |- _ => apply Nat.leb_gt in H
  | H : Nat.eqb _ _ = true |- _ => apply Nat.eqb_eq in H
  | H : Nat.eqb _ _ = false |- _ => apply Nat.eqb_neq in H
  | H : bool_decide _ = true |- _ => apply bool_decide_eq_true in H
  | H : bool_decide _ = false |- _ => apply bool_decide_eq_false in H
  end.

(** Absence of a byte from a string built from parts. *)
Ltac not_in :=
  rewrite ?elem_of_app, ?elem_of_cons, ?elem_of_nil; intuition congruence.

(** ** Bytes *)

Lemma bval_range c : (0 <= bval c < 256)%Z.
Proof.
  unfold bval. pose proof (N_ascii_bounded c). lia.
Qed.

Lemma bval_inj c d : bval c = bval d -> c = d.
Proof.
  unfold bval. intros H%N2Z.inj.
  rewrite <- (ascii_N_embedding c), <- (ascii_N_embedding d). by f_equal.
Qed.

Lemma bval_byte_of z : bval (byte_of z) = (z mod 256)%Z.
Proof.
  unfold bval, byte_of. pose proof (Z.mod_pos_bound z 256).
  rewrite N_ascii_embedding; lia.
Qed.

Lemma byte_of_bval c : byte_of (bval c) = c.
Proof.
  apply bval_inj. rewrite bval_byte_of. apply Z.mod_small, bval_range.
Qed.
#[export] Hint Rewrite bval_byte_of byte_of_bval : go.

(** ** The order on strings is a total order *)

Lemma str_leb_refl s : str_leb s s = true.
Proof. induction s as [|c s IH]; simpl; [done|]. by rewrite Z.ltb_irrefl. Qed.

#[export] Instance str_le_refl : Reflexive str_le.
Proof. intros s. apply str_leb_refl. Qed.

#[export] Instance str_le_trans : Transitive str_le.
Proof.
  unfold str_le. intros s. induction s as [|c s IH]; intros [|d t] [|e u]; simpl; try done.
  intros H1 H2. repeat break_if; bprop; try done; try lia. eauto.
Qed.

#[export] Instance str_le_antisymm : AntiSymm (=) str_le.
Proof.
  unfold str_le. intros s. induction s as [|c s IH]; intros [|d t]; simpl; try done.
  intros H1 H2. repeat break_if; bprop; try done; try lia.
  f_equal; [apply bval_inj; lia | eauto].
Qed.

#[export] Instance str_le_total : Total str_le.
Proof.
  unfold str_le. intros s. induction s as [|c s IH]; intros [|d t]; simpl; auto.
  repeat break_if; bprop; auto; lia.
Qed.

Lemma str_ltb_spec s t : str_ltb s t = true <-> str_le s t /\ s <> t.
Proof.
  unfold str_ltb. split.
  - intros H%negb_true_iff. split.
    + destruct (total str_le s t) as [|H']; [done|]. unfold str_le in H'. congruence.
    + intros ->. by rewrite str_leb_refl in H.
  - intros [H Hne]. apply negb_true_iff. destruct (str_leb t s) eqn:E; [|done].
    destruct Hne. by apply (anti_symm str_le).
Qed.

(** ** Sorting *)

Lemma sort_strings_sorted l : StronglySorted str_le (sort_strings l).
Proof. apply StronglySorted_merge_sort; apply _. Qed.

Lemma sort_strings_perm l : sort_strings l ≡ₚ l.
Proof. apply merge_sort_Permutation. Qed.

Lemma sort_strings_unique l l' :
  StronglySorted str_le l' -> l' ≡ₚ l -> sort_strings l = l'.
Proof.
  intros Hs Hp. apply (StronglySorted_unique str_le); [apply sort_strings_sorted | done |].
  by rewrite sort_strings_perm.
Qed.

Lemma sort_strings_permut l l' : l ≡ₚ l' -> sort_strings l = sort_strings l'.
Proof.
  intros Hp. apply sort_strings_unique; [apply sort_strings_sorted|].
  by rewrite sort_strings_perm.
Qed.

Lemma elem_of_sort_strings x l : x ∈ sort_strings l <-> x ∈ l.
Proof. by rewrite sort_strings_perm. Qed.

Lemma length_sort_strings l : length (sort_strings l) = length l.
Proof. by rewrite sort_strings_perm. Qed.

#[export] Instance sort_strings_proper : Proper ((≡ₚ) ==> (=)) sort_strings.
Proof. intros l l'. apply sort_strings_permut. Qed.
#[export] Hint Resolve sort_strings_sorted : go.
#[export] Hint Rewrite elem_of_sort_strings length_sort_strings : go.

(** ** Lists *)

Lemma omap_cons_Some {A B} (f : A -> option B) x y l :
  f x = Some y -> omap f (x :: l) = y :: omap f l.
Proof. intros H. cbn. by rewrite H. Qed.

Lemma omap_cons_None {A B} (f : A -> option B) x l :
  f x = None -> omap f (x :: l) = omap f l.
Proof. intros H. cbn. by rewrite H. Qed.

(** ** Step relations *)

(** What every step preserves holds in every reachable state. *)
Lemma rtc_preserves {A} (R : relation A) (P : A -> Prop) x y :
  (forall a b, R a b -> P a -> P b) -> rtc R x y -> P x -> P y.
Proof. intros HP. induction 1; eauto. Qed.
