(* ===== verification/GoStrings.v ===== *)
(** * The parts of Go's [strings], [unicode] and [unicode/utf8] packages the
    program uses

    Byte-exact models of the functions the parsers call: searching and
    trimming, UTF-8 decoding and encoding with Go's replacement of invalid
    bytes, [unicode.IsSpace], [strings.TrimSpace], [strings.Fields] and
    [strings.ToLower].  Only the lower-case mapping of non-ASCII runes, a table
    of the Unicode version the toolchain ships, is left as a parameter
    ([UnicodeCase]). *)

From Stdlib Require Import Lia ZArith Ascii.
From stdpp Require Import base list strings gmap sorting numbers option.
From S2P Require Import Prelude.

Local Open Scope Z_scope.

(** ** Searching and trimming bytes *)

(** [strings.IndexByte]; [None] is Go's [-1]. *)
Fixpoint index_byte (s : str) (c : ascii) : option nat :=
  match s with
  | [] => None
  | d :: s' => if bool_decide (d = c) then Some O else S <$> index_byte s' c
  end.

(** [strings.LastIndexByte]. *)
Fixpoint last_index_byte (s : str) (c : ascii) : option nat :=
  match s with
  | [] => None
  | d :: s' =>
      match last_index_byte s' c with
      | Some i => Some (S i)
      | None => if bool_decide (d = c) then Some O else None
      end
  end.

(** [strings.HasPrefix]. *)
Fixpoint has_prefix (s p : str) {struct p} : bool :=
  match p, s with
  | [], _ => true
  | c :: p', d :: s' => bool_decide (c = d) && has_prefix s' p'
  | _ :: _, [] => false
  end.

(** [strings.TrimPrefix] and [strings.TrimSuffix]. *)
Definition trim_prefix (s p : str) : str :=
  if has_prefix s p then drop (length p) s else s.

Definition trim_suffix (s p : str) : str :=
  if has_prefix (rev s) (rev p) then take (length s - length p) s else s.

(** [strings.Contains] of a one-byte substring. *)
Definition contains_byte (s : str) (c : ascii) : bool :=
  match index_byte s c with Some _ => true | None => false end.

(** ** UTF-8 *)

Definition rune_error : Z := 0xFFFD.

Definition in_range (lo hi x : Z) : bool := (lo <=? x) && (x <=? hi).

(** [utf8.DecodeRuneInString]: the first rune and its width in bytes;
    [(RuneError, 1)] on an invalid sequence and [(RuneError, 0)] on the empty
    string.  The ranges of the second byte are those of Go's acceptance table:
    no over-long encoding, no surrogate, nothing above U+10FFFF. *)
Definition decode_rune (s : str) : Z * nat :=
  match s with
  | [] => (rune_error, 0%nat)
  | c0 :: rest =>
      let p0 := bval c0 in
      if p0 <? 0x80 then (p0, 1%nat)
      else if in_range 0xC2 0xDF p0 then
        match rest with
        | c1 :: _ =>
            let b1 := bval c1 in
            if in_range 0x80 0xBF b1
            then ((p0 - 0xC0) * 64 + (b1 - 0x80), 2%nat)
            else (rune_error, 1%nat)
        | [] => (rune_error, 1%nat)
        end
      else if in_range 0xE0 0xEF p0 then
        match rest with
        | c1 :: c2 :: _ =>
            let b1 := bval c1 in
            let b2 := bval c2 in
            let lo := if p0 =? 0xE0 then 0xA0 else 0x80 in
            let hi := if p0 =? 0xED then 0x9F else 0xBF in
            if in_range lo hi b1 && in_range 0x80 0xBF b2
            then ((p0 - 0xE0) * 4096 + (b1 - 0x80) * 64 + (b2 - 0x80), 3%nat)
            else (rune_error, 1%nat)
        | _ => (rune_error, 1%nat)
        end
      else if in_range 0xF0 0xF4 p0 then
        match rest with
        | c1 :: c2 :: c3 :: _ =>
            let b1 := bval c1 in
            let b2 := bval c2 in
            let b3 := bval c3 in
            let lo := if p0 =? 0xF0 then 0x90 else 0x80 in
            let hi := if p0 =? 0xF4 then 0x8F else 0xBF in
            if in_range lo hi b1 && in_range 0x80 0xBF b2 && in_range 0x80 0xBF b3
            then ((p0 - 0xF0) * 262144 + (b1 - 0x80) * 4096
                    + (b2 - 0x80) * 64 + (b3 - 0x80), 4%nat)
            else (rune_error, 1%nat)
        | _ => (rune_error, 1%nat)
        end
      else (rune_error, 1%nat)
  end.

(** [utf8.AppendRune]: the encoding of a rune; out-of-range values and
    surrogates are encoded as [RuneError]. *)
Definition encode_rune (r0 : Z) : str :=
  let r := if (r0 <? 0) || (0x10FFFF <? r0) || in_range 0xD800 0xDFFF r0
           then rune_error else r0 in
  if r <=? 0x7F then [byte_of r]
  else if r <=? 0x7FF then [byte_of (0xC0 + r / 64); byte_of (0x80 + r mod 64)]
  else if r <=? 0xFFFF then
    [byte_of (0xE0 + r / 4096); byte_of (0x80 + r / 64 mod 64); byte_of (0x80 + r mod 64)]
  else
    [byte_of (0xF0 + r / 262144); byte_of (0x80 + r / 4096 mod 64);
     byte_of (0x80 + r / 64 mod 64); byte_of (0x80 + r mod 64)].

(** [for _, r := range s]: the runes of a string, each with the bytes it was
    decoded from.  The fuel is the number of bytes: every step consumes at
    least one ([concat_runes]). *)
Fixpoint runes_fuel (fuel : nat) (s : str) : list (Z * str) :=
  match fuel, s with
  | S n, _ :: _ =>
      let '(r, w) := decode_rune s in
      (r, take w s) :: runes_fuel n (drop w s)
  | _, _ => []
  end.

Definition runes (s : str) : list (Z * str) := runes_fuel (length s) s.

(** [utf8.RuneStart]: not a continuation byte. *)
Definition rune_start (c : ascii) : bool := negb (in_range 0x80 0xBF (bval c)).

(** [utf8.DecodeLastRuneInString] on a non-empty string: step back to the
    nearest start byte among the last four bytes; the rune decoded there must
    end exactly at the end of the string. *)
Definition decode_last_rune (s : str) : Z * nat :=
  let n := length s in
  match s !! (n - 1)%nat with
  | None => (rune_error, 0%nat)
  | Some c =>
      if bval c <? 0x80 then (bval c, 1%nat)
      else
        let start_at k := match (if (k <=? n)%nat then s !! (n - k)%nat else None) with
                          | Some d => rune_start d
                          | None => false
                          end in
        match find start_at [2; 3; 4]%nat with
        | Some k =>
            let '(r, w) := decode_rune (drop (n - k) s) in
            if (w =? k)%nat then (r, k) else (rune_error, 1%nat)
        | None => (rune_error, 1%nat)
        end
  end.

(** ** [unicode] *)

(** [unicode.IsSpace]. *)
Definition is_space (r : Z) : bool :=
  in_range 0x09 0x0D r || (r =? 0x20) || (r =? 0x85) || (r =? 0xA0)
  || (r =? 0x1680) || in_range 0x2000 0x200A r || (r =? 0x2028) || (r =? 0x2029)
  || (r =? 0x202F) || (r =? 0x205F) || (r =? 0x3000).

(** [unicode.ToLower] on runes above U+007F, a table of the Unicode database. *)
Class UnicodeCase := unicode_lower : Z -> Z.

(** A concrete case table for examples: exact on Latin-1, and on the two
    non-ASCII runes whose lower case is an ASCII letter. *)
Definition latin1_case : UnicodeCase := fun r =>
  if in_range 0xC0 0xDE r && negb (r =? 0xD7) then r + 0x20
  else if r =? 0x130 then 0x69
  else if r =? 0x212A then 0x6B
  else r.

Definition lower_rune `{UC : UnicodeCase} (r : Z) : Z :=
  if r <=? 0x7F then (if in_range 0x41 0x5A r then r + 0x20 else r)
  else unicode_lower r.

(** ** [strings] functions over runes *)

(** [strings.TrimLeftFunc(s, unicode.IsSpace)]. *)
Fixpoint trim_left_space_fuel (fuel : nat) (s : str) : str :=
  match fuel, s with
  | S n, _ :: _ =>
      let '(r, w) := decode_rune s in
      if is_space r then trim_left_space_fuel n (drop w s) else s
  | _, _ => s
  end.

(** [strings.TrimRightFunc(s, unicode.IsSpace)]. *)
Fixpoint trim_right_space_fuel (fuel : nat) (s : str) : str :=
  match fuel, s with
  | S n, _ :: _ =>
      let '(r, w) := decode_last_rune s in
      if is_space r then trim_right_space_fuel n (take (length s - w) s) else s
  | _, _ => s
  end.

(** [strings.TrimSpace]. *)
Definition trim_space (s : str) : str :=
  let t := trim_left_space_fuel (length s) s in
  trim_right_space_fuel (length t) t.

(** [strings.Fields]: [cur] is the field being read, empty between fields. *)
Fixpoint fields_aux (rs : list (Z * str)) (cur : str) : list str :=
  match rs with
  | [] => if bool_decide (cur = []) then [] else [cur]
  | (r, raw) :: rs' =>
      if is_space r
      then if bool_decide (cur = []) then fields_aux rs' [] else cur :: fields_aux rs' []
      else fields_aux rs' (cur ++ raw)
  end.

Definition fields (s : str) : list str := fields_aux (runes s) [].

Definition is_ascii (c : ascii) : bool := bval c <? 0x80.

Definition lower_byte (c : ascii) : ascii :=
  if in_range 0x41 0x5A (bval c) then byte_of (bval c + 0x20) else c.

(** [strings.ToLower]: byte by byte on an ASCII string, otherwise
    [strings.Map(unicode.ToLower, s)], which also replaces every invalid byte
    by the encoding of U+FFFD. *)
Definition to_lower `{UC : UnicodeCase} (s : str) : str :=
  if forallb is_ascii s then map lower_byte s
  else concat (map (fun '(r, _) => encode_rune (lower_rune r)) (runes s)).

(** ** Searching: specifications *)

Lemma index_byte_Some s c i :
  index_byte s c = Some i <->
  exists u v, s = u ++ c :: v /\ (c ∉ u) /\ length u = i.
Proof.
  revert i. induction s as [|d s IH]; intros i; simpl.
  - split; [done|]. intros (u & v & H & _). by destruct u.
  - case_bool_decide as Hd.
    + subst d. split.
      * intros [= <-]. exists [], s. split; [done|]. split; [apply not_elem_of_nil|done].
      * intros (u & v & H & Hu & <-). destruct u as [|e u]; [done|].
        injection H as -> ->. exfalso. apply Hu, list_elem_of_here.
    + split.
      * intros (j & Hj & ->)%fmap_Some. apply IH in Hj as (u & v & -> & Hu & <-).
        exists (d :: u), v. split; [done|]. split; [|done].
        rewrite not_elem_of_cons. split; [congruence|done].
      * intros (u & v & H & Hu & <-). destruct u as [|e u]; [by injection H as ->|].
        injection H as -> ->. apply not_elem_of_cons in Hu as [_ Hu]. simpl.
        enough (index_byte (u ++ c :: v) c = Some (length u)) as -> by done.
        apply IH. eauto.
Qed.

Lemma index_byte_None s c : index_byte s c = None <-> c ∉ s.
Proof.
  split.
  - induction s as [|d s IH]; simpl; [intros _; apply not_elem_of_nil|].
    case_bool_decide as Hd; [done|]. intros H%fmap_None.
    rewrite not_elem_of_cons. split; [congruence | auto].
  - intros H. destruct (index_byte s c) eqn:E; [|done].
    apply index_byte_Some in E as (u & v & -> & _). destruct H.
    apply elem_of_app. right. apply list_elem_of_here.
Qed.

Lemma contains_byte_spec s c : contains_byte s c = true <-> c ∈ s.
Proof.
  unfold contains_byte. destruct (index_byte s c) eqn:E.
  - apply index_byte_Some in E as (u & v & -> & _). split; [|done]. intros _.
    apply elem_of_app. right. apply list_elem_of_here.
  - apply index_byte_None in E. by split.
Qed.

Lemma last_index_byte_None s c : last_index_byte s c = None <-> c ∉ s.
Proof.
  induction s as [|d s IH]; simpl.
  - split; [intros _; apply not_elem_of_nil | done].
  - rewrite not_elem_of_cons, <- IH.
    destruct (last_index_byte s c); [by split; [|intros [_ ?]]|].
    case_bool_decide as Hd; split; intuition congruence.
Qed.

Lemma last_index_byte_Some s c i :
  last_index_byte s c = Some i <->
  exists u v, s = u ++ c :: v /\ (c ∉ v) /\ length u = i.
Proof.
  revert i. induction s as [|d s IH]; intros i; simpl.
  - split; [done|]. intros (u & v & H & _). by destruct u.
  - destruct (last_index_byte s c) as [j|] eqn:E.
    + destruct (proj1 (IH j) eq_refl) as (u0 & v0 & -> & Hv0 & <-). split.
      * intros [= <-]. by exists (d :: u0), v0.
      * intros (u & v & H & Hv & <-). destruct u as [|e u].
        { injection H as -> <-. exfalso. apply Hv, elem_of_app. right. apply list_elem_of_here. }
        injection H as -> H. simpl. f_equal. f_equal.
        assert (Some (length u0) = Some (length u)) as [=]; [|done].
        rewrite IH. eauto.
    + apply last_index_byte_None in E. case_bool_decide as Hd.
      * subst d. split.
        { intros [= <-]. by exists [], s. }
        intros (u & v & H & Hv & <-). destruct u as [|e u]; [done|].
        injection H as -> ->. exfalso. apply E, elem_of_app. right. apply list_elem_of_here.
      * split; [done|]. intros (u & v & H & Hv & <-). destruct u as [|e u]; [by injection H as ->|].
        injection H as -> ->. exfalso. apply E, elem_of_app. right. apply list_elem_of_here.
Qed.

Lemma has_prefix_spec s p : has_prefix s p = true <-> exists t, s = p ++ t.
Proof.
  revert s. induction p as [|c p IH]; intros s; simpl.
  - split; [intros _; by exists s|done].
  - destruct s as [|d s].
    + split; [done|]. by intros (t & ?).
    + rewrite andb_true_iff, bool_decide_eq_true, IH. split.
      * intros [-> (t & ->)]. eauto.
      * intros (t & [= -> ->]). eauto.
Qed.

Lemma has_prefix_app p t : has_prefix (p ++ t) p = true.
Proof. apply has_prefix_spec. eauto. Qed.

Lemma trim_prefix_app p t : trim_prefix (p ++ t) p = t.
Proof. unfold trim_prefix. by rewrite has_prefix_app, drop_app_length. Qed.

Lemma trim_suffix_app p t : trim_suffix (t ++ p) p = t.
Proof.
  unfold trim_suffix. rewrite rev_app_distr, has_prefix_app.
  rewrite length_app, Nat.add_sub. apply take_app_length.
Qed.

Lemma trim_suffix_cases p s :
  (exists t, s = t ++ p /\ trim_suffix s p = t) \/
  (trim_suffix s p = s /\ ~ exists t, s = t ++ p).
Proof.
  destruct (has_prefix (rev s) (rev p)) eqn:E.
  - left. apply has_prefix_spec in E as (t & E).
    apply (f_equal (@rev ascii)) in E. rewrite rev_app_distr, !rev_involutive in E.
    exists (rev t). split; [done|]. rewrite E. apply trim_suffix_app.
  - right. unfold trim_suffix. rewrite E. split; [done|]. intros (t & ->).
    by rewrite rev_app_distr, has_prefix_app in E.
Qed.

Lemma trim_prefix_cases p s :
  (exists t, s = p ++ t /\ trim_prefix s p = t) \/
  (trim_prefix s p = s /\ ~ exists t, s = p ++ t).
Proof.
  unfold trim_prefix. destruct (has_prefix s p) eqn:E.
  - left. apply has_prefix_spec in E as (t & ->). exists t. by rewrite drop_app_length.
  - right. split; [done|]. intros [t ->]. by rewrite has_prefix_app in E.
Qed.

(** ** UTF-8: decoding consumes the string, and inverts encoding *)

Lemma in_range_spec lo hi x : in_range lo hi x = true <-> lo <= x <= hi.
Proof. unfold in_range. rewrite andb_true_iff, !Z.leb_le. lia. Qed.

Lemma in_range_false lo hi x : in_range lo hi x = false <-> x < lo \/ hi < x.
Proof. unfold in_range. rewrite andb_false_iff, !Z.leb_gt. lia. Qed.

Lemma decode_rune_width s :
  s <> [] -> (1 <= snd (decode_rune s) <= length s)%nat.
Proof.
  destruct s as [|c0 s]; [done|]. intros _. cbn -[in_range].
  destruct (_ <? _); [simpl; lia|].
  destruct (in_range _ _ _).
  { destruct s as [|c1 s]; [simpl; lia|]. destruct (in_range _ _ _); simpl; lia. }
  destruct (in_range _ _ _).
  { destruct s as [|c1 [|c2 s]]; [simpl; lia..|]. destruct (_ && _); simpl; lia. }
  destruct (in_range _ _ _); [|simpl; lia].
  destruct s as [|c1 [|c2 [|c3 s]]]; [simpl; lia..|]. destruct (_ && _); simpl; lia.
Qed.

Lemma concat_runes_fuel n s :
  (length s <= n)%nat -> concat (map snd (runes_fuel n s)) = s.
Proof.
  revert s. induction n as [|n IH]; intros [|c s] Hn; try done; [simpl in Hn; lia|].
  cbn [runes_fuel]. pose proof (decode_rune_width (c :: s) ltac:(done)) as Hw.
  destruct (decode_rune (c :: s)) as [r w]. simpl in Hw.
  destruct w as [|w]; [lia|]. simpl. f_equal.
  rewrite IH; [apply take_drop|]. rewrite length_drop. simpl in Hn. lia.
Qed.

(** The fuel of [runes] suffices: the runes cover the whole string. *)
Lemma concat_runes s : concat (map snd (runes s)) = s.
Proof. by apply concat_runes_fuel. Qed.

Definition valid_rune (r : Z) : Prop :=
  0 <= r <= 0x10FFFF /\ ~ (0xD800 <= r <= 0xDFFF).

(** Division and remainder by constants, for [lia]. *)
Local Ltac dlia := Z.to_euclidean_division_equations; lia.

(** Evaluates the range tests whose outcome arithmetic decides. *)
Local Ltac ranges :=
  repeat match goal with
  | |- context [in_range ?a ?b ?x] =>
      first [ rewrite (proj2 (in_range_spec a b x)) by dlia
            | rewrite (proj2 (in_range_false a b x)) by dlia ]
  | |- context [?x <? ?y] =>
      first [ rewrite (proj2 (Z.ltb_lt x y)) by dlia
            | rewrite (proj2 (Z.ltb_ge x y)) by dlia ]
  end.

Lemma decode_encode_rune r t :
  valid_rune r -> decode_rune (encode_rune r ++ t) = (r, length (encode_rune r)).
Proof.
  intros [Hr Hs]. unfold encode_rune. ranges.
  replace (in_range 0xD800 0xDFFF r) with false by (symmetry; apply in_range_false; lia).
  simpl orb. cbv iota.
  destruct (Z.leb_spec r 0x7F);
    [|destruct (Z.leb_spec r 0x7FF);
      [|destruct (Z.leb_spec r 0xFFFF)]];
    cbn -[bval in_range Z.mul Z.sub Z.add Z.div Z.modulo Z.ltb Z.eqb];
    rewrite !bval_byte_of, !(Z.mod_small _ 256) by dlia.
  - by ranges.
  - ranges. f_equal. dlia.
  - destruct (Z.eqb_spec (224 + r / 4096) 224), (Z.eqb_spec (224 + r / 4096) 237);
      ranges; simpl andb; cbv iota; f_equal; dlia.
  - destruct (Z.eqb_spec (240 + r / 262144) 240), (Z.eqb_spec (240 + r / 262144) 244);
      ranges; simpl andb; cbv iota; f_equal; dlia.
Qed.

(** ** ASCII strings: every rune is one byte *)

Abbreviation all_ascii s := (Forall (fun c => is_ascii c = true) s).

Lemma forallb_Forall {A} (f : A -> bool) l :
  forallb f l = true <-> Forall (fun x => f x = true) l.
Proof. by rewrite forallb_forall, List.Forall_forall. Qed.

Lemma decode_rune_ascii c s :
  is_ascii c = true -> decode_rune (c :: s) = (bval c, 1%nat).
Proof. unfold is_ascii. simpl. by intros ->. Qed.

Lemma runes_ascii s : all_ascii s -> runes s = map (fun c => (bval c, [c])) s.
Proof.
  unfold runes. induction 1 as [|c s Hc Hs IH]; [done|].
  cbn [length runes_fuel]. rewrite decode_rune_ascii by done.
  simpl. by rewrite take_0, drop_0, IH.
Qed.

Definition is_space_byte (c : ascii) : bool := is_space (bval c).

Abbreviation no_space s := (Forall (fun c => is_space_byte c = false) s).

Lemma fields_aux_no_space s cur :
  no_space s ->
  fields_aux (map (fun c => (bval c, [c])) s) cur =
  if bool_decide (cur ++ s = []) then [] else [cur ++ s].
Proof.
  intros H. revert cur. induction H as [|c s Hc _ IH]; intros cur; simpl.
  - by rewrite app_nil_r.
  - unfold is_space_byte in Hc. rewrite Hc, IH, <- app_assoc. done.
Qed.

(** A non-empty ASCII string without white space is a single field. *)
Lemma fields_no_space s :
  all_ascii s -> no_space s -> s <> [] -> fields s = [s].
Proof.
  intros Ha Hs Hne. unfold fields. rewrite runes_ascii, fields_aux_no_space by done.
  by rewrite bool_decide_eq_false_2.
Qed.

Lemma decode_last_rune_ascii s c :
  is_ascii c = true -> decode_last_rune (s ++ [c]) = (bval c, 1%nat).
Proof.
  intros Hc. unfold decode_last_rune. rewrite length_app. simpl.
  rewrite Nat.add_sub, list_lookup_middle by done.
  unfold is_ascii in Hc. by rewrite Hc.
Qed.

Definition nonspace_ascii (c : ascii) : Prop := is_ascii c = true /\ is_space_byte c = false.

Lemma trim_left_head c s n :
  nonspace_ascii c -> trim_left_space_fuel n (c :: s) = c :: s.
Proof.
  intros [Ha Hs]. destruct n as [|n]; [done|]. cbn [trim_left_space_fuel].
  rewrite decode_rune_ascii by done. unfold is_space_byte in Hs. by rewrite Hs.
Qed.

Lemma trim_right_last c s n :
  nonspace_ascii c -> trim_right_space_fuel n (s ++ [c]) = s ++ [c].
Proof.
  intros [Ha Hs]. destruct n as [|n]; [by destruct s|]. cbn [trim_right_space_fuel].
  destruct (s ++ [c]) as [|d u] eqn:E; [by destruct s|]. rewrite <- E.
  rewrite decode_last_rune_ascii by done. unfold is_space_byte in Hs. by rewrite Hs.
Qed.

(** Nothing is trimmed between two bytes that are not white space. *)
Lemma trim_space_id c s d t :
  nonspace_ascii c -> nonspace_ascii d -> c :: s = t ++ [d] -> trim_space (c :: s) = c :: s.
Proof.
  intros Hc Hd E. unfold trim_space. rewrite trim_left_head by done.
  rewrite E. by rewrite trim_right_last.
Qed.

(** A token: what [strings.Fields] returns unchanged. *)
Definition token (s : str) : Prop := s <> [] /\ Forall nonspace_ascii s.

Lemma token_parts s : token s -> all_ascii s /\ no_space s /\ s <> [].
Proof.
  intros [Hne H]. repeat split; [..|done]; revert H; apply Forall_impl; by intros c [? ?].
Qed.

Lemma trim_space_token s : token s -> trim_space s = s.
Proof.
  intros [Hne H]. destruct s as [|c s]; [done|].
  destruct (exists_last Hne) as (t & d & E).
  apply (trim_space_id c s d t); [by inversion H | | done].
  rewrite E in H. apply Forall_app in H as [_ H]. by inversion H.
Qed.

(** ** Fields separated by single bytes *)

Fixpoint join (sep : ascii) (l : list str) : str :=
  match l with
  | [] => []
  | [s] => s
  | s :: l' => s ++ sep :: join sep l'
  end.

Definition sep_byte (c : ascii) : Prop := is_ascii c = true /\ is_space_byte c = true.

Lemma join_ascii sep l : sep_byte sep -> Forall token l -> all_ascii (join sep l).
Proof.
  intros [Hs _]. induction 1 as [|s l Ht Hl IH]; [done|].
  destruct (token_parts s Ht) as [Ha _]. destruct l as [|s' l]; [done|].
  apply Forall_app. split; [done|]. by constructor.
Qed.

Lemma fields_join_aux sep l cur :
  sep_byte sep -> Forall token l -> l <> [] ->
  fields_aux (map (fun c => (bval c, [c])) (join sep l)) cur =
  (cur ++ default [] (head l)) :: tail l.
Proof.
  intros [Hs1 Hs2] Hl. revert cur. induction Hl as [|s l Ht Hl IH]; intros cur Hne; [done|].
  destruct (token_parts s Ht) as (_ & Hsp & Hs). simpl head. simpl default. simpl tail.
  destruct l as [|s' l].
  - simpl join. rewrite fields_aux_no_space by done. rewrite bool_decide_eq_false_2; [done|].
    by intros [_ ?]%app_eq_nil.
  - change (join sep (s :: s' :: l)) with (s ++ sep :: join sep (s' :: l)).
    rewrite map_app. clear Hne.
    assert (forall cur, cur ++ s <> [] -> fields_aux (map (fun c => (bval c, [c])) s ++
      map (fun c => (bval c, [c])) (sep :: join sep (s' :: l))) cur =
      (cur ++ s) :: s' :: l) as H; [|apply H; by intros [_ ?]%app_eq_nil].
    clear Ht Hs. induction Hsp as [|c s Hc Hsp IHs]; intros cur' Hne.
    + rewrite app_nil_r in *. unfold is_space_byte in Hs2.
      cbn [map fields_aux app]. rewrite Hs2, bool_decide_eq_false_2 by done.
      f_equal. rewrite (IH []) by done. done.
    + cbn [map fields_aux app]. unfold is_space_byte in Hc. rewrite Hc.
      rewrite IHs, <- app_assoc; [done|]. rewrite <- app_assoc. done.
Qed.

(** [strings.Fields] recovers tokens joined by white space. *)
Lemma fields_join sep l : sep_byte sep -> Forall token l -> fields (join sep l) = l.
Proof.
  intros Hs Hl. unfold fields. rewrite runes_ascii by (by apply join_ascii).
  destruct l as [|s l]; [done|]. by rewrite fields_join_aux.
Qed.

Lemma join_ends sep l :
  Forall token l -> l <> [] ->
  exists c s d t, join sep l = c :: s /\ c :: s = t ++ [d] /\
    nonspace_ascii c /\ nonspace_ascii d.
Proof.
  induction 1 as [|s l [Hs Hc] Hl IH]; [done|]. intros _.
  destruct s as [|c s]; [done|]. destruct l as [|s' l].
  - destruct (exists_last Hs) as (t & d & E). exists c, s, d, t.
    split; [done|]. split; [done|]. split; [by inversion Hc|].
    rewrite E in Hc. apply Forall_app in Hc as [_ Hd]. by inversion Hd.
  - destruct IH as (c' & u & d & t & Ej & E & Hc' & Hd); [done|].
    exists c, (s ++ sep :: join sep (s' :: l)), d, (c :: s ++ sep :: t).
    inversion Hc; subst. split; [done|]. split; [|done].
    rewrite Ej, E. simpl. by rewrite <- app_assoc.
Qed.

Lemma trim_space_join sep l : Forall token l -> trim_space (join sep l) = join sep l.
Proof.
  intros Hl. destruct (decide (l = [])) as [->|Hne]; [done|].
  destruct (join_ends sep l Hl Hne) as (c & s & d & t & -> & E & Hc & Hd).
  by apply (trim_space_id c s d t).
Qed.

(** ** Lower case *)

Lemma bval_lower_byte c :
  bval (lower_byte c) = if in_range 0x41 0x5A (bval c) then bval c + 0x20 else bval c.
Proof.
  unfold lower_byte. destruct (in_range _ _ _) eqn:E; [|done].
  apply in_range_spec in E. rewrite bval_byte_of. apply Z.mod_small. lia.
Qed.

Lemma lower_byte_idem c : lower_byte (lower_byte c) = lower_byte c.
Proof.
  apply bval_inj. rewrite !bval_lower_byte.
  destruct (in_range 65 90 (bval c)) eqn:E; [|by rewrite E].
  apply in_range_spec in E. ranges. done.
Qed.

Lemma lower_byte_ascii c : is_ascii c = true -> is_ascii (lower_byte c) = true.
Proof.
  unfold is_ascii. rewrite bval_lower_byte. destruct (in_range _ _ _) eqn:E; [|done].
  apply in_range_spec in E. lia.
Qed.

Lemma to_lower_ascii `{UC : UnicodeCase} s : all_ascii s -> to_lower s = map lower_byte s.
Proof. intros Ha%forallb_Forall. unfold to_lower. by rewrite Ha. Qed.

Lemma to_lower_idem_ascii `{UC : UnicodeCase} s :
  all_ascii s -> to_lower (to_lower s) = to_lower s.
Proof.
  intros Ha. rewrite (to_lower_ascii s) by done. rewrite to_lower_ascii.
  - rewrite map_map. apply map_ext, lower_byte_idem.
  - apply Forall_fmap. revert Ha. apply Forall_impl. intros c. apply lower_byte_ascii.
Qed.
