(* ===== verification/GoTime.v ===== *)
(** * Go's durations

    [time.Duration] is an [int64] count of nanoseconds: its arithmetic wraps,
    [Time.Sub] saturates, and [Duration.Seconds] goes through [float64].  A
    [float64] of seconds is modelled exactly, as a multiple of [2^-82] (no
    quotient of a nanosecond count by [1e9] needs a finer unit) rounded to 53
    significant bits, ties to even. *)

From Stdlib Require Import Lia ZArith.
From stdpp Require Import base numbers.

Local Open Scope Z_scope.

(** ** [int64] nanoseconds *)

Definition wrap64 (z : Z) : Z := (z + 2 ^ 63) mod 2 ^ 64 - 2 ^ 63.

Definition int64 (z : Z) : Prop := - 2 ^ 63 <= z < 2 ^ 63.

Definition Nanosecond : Z := 1.
Definition Millisecond : Z := 1000000.
Definition Second : Z := 1000000000.

(** Products and differences of durations. *)
Definition dur_mul (a b : Z) : Z := wrap64 (a * b).
Definition dur_sub (a b : Z) : Z := wrap64 (a - b).

(** [t.Sub(u)]: times are nanoseconds on one clock, the difference saturates. *)
Definition time_Sub (t u : Z) : Z := Z.max (- 2 ^ 63) (Z.min (2 ^ 63 - 1) (t - u)).

(** ** [float64] *)

(** The integer nearest to [n / d], ties to even. *)
Definition nearest (n d : Z) : Z :=
  let q := n / d in
  let r := n mod d in
  if 2 * r <? d then q else if d <? 2 * r then q + 1 else if Z.even q then q else q + 1.

(** [n / d] rounded to 53 significant bits. *)
Definition float53 (n d : Z) : Z :=
  let sh := Z.max 0 (Z.log2 (n / d) - 52) in nearest n (d * 2 ^ sh) * 2 ^ sh.

(** The unit of the seconds below. *)
Definition unit_bits : Z := 82.
Definition one_second : Z := 2 ^ unit_bits.

(** [d.Seconds()]: [float64(d / Second) + float64(d % Second) / 1e9]. *)
Definition Seconds (d : Z) : Z :=
  let sec := Z.quot d Second in
  let nsec := Z.rem d Second in
  float53 (sec * one_second + float53 (nsec * one_second) Second) 1.

(** [uint32(f)] of a non-negative number of seconds in range. *)
Definition uint32_of (f : Z) : Z := (f / one_second) mod 2 ^ 32.

(** ** Lemmas *)

Lemma wrap64_id z : int64 z -> wrap64 z = z.
Proof. unfold int64, wrap64. intros H. rewrite Z.mod_small; lia. Qed.

Lemma nearest_bounds a b n d : 0 < d -> a * d <= n <= b * d -> a <= nearest n d <= b.
Proof.
  intros Hd Hn. unfold nearest.
  pose proof (Z.div_mod n d ltac:(lia)) as E. pose proof (Z.mod_pos_bound n d Hd) as Hr.
  assert (a <= n / d) by (apply Z.div_le_lower_bound; lia).
  assert (n / d <= b) by (apply Z.div_le_upper_bound; lia).
  assert (n mod d > 0 -> n / d + 1 <= b) by nia.
  destruct (2 * (n mod d) <? d) eqn:E1; [lia|].
  destruct (d <? 2 * (n mod d)) eqn:E2; [lia|].
  destruct (Z.even (n / d)); lia.
Qed.

Lemma nearest_error n d : 0 < d -> 2 * (nearest n d * d) <= 2 * n + d.
Proof.
  intros Hd. unfold nearest.
  pose proof (Z.div_mod n d ltac:(lia)) as E. pose proof (Z.mod_pos_bound n d Hd) as Hr.
  destruct (2 * (n mod d) <? d) eqn:E1; [nia|]. apply Z.ltb_ge in E1.
  destruct (d <? 2 * (n mod d)) eqn:E2; [nia|]. destruct (Z.even (n / d)); nia.
Qed.

(** Rounding does not cross a multiple of [2^s] when the value has at most
    [s + 53] bits. *)
Lemma float53_bounds a b n d s :
  0 < d -> 0 <= s -> n / d < 2 ^ (s + 53) ->
  a * 2 ^ s * d <= n <= b * 2 ^ s * d -> a * 2 ^ s <= float53 n d <= b * 2 ^ s.
Proof.
  intros Hd Hs Hlog Hn. unfold float53.
  set (sh := Z.max 0 (Z.log2 (n / d) - 52)).
  assert (0 <= sh <= s) as Hsh.
  { split; [lia|]. unfold sh. destruct (Z.le_gt_cases (n / d) 0) as [Hz|Hz].
    - rewrite Z.log2_nonpos by lia. lia.
    - apply Z.log2_lt_pow2 in Hlog; lia. }
  assert (2 ^ s = 2 ^ (s - sh) * 2 ^ sh) as E by (rewrite <- Z.pow_add_r; [f_equal; lia|lia..]).
  assert (0 < 2 ^ sh) by (apply Z.pow_pos_nonneg; lia).
  pose proof (nearest_bounds (a * 2 ^ (s - sh)) (b * 2 ^ (s - sh)) n (d * 2 ^ sh)
    ltac:(lia)) as Hb. rewrite E in *. nia.
Qed.

Lemma float53_error n d s :
  0 < d -> 0 <= s -> n / d < 2 ^ (s + 53) -> 2 * (d * float53 n d) <= 2 * n + d * 2 ^ s.
Proof.
  intros Hd Hs Hlog. unfold float53.
  set (sh := Z.max 0 (Z.log2 (n / d) - 52)).
  assert (0 <= sh <= s) as Hsh.
  { split; [lia|]. unfold sh. destruct (Z.le_gt_cases (n / d) 0) as [Hz|Hz].
    - rewrite Z.log2_nonpos by lia. lia.
    - apply Z.log2_lt_pow2 in Hlog; lia. }
  assert (0 < 2 ^ sh) by (apply Z.pow_pos_nonneg; lia).
  assert (2 ^ sh <= 2 ^ s) by (apply Z.pow_le_mono_r; lia).
  pose proof (nearest_error n (d * 2 ^ sh) ltac:(lia)). nia.
Qed.

Section Seconds.
Context (d : Z) (Hd : 0 <= d < 2 ^ 63).

Let sec := Z.quot d Second.
Let nsec := Z.rem d Second.

Lemma split_bounds : 0 <= sec < 2 ^ 34 /\ 0 <= nsec < Second /\ d = sec * Second + nsec.
Proof.
  unfold sec, nsec. rewrite Z.quot_div_nonneg, Z.rem_mod_nonneg by (unfold Second; lia).
  pose proof (Z.div_mod d Second ltac:(unfold Second; lia)).
  pose proof (Z.mod_pos_bound d Second ltac:(unfold Second; lia)).
  split_and!; try lia.
  - apply Z.div_pos; unfold Second; lia.
  - apply Z.div_lt_upper_bound; unfold Second; lia.
Qed.

Lemma fraction_bounds : 0 <= float53 (nsec * one_second) Second <= one_second.
Proof.
  destruct split_bounds as (_ & Hn & _).
  pose proof (float53_bounds 0 1 (nsec * one_second) Second 82) as H.
  change (2 ^ 82) with one_second in H. rewrite Z.mul_0_l, Z.mul_1_l in H. apply H.
  - unfold Second; lia.
  - lia.
  - apply Z.div_lt_upper_bound; [unfold Second; lia|]. unfold one_second, unit_bits, Second in *. lia.
  - unfold one_second, unit_bits, Second in *. lia.
Qed.

(** The conversion truncates, up to one second of rounding. *)
Lemma Seconds_bounds : sec * one_second <= Seconds d <= (sec + 1) * one_second.
Proof.
  destruct split_bounds as (Hs & _ & _). pose proof fraction_bounds as Hf.
  unfold Seconds. fold sec nsec.
  apply (float53_bounds sec (sec + 1) _ 1 82); [lia|lia| |].
  - rewrite Z.div_1_r. unfold one_second, unit_bits in *. lia.
  - change (2 ^ 82) with one_second. lia.
Qed.

(** Below [2^23] seconds (97 days) it is exact. *)
Lemma Seconds_strict : sec < 2 ^ 23 -> Seconds d < (sec + 1) * one_second.
Proof.
  intros Hsec. destruct split_bounds as (Hs & Hn & _). pose proof fraction_bounds as Hf.
  unfold Seconds. fold sec nsec.
  pose proof (float53_error (nsec * one_second) Second 29) as Hq.
  set (q := float53 (nsec * one_second) Second) in *.
  pose proof (float53_error (sec * one_second + q) 1 52) as Hx.
  set (x := float53 (sec * one_second + q) 1) in *.
  assert (2 * (Second * q) <= 2 * (nsec * one_second) + Second * 2 ^ 29) as Hq'.
  { apply Hq; [unfold Second; lia|lia|].
    apply Z.div_lt_upper_bound; unfold one_second, unit_bits, Second in *; lia. }
  assert (2 * (1 * x) <= 2 * (sec * one_second + q) + 1 * 2 ^ 52) as Hx'.
  { apply Hx; [lia|lia|]. rewrite Z.div_1_r. unfold one_second, unit_bits, Second in *. lia. }
  clearbody q x. unfold one_second, unit_bits, Second in *. lia.
Qed.

Lemma uint32_Seconds :
  d <= (2 ^ 32 - 1) * Second ->
  let t := uint32_of (Seconds d) in
  0 <= t < 2 ^ 32 /\ d / Second <= t <= d / Second + 1 /\ (d < 2 ^ 23 * Second -> t = d / Second).
Proof.
  intros Hmax. destruct split_bounds as (Hs & Hn & E).
  assert (d / Second = sec) as Esec.
  { unfold sec. rewrite Z.quot_div_nonneg; unfold Second; lia. }
  rewrite Esec. pose proof Seconds_bounds as Hb. pose proof Seconds_strict as Hst. cbn zeta.
  assert (sec <= Seconds d / one_second <= sec + 1) as Hq.
  { split; [apply Z.div_le_lower_bound|apply Z.div_le_upper_bound];
      unfold one_second, unit_bits in *; lia. }
  assert (Seconds d / one_second < 2 ^ 32) as Hlt.
  { assert (sec <= 2 ^ 32 - 1) as Hle.
    { clear - E Hmax Hn. clearbody sec nsec. unfold Second in *. lia. }
    destruct (Z.eq_dec sec (2 ^ 32 - 1)) as [Emax|]; [|lia].
    assert (d = (2 ^ 32 - 1) * Second) as ->; [|by vm_compute].
    clear - E Emax Hmax Hn. clearbody sec nsec. unfold Second in *. lia. }
  unfold uint32_of. rewrite Z.mod_small by lia. split_and!; try lia.
  intros Hsmall. assert (sec < 2 ^ 23) as Hsec by (unfold Second in *; lia).
  specialize (Hst Hsec).
  assert (Seconds d / one_second < sec + 1); [|lia].
  apply Z.div_lt_upper_bound; unfold one_second, unit_bits in *; lia.
Qed.

(** A whole number of seconds is converted exactly. *)
Lemma uint32_Seconds_whole :
  d <= (2 ^ 32 - 1) * Second -> nsec = 0 -> uint32_of (Seconds d) = d / Second.
Proof.
  intros Hmax H0. destruct split_bounds as (Hs & _ & E).
  assert (d / Second = sec) as Esec.
  { unfold sec. rewrite Z.quot_div_nonneg; unfold Second; lia. }
  assert (Seconds d = sec * one_second) as ->.
  { unfold Seconds. fold sec nsec. rewrite H0.
    change (float53 (0 * one_second) Second) with 0. rewrite Z.add_0_r.
    pose proof (float53_bounds sec sec (sec * one_second) 1 82) as Hb.
    change (2 ^ 82) with one_second in Hb. apply Z.le_antisymm; apply Hb; try lia;
      rewrite Z.div_1_r; unfold one_second, unit_bits in *; lia. }
  unfold uint32_of. rewrite Z.div_mul by (by unfold one_second, unit_bits). rewrite Esec.
  apply Z.mod_small. clear Esec. clearbody sec nsec. unfold Second in *. lia.
Qed.
End Seconds.

Example seconds_120s : uint32_of (Seconds (120 * Second + 999999999)) = 120.
Proof. by vm_compute. Qed.

Example seconds_rounds_up : uint32_of (Seconds (2 ^ 25 * Second + 999999999)) = 2 ^ 25 + 1.
Proof. by vm_compute. Qed.
