(* ===== verification/Netip.v ===== *)
(** * IP addresses and host:port strings

    Models of the standard-library functions the program uses on addresses:
    [netip.ParseAddr] (with its IPv4 and IPv6 parsers, zones and embedded
    IPv4), [net.ParseIP] and [IP.Equal], [net.SplitHostPort] and
    [net.JoinHostPort], [strconv.Itoa]. *)

From Stdlib Require Import Lia ZArith Ascii.
From stdpp Require Import base list strings gmap sorting numbers option.
From S2P Require Import Prelude GoStrings.

Local Open Scope Z_scope.

(** ** [netip.ParseAddr] *)

(** An address: four bytes, or sixteen bytes with a zone ([[]] for none). *)
Inductive addr : Type :=
| Addr4 (bytes : list Z)
| Addr6 (bytes : list Z) (zone : str).

Definition is_digit (c : ascii) : bool := in_range 48 57 (bval c).

(** [parseIPv4Fields]: the loop over the string, with the previous byte, the
    value and digit count of the current octet, and the octets before it. *)
Fixpoint parse_ipv4_fields (prev : option ascii) (s : str)
    (val : Z) (dig_len : nat) (octets : list Z) : option (list Z) :=
  match s with
  | [] => if (length octets <? 3)%nat then None else Some (octets ++ [val])
  | c :: s' =>
      if is_digit c then
        if (dig_len =? 1)%nat && (val =? 0) then None
        else
          let val' := val * 10 + (bval c - 48) in
          if 255 <? val' then None
          else parse_ipv4_fields (Some c) s' val' (S dig_len) octets
      else if bool_decide (c = "."%char) then
        if bool_decide (prev = None) || bool_decide (s' = [])
           || bool_decide (prev = Some "."%char) then None
        else if (length octets =? 3)%nat then None
        else parse_ipv4_fields (Some c) s' 0 0 (octets ++ [val])
      else None
  end.

Definition parse_ipv4 (s : str) : option addr :=
  Addr4 <$> parse_ipv4_fields None s 0 0 [].

Definition hex_digit (c : ascii) : option Z :=
  let v := bval c in
  if in_range 48 57 v then Some (v - 48)
  else if in_range 97 102 v then Some (v - 97 + 10)
  else if in_range 65 70 v then Some (v - 65 + 10)
  else None.

(** One group of hexadecimal digits: its length, its value and the rest;
    [None] when it has more than four digits or exceeds sixteen bits. *)
Fixpoint hex_group (s : str) (off : nat) (acc : Z) : option (nat * Z * str) :=
  match s with
  | [] => Some (off, acc, [])
  | c :: s' =>
      match hex_digit c with
      | None => Some (off, acc, s)
      | Some d =>
          let acc' := acc * 16 + d in
          if (3 <? off)%nat then None
          else if 65535 <? acc' then None
          else hex_group s' (S off) acc'
      end
  end.

(** The main loop of [parseIPv6]: the bytes parsed so far, the position of the
    ellipsis, the rest of the string.  Each round but the last adds two bytes,
    so nine rounds are enough for sixteen. *)
Fixpoint parse_ipv6_loop (fuel : nat) (ip : list Z) (ellipsis : option nat) (s : str)
    : option (list Z * option nat * str) :=
  match fuel with
  | O => None
  | S n =>
      let i := length ip in
      if (16 <=? i)%nat then Some (ip, ellipsis, s)
      else
        match hex_group s 0 0 with
        | None => None
        | Some (off, acc, rest) =>
            if (off =? 0)%nat then None
            else if bool_decide (head rest = Some "."%char) then
              if bool_decide (ellipsis = None) && negb (i =? 12)%nat then None
              else if (16 <? i + 4)%nat then None
              else match parse_ipv4_fields None s 0 0 [] with
                   | None => None
                   | Some octets => Some (ip ++ octets, ellipsis, [])
                   end
            else
              let ip' := ip ++ [acc / 256; acc mod 256] in
              match rest with
              | [] => Some (ip', ellipsis, [])
              | c :: rest' =>
                  if negb (bool_decide (c = ":"%char)) then None
                  else match rest' with
                       | [] => None
                       | d :: rest'' =>
                           if bool_decide (d = ":"%char) then
                             match ellipsis with
                             | Some _ => None
                             | None =>
                                 match rest'' with
                                 | [] => Some (ip', Some (length ip'), [])
                                 | _ => parse_ipv6_loop n ip' (Some (length ip')) rest''
                                 end
                             end
                           else parse_ipv6_loop n ip' ellipsis rest'
                       end
              end
        end
  end.

(** [parseIPv6]. *)
Definition parse_ipv6 (inp : str) : option addr :=
  let zoned := match index_byte inp "%"%char with
               | None => Some (inp, [])
               | Some i =>
                   let zone := drop (S i) inp in
                   if bool_decide (zone = []) then None else Some (take i inp, zone)
               end in
  match zoned with
  | None => None
  | Some (s, zone) =>
      let lead := has_prefix s (lit "::") in
      let s1 := if lead then drop 2 s else s in
      if lead && bool_decide (s1 = []) then Some (Addr6 (repeat 0 16) zone)
      else
        match parse_ipv6_loop 9 [] (if lead then Some O else None) s1 with
        | None => None
        | Some (ip, ellipsis, rest) =>
            if negb (bool_decide (rest = [])) then None
            else if (length ip <? 16)%nat then
              match ellipsis with
              | None => None
              | Some e =>
                  Some (Addr6 (take e ip ++ repeat 0 (16 - length ip) ++ drop e ip) zone)
              end
            else match ellipsis with
                 | Some _ => None
                 | None => Some (Addr6 ip zone)
                 end
        end
  end.

(** [netip.ParseAddr]: the first [.], [:] or [%] decides the parser. *)
Fixpoint parse_addr_scan (whole s : str) : option addr :=
  match s with
  | [] => None
  | c :: s' =>
      if bool_decide (c = "."%char) then parse_ipv4 whole
      else if bool_decide (c = ":"%char) then parse_ipv6 whole
      else if bool_decide (c = "%"%char) then None
      else parse_addr_scan whole s'
  end.

Definition parse_addr (s : str) : option addr := parse_addr_scan s s.

(** ** [net.ParseIP] and [IP.Equal] *)

(** [Addr.As16]: IPv4 addresses in their IPv4-mapped form. *)
Definition as16 (a : addr) : list Z :=
  match a with
  | Addr4 bs => repeat 0 10 ++ [255; 255] ++ bs
  | Addr6 bs _ => bs
  end.

Definition parse_ip (s : str) : option (list Z) :=
  match parse_addr s with
  | Some (Addr6 bs zone) => if bool_decide (zone = []) then Some bs else None
  | Some a => Some (as16 a)
  | None => None
  end.

(** [ip.Equal(x)] for a non-nil [ip] that [net.ParseIP] returned. *)
Definition ip_equal (ip : list Z) (x : option (list Z)) : bool :=
  bool_decide (x = Some ip).

(** ** Host:port strings *)

(** [net.JoinHostPort]. *)
Definition join_host_port (host port : str) : str :=
  if contains_byte host ":"%char
  then lit "[" ++ host ++ lit "]:" ++ port
  else host ++ lit ":" ++ port.

(** [net.SplitHostPort]; [None] is an error. *)
Definition split_host_port (hostport : str) : option (str * str) :=
  match last_index_byte hostport ":"%char with
  | None => None
  | Some i =>
      let port := drop (S i) hostport in
      if bool_decide (head hostport = Some "["%char) then
        match index_byte hostport "]"%char with
        | None => None
        | Some e =>
            if (S e =? length hostport)%nat then None
            else if (S e =? i)%nat then
              let host := take (e - 1) (drop 1 hostport) in
              if contains_byte (drop 1 hostport) "["%char then None
              else if contains_byte (drop (S e) hostport) "]"%char then None
              else Some (host, port)
            else None
        end
      else
        let host := take i hostport in
        if contains_byte host ":"%char then None
        else if contains_byte hostport "["%char then None
        else if contains_byte hostport "]"%char then None
        else Some (host, port)
  end.

(** [strconv.Itoa] of a non-negative number; it has at most as many decimal
    digits as bits, which bounds the recursion. *)
Fixpoint itoa_fuel (fuel : nat) (n : Z) : str :=
  match fuel with
  | O => []
  | S f => (if n <? 10 then [] else itoa_fuel f (n / 10)) ++ [byte_of (48 + n mod 10)]
  end.

Definition itoa (n : Z) : str := itoa_fuel (S (Z.to_nat (Z.log2 n))) n.

(** ** [SplitHostPort] inverts [JoinHostPort] *)

(** Free of the bytes that delimit hosts and ports. *)
Definition no_delims (s : str) : Prop := ("["%char ∉ s) /\ ("]"%char ∉ s).

#[export] Instance no_delims_dec s : Decision (no_delims s).
Proof. unfold no_delims. apply _. Defined.

Lemma contains_byte_false s c : contains_byte s c = false <-> c ∉ s.
Proof. rewrite <- not_true_iff_false, contains_byte_spec. done. Qed.

Lemma split_plain host port :
  no_delims host -> no_delims port -> ":"%char ∉ port -> ":"%char ∉ host ->
  split_host_port (host ++ ":"%char :: port) = Some (host, port).
Proof.
  intros [Hh1 Hh2] [Hp1 Hp2] Hp3 Hh3. unfold split_host_port.
  rewrite (proj2 (last_index_byte_Some _ _ (length host))) by eauto.
  rewrite bool_decide_eq_false_2.
  2: { destruct host as [|c host]; simpl; intros [=]. subst. apply Hh1, list_elem_of_here. }
  rewrite take_app_length, (proj2 (contains_byte_false _ _)) by done.
  rewrite !(proj2 (contains_byte_false (_ ++ _) _));
    try not_in.
  by rewrite <- Nat.add_1_r, <- drop_drop, drop_app_length.
Qed.

Lemma split_bracketed host port :
  no_delims host -> no_delims port -> ":"%char ∉ port ->
  split_host_port ("["%char :: host ++ "]"%char :: ":"%char :: port) = Some (host, port).
Proof.
  intros [Hh1 Hh2] [Hp1 Hp2] Hp3. unfold split_host_port.
  rewrite (proj2 (last_index_byte_Some _ _ (length host + 2))).
  2: { exists ("["%char :: host ++ ["]"%char]), port. simpl. rewrite <- app_assoc.
       split; [done|]. split; [done|]. rewrite length_app. simpl. lia. }
  rewrite (proj2 (index_byte_Some _ "]"%char (S (length host)))).
  2: { exists ("["%char :: host), (":"%char :: port). by rewrite not_elem_of_cons. }
  rewrite bool_decide_eq_true_2 by done. simpl length. rewrite length_app. simpl length.
  rewrite (proj2 (Nat.eqb_neq _ _)), (proj2 (Nat.eqb_eq (S (S (length host))) _)) by lia.
  replace (drop 1 ("["%char :: host ++ "]"%char :: ":"%char :: port))
    with (host ++ "]"%char :: ":"%char :: port) by done.
  rewrite (proj2 (contains_byte_false (host ++ _) _)) by not_in.
  replace (drop (S (S (length host))) _) with (":"%char :: port).
  2: { simpl. rewrite <- Nat.add_1_r, <- drop_drop, drop_app_length. done. }
  rewrite (proj2 (contains_byte_false _ _)) by not_in.
  simpl. rewrite Nat.sub_0_r, take_app_length.
  by rewrite <- drop_drop, drop_app_length.
Qed.

(** [SplitHostPort] recovers what [JoinHostPort] was given. *)
Lemma split_join_host_port host port :
  no_delims host -> no_delims port -> ":"%char ∉ port ->
  split_host_port (join_host_port host port) = Some (host, port).
Proof.
  intros Hh Hp Hp3. unfold join_host_port.
  destruct (contains_byte host ":"%char) eqn:Hc.
  - by apply split_bracketed.
  - apply split_plain; try done. by apply contains_byte_false.
Qed.

(** ** Decimal numbers contain digits only *)

Lemma itoa_fuel_digits f n c : c ∈ itoa_fuel f n -> is_digit c = true.
Proof.
  revert n. induction f as [|f IH]; intros n; simpl; [by intros ?%not_elem_of_nil|].
  rewrite elem_of_app, list_elem_of_singleton. intros [H | ->].
  - destruct (n <? 10); [by apply not_elem_of_nil in H | eauto].
  - unfold is_digit. pose proof (Z.mod_pos_bound n 10 eq_refl).
    rewrite bval_byte_of, Z.mod_small by lia. apply in_range_spec. lia.
Qed.

Lemma itoa_no_delims n : no_delims (itoa n) /\ ":"%char ∉ itoa n.
Proof. by repeat split; intros H%itoa_fuel_digits. Qed.
