(* ===== verification/GoParse.v ===== *)
(** * Parsing and printing of numbers, durations and addresses

    What the Corefile parsers use of [strconv], [time] and [net/netip]:
    [strconv.Atoi], [time.ParseDuration] with its overflow checks and its
    [float64] fractions, and [Addr.String]. *)

From Stdlib Require Import Lia ZArith Ascii.
From stdpp Require Import base strings option numbers list.
From S2P Require Import Prelude GoStrings GoTime Netip.

Local Open Scope Z_scope.

(** ** [strconv.Atoi] *)

Definition digit_value (c : ascii) : Z := bval c - 48.

(** Decimal digits, all of them; [None] on another byte. *)
Fixpoint digits_value (s : str) (acc : Z) : option Z :=
  match s with
  | [] => Some acc
  | c :: s => if is_digit c then digits_value s (10 * acc + digit_value c) else None
  end.

Definition Atoi (s : str) : option Z :=
  let '(neg, digits) :=
    match s with
    | c :: s' => if bool_decide (c = "-"%char) then (true, s')
                 else if bool_decide (c = "+"%char) then (false, s') else (false, s)
    | [] => (false, [])
    end in
  match digits with
  | [] => None
  | _ =>
      match digits_value digits 0 with
      | None => None
      | Some n =>
          let n := if neg : bool then - n else n in
          if (- 2 ^ 63 <=? n) && (n <? 2 ^ 63) then Some n else None
      end
  end.

(** ** [time.ParseDuration] *)

(** [leadingInt]: the digits in front, and the rest; [None] on overflow. *)
Fixpoint leadingInt (s : str) (x : Z) : option (Z * str) :=
  match s with
  | c :: s' =>
      if is_digit c then
        if 2 ^ 63 / 10 <? x then None
        else
          let x := x * 10 + digit_value c in
          if 2 ^ 63 <? x then None else leadingInt s' x
      else Some (x, s)
  | [] => Some (x, [])
  end.

(** [leadingFraction]: the digits as far as they fit, their scale, the rest. *)
Fixpoint leadingFraction (s : str) (x scale : Z) (overflow : bool) : Z * Z * str :=
  match s with
  | c :: s' =>
      if is_digit c then
        if overflow then leadingFraction s' x scale true
        else if (2 ^ 63 - 1) / 10 <? x then leadingFraction s' x scale true
        else
          let y := x * 10 + digit_value c in
          if 2 ^ 63 <? y then leadingFraction s' x scale true
          else leadingFraction s' y (scale * 10) false
      else (x, scale, s)
  | [] => (x, scale, [])
  end.

(** The unit: everything up to a digit or a dot. *)
Fixpoint leading_unit (s : str) : str * str :=
  match s with
  | c :: s' =>
      if bool_decide (c = "."%char) || is_digit c then ([], s)
      else let '(u, rest) := leading_unit s' in (c :: u, rest)
  | [] => ([], [])
  end.

(** [unitMap], with both spellings of micro in UTF-8. *)
Definition unit_of (u : str) : option Z :=
  if bool_decide (u = lit "ns") then Some Nanosecond
  else if bool_decide (u ∈ [lit "us"; [byte_of 0xC2; byte_of 0xB5; "s"%char];
                            [byte_of 0xCE; byte_of 0xBC; "s"%char]]) then Some 1000
  else if bool_decide (u = lit "ms") then Some Millisecond
  else if bool_decide (u = lit "s") then Some Second
  else if bool_decide (u = lit "m") then Some (60 * Second)
  else if bool_decide (u = lit "h") then Some (3600 * Second)
  else None.

(** The [float64] nearest to [n / d], as a numerator and a power of two. *)
Definition float_div (n d : Z) : Z * Z :=
  let k := Z.max 0 (55 + Z.log2 d - Z.log2 n) in (float53 (n * 2 ^ k) d, 2 ^ k).

(** [uint64(float64(f) * (float64(unit) / scale))]. *)
Definition fraction_ns (f unit scale : Z) : Z :=
  let '(qn, qd) := float_div unit scale in
  let '(pn, pd) := float_div (float53 f 1 * qn) qd in
  pn / pd.

(** The loop over number-unit pairs; each consumes a byte, so the length of the
    string is enough fuel. *)
Fixpoint duration_loop (fuel : nat) (s : str) (d : Z) : option Z :=
  match fuel, s with
  | _, [] => Some d
  | O, _ => None
  | S fuel, c :: _ =>
      if negb (bool_decide (c = "."%char) || is_digit c) then None
      else
        match leadingInt s 0 with
        | None => None
        | Some (v, s1) =>
            let pre := negb (length s1 =? length s)%nat in
            let '(f, scale, s2, post) :=
              match s1 with
              | c1 :: s1' =>
                  if bool_decide (c1 = "."%char) then
                    let '(f, scale, s2) := leadingFraction s1' 0 1 false in
                    (f, scale, s2, negb (length s2 =? length s1')%nat)
                  else (0, 1, s1, false)
              | [] => (0, 1, s1, false)
              end in
            if negb pre && negb post then None
            else
              let '(u, s3) := leading_unit s2 in
              match unit_of u with
              | None => None
              | Some unit =>
                  if 2 ^ 63 / unit <? v then None
                  else
                    let v := v * unit + (if 0 <? f then fraction_ns f unit scale else 0) in
                    if 2 ^ 63 <? v then None
                    else if 2 ^ 63 <? d + v then None
                    else duration_loop fuel s3 (d + v)
              end
        end
  end.

Definition ParseDuration (s : str) : option Z :=
  let '(neg, s) :=
    match s with
    | c :: s' => if bool_decide (c = "-"%char) then (true, s')
                 else if bool_decide (c = "+"%char) then (false, s') else (false, s)
    | [] => (false, [])
    end in
  if bool_decide (s = lit "0") then Some 0
  else if bool_decide (s = []) then None
  else
    match duration_loop (length s) s 0 with
    | None => None
    | Some d => if neg : bool then Some (- d) else if 2 ^ 63 - 1 <? d then None else Some d
    end.

(** ** [Addr.String] *)

Definition hex_digit (z : Z) : ascii := byte_of (if z <? 10 then 48 + z else 87 + z).

(** A 16-bit group without leading zeros. *)
Definition hex16 (z : Z) : str :=
  let ds := map hex_digit [z / 4096; (z / 256) mod 16; (z / 16) mod 16; z mod 16] in
  if z <? 16 then drop 3 ds else if z <? 256 then drop 2 ds else if z <? 4096 then drop 1 ds else ds.

Fixpoint groups (bs : list Z) : list Z :=
  match bs with
  | a :: b :: bs => a * 256 + b :: groups bs
  | _ => []
  end.

Fixpoint zero_run (gs : list Z) : nat :=
  match gs with
  | g :: gs => if g =? 0 then S (zero_run gs) else O
  | [] => O
  end.

(** The first longest run of at least two zero groups: start and length. *)
Fixpoint longest_run (i : nat) (gs : list Z) (best : nat * nat) : nat * nat :=
  match gs with
  | [] => best
  | _ :: gs' =>
      let l := zero_run gs in
      longest_run (S i) gs' (if (2 <=? l)%nat && (snd best <? l)%nat then (i, l) else best)
  end.

Definition addr_string (a : addr) : str :=
  match a with
  | Addr4 bs => join "."%char (map itoa bs)
  | Addr6 bs zone =>
      let body :=
        if bool_decide (take 12 bs = repeat 0 10 ++ [255; 255]) then
          lit "::ffff:" ++ join "."%char (map itoa (drop 12 bs))
        else
          let gs := groups bs in
          let '(start, len) := longest_run 0 gs (O, O) in
          if (len =? 0)%nat then join ":"%char (map hex16 gs)
          else join ":"%char (map hex16 (take start gs)) ++ lit "::" ++
               join ":"%char (map hex16 (drop (start + len) gs)) in
      body ++ (if bool_decide (zone = []) then [] else "%"%char :: zone)
  end.

(** ** Examples *)

Example atoi_examples :
  map Atoi [lit "8053"; lit "+53"; lit "-1"; lit ""; lit "5x"; lit "9223372036854775808"]
  = [Some 8053; Some 53; Some (-1); None; None; None].
Proof. by vm_compute. Qed.

Example duration_examples :
  map ParseDuration [lit "24h"; lit "1h30m"; lit "1.5s"; lit "500ms"; lit "-5s"; lit "0"; lit "sometimes"; lit "10"; lit ""]
  = [Some (24 * 3600 * Second); Some (5400 * Second); Some 1500000000; Some (500 * Millisecond);
     Some (-5 * Second); Some 0; None; None; None].
Proof. by vm_compute. Qed.

Example addr_string_examples :
  map (fun s => addr_string <$> parse_addr s)
    [lit "9.9.9.9"; lit "2606:4700:4700:0:0:0:0:1111"; lit "::"; lit "1:0:0:2:0:0:0:3"; lit "::ffff:1.2.3.4"; lit "fe80::1%eth0"]
  = [Some (lit "9.9.9.9"); Some (lit "2606:4700:4700::1111"); Some (lit "::"); Some (lit "1:0:0:2::3");
     Some (lit "::ffff:1.2.3.4"); Some (lit "fe80::1%eth0")].
Proof. by vm_compute. Qed.
