(* ===== verification/BlocklistParse.v ===== *)
(** * The blocklist parser ([plugin/blocklist/parse.go])

    [parseList] reads a downloaded list line by line and returns the domains it
    names, in /etc/hosts or bare-domain format.  The file models the line
    scanner with its token limit, the per-line format detection,
    [normalizeEntry], [isDomainName] and [isIP], and shows that what comes out
    is always a valid, canonical query name, that canonical names survive a
    second normalisation, and that both list formats are read back exactly. *)

From Stdlib Require Import Lia ZArith Ascii.
From stdpp Require Import base list strings gmap sorting numbers option.
From S2P Require Import Prelude GoStrings Netip.

Local Open Scope Z_scope.

(** ** Entries *)

(** [localNames], the pseudo-hosts of an /etc/hosts preamble. *)
Definition localNames : list str :=
  [ lit "localhost"; lit "localhost.localdomain"; lit "local"; lit "broadcasthost";
    lit "ip6-localhost"; lit "ip6-loopback"; lit "ip6-localnet"; lit "ip6-mcastprefix";
    lit "ip6-allnodes"; lit "ip6-allrouters"; lit "ip6-allhosts" ].

(** The bytes [isDomainName] allows inside a label. *)
Definition label_byte (c : ascii) : bool :=
  in_range 97 122 (bval c) || in_range 48 57 (bval c)
  || bool_decide (c = "-"%char) || bool_decide (c = "_"%char).

(** The loop of [isDomainName], with the length of the current label. *)
Fixpoint isDomainName_loop (s : str) (labelLen : Z) : bool :=
  match s with
  | [] => 0 <? labelLen
  | c :: s' =>
      if bool_decide (c = "."%char) then
        if labelLen =? 0 then false else isDomainName_loop s' 0
      else if label_byte c then
        let labelLen := labelLen + 1 in
        if 63 <? labelLen then false else isDomainName_loop s' labelLen
      else false
  end.

Definition isDomainName (s : str) : bool :=
  if 253 <? Z.of_nat (length s) then false else isDomainName_loop s 0.

(** [isIP]: an IP literal, ignoring everything from a [%] on. *)
Definition isIP (s : str) : bool :=
  let s := match index_byte s "%"%char with Some i => take i s | None => s end in
  bool_decide (is_Some (parse_addr s)).

Section Parser.
Context {UC : UnicodeCase}.

(** [normalizeEntry]; [None] is the result [("", false)]. *)
Definition normalizeEntry (raw : str) : option str :=
  let s := to_lower (trim_space raw) in
  let s := trim_suffix s (lit ".") in
  let s := trim_prefix s (lit "*.") in
  let s := trim_prefix s (lit ".") in
  if bool_decide (s = []) || isIP s || negb (contains_byte s "."%char)
     || negb (isDomainName s)
  then None
  else if bool_decide (s ∈ localNames) then None
  else Some s.

(** ** Lines *)

(** The candidates of one line: its comment and surrounding space removed, an
    IP-led line names every later field, a one-field line names itself. *)
Definition line_candidates (line : str) : list str :=
  let line := match index_byte line "#"%char with Some i => take i line | None => line end in
  let line := trim_space line in
  if bool_decide (line = []) then []
  else
    let fs := fields line in
    if (2 <=? length fs)%nat && isIP (default [] (fs !! 0%nat)) then drop 1 fs
    else if (length fs =? 1)%nat then fs
    else [].

Definition parse_line (line : str) : list str := omap normalizeEntry (line_candidates line).

(** [bufio.ScanLines]' removal of a trailing carriage return. *)
Definition drop_cr (line : str) : str := trim_suffix line ["013"%char].

(** A body as the scanner meets it: its bytes, then EOF or a read error. *)
Record reader := Reader { r_bytes : str; r_err : option string }.

Inductive scan_error : Type :=
| ErrTooLong
| ErrRead (e : string).

(** The scanner's tokens and how it stopped.  [cur] holds the current line
    backwards and [n] its length.  A line that fills the buffer of [max] bytes
    without a newline stops the scan with [ErrTooLong]; at the end of the data
    a non-empty rest is a last line, after a read error too. *)
Fixpoint scan_lines (max : Z) (s cur : str) (n : Z) : list str * bool :=
  match s with
  | [] => (if bool_decide (cur = []) then [] else [drop_cr (rev cur)], false)
  | c :: s' =>
      if bool_decide (c = "010"%char) then
        let '(lines, long) := scan_lines max s' [] 0 in
        (drop_cr (rev cur) :: lines, long)
      else if max <=? n + 1 then ([], true)
      else scan_lines max s' (c :: cur) (n + 1)
  end.

Definition max_line : Z := 1024 * 1024.

(** [parseList]: the names of all lines, unless the scanner failed. *)
Definition parseList (r : reader) : result scan_error (list str) :=
  let '(lines, long) := scan_lines max_line (r_bytes r) [] 0 in
  let out := concat (map parse_line lines) in
  if long then Err ErrTooLong
  else match r_err r with
       | Some e => Err (ErrRead e)
       | None => Ok out
       end.

End Parser.

(** ** What a blockable domain is *)

(** The dot-separated labels of a name. *)
Fixpoint labels_aux (s cur : str) : list str :=
  match s with
  | [] => [cur]
  | c :: s' =>
      if bool_decide (c = "."%char) then cur :: labels_aux s' []
      else labels_aux s' (cur ++ [c])
  end.

Definition labels (s : str) : list str := labels_aux s [].

Definition label_ok (l : str) : Prop :=
  (1 <= length l <= 63)%nat /\ Forall (fun c => label_byte c = true) l.

(** The specification of [isDomainName]. *)
Definition domain_name (s : str) : Prop :=
  (length s <= 253)%nat /\ Forall label_ok (labels s).

(** The specification of the names [normalizeEntry] returns. *)
Definition blockable (s : str) : Prop :=
  domain_name s /\ ("."%char ∈ s) /\ isIP s = false /\ s ∉ localNames.

(** ** Bytes of domain names *)

Lemma label_byte_facts c :
  label_byte c = true ->
  is_ascii c = true /\ is_space_byte c = false /\ lower_byte c = c /\
  bool_decide (c = "."%char) = false /\ c ∉ [ "*"; "#"; "%"; "010"; "013" ]%char.
Proof.
  intros H. rewrite !not_elem_of_cons.
  revert H. by destruct c as [[] [] [] [] [] [] [] []]; vm_compute; intros [=];
    repeat split; try apply not_elem_of_nil.
Qed.

(** The bytes of a domain name: those of its labels, and the dots. *)
Definition domain_byte (c : ascii) : bool := bool_decide (c = "."%char) || label_byte c.

Lemma domain_byte_facts c :
  domain_byte c = true ->
  is_ascii c = true /\ is_space_byte c = false /\ lower_byte c = c /\
  c ∉ [ "*"; "#"; "%"; "010"; "013" ]%char.
Proof.
  unfold domain_byte. intros [->%bool_decide_eq_true | H%label_byte_facts]%orb_true_iff.
  - rewrite !not_elem_of_cons. by repeat split; try apply not_elem_of_nil.
  - tauto.
Qed.

Lemma isDomainName_loop_bytes s n :
  isDomainName_loop s n = true -> Forall (fun c => domain_byte c = true) s.
Proof.
  revert n. induction s as [|c s IH]; intros n; simpl; [done|].
  intros H. constructor.
  - unfold domain_byte. case_bool_decide; [done|]. simpl. by destruct (label_byte c).
  - case_bool_decide; [|destruct (label_byte c); [|done]];
      (break_if; [done|]); eauto.
Qed.

Lemma isDomainName_loop_trailing_dot s n :
  isDomainName_loop (s ++ ["."%char]) n = false.
Proof.
  revert n. induction s as [|c s IH]; intros n; simpl.
  - by destruct (n =? 0).
  - case_bool_decide; [|destruct (label_byte c); [|done]]; by break_if.
Qed.

(** ** [isDomainName] meets its specification *)

Lemma labels_aux_head s cur : exists t rest, labels_aux s cur = (cur ++ t) :: rest.
Proof.
  revert cur. induction s as [|c s IH]; intros cur; simpl.
  - exists [], []. by rewrite app_nil_r.
  - case_bool_decide.
    + exists [], (labels_aux s []). by rewrite app_nil_r.
    + destruct (IH (cur ++ [c])) as (t & rest & ->).
      exists (c :: t), rest. by rewrite <- app_assoc.
Qed.

Lemma isDomainName_loop_spec s cur :
  (length cur <= 63)%nat -> Forall (fun c => label_byte c = true) cur ->
  isDomainName_loop s (Z.of_nat (length cur)) = true <-> Forall label_ok (labels_aux s cur).
Proof.
  revert cur. induction s as [|c s IH]; intros cur Hlen Hcur; simpl.
  - rewrite Forall_singleton, Z.ltb_lt. unfold label_ok. split; [split; [lia|done] | lia].
  - case_bool_decide as Hc.
    + rewrite Forall_cons_iff. destruct (Z.eqb_spec (Z.of_nat (length cur)) 0) as [H0|H0].
      * split; [done|]. intros [[H _] _]. lia.
      * specialize (IH [] ltac:(simpl; lia) ltac:(done)). simpl in IH. rewrite IH.
        unfold label_ok. split; [intros; split; [split; [lia|]|]; done | tauto].
    + destruct (labels_aux_head s (cur ++ [c])) as (t & rest & Et).
      destruct (label_byte c) eqn:Ec.
      * destruct (Z.ltb_spec 63 (Z.of_nat (length cur) + 1)) as [H63|H63].
        { split; [done|]. rewrite Et, Forall_cons_iff. intros [[H _] _].
          rewrite !length_app in H. simpl in H. lia. }
        rewrite <- IH.
        { rewrite length_app. simpl. by rewrite Nat2Z.inj_add. }
        { rewrite length_app. simpl. lia. }
        { apply Forall_app. by rewrite Forall_singleton. }
      * split; [done|]. rewrite Et, Forall_cons_iff. intros [[_ H] _].
        rewrite !Forall_app, Forall_singleton in H. destruct H as [[_ H] _]. congruence.
Qed.

Lemma isDomainName_domain_name s : isDomainName s = true <-> domain_name s.
Proof.
  unfold isDomainName, domain_name, labels.
  rewrite <- (isDomainName_loop_spec s []) by (simpl; done || lia).
  destruct (Z.ltb_spec 253 (Z.of_nat (length s))); simpl; intuition lia.
Qed.

Lemma domain_name_bytes s : domain_name s -> Forall (fun c => domain_byte c = true) s.
Proof.
  rewrite <- isDomainName_domain_name. unfold isDomainName.
  destruct (_ <? _); [done|]. apply isDomainName_loop_bytes.
Qed.

Lemma domain_name_no_trailing_dot s : ~ domain_name (s ++ ["."%char]).
Proof.
  rewrite <- isDomainName_domain_name. unfold isDomainName.
  destruct (_ <? _); [done|]. by rewrite isDomainName_loop_trailing_dot.
Qed.

Lemma domain_name_no_leading_dot s : ~ domain_name ("."%char :: s).
Proof.
  rewrite <- isDomainName_domain_name. unfold isDomainName. by destruct (_ <? _).
Qed.

#[export] Instance blockable_dec s : Decision (blockable s).
Proof.
  refine (cast_if (decide (isDomainName s = true /\ contains_byte s "."%char = true /\
    isIP s = false /\ s ∉ localNames))).
  all: unfold blockable; by rewrite <- isDomainName_domain_name, <- contains_byte_spec.
Defined.

#[export] Hint Resolve domain_name_bytes : go.

(** ** [normalizeEntry] returns blockable names, and only canonical ones *)

Section Entries.
Context {UC : UnicodeCase}.

Lemma normalizeEntry_blockable raw s : normalizeEntry raw = Some s -> blockable s.
Proof.
  unfold normalizeEntry.
  generalize (trim_prefix (trim_prefix (trim_suffix (to_lower (trim_space raw)) (lit "."))
    (lit "*.")) (lit ".")).
  intros t. destruct (_ || _ || _ || _) eqn:E; [done|].
  destruct (bool_decide (t ∈ localNames)) eqn:Hl; [done|]. intros [= ->].
  bprop. split; [by apply isDomainName_domain_name|].
  split; [by apply contains_byte_spec | done].
Qed.

Lemma blockable_normalized s :
  blockable s ->
  (bool_decide (s = []) || isIP s || negb (contains_byte s "."%char)
     || negb (isDomainName s)) = false /\ bool_decide (s ∈ localNames) = false.
Proof.
  intros (Hd & Hdot & Hip & Hl). rewrite Hip.
  apply isDomainName_domain_name in Hd. rewrite Hd.
  apply contains_byte_spec in Hdot as Hc. rewrite Hc.
  rewrite !bool_decide_eq_false_2; [done|done|]. intros ->. by apply not_elem_of_nil in Hdot.
Qed.

(** The decorations [normalizeEntry] removes around a name. *)
Definition prefixes : list str := [ []; lit "."; lit "*." ].
Definition suffixes : list str := [ []; lit "." ].

(** [raw] spells [s]: up to ASCII case, an optional leading ["."] or ["*."] and
    an optional trailing dot. *)
Definition spells (raw s : str) : Prop :=
  blockable s /\
  exists p q, p ∈ prefixes /\ q ∈ suffixes /\ map lower_byte raw = p ++ s ++ q.

Lemma lower_byte_nonspace c :
  nonspace_ascii (lower_byte c) -> lower_byte c <> "#"%char -> nonspace_ascii c /\ c <> "#"%char.
Proof.
  unfold nonspace_ascii. destruct c as [[] [] [] [] [] [] [] []]; vm_compute; intuition discriminate.
Qed.

Lemma spells_bytes raw s :
  spells raw s -> Forall (fun c => nonspace_ascii c /\ c <> "#"%char) raw /\ raw <> [].
Proof.
  intros [(Hd & Hdot & _) (p & q & Hp & Hq & E)].
  assert (Forall (fun c => nonspace_ascii c /\ c <> "#"%char) (p ++ s ++ q)) as H.
  { rewrite !Forall_app. split; [|split].
    - unfold prefixes in Hp. rewrite !elem_of_cons in Hp.
      destruct Hp as [->|[->|[->|Hp]]]; [..|by apply not_elem_of_nil in Hp]; by repeat constructor.
    - generalize (domain_name_bytes s Hd). apply Forall_impl. intros c Hc%domain_byte_facts.
      rewrite !not_elem_of_cons in Hc. unfold nonspace_ascii. tauto.
    - unfold suffixes in Hq. rewrite !elem_of_cons in Hq.
      destruct Hq as [->|[->|Hq]]; [..|by apply not_elem_of_nil in Hq]; by repeat constructor. }
  rewrite <- E in H. split.
  - apply List.Forall_map in H. revert H. apply Forall_impl. intros c [H1 H2].
    by apply lower_byte_nonspace.
  - intros ->. destruct s as [|c s]; [by apply not_elem_of_nil in Hdot|].
    simpl in E. by destruct p.
Qed.

Lemma spells_token raw s : spells raw s -> token raw.
Proof.
  intros [H Hne]%spells_bytes. split; [done|]. revert H. apply Forall_impl. tauto.
Qed.

Lemma trim_dot_suffix p q s :
  domain_name s -> s <> [] -> q ∈ suffixes -> trim_suffix (p ++ s ++ q) (lit ".") = p ++ s.
Proof.
  intros Hd Hs Hq. unfold suffixes in Hq. rewrite !elem_of_cons in Hq.
  destruct Hq as [->|[->|Hq]]; [| |by apply not_elem_of_nil in Hq].
  - rewrite app_nil_r. destruct (trim_suffix_cases (lit ".") (p ++ s)) as [(t & E & _)|[-> _]]; [|done].
    exfalso. destruct (exists_last Hs) as (u & c & ->).
    rewrite app_assoc in E. apply app_inj_tail in E as [_ ->].
    by apply domain_name_no_trailing_dot in Hd.
  - rewrite app_assoc. apply trim_suffix_app.
Qed.

Lemma trim_prefix_other s c p : c ∉ s -> trim_prefix s (c :: p) = s.
Proof.
  intros Hc. destruct (trim_prefix_cases (c :: p) s) as [(t & -> & _)|[-> _]]; [|done].
  destruct Hc. apply list_elem_of_here.
Qed.

Lemma trim_decorations p s :
  domain_name s -> p ∈ prefixes -> trim_prefix (trim_prefix (p ++ s) (lit "*.")) (lit ".") = s.
Proof.
  intros Hd Hp. assert ("*"%char ∉ s) as Hstar.
  { intros Hin%list_elem_of_In. apply domain_name_bytes in Hd.
    rewrite Forall_forall in Hd. by apply Hd in Hin. }
  assert (trim_prefix s (lit ".") = s) as Hdot.
  { destruct (trim_prefix_cases (lit ".") s) as [(t & -> & _)|[-> _]]; [|done].
    by apply domain_name_no_leading_dot in Hd. }
  unfold prefixes in Hp. rewrite !elem_of_cons in Hp.
  destruct Hp as [->|[->|[->|Hp]]]; [| | |by apply not_elem_of_nil in Hp].
  - change (lit "*.") with ("*"%char :: lit "."). by rewrite trim_prefix_other.
  - change (trim_prefix (lit "." ++ s) (lit "*.")) with (lit "." ++ s). apply trim_prefix_app.
  - by rewrite trim_prefix_app.
Qed.

Lemma normalizeEntry_spells raw s : spells raw s -> normalizeEntry raw = Some s.
Proof.
  intros Hsp. pose proof (spells_token raw s Hsp) as Htok.
  destruct (token_parts raw Htok) as [Ha _]. destruct Hsp as [Hb (p & q & Hp & Hq & E)].
  destruct (blockable_normalized s Hb) as [E1 E2]. destruct Hb as (Hd & Hdot & _).
  unfold normalizeEntry. rewrite trim_space_token, to_lower_ascii, E by done.
  rewrite trim_dot_suffix, trim_decorations, E1, E2; try done.
  intros ->. by apply not_elem_of_nil in Hdot.
Qed.

Lemma lower_domain s : domain_name s -> map lower_byte s = s.
Proof.
  intros Hd%domain_name_bytes. induction Hd as [|c s Hc Hs IH]; [done|]. simpl. rewrite IH.
  f_equal. by apply domain_byte_facts in Hc as (_ & _ & ? & _).
Qed.

Lemma spells_self s : blockable s -> spells s s.
Proof.
  intros Hb. split; [done|]. exists [], [].
  rewrite app_nil_r, lower_domain by apply Hb. repeat split; constructor.
Qed.

End Entries.

(** ** Writing lists down *)

(** A line as a publisher writes it: its fields, the byte between them, an
    optional comment and an optional carriage return. *)
Record list_line := ListLine {
  ll_fields : list str;
  ll_sep : ascii;
  ll_comment : option str;
  ll_cr : bool;
}.

Definition render_line (l : list_line) : str :=
  join (ll_sep l) (ll_fields l)
  ++ match ll_comment l with Some c => "#"%char :: c | None => [] end
  ++ (if ll_cr l then ["013"%char] else []).

Definition render_list (ls : list list_line) : str :=
  concat (map (fun l => render_line l ++ ["010"%char]) ls).

(** The two formats and blank lines, with the names a line stands for. *)
Inductive line_names `{UC : UnicodeCase} : list str -> list str -> Prop :=
| ln_blank : line_names [] []
| ln_bare raw s : spells raw s -> line_names [raw] [s]
| ln_hosts ip raws ss :
    token ip -> ("#"%char ∉ ip) -> isIP ip = true ->
    Forall2 spells raws ss -> raws <> [] -> line_names (ip :: raws) ss.

(** A line that fits the scanner's buffer and contains no line feed. *)
Definition line_wf (l : list_line) : Prop :=
  sep_byte (ll_sep l) /\ (ll_sep l <> "#"%char) /\ ("010"%char ∉ render_line l) /\
  Z.of_nat (length (render_line l)) < max_line.

Section Lists.
Context {UC : UnicodeCase}.

(** ** The scanner *)

Lemma scan_lines_line max line rest cur n :
  "010"%char ∉ line -> n + Z.of_nat (length line) < max ->
  scan_lines max (line ++ "010"%char :: rest) cur n =
  let '(lines, long) := scan_lines max rest [] 0 in
  (drop_cr (rev cur ++ line) :: lines, long).
Proof.
  revert cur n. induction line as [|c line IH]; intros cur n Hc Hn; simpl.
  - by rewrite app_nil_r.
  - apply not_elem_of_cons in Hc as [Hc Hl]. rewrite bool_decide_eq_false_2 by congruence.
    simpl in Hn. destruct (Z.leb_spec max (n + 1)); [lia|].
    rewrite IH by (done || lia). simpl. by rewrite <- app_assoc.
Qed.

Lemma scan_lines_render ls :
  Forall line_wf ls ->
  scan_lines max_line (render_list ls) [] 0 =
  (map (fun l => drop_cr (render_line l)) ls, false).
Proof.
  induction 1 as [|l ls (_ & _ & Hnl & Hlen) Hls IH]; [done|].
  unfold render_list in *. cbn [map concat]. rewrite <- app_assoc. simpl app.
  rewrite scan_lines_line by (done || lia). by rewrite IH.
Qed.

(** ** Lines are read back *)

Lemma elem_of_join sep l c : c ∈ join sep l -> c = sep \/ exists s, s ∈ l /\ c ∈ s.
Proof.
  induction l as [|s l IH]; [by intros ?%not_elem_of_nil|].
  destruct l as [|s' l].
  - simpl. intros Hc. right. exists s. split; [apply list_elem_of_here | done].
  - change (join sep (s :: s' :: l)) with (s ++ sep :: join sep (s' :: l)).
    rewrite elem_of_app, elem_of_cons. intros [Hc|[->|Hc]]; [| by left |].
    + right. exists s. split; [apply list_elem_of_here | done].
    + destruct (IH Hc) as [->|(t & Ht & Hct)]; [by left|].
      right. exists t. split; [by apply list_elem_of_further | done].
Qed.

Lemma line_names_tokens fs ss :
  line_names fs ss -> Forall (fun s => token s /\ "#"%char ∉ s) fs.
Proof.
  assert (forall raw s, spells raw s -> token raw /\ "#"%char ∉ raw) as Hsp.
  { intros raw s Hs. split; [by eapply spells_token|].
    apply spells_bytes in Hs as [Hs _]. intros Hin%list_elem_of_In.
    rewrite Forall_forall in Hs. by apply Hs in Hin as [_ ?]. }
  intros [|raw s Hs|ip raws ss' Ht Hh _ H2 _]; [done| constructor; eauto |].
  constructor; [done|]. induction H2; constructor; eauto.
Qed.

Lemma drop_cr_app u v : exists v', drop_cr (u ++ "#"%char :: v) = u ++ "#"%char :: v'.
Proof.
  unfold drop_cr.
  destruct (trim_suffix_cases ["013"%char] (u ++ "#"%char :: v)) as [(t & E & ->)|[-> _]]; [|eauto].
  destruct v as [|c v] using rev_ind.
  - apply app_inj_tail in E as [_ [=]].
  - rewrite app_comm_cons, app_assoc in E. apply app_inj_tail in E as [<- _]. eauto.
Qed.

Lemma drop_cr_join sep l : Forall token l -> drop_cr (join sep l) = join sep l.
Proof.
  intros Hl. unfold drop_cr.
  destruct (trim_suffix_cases ["013"%char] (join sep l)) as [(t & E & _)|[-> _]]; [|done].
  destruct (decide (l = [])) as [->|Hne]; [by destruct t|].
  destruct (join_ends sep l Hl Hne) as (c & s & d & u & E' & Eu & _ & [_ Hd]).
  rewrite E, Eu in E'. apply app_inj_tail in E' as [_ <-]. done.
Qed.

(** Cutting the comment and the carriage return leaves the fields. *)
Lemma line_content l :
  Forall (fun s => token s /\ "#"%char ∉ s) (ll_fields l) -> line_wf l ->
  let line := drop_cr (render_line l) in
  trim_space (match index_byte line "#"%char with Some i => take i line | None => line end)
  = join (ll_sep l) (ll_fields l).
Proof.
  intros Hf (Hsep & Hsh & _). cbn zeta. unfold render_line.
  set (body := join (ll_sep l) (ll_fields l)).
  assert (Forall token (ll_fields l)) as Htok.
  { revert Hf. apply Forall_impl. by intros s [? _]. }
  assert (trim_space body = body) as Htrim by (by apply trim_space_join).
  assert ("#"%char ∉ body) as Hbody.
  { intros [E|(s & Hs & Hc)]%elem_of_join; [congruence|].
    apply list_elem_of_In in Hs. rewrite Forall_forall in Hf. by apply Hf in Hs as [_ ?]. }
  destruct (ll_comment l) as [c|].
  - simpl app. destruct (drop_cr_app body (c ++ if ll_cr l then ["013"%char] else [])) as (v & ->).
    rewrite (proj2 (index_byte_Some _ _ (length body))) by eauto.
    by rewrite take_app_length.
  - simpl app. assert (drop_cr (body ++ if ll_cr l then ["013"%char] else []) = body) as ->.
    { destruct (ll_cr l); [apply trim_suffix_app|]. rewrite app_nil_r. by apply drop_cr_join. }
    by rewrite (proj2 (index_byte_None _ _)).
Qed.

Lemma omap_spells raws ss : Forall2 spells raws ss -> omap normalizeEntry raws = ss.
Proof.
  induction 1 as [|raw s raws ss H _ IH]; [done|].
  by rewrite (omap_cons_Some _ _ s), IH by (by apply normalizeEntry_spells).
Qed.

Lemma parse_line_names l ss :
  line_names (ll_fields l) ss -> line_wf l -> parse_line (drop_cr (render_line l)) = ss.
Proof.
  intros Hn Hwf. pose proof (line_names_tokens _ _ Hn) as Hf.
  unfold parse_line, line_candidates. rewrite line_content by done.
  assert (Forall token (ll_fields l)) as Htok.
  { revert Hf. apply Forall_impl. by intros s [? _]. }
  rewrite fields_join by (done || apply Hwf).
  inversion Hn as [Ef Es | raw s Hs Ef Es | ip raws ss' Ht Hh Hip H2 Hne Ef Es]; subst; clear Hn.
  - done.
  - simpl. rewrite bool_decide_eq_false_2 by (by apply spells_token in Hs as [? _]).
    cbn -[omap]. by rewrite (omap_cons_Some _ _ s) by (by apply normalizeEntry_spells).
  - rewrite bool_decide_eq_false_2.
    2: { rewrite <- Ef in Htok. destruct (join_ends (ll_sep l) _ Htok) as (? & ? & ? & ? & -> & _); done. }
    destruct H2 as [|raw s raws ss Hs H2]; [done|]. cbn -[omap]. rewrite Hip.
    cbn -[omap]. apply omap_spells. by constructor.
Qed.

(** *** Errors of the scanner *)

(** The pieces of a body between line feeds. *)
Fixpoint split_lf (s cur : str) : list str :=
  match s with
  | [] => [cur]
  | c :: s' => if bool_decide (c = "010"%char) then cur :: split_lf s' []
               else split_lf s' (cur ++ [c])
  end.

Lemma concat_map_ext2 {A B} (R : A -> list B -> Prop) (f : A -> list B) l bs :
  Forall2 R l bs -> (forall x y, R x y -> f x = y) -> concat (map f l) = concat bs.
Proof. intros H Hf. induction H as [|x y l bs Hxy _ IH]; simpl; [done|]. by rewrite IH, (Hf x y). Qed.

Lemma split_lf_head s cur : exists t rest, split_lf s cur = (cur ++ t) :: rest.
Proof.
  revert cur. induction s as [|c s IH]; intros cur; simpl.
  - exists [], []. by rewrite app_nil_r.
  - case_bool_decide.
    + exists [], (split_lf s []). by rewrite app_nil_r.
    + destruct (IH (cur ++ [c])) as (t & rest & ->).
      exists (c :: t), rest. by rewrite <- app_assoc.
Qed.

Lemma scan_lines_long max s cur :
  Z.of_nat (length cur) < max ->
  snd (scan_lines max s cur (Z.of_nat (length cur))) = false <->
  Forall (fun l => Z.of_nat (length l) < max) (split_lf s (rev cur)).
Proof.
  revert cur. induction s as [|c s IH]; intros cur Hcur; simpl.
  - by rewrite Forall_singleton, length_rev.
  - case_bool_decide as Hc.
    + specialize (IH [] ltac:(simpl; lia)). change (Z.of_nat (length [])) with 0 in IH.
      destruct (scan_lines max s [] 0) as [lines long]. simpl in *.
      rewrite Forall_cons_iff, length_rev, IH. tauto.
    + destruct (Z.leb_spec max (Z.of_nat (length cur) + 1)) as [Hm|Hm]; simpl.
      * split; [done|]. destruct (split_lf_head s (rev cur ++ [c])) as (t & rest & ->).
        rewrite Forall_cons_iff, !length_app, length_rev. simpl. lia.
      * change (rev cur ++ [c]) with (rev (c :: cur)).
        rewrite <- IH; simpl; [|lia]. by rewrite Nat2Z.inj_succ, <- Z.add_1_r.
Qed.

Lemma parseList_names r names : parseList r = Ok names -> Forall blockable names.
Proof.
  unfold parseList. destruct (scan_lines _ _ _ _) as [lines [|]]; [done|].
  destruct (r_err r); [done|]. intros [= <-].
  apply List.Forall_forall. intros s (ns & Hns & Hs)%in_concat.
  apply in_map_iff in Hns as (line & <- & _). unfold parse_line in Hs.
  apply list_elem_of_In, list_elem_of_omap in Hs as (raw & _ & Hraw).
  by apply normalizeEntry_blockable in Hraw.
Qed.

End Lists.

(** * Properties *)

Section Properties.
Context {UC : UnicodeCase}.

(** C32: every name [parseList] returns is blockable: at most 253 bytes of
    non-empty labels of at most 63 bytes [a-z0-9_-], with a dot, not an IP
    literal and not a local name, whatever the bytes of the download were. *)
Theorem parseList_blockable (r : reader) (names : list str)
    (Hok : parseList r = Ok names) : Forall blockable names.
Proof.
  by apply (parseList_names r).
Qed.

(** C22: what publishers write is what is read: a list in /etc/hosts format,
    bare-domain format or a mixture, with upper case, ["*."] prefixes, trailing
    dots, comments, blank lines and CRLF line ends, parses to exactly its
    names, in order. *)
Theorem parseList_render (ls : list list_line) (nss : list (list str))
    (Hnames : Forall2 (fun l ns => line_names (ll_fields l) ns) ls nss)
    (Hwf : Forall line_wf ls) :
  parseList (Reader (render_list ls) None) = Ok (concat nss).
Proof.
  unfold parseList. cbn [r_bytes r_err]. rewrite scan_lines_render by done. f_equal.
  rewrite map_map. induction Hnames as [|l ns ls nss Hl _ IH]; [done|].
  inversion Hwf; subst. simpl. rewrite (parse_line_names l ns) by done. by rewrite IH.
Qed.

(** C40: [isDomainName], a single pass with a label counter, accepts exactly the
    strings of at most 253 bytes whose dot-separated labels have 1 to 63
    allowed bytes. *)
Theorem isDomainName_correct (s : str) : isDomainName s = true <-> domain_name s.
Proof. apply isDomainName_domain_name. Qed.

(** A normalised entry is a fixed point of [normalizeEntry]: normalising
    twice changes nothing. *)
Theorem normalizeEntry_idempotent (raw s : str) (H : normalizeEntry raw = Some s) :
  normalizeEntry s = Some s.
Proof. by apply normalizeEntry_spells, spells_self, normalizeEntry_blockable with raw. Qed.

(** [parseList] succeeds exactly when the body was read without error and
    every line fits the scanner's buffer: a broken download never yields a
    partial list. *)
Theorem parseList_error (r : reader) :
  is_ok (parseList r) = true <->
  r_err r = None /\
  Forall (fun l => Z.of_nat (length l) < max_line) (split_lf (r_bytes r) []).
Proof.
  rewrite <- (scan_lines_long max_line (r_bytes r) []) by (simpl; unfold max_line; lia).
  unfold parseList. destruct (scan_lines _ _ _ _) as [lines long]. simpl.
  destruct long, (r_err r); simpl; intuition congruence.
Qed.

End Properties.

(** ** Examples: the inputs of [parse_test.go] *)

(** [TestParseListRejectsNonDomains]. *)
Example parse_rejects :
  parseList (UC := latin1_case) (Reader (lit "
127.0.0.1 localhost
127.0.0.1 localhost.localdomain
255.255.255.255 broadcasthost
::1 localhost
fe80::1%lo0 localhost
ff02::3 ip6-allhosts
0.0.0.0 0.0.0.0
0.0.0.0 ::1
singlelabel
# comment only

||adblock-syntax.example.com^
") None) = Ok [].
Proof. vm_compute. reflexivity. Qed.

(** [TestParseListDomainFormat] and [TestParseListKeepsIPLookingNames]. *)
Example parse_domains :
  parseList (UC := latin1_case) (Reader (lit "# oisd-style header
*.ads.example.com
plain.example.net
.leading-dot.example.org
TRAILING.Dot.Example.com.
0.0.0.0 0.0.0.0.hpyrdr.com
0.0.0.0 multi-a.example.com multi-b.example.com # two names
") None) =
  Ok [lit "ads.example.com"; lit "plain.example.net"; lit "leading-dot.example.org";
      lit "trailing.dot.example.com"; lit "0.0.0.0.hpyrdr.com";
      lit "multi-a.example.com"; lit "multi-b.example.com"].
Proof. vm_compute. reflexivity. Qed.

Lemma parseList_blockable_witness :
  Forall blockable [lit "ads.example.com"].
Proof.
  apply (parseList_blockable (UC := latin1_case) (Reader (lit "0.0.0.0 Ads.example.com.") None)).
  vm_compute. reflexivity.
Defined.

Lemma normalizeEntry_idempotent_witness :
  normalizeEntry (UC := latin1_case) (lit "ads.example.com") = Some (lit "ads.example.com").
Proof.
  apply (normalizeEntry_idempotent (UC := latin1_case) (lit " *.ADS.example.com. ")).
  vm_compute. reflexivity.
Defined.

Lemma parseList_render_witness :
  parseList (UC := latin1_case) (Reader (render_list
    [ ListLine [lit "0.0.0.0"; lit "Ads.example.com"; lit "b.example.net."] " " (Some (lit " two")) true;
      ListLine [] " " (Some (lit " only a comment")) false;
      ListLine [lit "*.tracker.net"] " " None false ]) None)
  = Ok (concat [[lit "ads.example.com"; lit "b.example.net"]; []; [lit "tracker.net"]]).
Proof.
  assert (forall raw s p q, bool_decide (blockable s) = true -> p ∈ prefixes -> q ∈ suffixes ->
    map lower_byte raw = p ++ s ++ q -> spells raw s) as Hsp.
  { intros raw s p q H%bool_decide_eq_true Hp Hq E. split; [done|]. by exists p, q. }
  apply (parseList_render (UC := latin1_case)).
  - constructor; [|constructor; [|constructor; [|constructor]]]; simpl.
    + apply ln_hosts.
      * split; [discriminate|]. by repeat constructor.
      * by apply index_byte_None.
      * by vm_compute.
      * constructor; [|constructor; [|constructor]].
        -- apply (Hsp _ _ [] []); [by vm_compute | left | left | by vm_compute].
        -- apply (Hsp _ _ [] (lit ".")); [by vm_compute | left | right; left | by vm_compute].
      * discriminate.
    + apply ln_blank.
    + apply ln_bare, (Hsp _ _ (lit "*.") []);
        [by vm_compute | right; right; left | left | by vm_compute].
  - repeat constructor; try discriminate; try (by vm_compute);
      apply index_byte_None; by vm_compute.
Defined.
