(* ===== verification/BlocklistMatcher.v ===== *)
(** * The blocklist matcher ([plugin/blocklist/matcher.go])

    [nameSet] is a sorted slice of domain subtrees; [newNameSet] builds it by
    sorting, deduplicating in place and pruning what an ancestor already
    covers; [covers] walks the query's parent suffixes with a binary search at
    each; [matcher.blocked] combines a block set with an allow set.  The
    specification is the relation [under]: a query belongs to the subtree of a
    name.  The file shows that the sets answer exactly what the original list
    says, that they are minimal and canonical, and that the in-place loop
    computes what the functional reference does. *)

From Stdlib Require Import Lia ZArith Ascii.
From stdpp Require Import base list strings gmap sorting numbers option.
From S2P Require Import Prelude GoStrings.

(** ** Lookup *)

Abbreviation nameSet := (list str).

(** [sort.Search]: binary search for the first index at which [f] holds; the
    interval halves, so its length bounds the rounds. *)
Fixpoint search_loop (fuel : nat) (f : nat -> bool) (i j : nat) : nat :=
  match fuel with
  | O => i
  | S n =>
      if (i <? j)%nat then
        let h := ((i + j) / 2)%nat in
        if negb (f h) then search_loop n f (S h) j else search_loop n f i h
      else i
  end.

(** [sort.SearchStrings]. *)
Definition search_strings (s : nameSet) (x : str) : nat :=
  search_loop (length s) (fun h => match s !! h with
                                   | Some y => str_leb x y
                                   | None => true
                                   end) 0 (length s).

Definition has (s : nameSet) (name : str) : bool :=
  let i := search_strings s name in
  bool_decide (s !! i = Some name).

(** [nameSet.covers]: the loop drops one label per round, so the length of the
    name bounds its rounds. *)
Fixpoint covers_loop (fuel : nat) (s : nameSet) (name : str) : bool :=
  match fuel with
  | O => false
  | S n =>
      if bool_decide (name = []) then false
      else if has s name then true
      else match index_byte name "."%char with
           | None => false
           | Some i => covers_loop n s (drop (S i) name)
           end
  end.

Definition covers (s : nameSet) (name : str) : bool := covers_loop (length name) s name.

Definition hasAncestor (s : nameSet) (name : str) : bool :=
  match index_byte name "."%char with
  | None => false
  | Some i => covers s (drop (S i) name)
  end.

(** ** Construction *)

(** The deduplication loop of [newNameSet] on the array [a] that both [sorted]
    and [deduped] share: round [i] reads [a[i]] and may write [a[w]]. *)
Fixpoint dedup_loop (rounds i w : nat) (last : str) (a : list str) : list str :=
  match rounds with
  | O => take w a
  | S n =>
      let x := default [] (a !! i) in
      if (i =? 0)%nat || negb (bool_decide (x = last))
      then dedup_loop n (S i) (S w) x (<[w := x]> a)
      else dedup_loop n (S i) w last a
  end.

Definition newNameSet (names : list str) : nameSet :=
  if bool_decide (names = []) then []
  else
    let sorted := sort_strings names in
    let deduped := dedup_loop (length sorted) 0 0 [] sorted in
    List.filter (fun n => negb (hasAncestor deduped n)) deduped.

(** ** The matcher *)

Record matcher := Matcher { block : nameSet; allow : nameSet }.

(** [matcher.blocked]; [None] is the nil matcher before the first load. *)
Definition blocked (m : option matcher) (qname : str) : bool :=
  match m with
  | None => false
  | Some m =>
      if bool_decide (qname = []) then false
      else if covers (allow m) qname then false
      else covers (block m) qname
  end.

Definition size (m : option matcher) : nat :=
  match m with
  | None => 0
  | Some m => length (block m)
  end.

Definition normalizeQuery `{UC : UnicodeCase} (qname : str) : str :=
  trim_suffix (to_lower qname) (lit ".").

(** ** Specification *)

(** [q] lies in the subtree of [n]: it is [n] or ends in [.n]. *)
Definition under (n q : str) : Prop := q = n \/ exists p, q = p ++ "."%char :: n.

(** What a list of names covers: the subtrees of its non-empty names. *)
Definition covered_by (l : list str) (q : str) : Prop :=
  exists n, n ∈ l /\ n <> [] /\ under n q.

(** Adjacent duplicates removed: the reference for the in-place loop. *)
Fixpoint dedup_adjacent (l : list str) : list str :=
  match l with
  | [] => []
  | x :: l' =>
      match l' with
      | y :: _ => if bool_decide (x = y) then dedup_adjacent l' else x :: dedup_adjacent l'
      | [] => [x]
      end
  end.

(** Strictly ascending: sorted without duplicates. *)
Abbreviation strictly_sorted := (StronglySorted (fun x y => str_ltb x y = true)).

(** No member lies in the subtree of another. *)
Definition antichain (s : nameSet) : Prop :=
  forall n m, n ∈ s -> m ∈ s -> n <> [] -> under n m -> n = m.

(** ** Binary search *)

Lemma search_loop_spec f n i j :
  (forall a b, (a <= b)%nat -> f a = true -> f b = true) ->
  (j - i <= n)%nat -> (i <= j)%nat ->
  (forall k, (k < i)%nat -> f k = false) -> (forall k, (j <= k)%nat -> f k = true) ->
  let r := search_loop n f i j in
  (forall k, (k < r)%nat -> f k = false) /\ (forall k, (r <= k)%nat -> f k = true).
Proof.
  intros Hmono. revert i j. induction n as [|n IH]; intros i j Hn Hij Hlo Hhi.
  - simpl. assert (i = j) as -> by lia. auto.
  - cbn [search_loop]. destruct (Nat.ltb_spec i j) as [Hlt|Hge].
    + assert (i <= (i + j) / 2 < j)%nat as [Hh1 Hh2].
      { split; [apply Nat.div_le_lower_bound; lia | apply Nat.Div0.div_lt_upper_bound; lia]. }
      destruct (f ((i + j) / 2)%nat) eqn:E; cbn [negb].
      * apply IH; try lia; [done|]. intros k Hk. by eapply Hmono.
      * apply IH; try lia; [|done]. intros k Hk.
        destruct (f k) eqn:Ek; [|done]. rewrite (Hmono k ((i + j) / 2)%nat) in E; [done|lia|done].
    + assert (i = j) as -> by lia. auto.
Qed.

Lemma strictly_sorted_weaken s : strictly_sorted s -> StronglySorted str_le s.
Proof.
  induction 1 as [|x s Hs IH Hx]; constructor; [done|].
  revert Hx. apply Forall_impl. by intros y [? _]%str_ltb_spec.
Qed.

Lemma sorted_lookup s i j x y :
  StronglySorted str_le s -> s !! i = Some x -> s !! j = Some y -> (i <= j)%nat -> str_le x y.
Proof.
  intros Hs. revert i j. induction Hs as [|z s Hs IH Hz]; intros [|i] [|j] Hx Hy Hij; simplify_eq/=.
  - done.
  - rewrite List.Forall_forall in Hz. apply Hz, list_elem_of_In. by eapply list_elem_of_lookup_2.
  - lia.
  - eapply IH; eauto. lia.
Qed.

(** On a sorted set [has] decides membership. *)
Lemma has_elem s name : StronglySorted str_le s -> has s name = true <-> name ∈ s.
Proof.
  intros Hs. unfold has. rewrite bool_decide_eq_true. split.
  - intros H. by eapply list_elem_of_lookup_2.
  - intros [k Hk]%list_elem_of_lookup.
    unfold search_strings. set (f := fun h => _).
    destruct (search_loop_spec f (length s) 0 (length s)) as [Hlo Hhi]; try lia.
    { intros a b Hab. unfold f. destruct (s !! a) as [x|] eqn:Ea.
      - destruct (s !! b) as [y|] eqn:Eb; [|done]. intros Hx.
        apply (transitivity (R := str_le) (y := x)); [done|]. by eapply sorted_lookup.
      - apply lookup_ge_None in Ea. by rewrite lookup_ge_None_2 by lia. }
    { intros h Hh. unfold f. by rewrite lookup_ge_None_2. }
    set (r := search_loop _ _ _ _) in *.
    assert (f k = true) as Hfk by (unfold f; rewrite Hk; apply str_leb_refl).
    destruct (decide (k < r)%nat) as [Hlt|Hge]; [rewrite (Hlo k Hlt) in Hfk; done|].
    pose proof (lookup_lt_Some _ _ _ Hk) as Hlen.
    destruct (lookup_lt_is_Some_2 s r) as [y Hy]; [lia|]. rewrite Hy.
    pose proof (Hhi r ltac:(lia)) as Hfr. unfold f in Hfr. rewrite Hy in Hfr.
    f_equal. apply (anti_symm str_le); [|done]. eapply sorted_lookup; eauto. lia.
Qed.

(** ** Subtrees *)

Lemma under_refl n : under n n.
Proof. by left. Qed.

Lemma under_length n q : under n q -> (length n <= length q)%nat.
Proof. intros [->|[p ->]]; [done|]. rewrite length_app. simpl. lia. Qed.

Lemma under_trans a b c : under a b -> under b c -> under a c.
Proof.
  intros Hab [->|[q ->]]; [done|]. right. destruct Hab as [->|[p ->]].
  - by exists q.
  - exists (q ++ "."%char :: p). by rewrite <- app_assoc.
Qed.

Lemma under_antisymm a b : under a b -> under b a -> a = b.
Proof.
  intros [->|[p ->]]; [done|]. intros H%under_length. rewrite length_app in H. simpl in H. lia.
Qed.

#[export] Instance under_preorder : PreOrder under.
Proof. split; [exact under_refl | exact under_trans]. Qed.
#[export] Hint Resolve under_refl under_trans : go.

(** Two ancestors of one name are comparable. *)
Lemma under_comparable a b q : under a q -> under b q -> under a b \/ under b a.
Proof.
  intros [->|[p ->]]; [intros Hb; by right|].
  intros [E|[p' E]]; [left; right; by exists p|].
  apply app_eq_inv in E as [(k & -> & E)|(k & -> & E)];
    (destruct k as [|c k]; simplify_eq/=; [left; by left|]).
  - left. right. by exists k.
  - right. right. by exists k.
Qed.

(** One step of the walk: a name is under [q] when it is [q] itself or under
    what follows [q]'s first dot. *)
Lemma under_index q n i :
  index_byte q "."%char = Some i -> under n q <-> n = q \/ under n (drop (S i) q).
Proof.
  intros (u & v & -> & Hu & <-)%index_byte_Some.
  rewrite <- Nat.add_1_r, <- drop_drop, drop_app_length. simpl. rewrite drop_0.
  split.
  - intros [->|[p E]]; [by left|]. right.
    apply app_eq_inv in E as [(k & -> & E)|(k & -> & E)].
    + destruct k as [|c k]; simpl in E; [injection E as ->; apply under_refl|].
      injection E as <- _. exfalso. apply Hu. not_in.
    + destruct k as [|c k]; simpl in E; [injection E as ->; apply under_refl|].
      injection E as <- ->. right. by exists k.
  - intros [->|H]; [by left|]. eapply under_trans; [done|]. right. by exists u.
Qed.

Lemma under_no_dot q n : index_byte q "."%char = None -> under n q <-> n = q.
Proof.
  intros Hq%index_byte_None. split; [|intros ->; apply under_refl].
  intros [->|[p ->]]; [done|]. destruct Hq. not_in.
Qed.

Lemma index_byte_drop_length q i c :
  index_byte q c = Some i -> (length (drop (S i) q) < length q)%nat.
Proof.
  intros (u & v & -> & _ & <-)%index_byte_Some.
  rewrite length_drop, length_app. simpl. lia.
Qed.

(** ** [covers] decides [covered_by] on a sorted set *)

Lemma covers_loop_spec s n q :
  StronglySorted str_le s -> (length q <= n)%nat -> covers_loop n s q = true <-> covered_by s q.
Proof.
  intros Hs. unfold covered_by. revert q.
  induction n as [|n IH]; intros q Hn.
  { destruct q; [|simpl in Hn; lia]. simpl. split; [done|].
    intros (m & _ & Hne & [E|[p E]]); [congruence|]. by destruct p. }
  cbn [covers_loop]. case_bool_decide as Hq.
  { subst q. split; [done|]. intros (m & _ & Hne & [E|[p E]]); [congruence|]. by destruct p. }
  destruct (has s q) eqn:Hh.
  { apply has_elem in Hh; [|done]. split; [|done]. intros _. exists q. auto with go. }
  assert (q ∉ s) as Hnin by (intros Hin%has_elem; [congruence|done]).
  destruct (index_byte q "."%char) as [i|] eqn:Hi.
  - pose proof (index_byte_drop_length _ _ _ Hi).
    rewrite IH by lia. split; intros (m & Hm & Hne & Hu); exists m; repeat split; try done.
    + apply (under_index q m i Hi). by right.
    + apply (under_index q m i Hi) in Hu as [->|Hu]; done.
  - split; [done|]. intros (m & Hm & _ & Hu). by apply (under_no_dot q m Hi) in Hu as ->.
Qed.

Lemma covers_covered s q : StronglySorted str_le s -> covers s q = true <-> covered_by s q.
Proof. intros Hs. by apply covers_loop_spec. Qed.

Lemma hasAncestor_spec s q :
  StronglySorted str_le s ->
  hasAncestor s q = true <-> exists n, n ∈ s /\ n <> [] /\ under n q /\ n <> q.
Proof.
  intros Hs. unfold hasAncestor. destruct (index_byte q "."%char) as [i|] eqn:Hi.
  - pose proof (index_byte_drop_length _ _ _ Hi) as Hlen.
    rewrite covers_covered by done. split.
    + intros (n & Hn & Hne & Hu). exists n. split; [done|]. split; [done|].
      split; [apply (under_index q n i Hi); by right|].
      intros ->. apply under_length in Hu. lia.
    + intros (n & Hn & Hne & Hu & Hnq). exists n.
      apply (under_index q n i Hi) in Hu as [->|Hu]; done.
  - split; [done|]. intros (n & _ & _ & Hu & Hnq). by apply (under_no_dot q n Hi) in Hu.
Qed.

(** ** Deduplication *)

Lemma elem_of_dedup_adjacent x l : x ∈ dedup_adjacent l <-> x ∈ l.
Proof.
  induction l as [|y l IH]; [done|]. cbn [dedup_adjacent].
  destruct l as [|z l]; [done|]. case_bool_decide as H.
  - rewrite IH, !elem_of_cons. subst. tauto.
  - rewrite elem_of_cons, IH, (elem_of_cons (z :: l)). done.
Qed.

Lemma dedup_adjacent_sorted l :
  StronglySorted str_le l -> strictly_sorted (dedup_adjacent l).
Proof.
  induction 1 as [|x l Hl IH Hx]; [constructor|]. cbn [dedup_adjacent].
  destruct l as [|y l]; [repeat constructor|]. case_bool_decide as H; [done|].
  constructor; [done|]. apply List.Forall_forall. intros z Hz%list_elem_of_In.
  apply (proj1 (elem_of_dedup_adjacent z (y :: l))) in Hz.
  apply str_ltb_spec. rewrite List.Forall_forall in Hx.
  split; [by apply Hx, list_elem_of_In|]. intros <-.
  assert (str_le x y) by (apply Hx; by left).
  inversion Hl as [|? ? _ Hy]; subst. rewrite List.Forall_forall in Hy.
  apply elem_of_cons in Hz as [->|Hz]; [done|].
  destruct H. apply (anti_symm str_le); [done|]. by apply Hy, list_elem_of_In.
Qed.

(** The loop's decisions, without the array. *)
Fixpoint dedup_decide (first : bool) (last : str) (l : list str) : list str :=
  match l with
  | [] => []
  | x :: l' =>
      if first || negb (bool_decide (x = last))
      then x :: dedup_decide false x l' else dedup_decide false last l'
  end.

Lemma dedup_decide_adjacent x l : x :: dedup_decide false x l = dedup_adjacent (x :: l).
Proof.
  revert x. induction l as [|y l IH]; intros x; [done|].
  cbn [dedup_decide]. change (dedup_adjacent (x :: y :: l)) with
    (if bool_decide (x = y) then dedup_adjacent (y :: l) else x :: dedup_adjacent (y :: l)).
  rewrite <- IH. destruct (decide (y = x)) as [->|Hne].
  - by rewrite !bool_decide_eq_true_2.
  - by rewrite !bool_decide_eq_false_2.
Qed.

(** The array holds the output, slots already read, and the names still to
    read: a write never reaches a slot that has not been read. *)
Lemma dedup_loop_decide out junk todo last :
  dedup_loop (length todo) (length (out ++ junk)) (length out) last (out ++ junk ++ todo)
  = out ++ dedup_decide (length (out ++ junk) =? 0)%nat last todo.
Proof.
  revert out junk last. induction todo as [|x todo IH]; intros out junk last.
  { cbn [length dedup_loop dedup_decide]. by rewrite take_app_length, app_nil_r. }
  cbn [length dedup_loop dedup_decide].
  replace ((out ++ junk ++ x :: todo) !! length (out ++ junk)) with (Some x)
    by (rewrite app_assoc; by rewrite list_lookup_middle).
  cbn [from_option id]. destruct (_ || _) eqn:Hw.
  - assert (exists junk', <[length out := x]> (out ++ junk ++ x :: todo)
              = (out ++ [x]) ++ junk' ++ todo
            /\ length junk' = length junk) as (junk' & -> & Hlen).
    { destruct junk as [|y junk].
      - exists []. split; [|done]. 
        rewrite <- app_assoc. simpl. rewrite <- (Nat.add_0_r (length out)).
        by rewrite insert_app_r.
      - exists (junk ++ [x]). split; [|rewrite length_app; simpl; lia].
        rewrite <- (Nat.add_0_r (length out)), insert_app_r, <- !app_assoc. done. }
    replace (S (length (out ++ junk))) with (length ((out ++ [x]) ++ junk'))
      by (rewrite !length_app; simpl; lia).
    replace (S (length out)) with (length (out ++ [x])) by (rewrite length_app; simpl; lia).
    rewrite IH, <- app_assoc. simpl. do 2 f_equal.
    by rewrite (proj2 (Nat.eqb_neq _ _)) by (rewrite !length_app; simpl; lia).
  - replace (S (length (out ++ junk))) with (length (out ++ junk ++ [x]))
      by (rewrite app_assoc, !length_app; simpl; lia).
    replace (out ++ junk ++ x :: todo) with (out ++ (junk ++ [x]) ++ todo)
      by (by rewrite <- !app_assoc).
    rewrite IH. f_equal.
    by rewrite (proj2 (Nat.eqb_neq _ _)) by (rewrite !length_app; simpl; lia).
Qed.

Lemma dedup_loop_adjacent l : dedup_loop (length l) 0 0 [] l = dedup_adjacent l.
Proof.
  etransitivity; [apply (dedup_loop_decide [] [] l [])|]. destruct l as [|x l]; [done|].
  apply (dedup_decide_adjacent x l).
Qed.

(** ** [newNameSet] *)

Definition dedup_sorted (names : list str) : list str := dedup_adjacent (sort_strings names).

Lemma newNameSet_filter names :
  newNameSet names =
  List.filter (fun n => negb (hasAncestor (dedup_sorted names) n)) (dedup_sorted names).
Proof.
  unfold newNameSet, dedup_sorted. case_bool_decide as H; [by subst|].
  by rewrite dedup_loop_adjacent.
Qed.

Lemma dedup_sorted_strict names : strictly_sorted (dedup_sorted names).
Proof. apply dedup_adjacent_sorted, sort_strings_sorted. Qed.

Lemma elem_of_dedup_sorted x names : x ∈ dedup_sorted names <-> x ∈ names.
Proof. unfold dedup_sorted. by rewrite elem_of_dedup_adjacent, elem_of_sort_strings. Qed.

Lemma strictly_sorted_filter f s : strictly_sorted s -> strictly_sorted (List.filter f s).
Proof.
  induction 1 as [|x s Hs IH Hx]; simpl; [constructor|].
  destruct (f x); [|done]. constructor; [done|].
  rewrite List.Forall_forall in *. intros y [Hy _]%filter_In. by apply Hx.
Qed.

Lemma newNameSet_strict names : strictly_sorted (newNameSet names).
Proof. rewrite newNameSet_filter. apply strictly_sorted_filter, dedup_sorted_strict. Qed.

Lemma newNameSet_sorted names : StronglySorted str_le (newNameSet names).
Proof. apply strictly_sorted_weaken, newNameSet_strict. Qed.
#[export] Hint Resolve dedup_sorted_strict newNameSet_strict newNameSet_sorted
  strictly_sorted_weaken : go.

(** Membership: the names that have no other name of the list above them. *)
Lemma elem_of_newNameSet x names :
  x ∈ newNameSet names <->
  x ∈ names /\ ~ exists n, n ∈ names /\ n <> [] /\ under n x /\ n <> x.
Proof.
  rewrite newNameSet_filter, list_elem_of_In, filter_In, <- list_elem_of_In.
  rewrite negb_true_iff, <- not_true_iff_false, hasAncestor_spec by auto with go.
  rewrite elem_of_dedup_sorted. by setoid_rewrite elem_of_dedup_sorted.
Qed.

(** Every name of the list has one of the set above it: the shortest of its
    ancestors in the list. *)
Lemma newNameSet_root n names :
  n ∈ names -> n <> [] -> exists m, m ∈ newNameSet names /\ m <> [] /\ under m n.
Proof.
  remember (length n) as k eqn:Hk. revert n Hk.
  induction k as [k IH] using lt_wf_ind. intros n -> Hn Hne.
  destruct (hasAncestor (dedup_sorted names) n) eqn:E.
  - apply hasAncestor_spec in E as (m & Hm & Hmne & Hu & Hmn); [|auto with go].
    rewrite elem_of_dedup_sorted in Hm.
    assert (length m < length n)%nat as Hlt.
    { destruct Hu as [->|[p ->]]; [done|]. rewrite length_app. simpl. lia. }
    destruct (IH _ Hlt m eq_refl Hm Hmne) as (r & Hr & Hrne & Hru).
    exists r. repeat split; try done. by eapply under_trans.
  - exists n. split; [|auto with go]. rewrite newNameSet_filter, list_elem_of_In, filter_In.
    by rewrite E, <- list_elem_of_In, elem_of_dedup_sorted.
Qed.

Lemma newNameSet_covered_by names q : covered_by (newNameSet names) q <-> covered_by names q.
Proof.
  split; intros (n & Hn & Hne & Hu).
  - exists n. by apply elem_of_newNameSet in Hn as [? _].
  - destruct (newNameSet_root n names Hn Hne) as (m & Hm & Hmne & Hmu).
    exists m. repeat split; try done. by eapply under_trans.
Qed.

Lemma covers_newNameSet names q : covers (newNameSet names) q = true <-> covered_by names q.
Proof. by rewrite covers_covered, newNameSet_covered_by by auto with go. Qed.

(** ** Minimal sets are canonical *)

Lemma newNameSet_antichain names : antichain (newNameSet names).
Proof.
  intros n m [Hn _]%elem_of_newNameSet [_ Hm]%elem_of_newNameSet Hne Hu.
  destruct (decide (n = m)) as [|Hnm]; [done|]. destruct Hm. eauto.
Qed.

Lemma strictly_sorted_NoDup s : strictly_sorted s -> NoDup s.
Proof.
  induction 1 as [|x s Hs IH Hx]; constructor; [|done].
  intros Hin%list_elem_of_In. rewrite List.Forall_forall in Hx.
  by apply Hx, str_ltb_spec in Hin as [_ ?].
Qed.

Lemma strictly_sorted_ext s t :
  strictly_sorted s -> strictly_sorted t -> (forall x, x ∈ s <-> x ∈ t) -> s = t.
Proof.
  intros Hs Ht H. apply (StronglySorted_unique str_le); [auto with go..|].
  apply NoDup_Permutation; [by apply strictly_sorted_NoDup..|done].
Qed.

(** Same coverage: the equivalence on lists of names that the sets respect. *)
Definition same_cover (a c : list str) : Prop := forall q, covered_by a q <-> covered_by c q.

#[export] Instance same_cover_equiv : Equivalence same_cover.
Proof.
  split; unfold same_cover; [done| |].
  - intros a c H q. by rewrite H.
  - intros a c d H1 H2 q. by rewrite H1, H2.
Qed.

Lemma newNameSet_incl a c x :
  [] ∉ a -> same_cover a c -> x ∈ newNameSet a -> x ∈ newNameSet c.
Proof.
  intros Ha Hsame Hx. assert (x <> []) as Hxne.
  { intros ->. by apply elem_of_newNameSet in Hx as [? _]. }
  assert (covered_by (newNameSet c) x) as (m & Hm & Hmne & Hmx).
  { rewrite newNameSet_covered_by, <- (Hsame x), <- newNameSet_covered_by.
    exists x. auto with go. }
  assert (covered_by (newNameSet a) m) as (k & Hk & Hkne & Hkm).
  { rewrite newNameSet_covered_by, (Hsame m), <- newNameSet_covered_by.
    exists m. auto with go. }
  assert (k = x) as ->.
  { apply (newNameSet_antichain a); try done. by eapply under_trans. }
  by rewrite (under_antisymm x m).
Qed.

Lemma covered_by_perm a c : a ≡ₚ c -> same_cover a c.
Proof. intros H q. unfold covered_by. by setoid_rewrite H. Qed.

(** * Properties *)

(** C4: [newNameSet] answers exactly what the list it was built from says:
    sorting, deduplicating in place and pruning names covered by an ancestor
    never change which queries [covers] accepts. *)
Theorem newNameSet_covers (names : list str) (q : str) :
  covers (newNameSet names) q = true <-> covered_by names q.
Proof. apply covers_newNameSet. Qed.

(** The set [newNameSet] returns is strictly ascending (so the binary
    search applies), contains only names of the list, and no entry lies in the
    subtree of another: nothing redundant is kept. *)
Theorem newNameSet_minimal (names : list str) :
  strictly_sorted (newNameSet names) /\ antichain (newNameSet names) /\
  (forall n, n ∈ newNameSet names -> n ∈ names) /\
  (length (newNameSet names) <= length names)%nat.
Proof.
  assert (forall n, n ∈ newNameSet names -> n ∈ names) as Hincl.
  { by intros n [? _]%elem_of_newNameSet. }
  repeat split; [auto with go | apply newNameSet_antichain | done |].
  apply submseteq_length, NoDup_submseteq; [|done].
  apply strictly_sorted_NoDup, newNameSet_strict.
Qed.

(** The set is canonical: two lists without empty names that cover the
    same queries give the same slice, so order, repetition and redundant
    entries of the sources do not matter. *)
Theorem newNameSet_canonical (a c : list str) (Ha : [] ∉ a) (Hc : [] ∉ c)
    (Hsame : forall q, covered_by a q <-> covered_by c q) :
  newNameSet a = newNameSet c.
Proof.
  apply strictly_sorted_ext; [auto with go..|]. intros x.
  by split; apply newNameSet_incl.
Qed.

Lemma newNameSet_canonical_witness :
  newNameSet [lit "b.a"; lit "a"; lit "a"] = newNameSet [lit "a"].
Proof.
  apply newNameSet_canonical.
  - rewrite !not_elem_of_cons. repeat split; try discriminate. apply not_elem_of_nil.
  - rewrite !not_elem_of_cons. repeat split; try discriminate. apply not_elem_of_nil.
  - intros q. split; intros (n & Hn & Hne & Hu).
    + exists (lit "a"). split; [by left|]. split; [discriminate|].
      rewrite !elem_of_cons in Hn. destruct Hn as [->|[->|[->|Hn]]]; try done.
      * apply (under_trans _ (lit "b.a")); [|done]. right. by exists (lit "b").
      * by apply not_elem_of_nil in Hn.
    + exists n. split; [|done]. rewrite !elem_of_cons in *. tauto.
Defined.

(** The in-place deduplication loop, which overwrites the array it is
    reading, computes the functional removal of adjacent duplicates on every
    array, sorted or not. *)
Theorem dedup_in_place (a : list str) :
  dedup_loop (length a) 0 0 [] a = dedup_adjacent a.
Proof. apply dedup_loop_adjacent. Qed.

(** On a sorted slice [has], the binary search of [sort.SearchStrings]
    followed by a comparison, decides membership. *)
Theorem has_correct (s : nameSet) (name : str) (Hs : StronglySorted str_le s) :
  has s name = true <-> name ∈ s.
Proof. by apply has_elem. Qed.

Lemma has_correct_witness :
  has [lit "a"; lit "b"; lit "d"] (lit "b") = true <-> lit "b" ∈ [lit "a"; lit "b"; lit "d"].
Proof. apply has_correct. repeat constructor. Defined.

(** The matcher blocks a query exactly when a listed name is the query or
    an ancestor of it on a label boundary, and no allowed name is: allow
    always wins, and an empty query is never blocked. *)
Theorem blocked_spec (bl al : list str) (q : str) :
  blocked (Some (Matcher (newNameSet bl) (newNameSet al))) q = true <->
  covered_by bl q /\ ~ covered_by al q.
Proof.
  unfold blocked. cbn [block allow]. case_bool_decide as Hq.
  - subst q. split; [done|]. intros [(n & _ & Hne & [E|[p E]]) _]; [congruence|].
    by destruct p.
  - destruct (covers (newNameSet al) q) eqn:Ea.
    + apply covers_newNameSet in Ea. split; [done|]. by intros [_ []].
    + rewrite covers_newNameSet, <- (covers_newNameSet al), Ea. intuition congruence.
Qed.
