(* ===== verification/Dns.v ===== *)
(** * Messages, errors and handlers shared by the plugins

    The fields of [dns.Msg] the plugins read or write, Go errors as far as
    [errors.Is] and [errors.As] can tell them apart, and what one call of a
    plugin handler does for the client.  The functions of [miekg/dns] and
    CoreDNS that the plugins call are the operations of the classes [DnsLib]
    and their documented behaviour is [DnsLaws]; [concrete_dns] is an instance
    used to evaluate examples. *)

From Stdlib Require Import Lia ZArith Ascii.
From stdpp Require Import base list strings gmap sorting numbers option.
From S2P Require Import Prelude GoStrings.

Local Open Scope Z_scope.

(** ** Messages *)

Record RR := MkRR { Rrtype : Z; Ttl : Z; Rdata : str }.

Record Question := MkQuestion { Qname : str; Qtype : Z; Qclass : Z }.

Record Msg := MkMsg {
  Id : Z;
  Response : bool;
  Authoritative : bool;
  Truncated : bool;
  CheckingDisabled : bool;
  Rcode : Z;
  Questions : list Question;
  Answer : list RR;
  Ns : list RR;
  Extra : list RR;
}.

(** [new(dns.Msg)]. *)
Definition new_msg : Msg := MkMsg 0 false false false false 0 [] [] [] [].

Definition RcodeSuccess : Z := 0.
Definition RcodeServerFailure : Z := 2.
Definition RcodeNameError : Z := 3.
Definition RcodeRefused : Z := 5.
Definition TypeOPT : Z := 41.

#[export] Instance RR_eq_dec : EqDecision RR.
Proof. solve_decision. Defined.
#[export] Instance Question_eq_dec : EqDecision Question.
Proof. solve_decision. Defined.
#[export] Instance Msg_eq_dec : EqDecision Msg.
Proof. solve_decision. Defined.

(** ** Counters *)

(** A Prometheus counter vector: from label values to counts, zero when unset;
    [CounterVec.WithLabelValues(l).Inc()]. *)
Definition count `{Countable K} (m : gmap K Z) (l : K) : Z := default 0 (m !! l).

Definition inc `{Countable K} (l : K) (m : gmap K Z) : gmap K Z := <[l := count m l + 1]> m.

Lemma lookup_inc `{Countable K} (l : K) m : inc l m !! l = Some (count m l + 1).
Proof. apply lookup_insert_eq. Qed.

Lemma count_inc `{Countable K} (l : K) m : count (inc l m) l = count m l + 1.
Proof. unfold count at 1. by rewrite lookup_inc. Qed.

Lemma count_inc_ne `{Countable K} (l l' : K) m : l <> l' -> count (inc l m) l' = count m l'.
Proof. intros Hl. unfold count at 1. unfold inc. by rewrite lookup_insert_ne. Qed.
#[export] Hint Rewrite @count_inc : go.

(** ** Errors *)

(** The values [errors.Is] is asked about, and any other error by its text. *)
Inductive sentinel : Type :=
| ErrCachedClosed
| EOF
| EPIPE
| ECONNRESET
| Canceled
| DeadlineExceeded
| OtherErr (text : string).

#[export] Instance sentinel_eq_dec : EqDecision sentinel.
Proof. solve_decision. Defined.

(** An error: the chain [errors.Is] unwraps, and whether some error of the
    chain is a [net.Error] that reports a timeout. *)
Record error := MkError { e_chain : list sentinel; e_timeout : bool }.

Definition errors_Is (err : option error) (target : sentinel) : bool :=
  match err with
  | None => false
  | Some e => bool_decide (target ∈ e_chain e)
  end.

(** An error made by [errors.New] or [fmt.Errorf] without [%w]. *)
Definition new_error (text : string) : error := MkError [OtherErr text] false.

#[export] Instance error_eq_dec : EqDecision error.
Proof. solve_decision. Defined.

(** ** Handlers *)

(** What a handler call did: the messages it wrote to the client, in order, and
    the pair it returned. *)
Record outcome := Outcome {
  written : list Msg;
  ret_rcode : Z;
  ret_err : option error;
}.

(** The rest of the plugin chain, [plugin.NextOrFailure(name, next, ...)]. *)
Abbreviation handler := (Msg -> outcome).

(** A client connection: the error [WriteMsg] returns for a message, if any. *)
Abbreviation conn := (Msg -> option error).

(** ** The DNS library *)

Class DnsLib := {
  (** [m.SetRcode(r, rcode)]: the message [m] afterwards. *)
  SetRcode : Msg -> Msg -> Z -> Msg;
  (** [request.Request.Name]: the lower-cased query name, ["."] without one. *)
  Name : Msg -> str;
}.

(** CoreDNS's helpers: [request.Request.Match] of a request and a reply to it,
    [plugin.Name(zone).Matches(name)], and [plugin.Error(plugin, err)]. *)
Class CoreLib := {
  Match : Msg -> Msg -> bool;
  NameMatches : str -> str -> bool;
  PluginError : string -> error -> error;
}.

(** [SetRcode] makes [m] a reply to [r] with that rcode and leaves its records
    and its TC and AA bits alone. *)
Class DnsLaws (L : DnsLib) := {
  SetRcode_Rcode m r c : Rcode (SetRcode m r c) = c;
  SetRcode_Id m r c : Id (SetRcode m r c) = Id r;
  SetRcode_Response m r c : Response (SetRcode m r c) = true;
  SetRcode_Question m r c q : head (Questions r) = Some q -> Questions (SetRcode m r c) = [q];
  SetRcode_Answer m r c : Answer (SetRcode m r c) = Answer m;
  SetRcode_Ns m r c : Ns (SetRcode m r c) = Ns m;
  SetRcode_Extra m r c : Extra (SetRcode m r c) = Extra m;
  SetRcode_Truncated m r c : Truncated (SetRcode m r c) = Truncated m;
  SetRcode_Authoritative m r c : Authoritative (SetRcode m r c) = Authoritative m;
}.

(** A concrete library, for examples. *)
Definition concrete_dns : DnsLib := {|
  SetRcode m r c :=
    MkMsg (Id r) true (Authoritative m) (Truncated m) (CheckingDisabled r) c
      (match Questions r with q :: _ => [q] | [] => Questions m end)
      (Answer m) (Ns m) (Extra m);
  Name r := match Questions r with
            | q :: _ => map lower_byte (Qname q)
            | [] => lit "."
            end;
|}.

Definition concrete_core : CoreLib := {|
  Match r m := bool_decide (Questions m = Questions r) && Response m;
  NameMatches zone name := bool_decide (zone = lit ".") || bool_decide (zone = name);
  PluginError _ err := err;
|}.

#[export] Instance concrete_dns_laws : DnsLaws concrete_dns.
Proof. split; try done. intros m r c q. simpl. by destruct (Questions r) as [|? ?]; intros [= ->]. Qed.

(** The retargeting both racing plugins do before writing a message that came
    back from another exchange: [rcode := m.Rcode; m.SetRcode(r, rcode)]. *)
Definition reply_to `{L : DnsLib} (r m : Msg) : Msg := SetRcode m r (Rcode m).

Section Reply.
Context `{L : DnsLib} `{!DnsLaws L}.

Lemma reply_to_Rcode r m : Rcode (reply_to r m) = Rcode m.
Proof. apply SetRcode_Rcode. Qed.

Lemma reply_to_Id r m : Id (reply_to r m) = Id r.
Proof. apply SetRcode_Id. Qed.

Lemma reply_to_Answer r m : Answer (reply_to r m) = Answer m.
Proof. apply SetRcode_Answer. Qed.

Lemma reply_to_Truncated r m : Truncated (reply_to r m) = Truncated m.
Proof. apply SetRcode_Truncated. Qed.
End Reply.
#[export] Hint Rewrite @reply_to_Rcode @reply_to_Id @reply_to_Answer @reply_to_Truncated : go.
