(* ===== verification/BlocklistSource.v ===== *)
(** * Fetching lists ([plugin/blocklist/source.go])

    [fetch] turns one HTTP exchange into the names of a list or an error;
    the bootstrap resolver's [Dial] rotates over its servers with a 32-bit
    counter and fails over to the next one.  The HTTP client and the dialer are
    parameters: what one exchange or one dial returned. *)

From Stdlib Require Import Lia ZArith Ascii.
From stdpp Require Import base list strings gmap sorting numbers option.
From S2P Require Import Prelude GoStrings GoTime BlocklistParse Dns.

Local Open Scope Z_scope.

(** ** [fetch] *)

(** [http.Response], as far as [fetch] looks at it. *)
Record response := HttpResponse { StatusCode : Z; Body : reader }.

Definition StatusOK : Z := 200.

Inductive fetch_error : Type :=
| FetchTransport (e : error)
| FetchStatus (code : Z)
| FetchParse (e : scan_error)
| FetchEmpty.

(** [fetch], given what creating the request and [client.Do] returned. *)
Definition fetch `{UC : UnicodeCase} (resp : result error response)
    : result fetch_error (list str) :=
  match resp with
  | Err e => Err (FetchTransport e)
  | Ok resp =>
      if negb (StatusCode resp =? StatusOK) then Err (FetchStatus (StatusCode resp))
      else match parseList (Body resp) with
           | Err e => Err (FetchParse e)
           | Ok names => if bool_decide (names = []) then Err FetchEmpty else Ok names
           end
  end.

(** ** The bootstrap resolver *)

(** [bootstrapResolver]: the servers and the 32-bit round-robin counter. *)
Record bootstrapResolver := BootstrapResolver { servers : list str; next : Z }.

Definition newBootstrapResolver (servers : list str) : bootstrapResolver :=
  BootstrapResolver servers 0.

Definition u32 (z : Z) : Z := z mod 2 ^ 32.

(** What a call of [Dial] ends with: a connection to a server, the error of the
    last dial, or the division by zero of an empty server list. *)
Inductive dial_result : Type :=
| DialOk (srv : str)
| DialErr (e : option error)
| DialPanic.

(** The loop of [Dial] from index [i] on; [dial srv] is the error of dialling
    [srv].  It also returns the servers it tried, in order. *)
Fixpoint dial_loop (dial : str -> option error) (srvs : list str) (start n : Z)
    (rounds : nat) (i : Z) (err : option error) : list str * dial_result :=
  match rounds with
  | O => ([], DialErr err)
  | S k =>
      match srvs !! Z.to_nat ((start + i) mod n) with
      | None => ([], DialPanic)
      | Some srv =>
          match dial srv with
          | None => ([srv], DialOk srv)
          | Some e =>
              let '(tried, r) := dial_loop dial srvs start n k (i + 1) (Some e) in
              (srv :: tried, r)
          end
      end
  end.

(** [Dial]: [b.next.Add(1)-1] wraps at 32 bits; Go's [int] has 64 bits on the
    platforms the image is built for, so the remainder is not negative. *)
Definition Dial (dial : str -> option error) (b : bootstrapResolver)
    : bootstrapResolver * (list str * dial_result) :=
  let n := Z.of_nat (length (servers b)) in
  let next' := u32 (next b + 1) in
  let b' := BootstrapResolver (servers b) next' in
  if n =? 0 then (b', ([], DialPanic))
  else
    let start := u32 (next' - 1) mod n in
    (b', dial_loop dial (servers b) start n (length (servers b)) 0 None).

(** [resolver]: the Go resolver, which dials through [Dial] whatever address it
    wants. *)
Record Resolver := MkResolver {
  PreferGo : bool;
  resolver_Dial : (str -> option error) -> bootstrapResolver * (list str * dial_result);
}.

Definition resolver (b : bootstrapResolver) : Resolver :=
  MkResolver true (fun dial => Dial dial b).

(** [net.Dialer], [http.Transport] and [http.Client], as far as [httpClient]
    sets them. *)
Record Dialer := MkDialer { dial_Timeout : Z; KeepAlive : Z; dial_Resolver : Resolver }.

Record Transport := MkTransport {
  DialContext : Dialer;
  TLSHandshakeTimeout : Z;
  ResponseHeaderTimeout : Z;
  DisableKeepAlives : bool;
}.

Record Client := MkClient { client_Timeout : Z; client_Transport : Transport }.

Definition httpTimeout : Z := 30 * Second.

Definition httpClient (b : bootstrapResolver) : Client :=
  let dialer := MkDialer (10 * Second) (30 * Second) (resolver b) in
  MkClient httpTimeout (MkTransport dialer (10 * Second) (15 * Second) true).

(** ** [fetch] yields a non-empty list of blockable names or an error *)

Section Fetch.
Context {UC : UnicodeCase}.

Lemma fetch_inv resp names :
  fetch resp = Ok names ->
  names <> [] /\ exists r, resp = Ok r /\ StatusCode r = StatusOK /\ parseList (Body r) = Ok names.
Proof.
  unfold fetch. destruct resp as [r|e]; [|done].
  destruct (Z.eqb_spec (StatusCode r) StatusOK) as [Hs|]; [|done]. simpl.
  destruct (parseList (Body r)) as [ns|] eqn:Hp; [|done]. case_bool_decide as Hne; [done|].
  intros [= <-]. eauto.
Qed.

End Fetch.

(** ** Rotation *)

(** The servers in the order one call tries them. *)
Definition rotation (srvs : list str) (k : nat) : list str := drop k srvs ++ take k srvs.

Lemma rotation_lookup srvs k i :
  (k < length srvs)%nat -> (i < length srvs)%nat ->
  srvs !! ((k + i) mod length srvs)%nat = rotation srvs k !! i.
Proof.
  intros Hk Hi. unfold rotation. destruct (decide (k + i < length srvs)%nat) as [H|H].
  - rewrite Nat.mod_small by done. rewrite lookup_app_l by (rewrite length_drop; lia).
    by rewrite lookup_drop.
  - rewrite lookup_app_r by (rewrite length_drop; lia).
    rewrite length_drop, lookup_take_lt by lia. f_equal.
    replace (k + i)%nat with (k + i - length srvs + 1 * length srvs)%nat by lia.
    rewrite Nat.Div0.mod_add, Nat.mod_small by lia. lia.
Qed.

(** The abstract failover: try a list of servers until one answers. *)
Fixpoint try_servers (dial : str -> option error) (l : list str) (err : option error)
    : list str * dial_result :=
  match l with
  | [] => ([], DialErr err)
  | srv :: l' =>
      match dial srv with
      | None => ([srv], DialOk srv)
      | Some e => let '(tried, r) := try_servers dial l' (Some e) in (srv :: tried, r)
      end
  end.

Lemma dial_loop_try dial srvs k rounds i err :
  (k < length srvs)%nat -> (i + rounds = length srvs)%nat ->
  dial_loop dial srvs (Z.of_nat k) (Z.of_nat (length srvs)) rounds (Z.of_nat i) err
  = try_servers dial (drop i (rotation srvs k)) err.
Proof.
  intros Hk. revert i err. induction rounds as [|rounds IH]; intros i err Hi.
  - rewrite drop_ge; [done|]. unfold rotation. rewrite length_app, length_drop, length_take. lia.
  - cbn [dial_loop].
    replace (Z.to_nat ((Z.of_nat k + Z.of_nat i) mod Z.of_nat (length srvs)))
      with ((k + i) mod length srvs)%nat
      by (rewrite <- Nat2Z.inj_add, <- Nat2Z.inj_mod; by rewrite Nat2Z.id).
    rewrite rotation_lookup by lia.
    destruct (rotation srvs k !! i) as [srv|] eqn:Hsrv.
    + rewrite (drop_S _ _ _ Hsrv). cbn [try_servers]. destruct (dial srv) as [e|]; [|done].
      replace (Z.of_nat i + 1) with (Z.of_nat (S i)) by lia. by rewrite IH by lia.
    + apply lookup_ge_None in Hsrv. unfold rotation in Hsrv.
      rewrite length_app, length_drop, length_take in Hsrv. lia.
Qed.

Lemma try_servers_ok dial l err srv :
  snd (try_servers dial l err) = DialOk srv -> srv ∈ l /\ dial srv = None.
Proof.
  revert err. induction l as [|s l IH]; intros err; simpl; [done|].
  destruct (dial s) as [e|] eqn:Hd.
  - specialize (IH (Some e)). destruct (try_servers dial l (Some e)). simpl in *.
    intros H. split; [by right; apply IH | by apply IH].
  - simpl. intros [= <-]. split; [by left | done].
Qed.

Lemma try_servers_some dial l err :
  (exists srv, srv ∈ l /\ dial srv = None) ->
  exists srv, snd (try_servers dial l err) = DialOk srv.
Proof.
  revert err. induction l as [|s l IH]; intros err (srv & Hin & Hd); [by apply not_elem_of_nil in Hin|].
  simpl. destruct (dial s) as [e|] eqn:Hs; [|by exists s].
  apply elem_of_cons in Hin as [->|Hin]; [congruence|].
  destruct (IH (Some e)) as [r Hr]; [by exists srv|]. exists r.
  by destruct (try_servers dial l (Some e)).
Qed.

Lemma try_servers_all dial l err :
  (forall srv, srv ∈ l -> dial srv <> None) -> fst (try_servers dial l err) = l.
Proof.
  revert err. induction l as [|s l IH]; intros err H; [done|]. simpl.
  destruct (dial s) as [e|] eqn:Hs; [|destruct (H s); [by left|done]].
  specialize (IH (Some e)). destruct (try_servers dial l (Some e)). simpl in *.
  f_equal. apply IH. intros srv Hin. apply H. by right.
Qed.

Lemma try_servers_no_panic dial l err : snd (try_servers dial l err) <> DialPanic.
Proof.
  revert err. induction l as [|s l IH]; intros err; [done|]. simpl.
  destruct (dial s) as [e|]; [|done]. specialize (IH (Some e)).
  by destruct (try_servers dial l (Some e)).
Qed.

Lemma elem_of_rotation srvs k x : x ∈ rotation srvs k <-> x ∈ srvs.
Proof.
  unfold rotation. rewrite <- (take_drop k srvs) at 3. rewrite !elem_of_app. tauto.
Qed.

(** With a server to dial the division is not by zero and the index in range. *)
Lemma Dial_no_panic dial b : servers b <> [] -> snd (snd (Dial dial b)) <> DialPanic.
Proof.
  intros Hne. assert (length (servers b) <> 0%nat) as Hlen by (by destruct (servers b)).
  unfold Dial. rewrite (proj2 (Z.eqb_neq _ _)) by lia. cbn [snd].
  set (s := u32 _ mod _). pose proof (Z.mod_pos_bound (u32 (u32 (next b + 1) - 1))
    (Z.of_nat (length (servers b))) ltac:(lia)) as Hs. fold s in Hs.
  rewrite <- (Z2Nat.id s) by lia. rewrite (dial_loop_try dial _ _ _ 0) by lia.
  apply try_servers_no_panic.
Qed.

(** * Properties *)

(** [Dial] tries the servers in rotation from the counter's position,
    each at most once, stops at the first that answers, and the counter
    advances by one modulo 2^32. *)
Theorem Dial_rotates (dial : str -> option error) (b : bootstrapResolver)
    (Hne : servers b <> []) (Hnext : 0 <= next b < 2 ^ 32) :
  Dial dial b =
  (BootstrapResolver (servers b) ((next b + 1) mod 2 ^ 32),
   try_servers dial (rotation (servers b) (Z.to_nat (next b) mod length (servers b))) None).
Proof.
  unfold Dial, u32. assert (length (servers b) <> 0%nat) as Hlen.
  { by destruct (servers b). }
  rewrite (proj2 (Z.eqb_neq _ _)) by lia. f_equal.
  rewrite Zminus_mod_idemp_l, Z.add_simpl_r, (Z.mod_small (next b)) by lia.
  rewrite <- (Z2Nat.id (next b)) at 1 by lia. rewrite <- Nat2Z.inj_mod.
  rewrite (dial_loop_try dial _ _ _ 0); [done| |lia].
  by apply Nat.mod_upper_bound.
Qed.

Lemma Dial_rotates_witness :
  Dial (fun s => if bool_decide (s = lit "9.9.9.9:53") then Some (new_error "refused") else None)
    (BootstrapResolver [lit "1.1.1.1:53"; lit "9.9.9.9:53"] 3) =
  (BootstrapResolver [lit "1.1.1.1:53"; lit "9.9.9.9:53"] 4,
   ([lit "9.9.9.9:53"; lit "1.1.1.1:53"], DialOk (lit "1.1.1.1:53"))).
Proof.
  rewrite (Dial_rotates _ (BootstrapResolver [lit "1.1.1.1:53"; lit "9.9.9.9:53"] 3));
    [|discriminate | simpl; lia].
  vm_compute. reflexivity.
Defined.

(** A non-empty server list never makes [Dial] panic; it connects exactly
    when some server answers, to a server that does, and reports an error only
    after trying every server once. *)
Theorem Dial_failover (dial : str -> option error) (b : bootstrapResolver)
    (Hne : servers b <> []) :
  let '(tried, r) := snd (Dial dial b) in
  match r with
  | DialOk srv => srv ∈ servers b /\ dial srv = None
  | DialErr _ => (forall srv, srv ∈ servers b -> dial srv <> None) /\ tried ≡ₚ servers b
  | DialPanic => False
  end.
Proof.
  unfold Dial. assert (length (servers b) <> 0%nat) as Hlen by (by destruct (servers b)).
  rewrite (proj2 (Z.eqb_neq _ _)) by lia. cbn [snd].
  set (s := u32 _ mod _). pose proof (Z.mod_pos_bound (u32 (u32 (next b + 1) - 1))
    (Z.of_nat (length (servers b))) ltac:(lia)) as Hs. fold s in Hs.
  rewrite <- (Z2Nat.id s) by lia.
  rewrite (dial_loop_try dial _ _ _ 0) by lia. rewrite drop_0.
  set (l := rotation _ _). pose proof (try_servers_ok dial l None) as Hok.
  pose proof (try_servers_some dial l None) as Hsome.
  pose proof (try_servers_all dial l None) as Hall.
  pose proof (try_servers_no_panic dial l None) as Hp.
  destruct (try_servers dial l None) as [tried [srv|e|]]; simpl in *; [| |done].
  - destruct (Hok srv eq_refl) as [Hin ?]. split; [|done]. by apply elem_of_rotation in Hin.
  - assert (forall srv, srv ∈ servers b -> dial srv <> None) as Hno.
    { intros srv Hin Hd. destruct Hsome as [? ?]; [|done]. exists srv.
      split; [by apply elem_of_rotation | done]. }
    split; [done|]. rewrite Hall; [unfold l, rotation; by rewrite Permutation_app_comm, take_drop|].
    intros srv Hin. apply Hno. by apply elem_of_rotation in Hin.
Qed.

Lemma Dial_failover_witness :
  let '(tried, r) := snd (Dial (fun _ => Some (new_error "refused"))
    (newBootstrapResolver [lit "1.1.1.1:53"; lit "9.9.9.9:53"])) in
  match r with
  | DialOk srv => srv ∈ [lit "1.1.1.1:53"; lit "9.9.9.9:53"] /\ Some (new_error "refused") = None
  | DialErr _ =>
      (forall srv, srv ∈ [lit "1.1.1.1:53"; lit "9.9.9.9:53"] -> Some (new_error "refused") <> None)
      /\ tried ≡ₚ [lit "1.1.1.1:53"; lit "9.9.9.9:53"]
  | DialPanic => False
  end.
Proof.
  apply (Dial_failover (fun _ => Some (new_error "refused"))
    (newBootstrapResolver [lit "1.1.1.1:53"; lit "9.9.9.9:53"])).
  discriminate.
Defined.
