(* ===== verification/Blocklist.v ===== *)
(** * The blocklist plugin ([plugin/blocklist/blocklist.go], [metrics.go])

    The plugin's state, its query handler [ServeDNS], the refresh [reload] and
    the fail-open timer as functions on that state, each running to completion.
    [BlocklistConcurrency] interleaves their single effects.  Fetch results,
    the clock and cancellation are arguments of [reload]. *)

From Stdlib Require Import Lia ZArith Ascii.
From stdpp Require Import base list strings gmap sorting numbers option.
From S2P Require Import Prelude GoStrings BlocklistParse BlocklistMatcher Dns BlocklistSource.

Local Open Scope Z_scope.

(** ** Metrics *)

(** The exported series; a vector is a map from its label value.  The histogram
    is its observation count. *)
Record Metrics := MkMetrics {
  blockedCount : gmap str Z;
  allowedCount : gmap str Z;
  domainsTotal : Z;
  sourceDomains : gmap str Z;
  sourceLastSuccess : gmap str Z;
  sourceFailures : gmap str Z;
  reloadDuration : Z;
  failOpen : Z;
}.

Definition metrics0 : Metrics := MkMetrics ∅ ∅ 0 ∅ ∅ ∅ 0 0.

Definition count_blocked (server : str) (m : Metrics) : Metrics :=
  MkMetrics (inc server (blockedCount m)) (allowedCount m) (domainsTotal m) (sourceDomains m)
    (sourceLastSuccess m) (sourceFailures m) (reloadDuration m) (failOpen m).
Definition count_allowed (server : str) (m : Metrics) : Metrics :=
  MkMetrics (blockedCount m) (inc server (allowedCount m)) (domainsTotal m) (sourceDomains m)
    (sourceLastSuccess m) (sourceFailures m) (reloadDuration m) (failOpen m).
Definition count_failure (url : str) (m : Metrics) : Metrics :=
  MkMetrics (blockedCount m) (allowedCount m) (domainsTotal m) (sourceDomains m)
    (sourceLastSuccess m) (inc url (sourceFailures m)) (reloadDuration m) (failOpen m).
Definition set_source (url : str) (domains now : Z) (m : Metrics) : Metrics :=
  MkMetrics (blockedCount m) (allowedCount m) (domainsTotal m) (<[url := domains]> (sourceDomains m))
    (<[url := now]> (sourceLastSuccess m)) (sourceFailures m) (reloadDuration m) (failOpen m).
Definition observe_reload (m : Metrics) : Metrics :=
  MkMetrics (blockedCount m) (allowedCount m) (domainsTotal m) (sourceDomains m)
    (sourceLastSuccess m) (sourceFailures m) (reloadDuration m + 1) (failOpen m).
Definition set_domains (n : Z) (m : Metrics) : Metrics :=
  MkMetrics (blockedCount m) (allowedCount m) n (sourceDomains m)
    (sourceLastSuccess m) (sourceFailures m) (reloadDuration m) (failOpen m).
Definition set_fail_open (v : Z) (m : Metrics) : Metrics :=
  MkMetrics (blockedCount m) (allowedCount m) (domainsTotal m) (sourceDomains m)
    (sourceLastSuccess m) (sourceFailures m) (reloadDuration m) v.

(** ** State *)

(** What a configuration fixes: the source URLs and the allowed names. *)
Record Config := MkConfig { urls : list str; allow_names : list str }.

(** The mutable part of [Blocklist] with the metrics it sets: the published
    matcher, the ready flag and the last good parse per URL. *)
Record Blocklist := MkBlocklist {
  current : option matcher;
  ready : bool;
  lastGood : gmap str (list str);
  metrics : Metrics;
}.

(** The state [parseConfig] builds. *)
Definition init_blocklist : Blocklist := MkBlocklist None false ∅ metrics0.

Definition Ready (st : Blocklist) : bool := ready st.

Definition with_metrics (f : Metrics -> Metrics) (st : Blocklist) : Blocklist :=
  MkBlocklist (current st) (ready st) (lastGood st) (f (metrics st)).

(** The single effects of [reload] and the timer on the shared state. *)
Definition store_current (m : matcher) (st : Blocklist) : Blocklist :=
  MkBlocklist (Some m) (ready st) (lastGood st) (metrics st).
Definition store_ready (st : Blocklist) : Blocklist :=
  MkBlocklist (current st) true (lastGood st) (metrics st).
Definition store_lastGood (url : str) (names : list str) (st : Blocklist) : Blocklist :=
  MkBlocklist (current st) (ready st) (<[url := names]> (lastGood st)) (metrics st).

(** ** [ServeDNS] *)

Definition authoritative (m : Msg) : Msg :=
  MkMsg (Id m) (Response m) true (Truncated m) (CheckingDisabled m) (Rcode m)
    (Questions m) (Answer m) (Ns m) (Extra m).

(** The handler: [server] is the metrics label, [next] the rest of the chain
    with the state [behind] that it reads and changes, [w] the client's
    connection. *)
Definition ServeDNS_in `{UC : UnicodeCase} `{L : DnsLib} {S : Type} (server : str)
    (next : S -> Msg -> S * outcome) (w : conn) (st : Blocklist) (behind : S) (r : Msg) :
    Blocklist * S * outcome :=
  if blocked (current st) (normalizeQuery (Name r)) then
    let st := with_metrics (count_blocked server) st in
    let msg := authoritative (SetRcode new_msg r RcodeNameError) in
    match w msg with
    | Some err => (st, behind, Outcome [msg] RcodeServerFailure (Some err))
    | None => (st, behind, Outcome [msg] RcodeNameError None)
    end
  else
    let st := with_metrics (count_allowed server) st in
    let '(behind, out) := next behind r in
    (st, behind, out).

(** The same on its own, where only the outcome of the rest of the chain
    matters. *)
Definition ServeDNS `{UC : UnicodeCase} `{L : DnsLib} (server : str) (next : handler) (w : conn)
    (st : Blocklist) (r : Msg) : Blocklist * outcome :=
  let '(st, _, out) := ServeDNS_in server (fun behind r => (behind, next r)) w st tt r in (st, out).

(** ** [reload] *)

(** One source's fetch result folded into the state and [merged]. *)
Definition merge_source (url : str) (now : Z) (res : result fetch_error (list str))
    (st : Blocklist) (merged : list str) : Blocklist * list str :=
  match res with
  | Err _ =>
      let st := with_metrics (count_failure url) st in
      match lastGood st !! url with
      | Some stale => (st, merged ++ stale)
      | None => (st, merged)
      end
  | Ok names =>
      let st := store_lastGood url names st in
      let st := with_metrics (set_source url (Z.of_nat (length names)) now) st in
      (st, merged ++ names)
  end.

(** The network and the clock during one reload, by position in [urls]: whether
    the context is cancelled when the loop checks it, what the exchange
    returned, and the time of the metric. *)
Record env := MkEnv {
  cancelled : nat -> bool;
  exchange : nat -> result error response;
  now : nat -> Z;
}.

(** The loop over the sources; [None] when it returned early on cancellation. *)
Fixpoint reload_loop `{UC : UnicodeCase} (e : env) (i : nat) (todo : list str)
    (st : Blocklist) (merged : list str) : Blocklist * option (list str) :=
  match todo with
  | [] => (st, Some merged)
  | url :: todo' =>
      if cancelled e i then (st, None)
      else
        let '(st', merged') := merge_source url (now e i) (fetch (exchange e i)) st merged in
        reload_loop e (S i) todo' st' merged'
  end.

(** [m := &matcher{block: newNameSet(merged), allow: newNameSet(b.allow)}]. *)
Definition build_matcher (c : Config) (merged : list str) : matcher :=
  Matcher (newNameSet merged) (newNameSet (allow_names c)).

(** The four effects that publish a matcher, in order. *)
Definition publish (m : matcher) (st : Blocklist) : Blocklist :=
  let st := store_current m st in
  let st := with_metrics (set_domains (Z.of_nat (size (Some m)))) st in
  let st := with_metrics (set_fail_open 0) st in
  store_ready st.

Definition reload `{UC : UnicodeCase} (c : Config) (e : env) (st : Blocklist) : Blocklist :=
  match reload_loop e 0 (urls c) st [] with
  | (st, None) => st
  | (st, Some merged) =>
      let st := with_metrics observe_reload st in
      if bool_decide (merged = []) then st else publish (build_matcher c merged) st
  end.

(** The body of [failOpenAfterTimeout] once the timer fires. *)
Definition timer_fires (st : Blocklist) : Blocklist :=
  if ready st then st else with_metrics (set_fail_open 1) (store_ready st).

(** ** Well-formed states *)

(** Names that came out of [parseList]. *)
Definition good_names (l : list str) : Prop := l <> [] /\ Forall blockable l.

(** Every list kept for a URL is a non-empty list of blockable names, and the
    published matcher, if any, was built from such a list. *)
Record wf (c : Config) (st : Blocklist) : Prop := MkWf {
  wf_lastGood : map_Forall (fun _ names => good_names names) (lastGood st);
  wf_current : forall m, current st = Some m ->
    exists merged, good_names merged /\ m = build_matcher c merged;
}.

(** ** Lemmas on one source and on the loop *)

Section Reload.
Context {UC : UnicodeCase}.

Lemma fetch_good resp names : fetch resp = Ok names -> good_names names.
Proof.
  intros (Hne & r & _ & _ & Hp)%fetch_inv. split; [done|]. by eapply parseList_names.
Qed.

Lemma merge_source_wf c url t resp st merged :
  wf c st -> Forall blockable merged ->
  let '(st', merged') := merge_source url t (fetch resp) st merged in
  wf c st' /\ Forall blockable merged'.
Proof.
  intros [Hl Hc] Hm. unfold merge_source. destruct (fetch resp) as [names|e] eqn:Hf.
  - pose proof (fetch_good _ _ Hf) as Hg. split; [|by apply Forall_app; split; [|apply Hg]].
    split; [|done]. by apply map_Forall_insert_2.
  - simpl. destruct (lastGood st !! url) as [stale|] eqn:Hs; [|done].
    split; [done|]. apply Forall_app. split; [done|]. by apply (Hl _ _ Hs).
Qed.

Lemma reload_loop_wf c e i todo st merged :
  wf c st -> Forall blockable merged ->
  let '(st', merged') := reload_loop e i todo st merged in
  wf c st' /\ Forall blockable (default [] merged').
Proof.
  revert i st merged. induction todo as [|url todo IH]; intros i st merged Hwf Hm; simpl; [done|].
  destruct (cancelled e i); [done|].
  pose proof (merge_source_wf c url (now e i) (exchange e i) st merged Hwf Hm) as H.
  destruct (merge_source _ _ _ _ _) as [st' merged']. apply IH; apply H.
Qed.

Lemma reload_wf_lemma c e st : wf c st -> wf c (reload c e st).
Proof.
  intros Hwf. unfold reload.
  pose proof (reload_loop_wf c e 0 (urls c) st [] Hwf ltac:(done)) as H.
  destruct (reload_loop _ _ _ _ _) as [st' [merged|]]; [|apply H]. simpl in H.
  destruct H as [[Hl Hc] Hm]. case_bool_decide as Hne; [done|].
  split; [done|]. intros m [= <-]. by exists merged.
Qed.

(** The loop never touches what is published. *)
Definition same_published (st st' : Blocklist) : Prop :=
  current st' = current st /\ ready st' = ready st /\
  failOpen (metrics st') = failOpen (metrics st) /\
  domainsTotal (metrics st') = domainsTotal (metrics st).

Lemma merge_source_published url t res st merged :
  same_published st (fst (merge_source url t res st merged)).
Proof.
  unfold merge_source. destruct res; simpl; [done|]. by destruct (lastGood st !! url).
Qed.

Lemma reload_loop_published e i todo st merged :
  same_published st (fst (reload_loop e i todo st merged)).
Proof.
  revert i st merged. induction todo as [|url todo IH]; intros i st merged; simpl; [done|].
  destruct (cancelled e i); [done|].
  pose proof (merge_source_published url (now e i) (fetch (exchange e i)) st merged) as H.
  destruct (merge_source _ _ _ _ _) as [st' merged']. simpl in H.
  specialize (IH (S i) st' merged'). unfold same_published in *.
  destruct H as (<- & <- & <- & <-). exact IH.
Qed.

(** Without cancellation the loop reaches its end. *)
Lemma reload_loop_completes e i todo st merged :
  (forall j, (i <= j)%nat -> cancelled e j = false) ->
  exists st' merged', reload_loop e i todo st merged = (st', Some merged') /\ merged ⊆ merged'.
Proof.
  intros Hc. revert i st merged Hc. induction todo as [|url todo IH]; intros i st merged Hc; simpl.
  { by exists st, merged. }
  rewrite Hc by done. destruct (merge_source _ _ _ _ _) as [st1 merged1] eqn:E.
  destruct (IH (S i) st1 merged1) as (st' & merged' & Hl & Hs); [intros; apply Hc; lia|].
  exists st', merged'. split; [done|]. etransitivity; [|done].
  unfold merge_source in E. destruct (fetch (exchange e i)); simpl in E.
  - injection E as _ <-. apply list_subseteq_app_l. reflexivity.
  - destruct (lastGood st !! url); injection E as _ <-; [|done]; apply list_subseteq_app_l; reflexivity.
Qed.

(** A successful fetch contributes its names. *)
Lemma reload_loop_fetched e i todo st merged j url names :
  (forall k, (i <= k)%nat -> cancelled e k = false) ->
  todo !! j = Some url -> fetch (exchange e (i + j)) = Ok names ->
  exists st' merged', reload_loop e i todo st merged = (st', Some merged') /\ names ⊆ merged'.
Proof.
  revert i j st merged. induction todo as [|u todo IH]; intros i j st merged Hc Hj Hf; [done|].
  simpl. rewrite Hc by done. destruct j as [|j]; simplify_eq/=.
  - rewrite Nat.add_0_r in Hf. rewrite Hf. simpl.
    edestruct (reload_loop_completes e (S i) todo) as (st' & merged' & -> & Hs);
      [intros; apply Hc; lia|]. exists st', merged'. split; [done|].
    etransitivity; [|done]. apply list_subseteq_app_r. reflexivity.
  - destruct (merge_source _ _ _ _ _) as [st1 merged1]. apply (IH (S i) j); try done.
    + intros; apply Hc; lia.
    + by replace (S i + j)%nat with (i + S j)%nat by lia.
Qed.

(** A source that only fails contributes its last good names. *)
Lemma reload_loop_stale e i todo st merged url names :
  (forall k, (i <= k)%nat -> cancelled e k = false) ->
  url ∈ todo -> lastGood st !! url = Some names ->
  (forall k, todo !! k = Some url -> is_ok (fetch (exchange e (i + k))) = false) ->
  exists st' merged', reload_loop e i todo st merged = (st', Some merged') /\ names ⊆ merged'.
Proof.
  revert i st merged. induction todo as [|u todo IH]; intros i st merged Hc Hin Hl Hf.
  { by apply not_elem_of_nil in Hin. }
  simpl. rewrite Hc by done. destruct (decide (u = url)) as [->|Hne].
  - specialize (Hf 0%nat eq_refl). rewrite Nat.add_0_r in Hf.
    unfold merge_source. destruct (fetch (exchange e i)); [done|]. simpl. rewrite Hl.
    edestruct (reload_loop_completes e (S i) todo) as (st' & merged' & -> & Hs);
      [intros; apply Hc; lia|]. exists st', merged'. split; [done|].
    etransitivity; [|done]. apply list_subseteq_app_r. reflexivity.
  - destruct (merge_source _ _ _ _ _) as [st1 merged1] eqn:E. apply IH.
    + intros; apply Hc; lia.
    + apply elem_of_cons in Hin as [->|?]; done.
    + unfold merge_source in E. destruct (fetch (exchange e i)); simpl in E.
      * injection E as <- _. simpl. by rewrite lookup_insert_ne.
      * destruct (lastGood st !! u); injection E as <- _; done.
    + intros k Hk. replace (S i + k)%nat with (i + S k)%nat by lia. by apply Hf.
Qed.

End Reload.

(** * Properties *)

Section Properties.
Context {UC : UnicodeCase} {L : DnsLib} {LL : DnsLaws L}.

(** Every operation keeps the plugin well formed: each list remembered for
    a URL is non-empty and holds only blockable names, and the published
    matcher is the one built from such a list and the configured allow names. *)
Theorem operations_preserve_wf (c : Config) (st : Blocklist) (Hwf : wf c st) :
  (forall e, wf c (reload c e st)) /\ wf c (timer_fires st) /\
  (forall server next w r, wf c (fst (ServeDNS server next w st r))).
Proof.
  split; [intros e; by apply reload_wf_lemma|]. split.
  - unfold timer_fires. destruct (ready st); [done|]. by destruct Hwf as [? ?].
  - intros server next w r. unfold ServeDNS, ServeDNS_in. destruct (blocked _ _); [|by destruct Hwf].
    destruct (w _); by destruct Hwf.
Qed.

(** A reload is all or nothing: it either leaves the published list, the
    ready flag, the domain count and the fail-open gauge as they were, or
    publishes a matcher built from a non-empty merge and is ready, with the
    gauges set to that list and fail-open cleared. *)
Theorem reload_all_or_nothing (c : Config) (e : env) (st : Blocklist) :
  let st' := reload c e st in
  same_published st st' \/
  exists merged, merged <> [] /\ current st' = Some (build_matcher c merged) /\
    ready st' = true /\ failOpen (metrics st') = 0 /\
    domainsTotal (metrics st') = Z.of_nat (size (current st')).
Proof.
  cbn zeta. unfold reload.
  pose proof (reload_loop_published e 0 (urls c) st []) as H.
  destruct (reload_loop _ _ _ _ _) as [st1 [merged|]]; [|by left]. simpl in H.
  case_bool_decide as Hm; [by left|]. right. by exists merged.
Qed.

(** One dead URL never empties the list: in a reload that is not
    cancelled, a source whose fetches all fail keeps blocking every name of its
    last good parse, except where an allowed name covers it. *)
Theorem reload_keeps_last_good (c : Config) (e : env) (st : Blocklist) (url n : str)
    (names : list str)
    (Hrun : forall i, cancelled e i = false)
    (Hurl : url ∈ urls c) (Hlast : lastGood st !! url = Some names)
    (Hfail : forall i, urls c !! i = Some url -> is_ok (fetch (exchange e i)) = false)
    (Hn : n ∈ names) (Hne : n <> []) (Hallow : ~ covered_by (allow_names c) n) :
  blocked (current (reload c e st)) n = true /\ ready (reload c e st) = true.
Proof.
  destruct (reload_loop_stale e 0 (urls c) st [] url names) as (st' & merged & E & Hin); try done.
  unfold reload. rewrite E. rewrite bool_decide_eq_false_2.
  2: { intros ->. apply Hin in Hn. by apply not_elem_of_nil in Hn. }
  split; [|done]. simpl. rewrite bool_decide_eq_false_2 by done.
  destruct (covers (newNameSet (allow_names c)) n) eqn:Ha; [by apply covers_newNameSet in Ha|].
  apply covers_newNameSet. exists n. split; [by apply Hin|]. auto with go.
Qed.

(** What [ServeDNS] does on each branch.  A blocked name gets one
    authoritative NXDOMAIN without records for the question asked, whatever its
    type, the rest of the chain is not consulted and the blocked counter goes up
    by one; any other query gets exactly what the rest of the chain does and
    counts as allowed; a failed write is a SERVFAIL with its error. *)
Theorem ServeDNS_spec (server : str) (next : handler) (w : conn) (st : Blocklist) (r : Msg) :
  let '(st', out) := ServeDNS server next w st r in
  current st' = current st /\ ready st' = ready st /\ lastGood st' = lastGood st /\
  if blocked (current st) (normalizeQuery (Name r)) then
    blockedCount (metrics st') !! server
      = Some (default 0 (blockedCount (metrics st) !! server) + 1) /\
    allowedCount (metrics st') = allowedCount (metrics st) /\
    exists m, written out = [m] /\ Rcode m = RcodeNameError /\ Authoritative m = true /\
      Id m = Id r /\ Answer m = [] /\ Ns m = [] /\ Extra m = [] /\ Truncated m = false /\
      match w m with
      | None => ret_rcode out = RcodeNameError /\ ret_err out = None
      | Some err => ret_rcode out = RcodeServerFailure /\ ret_err out = Some err
      end
  else
    out = next r /\
    allowedCount (metrics st') !! server
      = Some (default 0 (allowedCount (metrics st) !! server) + 1) /\
    blockedCount (metrics st') = blockedCount (metrics st).
Proof.
  unfold ServeDNS, ServeDNS_in. destruct (blocked _ _).
  - set (m := authoritative _).
    assert (Rcode m = RcodeNameError /\ Authoritative m = true /\ Id m = Id r /\
      Answer m = [] /\ Ns m = [] /\ Extra m = [] /\ Truncated m = false) as Hm.
    { unfold m. simpl. rewrite SetRcode_Rcode, SetRcode_Id, SetRcode_Answer, SetRcode_Ns,
        SetRcode_Extra, SetRcode_Truncated. done. }
    destruct (w m) as [err|] eqn:Hw; simpl; rewrite lookup_inc;
      repeat split; try done; exists m; rewrite Hw; tauto.
  - simpl. by rewrite lookup_inc.
Qed.

(** C2: from the download to the answer: when a source served a list naming
    [d] and the reload was not cancelled, every later query for [d] or any
    subdomain of it, in any ASCII case, is answered NXDOMAIN by this plugin
    unless an allowed name covers it. *)
Theorem listed_query_blocked (c : Config) (e : env) (st : Blocklist) (i : nat) (url d q : str)
    (names : list str) (server : str) (next : handler) (w : conn) (r : Msg)
    (Hrun : forall j, cancelled e j = false)
    (Hurl : urls c !! i = Some url) (Hfetch : fetch (exchange e i) = Ok names)
    (Hd : d ∈ names) (Hq : under d q) (Hallow : ~ covered_by (allow_names c) q)
    (Hascii : all_ascii (Name r)) (Hname : map lower_byte (Name r) = q ++ lit ".")
    (Hw : forall m, w m = None) :
  let out := snd (ServeDNS server next w (reload c e st) r) in
  ret_rcode out = RcodeNameError /\ ret_err out = None /\
  exists m, written out = [m] /\ Rcode m = RcodeNameError.
Proof.
  assert (blocked (current (reload c e st)) (normalizeQuery (Name r)) = true) as Hb.
  { unfold normalizeQuery. rewrite to_lower_ascii, Hname, trim_suffix_app by done.
    destruct (reload_loop_fetched e 0 (urls c) st [] i url names) as (st' & merged & E & Hin); try done.
    assert (d <> []) as Hdne.
    { intros ->. apply fetch_good in Hfetch as [_ Hg]. rewrite List.Forall_forall in Hg.
      apply list_elem_of_In, Hg in Hd as (_ & Hdot & _). by apply not_elem_of_nil in Hdot. }
    unfold reload. rewrite E. rewrite bool_decide_eq_false_2.
    2: { intros ->. apply Hin in Hd. by apply not_elem_of_nil in Hd. }
    simpl. rewrite bool_decide_eq_false_2.
    2: { intros ->. destruct Hq as [Hq|[p Hq]]; [congruence|]. by destruct p. }
    destruct (covers (newNameSet (allow_names c)) q) eqn:Ha; [by apply covers_newNameSet in Ha|].
    apply covers_newNameSet. exists d. split; [by apply Hin|done]. }
  unfold ServeDNS, ServeDNS_in. rewrite Hb, Hw. cbn [snd ret_rcode ret_err written].
  split; [done|]. split; [done|]. eexists. split; [done|]. simpl. apply SetRcode_Rcode.
Qed.

End Properties.

(** ** Witnesses: one source, one listed domain *)

Definition sample_config : Config := MkConfig [lit "https://a"] [lit "ok.ads.example.com"].

Definition sample_env (code : Z) : env :=
  MkEnv (fun _ => false)
    (fun _ => Ok (HttpResponse code (Reader (lit "0.0.0.0 ads.example.com") None)))
    (fun _ => 0).

Definition sample_query : Msg :=
  MkMsg 7 false false false false 0 [MkQuestion (lit "IMG.Ads.example.com.") 1 1] [] [] [].

Lemma reload_keeps_last_good_witness :
  let st := reload (UC := latin1_case) sample_config (sample_env 200) init_blocklist in
  let st' := reload (UC := latin1_case) sample_config (sample_env 500) st in
  blocked (current st') (lit "ads.example.com") = true /\ ready st' = true.
Proof.
  apply (reload_keeps_last_good (UC := latin1_case) sample_config (sample_env 500)
    (reload (UC := latin1_case) sample_config (sample_env 200) init_blocklist)
    (lit "https://a") (lit "ads.example.com") [lit "ads.example.com"]).
  - done.
  - by left.
  - by vm_compute.
  - intros i _. by vm_compute.
  - by left.
  - discriminate.
  - rewrite <- covers_newNameSet. by vm_compute.
Defined.

Lemma listed_query_blocked_witness :
  let st := reload (UC := latin1_case) sample_config (sample_env 200) init_blocklist in
  let out := snd (ServeDNS (UC := latin1_case) (L := concrete_dns) (lit "dns://:53")
    (fun _ => Outcome [] RcodeSuccess None) (fun _ => None) st sample_query) in
  ret_rcode out = RcodeNameError /\ ret_err out = None /\
  exists m, written out = [m] /\ Rcode m = RcodeNameError.
Proof.
  apply (listed_query_blocked (UC := latin1_case) (L := concrete_dns) sample_config
    (sample_env 200) init_blocklist 0 (lit "https://a") (lit "ads.example.com")
    (lit "img.ads.example.com") [lit "ads.example.com"]).
  - done.
  - done.
  - by vm_compute.
  - by left.
  - right. by exists (lit "img").
  - rewrite <- covers_newNameSet. by vm_compute.
  - apply forallb_Forall. by vm_compute.
  - by vm_compute.
  - done.
Defined.

Lemma ServeDNS_spec_witness :
  let st := reload (UC := latin1_case) sample_config (sample_env 200) init_blocklist in
  let '(st', out) := ServeDNS (UC := latin1_case) (L := concrete_dns) (lit "dns://:53")
    (fun _ => Outcome [] RcodeSuccess None) (fun _ => None) st sample_query in
  current st' = current st /\
  exists m, written out = [m] /\ Rcode m = RcodeNameError /\ Authoritative m = true.
Proof.
  cbn zeta.
  assert (blocked (current (reload (UC := latin1_case) sample_config (sample_env 200) init_blocklist))
    (normalizeQuery (UC := latin1_case) (Name (DnsLib := concrete_dns) sample_query)) = true) as Hb
    by (by vm_compute).
  pose proof (ServeDNS_spec (UC := latin1_case) (L := concrete_dns) (lit "dns://:53")
    (fun _ => Outcome [] RcodeSuccess None) (fun _ => None)
    (reload (UC := latin1_case) sample_config (sample_env 200) init_blocklist) sample_query) as H.
  rewrite Hb in H. destruct (ServeDNS _ _ _ _ _) as [st' out].
  destruct H as (Hc & _ & _ & _ & _ & m & Hm & Hr & Ha & _). split; [exact Hc|exists m; exact (conj Hm (conj Hr Ha))].
Defined.

Lemma operations_preserve_wf_witness :
  wf sample_config (reload (UC := latin1_case) sample_config (sample_env 200) init_blocklist)
  /\ wf sample_config (timer_fires init_blocklist).
Proof.
  assert (wf sample_config init_blocklist) as Hwf by (split; [apply map_Forall_empty | discriminate]).
  pose proof (operations_preserve_wf (UC := latin1_case) (L := concrete_dns) _ _ Hwf) as (H1 & H2 & _).
  exact (conj (H1 _) H2).
Defined.
