(* ===== verification/BlocklistConcurrency.v ===== *)
(** * The blocklist plugin's goroutines ([start], [shutdown],
      [failOpenAfterTimeout] and [reload] interleaved)

    [start] launches a refresh goroutine and a fail-open timer; queries and
    [shutdown] run beside them.  The shared state is changed by single atomic
    operations (atomic pointer and flag, Prometheus gauges), so the system is a
    step relation with one step per effect.  The file proves the invariants of
    every interleaving, that a reload that runs alone is the sequential
    [reload], that [shutdown] cannot deadlock, and exhibits the interleaving
    after which the fail-open gauge stays wrong. *)

From Stdlib Require Import Lia ZArith Ascii.
From stdpp Require Import base list strings gmap sorting numbers option relations.
From S2P Require Import Prelude GoStrings BlocklistParse BlocklistMatcher Dns BlocklistSource Blocklist.

Local Open Scope Z_scope.

(** ** States *)

(** Where the refresh goroutine is: in the loop over the sources, before each
    of the four publishing effects, at the [select], or gone ([done] closed). *)
Inductive refresh_pc : Type :=
| RFetch (todo merged : list str)
| RStore (m : matcher)
| RDomains (m : matcher)
| RFailOpen (m : matcher)
| RReady (m : matcher)
| RSelect
| RExit.

(** Where the timer goroutine is: waiting, between its swap of the ready flag
    and its write of the gauge, or gone. *)
Inductive timer_pc : Type := TWait | TSet | TDone.

Record sys := MkSys {
  shared : Blocklist;
  ctx_done : bool;
  refresh : refresh_pc;
  timer : timer_pc;
}.

(** [start]: both goroutines launched; the first reload begins at once. *)
Definition start (c : Config) : sys := MkSys init_blocklist false (RFetch (urls c) []) TWait.

(** What the outside sees of a step: a source's response; a query, what the rest
    of the chain says to it, and its outcome; the shutdown. *)
Inductive event : Type :=
| Fetched (url : str) (resp : result error response)
| Served (q : Msg) (rest out : outcome)
| Shutdown.

(** ** Steps *)

Section Steps.
Context {UC : UnicodeCase} {L : DnsLib} (c : Config).

Inductive step : option event -> sys -> sys -> Prop :=
(** [reload]: [ctx.Err() != nil] at the top of the loop. *)
| step_fetch_cancelled st url todo merged t :
    step None (MkSys st true (RFetch (url :: todo) merged) t) (MkSys st true RSelect t)
(** One source fetched, whatever the network returned; the context can be
    cancelled after the check, while the fetch runs, so this step is possible
    whatever [d] is (which allows more runs than the program has). *)
| step_fetch st d url todo merged t resp clock st' merged' :
    merge_source url clock (fetch resp) st merged = (st', merged') ->
    step (Some (Fetched url resp))
      (MkSys st d (RFetch (url :: todo) merged) t) (MkSys st' d (RFetch todo merged') t)
(** All sources done: the duration is observed; an empty merge is dropped. *)
| step_fetched_nothing st d t :
    step None (MkSys st d (RFetch [] []) t) (MkSys (with_metrics observe_reload st) d RSelect t)
| step_fetched st d merged t :
    merged <> [] ->
    step None (MkSys st d (RFetch [] merged) t)
      (MkSys (with_metrics observe_reload st) d (RStore (build_matcher c merged)) t)
(** The four publishing effects. *)
| step_store st d m t :
    step None (MkSys st d (RStore m) t) (MkSys (store_current m st) d (RDomains m) t)
| step_domains st d m t :
    step None (MkSys st d (RDomains m) t)
      (MkSys (with_metrics (set_domains (Z.of_nat (size (Some m)))) st) d (RFailOpen m) t)
| step_fail_open st d m t :
    step None (MkSys st d (RFailOpen m) t)
      (MkSys (with_metrics (set_fail_open 0) st) d (RReady m) t)
| step_ready st d m t :
    step None (MkSys st d (RReady m) t) (MkSys (store_ready st) d RSelect t)
(** The [select] of the refresh loop: a tick starts a reload, cancellation
    ends the goroutine. *)
| step_tick st d t :
    step None (MkSys st d RSelect t) (MkSys st d (RFetch (urls c) []) t)
| step_exit st t :
    step None (MkSys st true RSelect t) (MkSys st true RExit t)
(** [failOpenAfterTimeout]: cancelled, or fired and then two effects. *)
| step_timer_cancelled st r :
    step None (MkSys st true r TWait) (MkSys st true r TDone)
| step_timer_swap st d r :
    step None (MkSys st d r TWait)
      (MkSys (store_ready st) d r (if ready st then TDone else TSet))
| step_timer_set st d r :
    step None (MkSys st d r TSet) (MkSys (with_metrics (set_fail_open 1) st) d r TDone)
(** A query, answered from the matcher published at that moment. *)
| step_query st d r t server next w q :
    step (Some (Served q (next q) (snd (ServeDNS server next w st q))))
      (MkSys st d r t) (MkSys (fst (ServeDNS server next w st q)) d r t)
(** [shutdown] cancels the context (and then waits for [RExit]). *)
| step_shutdown st d r t :
    step (Some Shutdown) (MkSys st d r t) (MkSys st true r t).

(** A step of any kind. *)
Definition move (s s' : sys) : Prop := exists e, step e s s'.

Definition reachable (s : sys) : Prop := rtc move (start c) s.

(** ** The invariant *)

(** What holds at each position of the refresh goroutine. *)
Definition refresh_ok (st : Blocklist) (r : refresh_pc) : Prop :=
  match r with
  | RFetch _ merged => Forall blockable merged
  | RStore m => exists merged, good_names merged /\ m = build_matcher c merged
  | RDomains m | RFailOpen m | RReady m => current st = Some m
  | RSelect | RExit => True
  end.

(** The domain gauge lags behind the published list only between the two
    effects that set them. *)
Definition domains_ok (st : Blocklist) (r : refresh_pc) : Prop :=
  match r with
  | RDomains _ => True
  | _ => domainsTotal (metrics st) = Z.of_nat (size (current st))
  end.

(** The ready flag is set only by a published list or by the timer, while the
    plugin is ready without a list the gauge says so as soon as the timer
    goroutine has finished, and the gauge is at 0 until then. *)
Record inv (s : sys) : Prop := MkInv {
  inv_wf : wf c (shared s);
  inv_refresh : refresh_ok (shared s) (refresh s);
  inv_domains : domains_ok (shared s) (refresh s);
  inv_timer : timer s <> TDone -> failOpen (metrics (shared s)) = 0;
  inv_ready : ready (shared s) = true -> current (shared s) = None ->
              timer s = TSet \/ (timer s = TDone /\ failOpen (metrics (shared s)) = 1);
  inv_set : timer s = TSet -> ready (shared s) = true;
  inv_expired : timer s <> TWait -> ctx_done s = true \/ ready (shared s) = true;
}.

(** ** The invariant holds in every reachable state *)

Lemma inv_start : inv (start c).
Proof. split; simpl; done. Qed.

(** Two states that agree on everything but counters. *)
Definition same_state (st st' : Blocklist) : Prop :=
  current st' = current st /\ ready st' = ready st /\ lastGood st' = lastGood st /\
  failOpen (metrics st') = failOpen (metrics st) /\
  domainsTotal (metrics st') = domainsTotal (metrics st).

Lemma ServeDNS_same server next w st q : same_state st (fst (ServeDNS server next w st q)).
Proof. unfold ServeDNS, ServeDNS_in. destruct (blocked _ _); [|done]. by destruct (w _). Qed.

Lemma observe_reload_same st : same_state st (with_metrics observe_reload st).
Proof. done. Qed.

Lemma same_state_inv st st' d r t : same_state st st' -> inv (MkSys st d r t) -> inv (MkSys st' d r t).
Proof.
  intros (E1 & E2 & E3 & E4 & E5) [Hw Hr Hd Ht Hn Hs Hx]; simpl in *.
  split; simpl; rewrite ?E1, ?E2, ?E4; try done.
  - destruct Hw as [H1 H2]. split; [by rewrite E3|by rewrite E1].
  - destruct r; simpl in *; rewrite ?E1; done.
  - destruct r; simpl in *; rewrite ?E1, ?E5; done.
Qed.

Lemma fetch_step_inv st d url todo merged t resp clock st' merged' :
  merge_source url clock (fetch resp) st merged = (st', merged') ->
  inv (MkSys st d (RFetch (url :: todo) merged) t) -> inv (MkSys st' d (RFetch todo merged') t).
Proof.
  intros E [Hw Hr Hd Ht Hn Hs Hx]; simpl in *.
  pose proof (merge_source_wf c url clock resp st merged Hw Hr) as H1.
  pose proof (merge_source_published url clock (fetch resp) st merged) as (E1 & E2 & E4 & E5).
  rewrite E in *. destruct H1 as [Hw' Hm']. split; simpl in *; rewrite ?E1, ?E2, ?E4, ?E5; done.
Qed.

Lemma step_inv s s' : move s s' -> inv s -> inv s'.
Proof.
  intros [e Hstep] Hinv. destruct Hstep.
  4: { eapply (same_state_inv _ _ _ _ _ (observe_reload_same st)) in Hinv.
    destruct Hinv as [Hw Hr Hd Ht Hn Hs Hx]. split; try done. by exists merged. }
  4: { destruct Hinv as [Hw Hr Hd Ht Hn Hs Hx]; simpl in *. split; simpl; try done.
    destruct Hw as [H1 H2]. split; [done|]. intros m' [= <-]. done. }
  all: try by eauto using same_state_inv, ServeDNS_same, fetch_step_inv.
  all: destruct Hinv as [Hw Hr Hd Ht Hn Hs Hx]; simpl in *; split; simpl; try done.
  all: try (by destruct Hw).
  all: try (by rewrite Hr); try (intros; congruence).
  all: destruct (ready st) eqn:?; naive_solver.
Qed.

Lemma steps_inv s s' : rtc move s s' -> inv s -> inv s'.
Proof. induction 1; eauto using step_inv. Qed.

Lemma reachable_inv s : reachable s -> inv s.
Proof. intros H. by eapply steps_inv, inv_start. Qed.

(** ** What no step undoes *)

Lemma step_monotone s s' :
  move s s' ->
  (ready (shared s) = true -> ready (shared s') = true) /\
  (is_Some (current (shared s)) -> is_Some (current (shared s'))) /\
  (ctx_done s = true -> ctx_done s' = true).
Proof.
  destruct 1 as [? []]; simpl; try done.
  - pose proof (merge_source_published url clock (fetch resp) st merged) as (E1 & E2 & _).
    rewrite H in *; simpl in *. by rewrite E1, E2.
  - pose proof (ServeDNS_same server next w st q) as (E1 & E2 & _). by rewrite E1, E2.
Qed.

Lemma steps_monotone s s' :
  rtc move s s' ->
  (ready (shared s) = true -> ready (shared s') = true) /\
  (is_Some (current (shared s)) -> is_Some (current (shared s'))) /\
  (ctx_done s = true -> ctx_done s' = true).
Proof.
  induction 1 as [|x y z Hs _ IH]; [done|]. apply step_monotone in Hs. naive_solver.
Qed.

(** Once the timer goroutine is done, only a reload writes the gauge, and it
    writes 0. *)
Lemma step_gauge_down s s' :
  move s s' -> timer s = TDone -> failOpen (metrics (shared s)) = 0 ->
  timer s' = TDone /\ failOpen (metrics (shared s')) = 0.
Proof.
  destruct 1 as [? []]; simpl; try done; intros Ht Hg.
  - pose proof (merge_source_published url clock (fetch resp) st merged) as (_ & _ & E & _).
    rewrite H in *; simpl in *. by rewrite E.
  - pose proof (ServeDNS_same server next w st q) as (_ & _ & _ & E & _). by rewrite E.
Qed.

(** ** A reload that nothing interrupts *)

(** The environment of a reload in which the context is never cancelled. *)
Definition uncancelled (e : env) : Prop := forall i, cancelled e i = false.

Lemma loop_steps e d t i todo st merged st' merged' :
  uncancelled e ->
  reload_loop e i todo st merged = (st', Some merged') ->
  rtc move (MkSys st d (RFetch todo merged) t) (MkSys st' d (RFetch [] merged') t).
Proof.
  intros He. revert i st merged. induction todo as [|url todo IH]; intros i st merged; simpl.
  { intros [= -> ->]. reflexivity. }
  rewrite He. destruct (merge_source _ _ _ _ _) as [st1 merged1] eqn:E.
  intros H. eapply rtc_l; [eexists; by eapply step_fetch|]. by eapply IH.
Qed.

Lemma publish_steps m st d t :
  rtc move (MkSys st d (RStore m) t) (MkSys (publish m st) d RSelect t).
Proof.
  eapply rtc_l; [eexists; apply step_store|]. eapply rtc_l; [eexists; apply step_domains|].
  eapply rtc_l; [eexists; apply step_fail_open|]. eapply rtc_l; [eexists; apply step_ready|]. reflexivity.
Qed.

Lemma reload_steps e d t st :
  uncancelled e ->
  rtc move (MkSys st d (RFetch (urls c) []) t) (MkSys (reload c e st) d RSelect t).
Proof.
  intros He. unfold reload.
  destruct (reload_loop_completes e 0 (urls c) st []) as (st' & merged & E & _); [intros; apply He|].
  rewrite E. etransitivity; [by eapply loop_steps|]. case_bool_decide as Hm; [subst|].
  - eapply rtc_l; [eexists; apply step_fetched_nothing|]. reflexivity.
  - eapply rtc_l; [eexists; by apply step_fetched|]. apply publish_steps.
Qed.

(** ** Shutdown *)

(** Once the context is cancelled the refresh goroutine can always run to its
    end, without a step of any other goroutine. *)
Lemma select_exits st t : rtc move (MkSys st true RSelect t) (MkSys st true RExit t).
Proof. apply rtc_once; eexists; apply step_exit. Qed.

Lemma store_exits m st t : exists st', rtc move (MkSys st true (RStore m) t) (MkSys st' true RExit t).
Proof. eexists. etransitivity; [apply publish_steps|apply select_exits]. Qed.

Lemma cancelled_exits st r t : exists st', rtc move (MkSys st true r t) (MkSys st' true RExit t).
Proof.
  destruct r as [[|url todo] merged|m|m|m|m| |].
  - destruct merged as [|n merged].
    + eexists. eapply rtc_l; [eexists; apply step_fetched_nothing|apply select_exits].
    + edestruct store_exits as [st' H]. exists st'. eapply rtc_l; [eexists; by apply step_fetched|exact H].
  - eexists. eapply rtc_l; [eexists; apply step_fetch_cancelled|apply select_exits].
  - apply store_exits.
  - eexists. eapply rtc_l; [eexists; apply step_domains|]. eapply rtc_l; [eexists; apply step_fail_open|].
    eapply rtc_l; [eexists; apply step_ready|apply select_exits].
  - eexists. eapply rtc_l; [eexists; apply step_fail_open|].
    eapply rtc_l; [eexists; apply step_ready|apply select_exits].
  - eexists. eapply rtc_l; [eexists; apply step_ready|apply select_exits].
  - eexists. apply select_exits.
  - by eexists.
Qed.

(** * Properties *)

(** C15: in every reachable state of the running plugin, whatever the order in
    which refresh goroutine, timer, queries and shutdown took their steps: the
    state is well formed; the plugin is not ready before a list is published
    unless the timer fired; while it serves unfiltered for that reason the
    fail-open gauge reads 1 as soon as the timer goroutine is done, and the gauge
    has never left 0 before that; once the timeout has passed the plugin is ready
    whatever the sources do, unless it is shut down; the domain gauge is the size
    of the published list except between the two writes that publish one.  (That
    the gauge reads 1 does not mean that nothing is filtered.) *)
Theorem reachable_states_consistent (s : sys) (H : reachable s) :
  wf c (shared s) /\
  (ready (shared s) = true -> current (shared s) = None ->
     timer s = TSet \/ timer s = TDone /\ failOpen (metrics (shared s)) = 1) /\
  (timer s <> TDone -> failOpen (metrics (shared s)) = 0) /\
  (timer s = TWait -> ready (shared s) = true -> is_Some (current (shared s))) /\
  (timer s <> TWait -> ctx_done s = false -> ready (shared s) = true) /\
  ((forall m, refresh s <> RDomains m) ->
     domainsTotal (metrics (shared s)) = Z.of_nat (size (current (shared s)))).
Proof.
  destruct (reachable_inv s H) as [Hw Hr Hd Ht Hn Hs Hx]. split_and!; try done.
  - intros Hw' Hrd. destruct (current (shared s)) eqn:E; [done|].
    destruct (Hn Hrd eq_refl) as [|[]]; congruence.
  - intros Hp Hc. destruct (Hx Hp); congruence.
  - intros Hp. destruct s as [st d r t]; simpl in *.
    destruct r; simpl in Hd; try done. by destruct (Hp m).
Qed.

(** Readiness, a published list and cancellation are final: no later step
    of any goroutine takes them back (a running plugin never goes from filtering
    to unfiltered, whatever its refreshes return), and once the timer goroutine
    is done with the gauge at 0 the gauge never rises again. *)
Theorem progress_is_monotone (s s' : sys) (H : rtc move s s') :
  (ready (shared s) = true -> ready (shared s') = true) /\
  (is_Some (current (shared s)) -> is_Some (current (shared s'))) /\
  (ctx_done s = true -> ctx_done s' = true) /\
  (timer s = TDone -> failOpen (metrics (shared s)) = 0 ->
     failOpen (metrics (shared s')) = 0).
Proof.
  destruct (steps_monotone s s' H) as (H1 & H2 & H3). split_and!; try done.
  clear H1 H2 H3. induction H as [|x y z Hs _ IH]; [done|].
  intros Ht Hg. destruct (step_gauge_down x y Hs Ht Hg). by apply IH.
Qed.

(** The interleaved system runs the sequential [reload]: left alone and not
    cancelled, the refresh goroutine takes the shared state from the start of a
    reload to exactly the state the function computes. *)
Theorem reload_refines (e : env) (st : Blocklist) (d : bool) (t : timer_pc)
    (He : uncancelled e) :
  rtc move (MkSys st d (RFetch (urls c) []) t) (MkSys (reload c e st) d RSelect t).
Proof. by apply reload_steps. Qed.

(** [shutdown] cannot deadlock: from every state in which the context is
    cancelled the refresh goroutine can close [done] by its own steps alone. *)
Theorem shutdown_can_finish (s : sys) (H : ctx_done s = true) :
  exists s', rtc move s s' /\ refresh s' = RExit /\ timer s' = timer s.
Proof.
  destruct s as [st d r t]; simpl in *; subst.
  destruct (cancelled_exits st r t) as [st' H]. by exists (MkSys st' true RExit t).
Qed.

End Steps.

(** * The stale fail-open gauge *)

Definition race_config : Config := MkConfig [lit "https://a"] [].

Definition race_response : result error response :=
  Ok (HttpResponse 200 (Reader (lit "0.0.0.0 ads.example.com") None)).

(** Both goroutines idle, the plugin filtering, and the gauge that documents
    unfiltered serving still at 1. *)
Definition stale_gauge (s : sys) : Prop :=
  refresh s = RSelect /\ timer s = TDone /\ ctx_done s = false /\
  ready (shared s) = true /\
  blocked (current (shared s)) (lit "ads.example.com") = true /\
  failOpen (metrics (shared s)) = 1.

Lemma fetch_sample : fetch (UC := latin1_case) race_response = Ok [lit "ads.example.com"].
Proof. by vm_compute. Qed.

Lemma merge_sample st :
  merge_source (lit "https://a") 0 (fetch (UC := latin1_case) race_response) st []
  = merge_source (lit "https://a") 0 (Ok [lit "ads.example.com"]) st [].
Proof. by rewrite fetch_sample. Qed.

(** C39: the gauge can stay wrong: the timer swaps the ready flag, the first
    reload publishes its list and clears the gauge, and only then the timer
    sets it; the plugin filters with both goroutines idle while the gauge says
    it serves unfiltered. *)
Theorem stale_gauge_is_reachable `{L : DnsLib} :
  exists s, reachable (UC := latin1_case) race_config s /\ stale_gauge s.
Proof.
  eexists. split.
  { eapply rtc_l; [eexists; apply step_timer_swap|].
    eapply rtc_l; [eexists; eapply (step_fetch _ _ _ _ _ _ _ race_response 0), merge_sample|].
    eapply rtc_l; [eexists; by apply step_fetched|]. etransitivity; [apply publish_steps|].
    apply rtc_once; eexists; apply step_timer_set. }
  by vm_compute.
Qed.

(** * Witnesses *)

Definition race_step (s s' : sys) : Prop :=
  move (UC := latin1_case) (L := concrete_dns) race_config s s'.

Definition timed_out : sys :=
  MkSys (with_metrics (set_fail_open 1) (store_ready init_blocklist)) false
    (RFetch [lit "https://a"] []) TDone.

Lemma timed_out_reachable : rtc race_step (start race_config) timed_out.
Proof.
  eapply rtc_l; [eexists; apply step_timer_swap|]. apply rtc_once; eexists; apply step_timer_set.
Qed.

Lemma reachable_states_consistent_witness :
  timer timed_out = TSet \/ timer timed_out = TDone /\ failOpen (metrics (shared timed_out)) = 1.
Proof.
  apply (reachable_states_consistent (UC := latin1_case) (L := concrete_dns) race_config timed_out
    timed_out_reachable); reflexivity.
Defined.

Lemma progress_is_monotone_witness :
  ready (reload (UC := latin1_case) race_config (sample_env 500) (shared timed_out)) = true.
Proof.
  apply (progress_is_monotone (UC := latin1_case) (L := concrete_dns) race_config timed_out _
    (reload_steps _ (sample_env 500) _ _ _ (fun _ => eq_refl))). reflexivity.
Defined.

Lemma reload_refines_witness :
  rtc race_step (MkSys init_blocklist false (RFetch [lit "https://a"] []) TWait)
    (MkSys (reload (UC := latin1_case) race_config (sample_env 200) init_blocklist) false RSelect TWait).
Proof.
  apply (reload_refines (UC := latin1_case) (L := concrete_dns) race_config (sample_env 200)).
  intros i. reflexivity.
Defined.

Lemma shutdown_can_finish_witness :
  exists s', rtc race_step (MkSys init_blocklist true (RFetch [lit "https://a"] []) TWait) s' /\
    refresh s' = RExit /\ timer s' = TWait.
Proof.
  apply (shutdown_can_finish (UC := latin1_case) (L := concrete_dns) race_config
    (MkSys init_blocklist true (RFetch [lit "https://a"] []) TWait)). reflexivity.
Defined.
