(* ===== verification/BlocklistHistory.v ===== *)
(** * What a running blocklist enforces

    An abstract blocklist is a function of what happened: of one complete pass
    of a reload over the sources, each source's response if it was good, else
    its last good copy at that time, all merged.  This file runs the interleaved
    system of [BlocklistConcurrency] along with its trace (the sources'
    responses and the queries) and proves that it implements the abstract one:
    every query is answered from the pass of one complete reload, and as long as
    the plugin is not shut down that reload is the last one completed. *)

From Stdlib Require Import Lia ZArith Ascii.
From stdpp Require Import base strings gmap sorting numbers option relations list.
From S2P Require Import Prelude GoStrings BlocklistParse BlocklistMatcher Dns BlocklistSource Blocklist BlocklistConcurrency.

Local Open Scope Z_scope.

Section History.
Context {UC : UnicodeCase} {L : DnsLib} (c : Config).

(** An execution: the events so far and the state reached. *)
Inductive execution : list event -> sys -> Prop :=
| exec_start : execution [] (start c)
| exec_step tr s e s' : execution tr s -> step c e s s' -> execution (tr ++ option_list e) s'.

(** ** The abstract blocklist *)

Definition note (copies : gmap str (list str)) (e : event) : gmap str (list str) :=
  match e with
  | Fetched url resp =>
      match fetch resp with Ok names => <[url := names]> copies | Err _ => copies end
  | _ => copies
  end.

(** Of each source the names of its last good fetch. *)
Definition last_good (tr : list event) : gmap str (list str) := fold_left note tr ∅.

(** What one fetch adds to the list: the names of a good response, else those of
    the source's last good copy, if there is one. *)
Definition contribution (copies : gmap str (list str)) (url : str) (resp : result error response) : list str :=
  match fetch resp with Ok names => names | Err _ => default [] (copies !! url) end.

(** The names gathered by a pass over sources, from the copies kept before it. *)
Fixpoint gather (copies : gmap str (list str)) (pass : list event) : list str :=
  match pass with
  | [] => []
  | e :: pass =>
      match e with Fetched url resp => contribution copies url resp | _ => [] end
        ++ gather (note copies e) pass
  end.

(** The list that a pass puts in force: nothing is blocked before anything is
    listed. *)
Definition in_force (before pass : list event) : option matcher :=
  let names := gather (last_good before) pass in
  if bool_decide (names = []) then None else Some (build_matcher c names).

(** The sources fetched in a trace. *)
Definition fetched (tr : list event) : list str :=
  omap (fun e => match e with Fetched url _ => Some url | _ => None end) tr.

(** A reload begins after a trace. *)
Definition begins (tr : list event) : Prop :=
  exists s, execution tr s /\ refresh s = RFetch (urls c) [].

(** [pass] is the events of one reload, begun after [before], from its start
    until every source was fetched once per mention in the configuration; before
    the first complete reload there is none. *)
Definition complete (before pass : list event) : Prop :=
  begins before /\ fetched pass = urls c \/ before = [] /\ pass = [].

(** ** Lemmas *)

Lemma last_good_app tr tr' : last_good (tr ++ tr') = fold_left note tr' (last_good tr).
Proof. apply fold_left_app. Qed.

Lemma fetched_app tr tr' : fetched (tr ++ tr') = fetched tr ++ fetched tr'.
Proof. apply omap_app. Qed.

Lemma gather_app copies p p' : gather copies (p ++ p') = gather copies p ++ gather (fold_left note p copies) p'.
Proof.
  revert copies. induction p as [|e p IH]; intros copies; [done|]. cbn [gather app fold_left].
  by rewrite IH, app_assoc.
Qed.

(** A name gathered was brought by one of the pass's fetches. *)
Lemma gather_in n copies pass :
  n ∈ gather copies pass <-> exists p1 url resp p2, pass = p1 ++ Fetched url resp :: p2 /\
    n ∈ contribution (fold_left note p1 copies) url resp.
Proof.
  revert copies. induction pass as [|e pass IH]; intros copies; cbn [gather].
  { split; [by intros ?%not_elem_of_nil|]. by intros ([] & ? & ? & ? & ? & _). }
  rewrite elem_of_app, IH. split.
  - intros [H|(p1 & url & resp & p2 & -> & H)].
    + destruct e as [url resp| |]; try by apply not_elem_of_nil in H. by exists [], url, resp, pass.
    + by exists (e :: p1), url, resp, p2.
  - intros ([|e' p1] & url & resp & p2 & [= -> ->] & H); [by left|]. right. by exists p1, url, resp, p2.
Qed.

(** A copy kept is never empty and never lost. *)
Definition good_copies (copies : gmap str (list str)) : Prop := map_Forall (fun _ names => names <> []) copies.

Lemma note_good copies e : good_copies copies -> good_copies (note copies e).
Proof.
  intros Hg. destruct e as [url resp| |]; [|done..]. simpl. destruct (fetch resp) as [names|] eqn:E; [|done].
  apply map_Forall_insert_2; [|done]. by apply fetch_good in E as [? _].
Qed.

Lemma notes_good tr copies : good_copies copies -> good_copies (fold_left note tr copies).
Proof. revert copies. induction tr as [|e tr IH]; intros copies H; [done|]. by apply IH, note_good. Qed.

Lemma notes_keep tr copies url :
  is_Some (copies !! url) -> is_Some (fold_left note tr copies !! url).
Proof.
  revert copies. induction tr as [|e tr IH]; intros copies H; [done|]. apply IH.
  destruct e as [u resp| |]; [|done..]. simpl. destruct (fetch resp); [|done].
  destruct (decide (u = url)) as [->|]; [by rewrite lookup_insert_eq|by rewrite lookup_insert_ne].
Qed.

Lemma last_good_good tr : good_copies (last_good tr).
Proof. apply notes_good, map_Forall_empty. Qed.

(** A contribution is the copy kept after the fetch. *)
Lemma contribution_note copies url resp :
  contribution copies url resp = default [] (note copies (Fetched url resp) !! url).
Proof. unfold contribution. simpl. destruct (fetch resp); [by rewrite lookup_insert_eq|done]. Qed.

(** A pass that gathered nothing left its sources without a copy ... *)
Lemma gather_nil copies pass url :
  good_copies copies -> gather copies pass = [] -> url ∈ fetched pass ->
  fold_left note pass copies !! url = None.
Proof.
  intros Hg. induction pass as [|e pass IH] using rev_ind; [by intros _ ?%not_elem_of_nil|].
  rewrite gather_app, fold_left_app, fetched_app. cbn [gather fold_left]. rewrite app_nil_r.
  intros [E1 E2]%app_eq_nil Hin%elem_of_app.
  assert (url ∈ fetched pass -> note (fold_left note pass copies) e !! url = None \/
    exists resp, e = Fetched url resp) as Hold.
  { intros Hp. specialize (IH E1 Hp). destruct e as [u resp| |]; [|by left..].
    destruct (decide (u = url)) as [->|Hne]; [right; by eexists|left]. simpl.
    destruct (fetch resp); [by rewrite lookup_insert_ne|done]. }
  assert (forall resp, e = Fetched url resp -> note (fold_left note pass copies) e !! url = None) as Hnew.
  { intros resp ->. rewrite contribution_note in E2.
    destruct (note _ _ !! url) as [names|] eqn:E; [|done]. simpl in E2. subst names.
    by destruct (note_good _ (Fetched url resp) (notes_good pass copies Hg) url [] E). }
  destruct Hin as [Hp|He]; [destruct (Hold Hp) as [|[resp He]]; eauto|].
  destruct e as [u resp| |]; [|by apply not_elem_of_nil in He..].
  apply list_elem_of_singleton in He as ->. eauto.
Qed.

(** ... and whoever has no copy in the end contributed nothing before. *)
Lemma gather_none before pass post :
  (forall url, url ∈ fetched pass -> last_good (before ++ pass ++ post) !! url = None) ->
  gather (last_good before) pass = [].
Proof.
  intros H. destruct (gather (last_good before) pass) as [|n l] eqn:E; [done|].
  assert (n ∈ gather (last_good before) pass) as Hn by (rewrite E; by left).
  apply gather_in in Hn as (p1 & url & resp & p2 & -> & Hn). rewrite contribution_note in Hn.
  destruct (notes_keep (p2 ++ post) (note (fold_left note p1 (last_good before)) (Fetched url resp)) url) as [x Hx].
  { destruct (note _ _ !! url); [by eexists|by apply not_elem_of_nil in Hn]. }
  specialize (H url). rewrite last_good_app, <- app_assoc, fold_left_app, <- app_comm_cons in H. cbn [fold_left] in H.
  rewrite Hx in H. discriminate H. rewrite fetched_app. apply elem_of_app. right. by left.
Qed.

(** ** The invariant *)

(** What of the reload in progress the list in force misses. *)
Definition missing (r : refresh_pc) (post : list str) : Prop :=
  match r with
  | RFetch todo _ => post ++ todo = urls c
  | RStore _ => post = urls c
  | _ => post = []
  end.

(** What the reload in progress has gathered. *)
Definition gathering (tr : list event) (r : refresh_pc) : Prop :=
  match r with
  | RFetch todo merged =>
      exists before pass, tr = before ++ pass /\ begins before /\ fetched pass ++ todo = urls c /\
        merged = gather (last_good before) pass
  | RStore m =>
      exists before pass, tr = before ++ pass /\ begins before /\ fetched pass = urls c /\
        gather (last_good before) pass <> [] /\ m = build_matcher c (gather (last_good before) pass)
  | _ => True
  end.

(** The list in force is that of a complete pass. *)
Definition snapshot (tr : list event) (s : sys) (before pass post : list event) : Prop :=
  tr = before ++ pass ++ post /\ complete before pass /\ current (shared s) = in_force before pass /\
  (ctx_done s = false -> missing (refresh s) (fetched post)).

Record history (tr : list event) (s : sys) : Prop := MkHistory {
  h_last : lastGood (shared s) = last_good tr;
  h_running : Shutdown ∉ tr -> ctx_done s = false;
  h_gathering : gathering tr (refresh s);
  h_snapshot : exists before pass post, snapshot tr s before pass post;
}.

Lemma begins_start : begins [].
Proof. exists (start c). split; [apply exec_start|done]. Qed.

Lemma history_start : history [] (start c).
Proof.
  split; cbn; [done..| |].
  - exists [], []. split_and!; [done|apply begins_start|done..].
  - exists [], [], []. split_and!; [done|by right|done..].
Qed.

(** Events that are not fetches list nothing. *)
Definition silent (e : option event) : Prop :=
  match e with Some (Fetched _ _) => False | _ => True end.

Lemma silent_last e tr : silent e -> last_good (tr ++ option_list e) = last_good tr.
Proof. intros He. rewrite last_good_app. by destruct e as [[| |]|]. Qed.

Lemma silent_fetched e tr : silent e -> fetched (tr ++ option_list e) = fetched tr.
Proof. intros He. rewrite fetched_app. destruct e as [[| |]|]; try done; apply app_nil_r. Qed.

Lemma silent_gather e copies pass : silent e -> gather copies (pass ++ option_list e) = gather copies pass.
Proof. intros He. rewrite gather_app. destruct e as [[| |]|]; try done; apply app_nil_r. Qed.

Lemma silent_gathering e tr r : silent e -> gathering tr r -> gathering (tr ++ option_list e) r.
Proof.
  intros He H. destruct r as [todo merged|m| | | | |]; try done;
    destruct H as (before & pass & -> & H); exists before, (pass ++ option_list e);
    (split; [by rewrite app_assoc|]); by rewrite silent_fetched, silent_gather.
Qed.

(** A step that keeps copies and list and does not hide a fetch. *)
Lemma silent_history e tr s s' :
  silent e -> history tr s ->
  lastGood (shared s') = lastGood (shared s) -> current (shared s') = current (shared s) ->
  (Shutdown ∉ option_list e -> ctx_done s' = ctx_done s) ->
  (ctx_done s' = false -> ctx_done s = false) ->
  (gathering tr (refresh s) -> gathering tr (refresh s')) ->
  (forall post, ctx_done s' = false -> missing (refresh s) post -> missing (refresh s') post) ->
  history (tr ++ option_list e) s'.
Proof.
  intros He [Hl Hd Hg (before & pass & post & E & Hcomp & Hc & Hm)] El Ec Ed Ed' Eg Em. split.
  - by rewrite El, Hl, silent_last.
  - intros [H1 H2]%not_elem_of_app. by rewrite Ed, Hd.
  - apply silent_gathering; auto.
  - exists before, pass, (post ++ option_list e). split_and!; [by rewrite E, !app_assoc|done|by rewrite Ec|].
    intros Hs. rewrite silent_fetched by done. auto.
Qed.

(** [merge_source] keeps and adds what the abstract blocklist does. *)
Lemma merge_source_notes url clock resp st merged st' merged' :
  merge_source url clock (fetch resp) st merged = (st', merged') ->
  lastGood st' = note (lastGood st) (Fetched url resp) /\ current st' = current st /\
  merged' = merged ++ contribution (lastGood st) url resp.
Proof.
  unfold merge_source, contribution. simpl. destruct (fetch resp) as [names|e].
  - by intros [= <- <-].
  - simpl. destruct (lastGood st !! url); intros [= <- <-]; by rewrite ?app_nil_r.
Qed.

(** A fetch adds its source to those gathered and, if good, its copy. *)
Lemma fetch_history tr st d url todo merged t resp clock st' merged' :
  merge_source url clock (fetch resp) st merged = (st', merged') ->
  history tr (MkSys st d (RFetch (url :: todo) merged) t) ->
  history (tr ++ [Fetched url resp]) (MkSys st' d (RFetch todo merged') t).
Proof.
  intros (El & Ec & Em)%merge_source_notes
    [Hl Hd (b & p & Htr & Hb & Hu & Hg) (before & pass & post & E & Hcomp & Hc & Hm)]; cbn in *.
  split; cbn.
  - by rewrite El, Hl, last_good_app.
  - intros [H _]%not_elem_of_app. auto.
  - exists b, (p ++ [Fetched url resp]). split_and!; [by rewrite Htr, app_assoc|done| |].
    + by rewrite fetched_app, <- app_assoc.
    + rewrite gather_app, <- last_good_app, <- Htr, <- Hl, <- Hg, Em. cbn [gather]. by rewrite app_nil_r.
  - exists before, pass, (post ++ [Fetched url resp]). split_and!; [by rewrite E, !app_assoc|done|cbn; by rewrite Ec|].
    intros Hs. rewrite fetched_app. cbn. rewrite <- app_assoc. by apply Hm.
Qed.

(** A reload that gathers nothing finds nothing in force. *)
Lemma nothing_in_force before pass tr b p :
  complete before pass -> (exists post, tr = before ++ pass ++ post) ->
  tr = b ++ p -> fetched p = urls c -> gather (last_good b) p = [] -> in_force before pass = in_force b p.
Proof.
  intros Hcomp [post E] Etr Hp Hg. unfold in_force. rewrite Hg, (gather_none before pass post); [done|].
  intros url Hin. rewrite <- E, Etr, last_good_app. apply gather_nil; [apply last_good_good|done|].
  rewrite Hp. destruct Hcomp as [[_ <-]|[_ ->]]; [done|by apply not_elem_of_nil in Hin].
Qed.

(** A silent step, and the publication of a list. *)
Lemma exec_tau tr s s' : execution tr s -> step c None s s' -> execution tr s'.
Proof. intros H Hs. pose proof (exec_step tr s None s' H Hs) as H'. cbn in H'. by rewrite app_nil_r in H'. Qed.

Lemma exec_publish tr st d m t :
  execution tr (MkSys st d (RStore m) t) -> execution tr (MkSys (publish m st) d RSelect t).
Proof.
  intros H. eapply exec_tau; [|apply step_ready]. eapply exec_tau; [|apply step_fail_open].
  eapply exec_tau; [|apply step_domains]. by eapply exec_tau; [|apply step_store].
Qed.

(** The end of a pass, with an empty and with a non-empty merge. *)
Lemma empty_history tr st d t :
  history tr (MkSys st d (RFetch [] []) t) ->
  history tr (MkSys (with_metrics observe_reload st) d RSelect t).
Proof.
  intros [Hl Hd (b & p & Htr & Hb & Hu & Hg) (before & pass & post & E & Hcomp & Hc & Hm)]; cbn in *.
  rewrite app_nil_r in Hu. split; cbn; [done..|]. exists b, p, [].
  split_and!; [by rewrite app_nil_r|by left| |done]. cbn. rewrite Hc. by eapply nothing_in_force; eauto.
Qed.

Lemma store_history tr st d m t :
  history tr (MkSys st d (RStore m) t) -> history tr (MkSys (store_current m st) d (RDomains m) t).
Proof.
  intros [Hl Hd (b & p & Htr & Hb & Hu & Hne & Hg) _]; cbn in *. split; cbn; [done..|]. exists b, p, [].
  split_and!; [by rewrite app_nil_r|by left| |done]. cbn. unfold in_force. by rewrite bool_decide_eq_false_2, Hg.
Qed.

Lemma history_step tr e s s' :
  execution tr s -> step c e s s' -> history tr s -> history (tr ++ option_list e) s'.
Proof.
  intros Hexec Hstep Hh. destruct Hstep.
  2: by eapply fetch_history.
  2: { cbn. rewrite app_nil_r. by apply empty_history. }
  3: { cbn. rewrite app_nil_r. by apply store_history. }
  all: eapply silent_history; [|exact Hh|..]; cbn; try done; try (by intros; subst).
  - intros (b & p & Htr & Hb & Hu & ->). rewrite app_nil_r in Hu. by exists b, p.
  - intros post _. by rewrite app_nil_r.
  - intros _. exists tr, []. split_and!; [by rewrite app_nil_r| |done..].
    eexists. split; [eapply exec_tau; [exact Hexec|apply step_tick]|done].
  - apply (ServeDNS_same server next w st q).
  - apply (ServeDNS_same server next w st q).
  - intros []. by left.
Qed.

Lemma execution_history tr s : execution tr s -> history tr s.
Proof. induction 1; [apply history_start|]. by eapply history_step. Qed.

(** The state in which an event of an execution happened. *)
Lemma execution_split tr1 ev tr2 s :
  execution (tr1 ++ ev :: tr2) s -> exists s1 s2, execution tr1 s1 /\ step c (Some ev) s1 s2.
Proof.
  intros H. remember (tr1 ++ ev :: tr2) as tr eqn:E. revert tr2 E.
  induction H as [|tr s e s' H IH Hs]; intros tr2 E; [by destruct tr1|].
  destruct e as [e|]; cbn in E; [|rewrite app_nil_r in E; eauto].
  destruct tr2 as [|e' tr2 _] using rev_ind.
  - apply app_inj_tail in E as [-> ->]. eauto.
  - rewrite app_comm_cons, app_assoc in E. apply app_inj_tail in E as [-> _]. eauto.
Qed.

(** ** What a pass blocks *)

(** Some fetch of the pass contributed the query or an ancestor of it, and no
    allowed name covers it. *)
Definition blocks (before pass : list event) (q : str) : Prop :=
  (exists p1 url resp p2 n, pass = p1 ++ Fetched url resp :: p2 /\
     n ∈ contribution (last_good (before ++ p1)) url resp /\ n <> [] /\ under n q) /\
  ~ covered_by (allow_names c) q.

Lemma in_force_blocks before pass q : blocked (in_force before pass) q = true <-> blocks before pass q.
Proof.
  assert (covered_by (gather (last_good before) pass) q <-> exists p1 url resp p2 n,
    pass = p1 ++ Fetched url resp :: p2 /\
    n ∈ contribution (last_good (before ++ p1)) url resp /\ n <> [] /\ under n q) as Hc.
  { unfold covered_by. setoid_rewrite gather_in. setoid_rewrite last_good_app. naive_solver. }
  unfold blocks. rewrite <- Hc. unfold in_force. case_bool_decide as E.
  - rewrite E. split; [done|]. intros [(n & Hn & _) _]. by apply not_elem_of_nil in Hn.
  - apply blocked_spec.
Qed.

(** A snapshot misses at most one pass over the sources. *)
Lemma missing_prefix r post : missing r post -> exists todo, post ++ todo = urls c.
Proof. destruct r; cbn; intros H; eauto; [exists []; by rewrite app_nil_r|by exists (urls c); subst..]. Qed.

(** * Properties *)

Context {LL : DnsLaws L}.

(** C8: in every interleaving, and for every list of sources (a URL may be
    listed twice), the published list is exact: at every moment of every
    execution it blocks precisely the names and subtrees that the fetches of one
    complete reload contributed, less what is allowed; a fetch contributes its
    own response if it was good and else the last good copy its source then had.
    (Before the first complete reload nothing is blocked.)  As long as the
    plugin was not shut down, what was fetched since is at most one pass over the
    sources, the reload in progress, and between two reloads nothing was: the
    list is that of the last reload completed. *)
Theorem list_in_force (tr : list event) (s : sys) (H : execution tr s) :
  exists before pass post, tr = before ++ pass ++ post /\ complete before pass /\
    (Shutdown ∉ tr -> exists todo, fetched post ++ todo = urls c) /\
    (Shutdown ∉ tr -> refresh s = RSelect -> fetched post = []) /\
    (forall q, blocked (current (shared s)) q = true <-> blocks before pass q).
Proof.
  destruct (execution_history tr s H) as [_ Hrun _ (before & pass & post & E & Hcomp & Hc & Hm)].
  exists before, pass, post. split_and!; [done..|by intros; eapply missing_prefix, Hm, Hrun| |].
  - intros Hs Hr. specialize (Hm (Hrun Hs)). by rewrite Hr in Hm.
  - intros q. rewrite Hc. apply in_force_blocks.
Qed.

(** C7: the running plugin implements the abstract blocklist, which is a
    function of the sources' responses: every query of every execution,
    whatever goes on beside it, is answered from one snapshot, the complete pass
    of a reload: NXDOMAIN if what that pass contributed (each source's response,
    or its last good copy where the fetch failed) blocks its name, and otherwise
    exactly what the rest of the chain makes of it.  As long as the plugin was
    not shut down the snapshot misses at most the fetches of the reload in
    progress. *)
Theorem queries_see_one_snapshot (tr1 tr2 : list event) (r : Msg) (rest out : outcome) (s : sys)
    (H : execution (tr1 ++ Served r rest out :: tr2) s) :
  exists before pass post, tr1 = before ++ pass ++ post /\ complete before pass /\
    (Shutdown ∉ tr1 -> exists todo, fetched post ++ todo = urls c) /\
    (blocks before pass (normalizeQuery (Name r)) ->
       exists m, written out = [m] /\ Rcode m = RcodeNameError /\ Id m = Id r /\ Answer m = []) /\
    (~ blocks before pass (normalizeQuery (Name r)) -> out = rest).
Proof.
  destruct (execution_split _ _ _ _ H) as (s1 & s2 & H1 & Hstep).
  destruct (execution_history tr1 s1 H1) as [_ Hrun _ (before & pass & post & E & Hcomp & Hc & Hm)].
  exists before, pass, post. split_and!; [done..|by intros; eapply missing_prefix, Hm, Hrun| |];
    rewrite <- in_force_blocks, <- Hc; inversion Hstep; subst; cbn; unfold ServeDNS, ServeDNS_in.
  - intros ->. destruct (w _); cbn; eexists; (split; [done|]); cbn;
      by rewrite SetRcode_Rcode, SetRcode_Id, SetRcode_Answer.
  - intros ->%not_true_is_false. done.
Qed.

End History.

(** * Witnesses *)

#[local] Existing Instance latin1_case.
#[local] Existing Instance concrete_dns.

Definition first_fetch : event := Fetched (lit "https://a") race_response.

(** The state after the first reload, and a query for a listed name. *)
Definition loaded : sys :=
  MkSys (publish (build_matcher race_config [lit "ads.example.com"])
    (with_metrics observe_reload
      (fst (merge_source (lit "https://a") 0 (Ok [lit "ads.example.com"]) init_blocklist [])))) false RSelect TWait.

Definition rest_of_chain : handler := fun _ => Outcome [] RcodeSuccess None.

Definition answered : outcome :=
  snd (ServeDNS (lit "dns://:53") rest_of_chain (fun _ => None) (shared loaded) sample_query).

Lemma loaded_reached : execution race_config [first_fetch] loaded.
Proof.
  apply exec_publish. eapply exec_tau; [|by apply step_fetched].
  apply (exec_step _ [] (start race_config) (Some first_fetch)); [apply exec_start|].
  eapply (step_fetch _ _ _ _ _ _ _ race_response 0), merge_sample.
Qed.

Lemma list_in_force_witness :
  exists before pass post, [first_fetch] = before ++ pass ++ post /\ fetched post = [] /\
    blocks race_config before pass (lit "ads.example.com").
Proof.
  destruct (list_in_force race_config [first_fetch] loaded loaded_reached)
    as (before & pass & post & E & _ & _ & Hf & Hb).
  exists before, pass, post. split; [exact E|]. split.
  - apply Hf; [|reflexivity]. intros Hin. apply list_elem_of_singleton in Hin. discriminate Hin.
  - apply Hb. by vm_compute.
Defined.

Lemma queries_see_one_snapshot_witness :
  exists before pass post, [first_fetch] = before ++ pass ++ post /\ complete race_config before pass /\
    (blocks race_config before pass (normalizeQuery (Name sample_query)) ->
       exists m, written answered = [m] /\ Rcode m = RcodeNameError /\ Id m = Id sample_query /\ Answer m = []) /\
    (~ blocks race_config before pass (normalizeQuery (Name sample_query)) ->
       answered = rest_of_chain sample_query).
Proof.
  destruct (queries_see_one_snapshot race_config [first_fetch] [] sample_query (rest_of_chain sample_query)
    answered (MkSys (fst (ServeDNS (lit "dns://:53") rest_of_chain (fun _ => None) (shared loaded) sample_query))
      false RSelect TWait)) as (before & pass & post & E & Hc & _ & Hb & Hr).
  - change ([first_fetch] ++ [Served sample_query (rest_of_chain sample_query) answered])
      with ([first_fetch] ++ option_list (Some (Served sample_query (rest_of_chain sample_query) answered))).
    eapply exec_step; [exact loaded_reached|]. apply step_query.
  - exists before, pass, post. exact (conj E (conj Hc (conj Hb Hr))).
Defined.
