(* ===== verification/Directives.v ===== *)
(** * The plugin chain ([directives.go])

    [init] splices homedns's four plugins into CoreDNS's directive list.  The
    list itself belongs to CoreDNS and is an argument; a Go panic is an [Err]. *)

From Stdlib Require Import Lia ZArith Ascii.
From stdpp Require Import base list strings option.
From S2P Require Import Prelude.

Definition blocklistDirective : str := lit "blocklist".
Definition gatewayDirective : str := lit "k8s_gateway".
Definition peercacheDirective : str := lit "peercache".
Definition raceDirective : str := lit "race".

(** The two panics of [insertBefore]. *)
Inductive directive_panic : Type :=
| RegisteredTwice (name : str)
| AnchorMissing (anchor name : str).

(** ** [insertBefore] *)

(** The first loop: is the name registered already? *)
Fixpoint registered (ds : list str) (name : str) : bool :=
  match ds with
  | [] => false
  | d :: ds' => if bool_decide (d = name) then true else registered ds' name
  end.

(** The second loop: the index of the first anchor, from [i] on. *)
Fixpoint anchor_index (i : nat) (ds : list str) (anchor : str) : option nat :=
  match ds with
  | [] => None
  | d :: ds' => if bool_decide (d <> anchor) then anchor_index (S i) ds' anchor else Some i
  end.

Definition insertBefore (anchor name : str) (ds : list str) : result directive_panic (list str) :=
  if registered ds name then Err (RegisteredTwice name)
  else
    match anchor_index 0 ds anchor with
    | Some i => Ok (take i ds ++ [name] ++ drop i ds)
    | None => Err (AnchorMissing anchor name)
    end.

(** [init]: the four insertions in order. *)
Definition init (ds : list str) : result directive_panic (list str) :=
  let? ds := insertBefore (lit "cache") blocklistDirective ds in
  let? ds := insertBefore (lit "kubernetes") gatewayDirective ds in
  let? ds := insertBefore (lit "forward") peercacheDirective ds in
  insertBefore (lit "forward") raceDirective ds.

(** ** Specification *)

(** [n] stands immediately before [a]. *)
Definition next_to (n a : str) (ds : list str) : Prop := exists l r, ds = l ++ n :: a :: r.

Definition own : list str := [blocklistDirective; gatewayDirective; peercacheDirective; raceDirective].
Definition anchors : list str := [lit "cache"; lit "kubernetes"; lit "forward"].

(** What a chain needs for [init] to place the plugins. *)
Definition placeable (ds : list str) : Prop :=
  Forall (fun a => a ∈ ds) anchors /\ Forall (fun n => n ∉ ds) own.

(** ** Lemmas *)

Lemma registered_spec ds name : registered ds name = true <-> name ∈ ds.
Proof.
  induction ds as [|d ds IH]; simpl; [split; [done | by intros ?%not_elem_of_nil]|].
  case_bool_decide; rewrite elem_of_cons, ?IH; naive_solver.
Qed.

Lemma anchor_index_Some k ds a i :
  anchor_index k ds a = Some i <->
  exists l r, ds = l ++ a :: r /\ (a ∉ l) /\ i = (k + length l)%nat.
Proof.
  revert k. induction ds as [|d ds IH]; intros k; simpl.
  { split; [done|]. intros (l & r & E & _); by destruct l. }
  case_bool_decide as Hd.
  - rewrite IH. split.
    + intros (l & r & -> & Hl & ->). exists (d :: l), r. split_and!; simpl; [done| |lia]. not_in.
    + intros ([|d' l] & r & E & Hl & ->); simplify_eq/=.
      apply not_elem_of_cons in Hl as [_ Hl]. exists l, r. split_and!; simpl; [done..|lia].
  - subst d. split.
    + intros [= <-]. exists [], ds. split_and!; simpl; [done|apply not_elem_of_nil|lia].
    + intros ([|d' l] & r & E & Hl & ->); simplify_eq/=; [f_equal; lia|]. destruct Hl. by left.
Qed.

Lemma anchor_index_None k ds a : anchor_index k ds a = None <-> a ∉ ds.
Proof.
  revert k. induction ds as [|d ds IH]; intros k; simpl; [by split; [intros _ ?%not_elem_of_nil|]|].
  case_bool_decide as Hd; [rewrite IH, not_elem_of_cons; naive_solver|].
  subst d. split; [done|]. intros H. destruct H. by left.
Qed.

Lemma split_unique (a : str) l r l' r' :
  a ∉ l -> a ∉ l' -> l ++ a :: r = l' ++ a :: r' -> l = l' /\ r = r'.
Proof.
  revert l'. induction l as [|x l IH]; intros [|y l'] Hl Hl' E; simplify_eq/=; try done.
  - destruct Hl'. by left.
  - destruct Hl. by left.
  - apply not_elem_of_cons in Hl as [_ Hl], Hl' as [_ Hl'].
    match goal with E' : _ ++ _ = _ ++ _ |- _ => destruct (IH l' Hl Hl' E') end. by subst.
Qed.

Lemma filter_all (P : str -> Prop) `{!forall x, Decision (P x)} l : Forall P l -> filter P l = l.
Proof. induction 1; [done|]. rewrite filter_cons_True by done. by f_equal. Qed.

Lemma insertBefore_Ok a n ds ds' :
  insertBefore a n ds = Ok ds' <->
  n ∉ ds /\ exists l r, ds = l ++ a :: r /\ a ∉ l /\ ds' = l ++ n :: a :: r.
Proof.
  unfold insertBefore. destruct (registered ds n) eqn:Hr.
  { apply registered_spec in Hr. naive_solver. }
  assert (n ∉ ds) as Hn by (rewrite <- registered_spec; congruence).
  destruct (anchor_index 0 ds a) as [i|] eqn:Hi.
  - apply anchor_index_Some in Hi as (l & r & -> & Hl & ->). simpl.
    rewrite take_app_length, drop_app_length. split.
    + intros [= <-]. split; [done|]. by exists l, r.
    + intros (_ & l' & r' & E & Hl' & ->). f_equal.
      assert (l = l' /\ r = r') as [<- <-]; [|done].
      by eapply split_unique.
  - apply anchor_index_None in Hi. split; [done|]. intros (_ & l & r & -> & _). destruct Hi.
    apply elem_of_app. right. by left.
Qed.

Lemma insertBefore_is_ok a n ds : is_ok (insertBefore a n ds) = true <-> n ∉ ds /\ a ∈ ds.
Proof.
  unfold insertBefore. rewrite <- registered_spec. destruct (registered ds n); [naive_solver|].
  destruct (anchor_index 0 ds a) as [i|] eqn:Hi; simpl.
  - apply anchor_index_Some in Hi as (l & r & -> & _). split; [|done]. intros _.
    split; [done|]. apply elem_of_app. right. by left.
  - apply anchor_index_None in Hi. naive_solver.
Qed.

Section Inserted.
Context (a n : str) (ds ds' : list str) (H : insertBefore a n ds = Ok ds').

Lemma insertBefore_perm : ds' ≡ₚ n :: ds.
Proof.
  apply insertBefore_Ok in H as (_ & l & r & -> & _ & ->). by rewrite <- Permutation_middle.
Qed.

Lemma insertBefore_next_to : next_to n a ds'.
Proof. apply insertBefore_Ok in H as (_ & l & r & -> & _ & ->). by exists l, r. Qed.

(** Removing the new name gives the old chain back. *)
Lemma insertBefore_filter (P : str -> Prop) `{!forall x, Decision (P x)} :
  ~ P n -> filter P ds' = filter P ds.
Proof.
  intros Hn. apply insertBefore_Ok in H as (_ & l & r & -> & _ & ->).
  by rewrite !list.filter_app, filter_cons_False.
Qed.

(** A neighbouring pair stays one unless its second member is the anchor. *)
Lemma insertBefore_keeps x y : y <> a -> next_to x y ds -> next_to x y ds'.
Proof.
  intros Hy (l2 & r2 & E). apply insertBefore_Ok in H as (_ & l & r & -> & _ & ->).
  destruct (decide (length l <= length l2)%nat) as [Hlen|Hlen].
  - exists (l ++ n :: drop (length l) l2), r2.
    assert (l2 = l ++ drop (length l) l2) as E2.
    { rewrite <- (take_drop (length l) l2) at 1. f_equal.
      apply (f_equal (take (length l))) in E. rewrite take_app_length in E.
      by rewrite take_app_le in E by lia. }
    rewrite E2, <- app_assoc in E. apply app_inv_head in E. rewrite E.
    by rewrite <- app_assoc.
  - apply (f_equal (drop (length l2))) in E as E3. rewrite drop_app_length, drop_app_le in E3 by lia.
    destruct (drop (length l2) l) as [|x' [|y' l3]] eqn:Ed.
    + apply (f_equal length) in Ed. rewrite length_drop in Ed. simpl in Ed. lia.
    + by injection E3 as <- <- _.
    + injection E3 as <- <- E3. exists l2, (l3 ++ n :: a :: r).
      rewrite <- (take_drop (length l2) l), Ed, <- app_assoc. simpl. f_equal.
      apply (f_equal (take (length l2))) in E. rewrite take_app_length in E.
      by rewrite take_app_le in E by lia.
Qed.

End Inserted.

(** The last insert before an anchor takes the slot nearest to it. *)
Lemma insertBefore_twice a n n' ds ds1 ds2 :
  n <> a -> insertBefore a n ds = Ok ds1 -> insertBefore a n' ds1 = Ok ds2 ->
  exists l r, ds2 = l ++ n :: n' :: a :: r.
Proof.
  intros Hn (_ & l & r & -> & Hl & ->)%insertBefore_Ok (_ & l' & r' & E & Hl' & ->)%insertBefore_Ok.
  exists l, r. change (n :: a :: r) with ([n] ++ a :: r) in E. rewrite app_assoc in E.
  apply split_unique in E as [<- <-]; [by rewrite <- app_assoc| |done]. not_in.
Qed.

Lemma init_inv ds ds' :
  init ds = Ok ds' ->
  exists ds1 ds2 ds3,
    insertBefore (lit "cache") blocklistDirective ds = Ok ds1 /\
    insertBefore (lit "kubernetes") gatewayDirective ds1 = Ok ds2 /\
    insertBefore (lit "forward") peercacheDirective ds2 = Ok ds3 /\
    insertBefore (lit "forward") raceDirective ds3 = Ok ds'.
Proof.
  unfold init. intros H.
  destruct (insertBefore _ _ ds) as [ds1|] eqn:E1; [|done]. simpl in H.
  destruct (insertBefore _ _ ds1) as [ds2|] eqn:E2; [|done]. simpl in H.
  destruct (insertBefore _ _ ds2) as [ds3|] eqn:E3; [|done]. by exists ds1, ds2, ds3.
Qed.

Lemma elem_of_inserted a n ds ds' x :
  insertBefore a n ds = Ok ds' -> x <> n -> x ∈ ds' <-> x ∈ ds.
Proof. intros H Hx. rewrite (insertBefore_perm _ _ _ _ H), elem_of_cons. naive_solver. Qed.

(** When a chain of four insertions returns, for names and anchors apart. *)
Lemma inserts_ok a1 a2 a3 n1 n2 n3 n4 ds :
  n2 <> n1 -> n3 <> n1 -> n4 <> n1 -> n3 <> n2 -> n4 <> n2 -> n4 <> n3 ->
  a2 <> n1 -> a3 <> n1 -> a3 <> n2 -> a3 <> n3 ->
  is_ok (let? ds := insertBefore a1 n1 ds in
         let? ds := insertBefore a2 n2 ds in
         let? ds := insertBefore a3 n3 ds in
         insertBefore a3 n4 ds) = true <->
  (n1 ∉ ds /\ a1 ∈ ds) /\ (n2 ∉ ds /\ a2 ∈ ds) /\ (n3 ∉ ds /\ a3 ∈ ds) /\ n4 ∉ ds.
Proof.
  intros.
  pose proof (insertBefore_is_ok a1 n1 ds) as E1.
  destruct (insertBefore a1 n1 ds) as [ds1|] eqn:I1; simpl in *; [|naive_solver].
  pose proof (insertBefore_is_ok a2 n2 ds1) as E2.
  rewrite !(elem_of_inserted _ _ _ _ _ I1) in E2 by done.
  destruct (insertBefore a2 n2 ds1) as [ds2|] eqn:I2; simpl in *; [|naive_solver].
  pose proof (insertBefore_is_ok a3 n3 ds2) as E3.
  rewrite !(elem_of_inserted _ _ _ _ _ I2), !(elem_of_inserted _ _ _ _ _ I1) in E3 by done.
  destruct (insertBefore a3 n3 ds2) as [ds3|] eqn:I3; simpl in *; [|naive_solver].
  rewrite insertBefore_is_ok, !(elem_of_inserted _ _ _ _ _ I3),
    !(elem_of_inserted _ _ _ _ _ I2), !(elem_of_inserted _ _ _ _ _ I1) by done. naive_solver.
Qed.

(** * Properties *)

(** [insertBefore] on every branch: it returns exactly when the name is new
    and the anchor present, and then the chain is the old one with the name put
    immediately before the anchor's first occurrence. *)
Theorem insertBefore_spec (anchor name : str) (ds ds' : list str) :
  (insertBefore anchor name ds = Ok ds' <->
     (name ∉ ds) /\ exists l r, ds = l ++ anchor :: r /\ (anchor ∉ l) /\ ds' = l ++ name :: anchor :: r) /\
  (insertBefore anchor name ds = Err (RegisteredTwice name) <-> name ∈ ds) /\
  (insertBefore anchor name ds = Err (AnchorMissing anchor name) <-> (name ∉ ds) /\ anchor ∉ ds).
Proof.
  split; [apply insertBefore_Ok|]. unfold insertBefore. rewrite <- registered_spec.
  destruct (registered ds name); [naive_solver|].
  rewrite <- (anchor_index_None 0). destruct (anchor_index 0 ds anchor); naive_solver.
Qed.

(** C38: where [init] puts the plugins: in any chain in which it returns, the
    blocklist stands immediately before the cache, the gateway immediately
    before kubernetes, and peercache, race and forward follow each other in this
    order; the chain CoreDNS came with is what remains when the four names are
    removed, and each of them occurs once. *)
Theorem init_places (ds ds' : list str) (H : init ds = Ok ds') :
  next_to blocklistDirective (lit "cache") ds' /\
  next_to gatewayDirective (lit "kubernetes") ds' /\
  (exists l r, ds' = l ++ peercacheDirective :: raceDirective :: lit "forward" :: r) /\
  filter (fun d => d ∉ own) ds' = ds /\
  ds' ≡ₚ own ++ ds /\ (NoDup ds -> NoDup ds').
Proof.
  destruct (init_inv _ _ H) as (ds1 & ds2 & ds3 & H1 & H2 & H3 & H4).
  assert (Forall (fun n => n ∉ ds) own) as Hown.
  { pose proof H1 as [N1 _]%insertBefore_Ok. pose proof H2 as [N2 _]%insertBefore_Ok.
    pose proof H3 as [N3 _]%insertBefore_Ok. pose proof H4 as [N4 _]%insertBefore_Ok.
    rewrite (elem_of_inserted _ _ _ _ _ H3), (elem_of_inserted _ _ _ _ _ H2),
      (elem_of_inserted _ _ _ _ _ H1) in N4 by done.
    rewrite (elem_of_inserted _ _ _ _ _ H2), (elem_of_inserted _ _ _ _ _ H1) in N3 by done.
    rewrite (elem_of_inserted _ _ _ _ _ H1) in N2 by done. by repeat constructor. }
  assert (ds' ≡ₚ own ++ ds) as Hperm.
  { rewrite (insertBefore_perm _ _ _ _ H4), (insertBefore_perm _ _ _ _ H3),
      (insertBefore_perm _ _ _ _ H2), (insertBefore_perm _ _ _ _ H1). simpl. solve_Permutation. }
  split_and!.
  - do 3 (eapply insertBefore_keeps; [eassumption|done|]). by eapply insertBefore_next_to.
  - do 2 (eapply insertBefore_keeps; [eassumption|done|]). by eapply insertBefore_next_to.
  - by eapply insertBefore_twice.
  - rewrite (insertBefore_filter _ _ _ _ H4), (insertBefore_filter _ _ _ _ H3),
      (insertBefore_filter _ _ _ _ H2), (insertBefore_filter _ _ _ _ H1).
    2-5: intros Hn; apply Hn; rewrite <- (bool_decide_spec (_ ∈ own)); by vm_compute.
    apply filter_all. apply list.Forall_forall. intros x Hx Hin.
    rewrite list.Forall_forall in Hown. by apply (Hown x).
  - done.
  - intros Hnd. rewrite Hperm. apply list.NoDup_app. split_and!; [|by rewrite list.Forall_forall in Hown|done].
    rewrite <- (bool_decide_spec (NoDup own)). by vm_compute.
Qed.

(** [init] panics exactly when an anchor is missing from the chain or one of
    the four names is registered in it already. *)
Theorem init_returns_iff (ds : list str) : is_ok (init ds) = true <-> placeable ds.
Proof.
  unfold init, placeable, anchors, own. rewrite !list.Forall_cons, !list.Forall_nil.
  rewrite inserts_ok; [tauto|..]; intros [=].
Qed.

(** * Witness *)

(** A chain in the order of CoreDNS's, abbreviated. *)
Definition sample_chain : list str :=
  [lit "metadata"; lit "ready"; lit "log"; lit "cache"; lit "kubernetes"; lit "forward"; lit "whoami"].

Example init_sample :
  init sample_chain =
  Ok [lit "metadata"; lit "ready"; lit "log"; lit "blocklist"; lit "cache"; lit "k8s_gateway";
      lit "kubernetes"; lit "peercache"; lit "race"; lit "forward"; lit "whoami"].
Proof. by vm_compute. Qed.

Lemma init_places_witness :
  exists ds', init sample_chain = Ok ds' /\ next_to blocklistDirective (lit "cache") ds' /\
    filter (fun d => d ∉ own) ds' = sample_chain.
Proof.
  destruct (init_places sample_chain _ init_sample) as (H1 & _ & _ & H2 & _).
  eexists. split; [exact init_sample|]. exact (conj H1 H2).
Defined.
