(* ===== verification/Contest.v ===== *)
(** * Asking several parties at once

    [race.dispatch] and [peercache.race] have one shape: every leg is a
    goroutine that computes one result and sends it on a channel buffered for
    all of them, and the caller receives in a loop, selecting between the next
    result and the context's cancellation, until a result decides or all are in.
    What the caller does with a result is the interface [Contest]; this file has
    the sequential [collect], the interleaved step relation, and the theorems
    that connect them for any instance. *)

From Stdlib Require Import Lia ZArith Ascii.
From stdpp Require Import base strings option relations list.
From S2P Require Import Prelude.

(** ** The interface *)

(** [R] is what a leg sends, [A] what the loop accumulates, [V] what it decides. *)
Class Contest (R A V : Type) := {
  (** the variables before the loop *)
  opening : A;
  (** one iteration with a received result: go on or decide *)
  consider : A -> R -> A + V;
  (** after the loop *)
  closing : A -> V;
  (** the [ctx.Done()] case *)
  interrupted : V;
}.

(** What one [select] of the loop picked. *)
Inductive event (R : Type) : Type :=
| Arrived (r : R)
| CtxDone.
Arguments Arrived {R} r.
Arguments CtxDone {R}.

(** The loop on the outcomes of its [select]s. *)
Fixpoint collect `{C : Contest R A V} (evs : list (event R)) (a : A) : V :=
  match evs with
  | [] => closing a
  | CtxDone :: _ => interrupted
  | Arrived r :: evs =>
      match consider a r with
      | inl a => collect evs a
      | inr v => v
      end
  end.

(** The possible outcomes of the [select]s: the legs' results in some order, or
    some of them and then the cancellation. *)
Inductive schedule {R} (legs : list R) : list (event R) -> Prop :=
| schedule_all order : order ≡ₚ legs -> schedule legs (map Arrived order)
| schedule_cut order rest :
    order ++ rest ≡ₚ legs -> rest <> [] -> schedule legs (map Arrived order ++ [CtxDone]).

(** ** Contests with usable results

    In both plugins a result either decides on its own or only updates the
    loop's variables. *)

Class Usable `(C : Contest R A V) := {
  usable : R -> Prop;
  usable_dec :: forall r, Decision (usable r);
  absorb : A -> R -> A;
  decision : R -> V;
  consider_unusable a r : ~ usable r -> consider a r = inl (absorb a r);
  consider_usable a r : usable r -> consider a r = inr (decision r);
}.

Section Usable.
Context `{C : Contest R A V} {U : Usable C}.

Abbreviation unusable := (Forall (fun r : R => ~ usable r)).

Lemma collect_unusable pre evs a :
  unusable pre -> collect (map Arrived pre ++ evs) a = collect evs (fold_left absorb pre a).
Proof.
  intros H. revert a. induction H as [|r pre Hr _ IH]; intros a; [done|].
  cbn [map app collect fold_left]. by rewrite consider_unusable.
Qed.

(** The first usable result decides, whatever comes after it. *)
Lemma collect_usable pre r evs a :
  unusable pre -> usable r -> collect (map Arrived pre ++ Arrived r :: evs) a = decision r.
Proof. intros Hp Hr. rewrite collect_unusable by done. cbn [collect]. by rewrite consider_usable. Qed.

(** Any list of results splits at its first usable one. *)
Lemma first_usable (l : list R) :
  unusable l \/ exists pre r post, l = pre ++ r :: post /\ unusable pre /\ usable r.
Proof.
  induction l as [|r l IH]; [by left|]. destruct (decide (usable r)) as [Hr|Hr].
  - right. by exists [], r, l.
  - destruct IH as [H|(pre & r' & post & -> & Hp & Hr')]; [left; by constructor|].
    right. exists (r :: pre), r', post. split_and!; [done|by constructor|done].
Qed.

Lemma usable_in_order (order legs : list R) :
  order ≡ₚ legs -> Exists usable legs ->
  exists pre r post, order = pre ++ r :: post /\ unusable pre /\ usable r.
Proof.
  intros Hp He. destruct (first_usable order) as [H|H]; [|done].
  rewrite <- Hp in He. by apply Forall_Exists_neg in H.
Qed.

(** What the loop decides on any schedule. *)
Lemma collect_cases legs evs :
  schedule legs evs ->
  (exists pre r post, pre ++ r :: post ≡ₚ legs /\ unusable pre /\ usable r /\
     collect evs opening = decision r) \/
  (exists order rest, order ++ rest ≡ₚ legs /\ rest <> [] /\ unusable order /\
     evs = map Arrived order ++ [CtxDone] /\ collect evs opening = interrupted) \/
  (exists order, order ≡ₚ legs /\ evs = map Arrived order /\ unusable order /\
     collect evs opening = closing (fold_left absorb order opening)).
Proof.
  intros [order Hp|order rest Hp Hne];
    (destruct (first_usable order) as [H|(pre & r & post & -> & Hpre & Hr)]).
  - right. right. exists order. split_and!; [done..|].
    rewrite <- (app_nil_r (map _ _)). by rewrite collect_unusable.
  - left. exists pre, r, post. split_and!; try done. rewrite map_app. by apply collect_usable.
  - right. left. exists order, rest. split_and!; [done..|]. by rewrite collect_unusable.
  - left. exists pre, r, (post ++ rest). split_and!; try done.
    { by rewrite <- Hp, <- app_assoc. }
    rewrite map_app, <- app_assoc. by apply collect_usable.
Qed.
End Usable.

(** ** The goroutines *)

Section System.
Context `{C : Contest R A V} (legs : list R).

(** [make(chan legResult, n)]. *)
Definition capacity : nat := length legs.

(** The collecting goroutine: in the loop with so many iterations left, or
    returned. *)
Inductive collector : Type :=
| Collecting (left : nat) (a : A)
| Returned (v : V).

(** [running] are the legs that have not sent yet, each with the result it is
    going to send. *)
Record system := MkSystem {
  running : list R;
  channel : list R;
  caller : collector;
  ctx_cancelled : bool;
}.

Definition launched : system := MkSystem legs [] (Collecting (length legs) opening) false.

Inductive step : system -> system -> Prop :=
(** A leg sends; the send blocks while the buffer is full. *)
| step_send l1 r l2 ch c d :
    length ch < capacity ->
    step (MkSystem (l1 ++ r :: l2) ch c d) (MkSystem (l1 ++ l2) (ch ++ [r]) c d)
| step_receive run r ch n a d :
    step (MkSystem run (r :: ch) (Collecting (S n) a) d)
      (MkSystem run ch
        (match consider a r with inl a => Collecting n a | inr v => Returned v end) d)
| step_ctx_done run ch n a :
    step (MkSystem run ch (Collecting (S n) a) true) (MkSystem run ch (Returned interrupted) true)
| step_loop_end run ch a d :
    step (MkSystem run ch (Collecting 0 a) d) (MkSystem run ch (Returned (closing a)) d)
| step_cancel run ch c d :
    step (MkSystem run ch c d) (MkSystem run ch c true).

Definition reachable (s : system) : Prop := rtc step launched s.

(** ** The invariant *)

(** The caller is where [collect] is after the results received so far, or has
    returned what it returns. *)
Definition caller_ok (recv pending : list R) (c : collector) : Prop :=
  match c with
  | Collecting n a =>
      n = length pending /\ forall evs, collect (map Arrived recv ++ evs) opening = collect evs a
  | Returned v =>
      (pending <> [] /\ collect (map Arrived recv ++ [CtxDone]) opening = v) \/
      (forall evs, collect (map Arrived recv ++ evs) opening = v) \/
      (pending = [] /\ collect (map Arrived recv) opening = v)
  end.

Definition inv (s : system) : Prop :=
  exists recv, recv ++ channel s ++ running s ≡ₚ legs /\
    caller_ok recv (channel s ++ running s) (caller s).

Lemma inv_launched : inv launched.
Proof. exists []. split; [done|]. by split. Qed.

#[local] Instance caller_ok_perm recv : Proper ((≡ₚ) ==> (=) ==> impl) (caller_ok recv).
Proof.
  intros p p' Hp c _ <-. destruct c as [n a|v]; simpl; [by rewrite Hp|].
  intros [[H1 H2]|[H|[-> H]]]; [left|by right; left|].
  - split; [|done]. intros ->. by apply Permutation_nil_r in Hp.
  - right. right. split; [|done]. by apply Permutation_nil_l in Hp.
Qed.

Lemma collect_received (recv : list R) r evs :
  collect (map Arrived (recv ++ [r]) ++ evs) opening
  = collect (map Arrived recv ++ Arrived r :: evs) opening.
Proof. by rewrite map_app, <- app_assoc. Qed.

Lemma contest_step_inv s s' : step s s' -> inv s -> inv s'.
Proof.
  intros Hstep (recv & Hp & Hc). destruct Hstep; unfold inv; simpl in *.
  - exists recv. assert ((ch ++ [r]) ++ l1 ++ l2 ≡ₚ ch ++ l1 ++ r :: l2) as E by solve_Permutation.
    split; [by rewrite E|by rewrite E].
  - exists (recv ++ [r]). split; [by rewrite <- app_assoc|]. destruct Hc as [Hn Hc].
    destruct (consider a r) as [a'|v] eqn:E; simpl.
    + split; [by injection Hn|]. intros evs. rewrite collect_received, Hc. simpl. by rewrite E.
    + right. left. intros evs. rewrite collect_received, Hc. simpl. by rewrite E.
  - exists recv. split; [done|]. destruct Hc as [Hn Hc]. left. split; [|by rewrite Hc].
    intros E. by rewrite E in Hn.
  - exists recv. split; [done|]. destruct Hc as [Hn Hc]. right. right.
    split; [by apply nil_length_inv|]. rewrite <- (app_nil_r (map _ _)). by rewrite Hc.
  - by exists recv.
Qed.

Lemma contest_reachable_inv s : reachable s -> inv s.
Proof.
  intros H. assert (forall x, rtc step x s -> inv x -> inv s) as Hrtc.
  { induction 1; eauto using contest_step_inv. }
  eauto using inv_launched.
Qed.

(** The buffer always has room for a leg that still has to send. *)
Lemma inv_room s r l1 l2 : inv s -> running s = l1 ++ r :: l2 -> length (channel s) < capacity.
Proof.
  intros (recv & Hp & _) E. apply Permutation_length in Hp.
  rewrite !length_app, E, length_app in Hp. simpl in Hp. unfold capacity. lia.
Qed.

(** Every leg can finish, whatever the caller does. *)
Lemma legs_drain_lemma run ch c d :
  inv (MkSystem run ch c d) ->
  rtc step (MkSystem run ch c d) (MkSystem [] (ch ++ run) c d).
Proof.
  revert ch. induction run as [|r run IH]; intros ch Hinv; [by rewrite app_nil_r|].
  assert (step (MkSystem (r :: run) ch c d) (MkSystem run (ch ++ [r]) c d)) as Hs.
  { apply (step_send [] r run). by eapply (inv_room _ r [] run Hinv). }
  eapply rtc_l; [exact Hs|]. replace (ch ++ r :: run) with ((ch ++ [r]) ++ run)
    by (by rewrite <- app_assoc). apply IH. by eapply contest_step_inv.
Qed.

(** With all results in the buffer the caller runs to its end. *)
Lemma caller_finishes ch a d :
  exists s', rtc step (MkSystem [] ch (Collecting (length ch) a) d) s' /\
    caller s' = Returned (collect (map Arrived ch) a).
Proof.
  revert a. induction ch as [|r ch IH]; intros a; simpl.
  { eexists. split; [apply rtc_once, step_loop_end|done]. }
  destruct (consider a r) as [a'|v] eqn:E.
  - destruct (IH a') as (s' & Hs & Hc). exists s'. split; [|done].
    eapply rtc_l; [apply step_receive|]. by rewrite E.
  - eexists. split; [apply rtc_once, step_receive|]. simpl. by rewrite E.
Qed.

(** Some of the legs send, in the given order. *)
Lemma sends order rest ch c d run :
  length ch + length order <= capacity -> run ≡ₚ order ++ rest ->
  exists run', run' ≡ₚ rest /\
    rtc step (MkSystem run ch c d) (MkSystem run' (ch ++ order) c d).
Proof.
  revert ch run. induction order as [|r order IH]; intros ch run Hlen Hp; simpl in *.
  { exists run. split; [done|]. by rewrite app_nil_r. }
  destruct (Permutation_cons_inv_r _ _ _ Hp) as (l1 & l2 & -> & Hp').
  destruct (IH (ch ++ [r]) (l1 ++ l2)) as (run' & Hr & Hs);
    [rewrite length_app; simpl; lia|by symmetry|].
  exists run'. split; [done|]. eapply rtc_l; [apply step_send; lia|].
  by rewrite <- app_assoc in Hs.
Qed.

(** The caller takes what is buffered and then, if still in the loop, the
    cancellation. *)
Lemma caller_cut run ch a k :
  exists s', rtc step (MkSystem run ch (Collecting (length ch + S k) a) true) s' /\
    caller s' = Returned (collect (map Arrived ch ++ [CtxDone]) a).
Proof.
  revert a. induction ch as [|r ch IH]; intros a; simpl.
  { eexists. split; [apply rtc_once, step_ctx_done|done]. }
  destruct (consider a r) as [a'|v] eqn:E.
  - destruct (IH a') as (s' & Hs & Hc). exists s'. split; [|done].
    eapply rtc_l; [apply step_receive|]. by rewrite E.
  - eexists. split; [apply rtc_once, step_receive|]. simpl. by rewrite E.
Qed.

Lemma inv_returned s v :
  inv s -> caller s = Returned v -> exists evs, schedule legs evs /\ collect evs opening = v.
Proof.
  intros (recv & Hp & Hc) E. rewrite E in Hc.
  destruct Hc as [[Hne H]|[H|[Hnil H]]].
  - exists (map Arrived recv ++ [CtxDone]). split; [|done]. by eapply schedule_cut.
  - exists (map Arrived (recv ++ channel s ++ running s)). split; [by apply schedule_all|].
    by rewrite map_app.
  - exists (map Arrived recv). split; [|done]. apply schedule_all.
    by rewrite Hnil, app_nil_r in Hp.
Qed.

Lemma schedule_reached evs :
  schedule legs evs ->
  exists s, reachable s /\ caller s = Returned (collect evs opening).
Proof.
  intros [order Hp|order rest Hp Hne].
  - assert (length legs = length order) as Hl by (by rewrite Hp).
    destruct (sends order [] [] (Collecting (length order) opening) false legs) as (run & Hr & Hs).
    { unfold capacity. simpl. lia. } { by rewrite app_nil_r. }
    apply Permutation_nil_r in Hr as ->.
    destruct (caller_finishes order opening false) as (s & Hs' & Hc).
    exists s. split; [|done]. unfold reachable, launched. rewrite Hl. by etransitivity.
  - assert (length legs = length order + S (pred (length rest))) as Hlen.
    { rewrite <- Hp, length_app. destruct rest; simpl; [done|lia]. }
    destruct (sends order rest [] (Collecting (length legs) opening) false legs) as (run & Hr & Hs).
    { unfold capacity. simpl. lia. } { by symmetry. }
    destruct (caller_cut run order opening (pred (length rest))) as (s & Hs' & Hc).
    exists s. split; [|done]. unfold reachable, launched. etransitivity; [exact Hs|].
    eapply rtc_l; [apply step_cancel|]. by rewrite Hlen.
Qed.

(** * Properties *)

(** C10: the interleaved goroutines and the sequential loop agree: a value is
    returned in some reachable state exactly when [collect] returns it for some
    outcome of the [select]s, that is for the results in some order of arrival,
    or for some of them followed by the cancellation. *)
Theorem goroutines_refine_collect (v : V) :
  (exists s, reachable s /\ caller s = Returned v) <->
  (exists evs, schedule legs evs /\ collect evs opening = v).
Proof.
  split.
  - intros (s & H & E). eapply inv_returned; [by apply contest_reachable_inv|done].
  - intros (evs & H & <-). by apply schedule_reached.
Qed.

(** C34: no leg is ever stuck: in every reachable state, the caller returned or
    not, a leg that has not sent finds room in the buffer, and all of them can
    finish without a step of the caller; no goroutine outlives the exchange it
    waits for. *)
Theorem legs_never_block (s : system) (H : reachable s) :
  (forall l1 r l2, running s = l1 ++ r :: l2 -> length (channel s) < capacity) /\
  exists s', rtc step s s' /\ running s' = [] /\ caller s' = caller s.
Proof.
  apply contest_reachable_inv in H. split; [intros; by eapply inv_room|].
  destruct s as [run ch c d]. eexists. split; [by apply legs_drain_lemma|done].
Qed.

(** The caller always returns: from every reachable state some run of the
    legs and the loop ends with a returned value, cancelled or not. *)
Theorem caller_can_return (s : system) (H : reachable s) :
  exists s' v, rtc step s s' /\ caller s' = Returned v.
Proof.
  apply contest_reachable_inv in H. destruct s as [run ch c d]. pose proof (legs_drain_lemma _ _ _ _ H) as Hd.
  destruct c as [n a|v]; [|by exists (MkSystem run ch (Returned v) d), v].
  destruct H as (recv & _ & Hn & _). simpl in Hn. subst n.
  destruct (caller_finishes (ch ++ run) a d) as (s' & Hs & Hc).
  exists s', (collect (map Arrived (ch ++ run)) a). split; [|done]. by etransitivity.
Qed.

End System.

Arguments system : clear implicits.
