(* ===== verification/Race.v ===== *)
(** * The race plugin ([plugin/race/race.go], [metrics.go])

    Every query goes to all upstreams at once and the first useful reply
    answers it.  The legs and the receiving loop are an instance of [Contest],
    which has the interleaving; what an upstream does on each connection attempt
    is an argument. *)

From Stdlib Require Import Lia ZArith Ascii.
From stdpp Require Import base strings gmap option list.
From S2P Require Import Prelude GoStrings Dns Contest.

Local Open Scope Z_scope.

(** ** Constants and metrics *)

Definition maxIdleConns : nat := 8.
Definition maxConnectAttempts : nat := maxIdleConns + 2.

Definition errNoAnswer : error := new_error "no upstream produced an answer".
Definition errMismatch : error := new_error "upstream answered a different question".

Definition reasonError : str := lit "error".
Definition reasonMismatch : str := lit "mismatch".
Definition reasonUnusable : str := lit "unusable".
Definition resultWon : str := lit "won".
Definition resultFallback : str := lit "fallback".
Definition resultFailed : str := lit "failed".

Record Metrics := MkMetrics {
  winsCount : gmap str Z;
  legFailures : gmap (str * str) Z;
  staleConns : gmap str Z;
  queriesCount : gmap str Z;
}.

Definition count_win (to : str) (m : Metrics) : Metrics :=
  MkMetrics (inc to (winsCount m)) (legFailures m) (staleConns m) (queriesCount m).
Definition count_leg_failure (to reason : str) (m : Metrics) : Metrics :=
  MkMetrics (winsCount m) (inc (to, reason) (legFailures m)) (staleConns m) (queriesCount m).
Definition count_stale (to : str) (m : Metrics) : Metrics :=
  MkMetrics (winsCount m) (legFailures m) (inc to (staleConns m)) (queriesCount m).
Definition count_query (result : str) (m : Metrics) : Metrics :=
  MkMetrics (winsCount m) (legFailures m) (staleConns m) (inc result (queriesCount m)).

(** ** [useful] and [staleConn] *)

Definition useful (m : option Msg) : bool :=
  match m with
  | None => false
  | Some m =>
      if Truncated m then false
      else (Rcode m =? RcodeSuccess) || (Rcode m =? RcodeNameError)
  end.

Definition staleConn (err : option error) : bool :=
  match err with
  | None => false
  | Some _ =>
      errors_Is err ErrCachedClosed || errors_Is err EOF ||
      errors_Is err EPIPE || errors_Is err ECONNRESET
  end.

(** ** [exchange]: one leg *)

Record legResult := LegResult { to : str; msg : option Msg; err : option error }.

(** An upstream: its address, and what the [i]-th call of [p.Connect] returns. *)
Record proxy := Proxy { Addr : str; Connect : nat -> result error Msg }.

Definition err_of {A} (r : result error A) : option error :=
  match r with Ok _ => None | Err e => Some e end.

(** The loop: attempt [i], with [more] attempts left after it. *)
Fixpoint connect_loop (p : proxy) (more i : nat) (mt : Metrics) : Metrics * result error Msg :=
  let ret := Connect p i in
  if staleConn (err_of ret) then
    let mt := count_stale (Addr p) mt in
    match more with
    | O => (mt, ret)
    | S more => connect_loop p more (S i) mt
    end
  else (mt, ret).

Definition exchange `{CL : CoreLib} (p : proxy) (r : Msg) (mt : Metrics) : Metrics * legResult :=
  let '(mt, ret) := connect_loop p (maxConnectAttempts - 1) 0 mt in
  match ret with
  | Err e => (count_leg_failure (Addr p) reasonError mt, LegResult (Addr p) None (Some e))
  | Ok ret =>
      if negb (Match r ret) then
        (count_leg_failure (Addr p) reasonMismatch mt, LegResult (Addr p) None (Some errMismatch))
      else
        let mt := if negb (useful (Some ret)) then count_leg_failure (Addr p) reasonUnusable mt else mt in
        (mt, LegResult (Addr p) (Some ret) None)
  end.

(** ** [dispatch] *)

(** How the receiving loop ends. *)
Inductive verdict : Type :=
| Won (to : str) (m : Msg)
| Fallback (m : Msg)
| Failed (lastErr : option error)
| Interrupted.

(** The loop's variables are [fallback]'s message and [lastErr]. *)
#[export] Instance race_contest : Contest legResult (option Msg * option error) verdict := {|
  opening := (None, None);
  consider '(fallback, lastErr) res :=
    let lastErr := match err res with Some e => Some e | None => lastErr end in
    let fallback := match msg res with Some m => Some m | None => fallback end in
    match msg res with
    | Some m => if negb (useful (Some m)) then inl (fallback, lastErr) else inr (Won (to res) m)
    | None => inl (fallback, lastErr)
    end;
  closing '(fallback, lastErr) :=
    match fallback with
    | Some m => Fallback m
    | None => Failed lastErr
    end;
  interrupted := Interrupted;
|}.

Section Handler.
Context {L : DnsLib} {CL : CoreLib}.

Definition reply (w : conn) (r m : Msg) : outcome :=
  let m := reply_to r m in
  match w m with
  | Some err => Outcome [m] RcodeServerFailure (Some err)
  | None => Outcome [m] RcodeSuccess None
  end.

(** What follows the loop's end. *)
Definition conclude (w : conn) (r : Msg) (ctx_err : error) (v : verdict) (mt : Metrics) : Metrics * outcome :=
  match v with
  | Won to m => (count_query resultWon (count_win to mt), reply w r m)
  | Fallback m => (count_query resultFallback mt, reply w r m)
  | Failed lastErr =>
      let lastErr := match lastErr with None => errNoAnswer | Some e => e end in
      (count_query resultFailed mt, Outcome [] RcodeServerFailure (Some (PluginError "race" lastErr)))
  | Interrupted => (mt, Outcome [] RcodeServerFailure (Some ctx_err))
  end.

(** [dispatch] on the outcomes of its [select]s; [ctx_err] is [ctx.Err()]. *)
Definition dispatch (w : conn) (r : Msg) (ctx_err : error) (evs : list (event legResult))
    (mt : Metrics) : Metrics * outcome :=
  conclude w r ctx_err (collect evs opening) mt.

Definition ServeDNS (from : str) (next : handler) (w : conn) (r : Msg) (ctx_err : error)
    (evs : list (event legResult)) (mt : Metrics) : Metrics * outcome :=
  if negb (NameMatches from (Name r)) then (mt, next r)
  else dispatch w r ctx_err evs mt.

(** The results the legs of a query send. *)
Definition leg_results (proxies : list proxy) (r : Msg) (mt : Metrics) : list legResult :=
  map (fun p => snd (exchange p r mt)) proxies.

End Handler.

(** ** The loop *)

(** The loop's variables after one result. *)
Definition race_absorb (acc : option Msg * option error) (res : legResult) : option Msg * option error :=
  (match msg res with Some m => Some m | None => fst acc end,
   match err res with Some e => Some e | None => snd acc end).

Definition race_decision (res : legResult) : verdict :=
  match msg res with Some m => Won (to res) m | None => Interrupted end.

#[export] Instance race_usable : Usable race_contest.
Proof.
  refine {|
    usable res := useful (msg res) = true;
    usable_dec res := bool_eq_dec (useful (msg res)) true;
    absorb := race_absorb;
    decision := race_decision;
  |}.
  - intros [fb le] [t m e] Hu%not_true_is_false. cbn [consider race_contest msg err] in *.
    destruct m as [m|]; [by rewrite Hu|done].
  - intros [fb le] [t m e] Hu. cbn [consider race_contest msg err] in *.
    destruct m as [m|]; [by rewrite Hu|done].
Defined.

(** The last element, or what was there before. *)
Definition last_or {A} (d : option A) (l : list A) : option A :=
  match last l with Some x => Some x | None => d end.

Lemma last_or_omap_cons {A B} (f : A -> option B) d x l :
  last_or (match f x with Some y => Some y | None => d end) (omap f l) = last_or d (omap f (x :: l)).
Proof.
  unfold last_or. destruct (f x) as [y|] eqn:E.
  - rewrite (omap_cons_Some f x y), (last_cons y (omap f l)) by done. by destruct (last (omap f l)).
  - by rewrite (omap_cons_None f x) by done.
Qed.

(** After results that did not decide the variables hold the last message and
    the last error. *)
Lemma race_absorbed pre acc :
  fold_left absorb pre acc = (last_or (fst acc) (omap msg pre), last_or (snd acc) (omap err pre)).
Proof.
  revert acc. induction pre as [|res pre IH]; intros acc; [by destruct acc|].
  cbn [fold_left]. rewrite IH. cbn [absorb race_usable race_absorb fst snd].
  f_equal; apply last_or_omap_cons.
Qed.

(** ** One leg *)

(** The attempts before the first one that is not a dead pooled connection. *)
Lemma connect_loop_stale p k more i mt :
  (k <= more)%nat ->
  (forall j, (j < k)%nat -> staleConn (err_of (Connect p (i + j))) = true) ->
  staleConn (err_of (Connect p (i + k))) = false ->
  exists mt', connect_loop p more i mt = (mt', Connect p (i + k)) /\
    count (staleConns mt') (Addr p) = count (staleConns mt) (Addr p) + Z.of_nat k /\
    winsCount mt' = winsCount mt /\ legFailures mt' = legFailures mt /\
    queriesCount mt' = queriesCount mt.
Proof.
  revert more i mt. induction k as [|k IH]; intros more i mt Hk Hs Hlast.
  - rewrite Nat.add_0_r in *. exists mt. unfold connect_loop.
    destruct more; rewrite Hlast; split_and!; try done; lia.
  - destruct more as [|more]; [lia|]. specialize (Hs 0%nat) as H0. rewrite Nat.add_0_r in H0.
    cbn [connect_loop]. rewrite H0 by lia.
    destruct (IH more (S i) (count_stale (Addr p) mt)) as (mt' & E & Hc & H1 & H2 & H3); [lia| | |].
    + intros j Hj. replace (S i + j)%nat with (i + S j)%nat by lia. apply Hs. lia.
    + by replace (S i + k)%nat with (i + S k)%nat by lia.
    + exists mt'. replace (i + S k)%nat with (S i + k)%nat by lia. rewrite E, Hc. split_and!; try done.
      simpl. rewrite count_inc. lia.
Qed.

(** Whatever happens, the loop touches no counter but [staleConns] and ends
    with the result of one attempt. *)
Lemma connect_loop_frame p more i mt :
  exists mt' j, connect_loop p more i mt = (mt', Connect p j) /\ (i <= j <= i + more)%nat /\
    legFailures mt' = legFailures mt /\ winsCount mt' = winsCount mt /\
    queriesCount mt' = queriesCount mt.
Proof.
  revert i mt. induction more as [|more IH]; intros i mt; cbn [connect_loop];
    destruct (staleConn _).
  1,2,4: eexists _, i; split_and!; [done|lia..|done|done|done].
  destruct (IH (S i) (count_stale (Addr p) mt)) as (mt' & j & -> & Hj & H1 & H2 & H3).
  exists mt', j. split_and!; [done|lia..|done|done|done].
Qed.

Lemma connect_loop_result p more i mt mt' :
  snd (connect_loop p more i mt) = snd (connect_loop p more i mt').
Proof.
  revert i mt mt'. induction more as [|more IH]; intros i mt mt'; cbn [connect_loop];
    by destruct (staleConn _).
Qed.

(** What a leg sends does not depend on the counters. *)
Lemma exchange_result `{CL : CoreLib} p r mt mt' :
  snd (exchange p r mt) = snd (exchange p r mt').
Proof.
  unfold exchange. pose proof (connect_loop_result p (maxConnectAttempts - 1) 0 mt mt') as E.
  destruct (connect_loop _ _ _ mt) as [m1 ret], (connect_loop _ _ _ mt') as [m2 ret'].
  simpl in E. subst ret'. destruct ret as [ret|e]; [|done]. by destruct (negb (Match r ret)).
Qed.

Lemma exchange_message `{CL : CoreLib} p r mt m :
  msg (snd (exchange p r mt)) = Some m ->
  Match r m = true /\ exists i, (i < maxConnectAttempts)%nat /\ Connect p i = Ok m.
Proof.
  unfold exchange.
  destruct (connect_loop_frame p (maxConnectAttempts - 1) 0 mt) as (mt' & j & -> & Hj & _).
  destruct (Connect p j) as [ret|e] eqn:E; [|done].
  destruct (Match r ret) eqn:Hm; simpl; [|done]. intros [= ->].
  split; [done|]. exists j. split; [unfold maxConnectAttempts in *; lia|done].
Qed.

(** * Properties *)

Section Properties.
Context {L : DnsLib} {CL : CoreLib} {LL : DnsLaws L}.

(** What the client gets for an upstream's message. *)
Lemma reply_written w r m :
  exists m', written (reply w r m) = [m'] /\ Rcode m' = Rcode m /\ Id m' = Id r /\
    Truncated m' = Truncated m /\ Answer m' = Answer m.
Proof.
  exists (reply_to r m). unfold reply. destruct (w _); autorewrite with go; done.
Qed.

Lemma leg_result_inv proxies r mt res :
  res ∈ leg_results proxies r mt -> exists p, p ∈ proxies /\ res = snd (exchange p r mt) /\ to res = Addr p.
Proof.
  unfold leg_results. intros (p & -> & Hp)%list_elem_of_fmap. exists p. split_and!; [done..|].
  unfold exchange. destruct (connect_loop _ _ _ _) as [mt' [ret|e]]; [|done].
  by destruct (negb _).
Qed.

(** C11: one useful upstream is enough, in whatever order the results arrive:
    when some leg has a useful reply and the context is not cancelled, exactly
    one message is written, it answers this query with NOERROR or NXDOMAIN,
    untruncated, and it carries the answer of an upstream whose reply matches
    the question and which is the one counted as the winner. *)
Theorem one_useful_leg_is_enough (proxies : list proxy) (r : Msg) (w : conn) (ctx_err : error)
    (order : list legResult) (mt mt0 : Metrics)
    (Horder : order ≡ₚ leg_results proxies r mt0)
    (Huseful : Exists usable (leg_results proxies r mt0)) :
  let '(mt', out) := dispatch w r ctx_err (map Arrived order) mt in
  exists p m m', p ∈ proxies /\ msg (snd (exchange p r mt0)) = Some m /\ Match r m = true /\
    written out = [m'] /\ (Rcode m' = RcodeSuccess \/ Rcode m' = RcodeNameError) /\
    Truncated m' = false /\ Id m' = Id r /\ Answer m' = Answer m /\
    count (winsCount mt') (Addr p) = count (winsCount mt) (Addr p) + 1 /\
    count (queriesCount mt') resultWon = count (queriesCount mt) resultWon + 1.
Proof.
  destruct (usable_in_order order _ Horder Huseful) as (pre & [t [m|] e] & post & -> & Hpre & Hm); [|done].
  unfold dispatch. rewrite map_app. cbn [map]. rewrite collect_usable by done. simpl.
  assert (LegResult t (Some m) e ∈ leg_results proxies r mt0) as Hin.
  { rewrite <- Horder. apply elem_of_app. right. by left. }
  destruct (leg_result_inv _ _ _ _ Hin) as (p & Hp & E & Et). simpl in Et. subst t.
  destruct (reply_written w r m) as (m' & Hw & Hr & Hid & Ht & Ha).
  exists p, m, m'. rewrite <- E. split_and!; try done.
  - by apply (exchange_message p r mt0 m); rewrite <- E.
  - rewrite Hr. simpl in Hm. destruct (Truncated m); [done|]. apply orb_true_iff in Hm. bprop.
    destruct Hm as [Hm|Hm]; bprop; auto.
  - rewrite Ht. simpl in Hm. by destruct (Truncated m).
  - apply count_inc.
  - apply count_inc.
Qed.

(** Without a useful reply the loop waits for every upstream; the client then
    gets the message that arrived last, whatever it is, and only when no upstream
    produced a message at all a SERVFAIL with the error that arrived last. *)
Theorem nothing_useful (w : conn) (r : Msg) (ctx_err : error) (order : list legResult) (mt : Metrics)
    (Hnone : Forall (fun res => ~ usable res) order) :
  dispatch w r ctx_err (map Arrived order) mt =
  match last (omap msg order) with
  | Some m => (count_query resultFallback mt, reply w r m)
  | None =>
      (count_query resultFailed mt,
       Outcome [] RcodeServerFailure
         (Some (PluginError "race" (default errNoAnswer (last (omap err order))))))
  end.
Proof.
  unfold dispatch. rewrite <- (app_nil_r (map _ _)), collect_unusable, race_absorbed by done.
  cbn [collect closing race_contest fst snd opening]. unfold last_or.
  destruct (last (omap msg order)); [done|]. by destruct (last (omap err order)).
Qed.

(** For every outcome of the [select]s: at most one message is written;
    exactly one of the three query results is counted unless the context cut the
    contest short, and then nothing is counted, nothing is written and the
    context's error is returned; a win is counted only with a won query; and a
    query without a written message returns SERVFAIL and an error. *)
Theorem dispatch_accounts (legs : list legResult) (evs : list (event legResult)) (w : conn) (r : Msg)
    (ctx_err : error) (mt : Metrics) (H : schedule legs evs) :
  let '(mt', out) := dispatch w r ctx_err evs mt in
  (length (written out) <= 1)%nat /\
  (written out = [] -> ret_rcode out = RcodeServerFailure /\ ret_err out <> None) /\
  legFailures mt' = legFailures mt /\ staleConns mt' = staleConns mt /\
  ((mt' = mt /\ out = Outcome [] RcodeServerFailure (Some ctx_err)) \/
   exists result, result ∈ [resultWon; resultFallback; resultFailed] /\
     queriesCount mt' = inc result (queriesCount mt) /\
     (result = resultWon -> exists t, winsCount mt' = inc t (winsCount mt)) /\
     (result <> resultWon -> winsCount mt' = winsCount mt)).
Proof.
  assert (forall m, length (written (reply w r m)) = 1%nat /\ written (reply w r m) <> []) as Hrep.
  { intros m. unfold reply. by destruct (w _). }
  unfold dispatch.
  destruct (collect_cases legs evs H)
    as [(pre & [t [m|] e] & post & _ & _ & Hu & ->)|[(order & rest & _ & _ & _ & _ & ->)|(order & _ & _ & _ & ->)]];
    [|done|..].
  - destruct (Hrep m) as [Hl Hn]. split_and!; simpl; try done; [lia|].
    right. exists resultWon. split_and!; [by left|done|by eexists|done].
  - split_and!; simpl; try done; [lia|]. by left.
  - destruct (fold_left absorb order opening) as [[m|] le]; simpl.
    + destruct (Hrep m) as [Hl Hn]. split_and!; simpl; try done; [lia|].
      right. exists resultFallback. split_and!; [right; by left|done..].
    + split_and!; try done; [lia|]. right. exists resultFailed.
      split_and!; [right; right; by left|done..].
Qed.

(** A leg sends a message or an error, never both and never neither; a
    message was received from this upstream and matches the question; the leg
    counts exactly one failure when its result is not useful and none when it
    is, and the reason tells an unusable reply from an error and a mismatch from
    other errors. *)
Theorem exchange_spec (p : proxy) (r : Msg) (mt : Metrics) :
  let '(mt', res) := exchange p r mt in
  to res = Addr p /\
  match msg res, err res with
  | Some m, None => Match r m = true /\ exists i, (i < maxConnectAttempts)%nat /\ Connect p i = Ok m
  | None, Some _ => True
  | _, _ => False
  end /\
  (usable res -> legFailures mt' = legFailures mt) /\
  (~ usable res ->
     exists reason, legFailures mt' = inc (Addr p, reason) (legFailures mt) /\
       (reason = reasonUnusable <-> is_Some (msg res)) /\
       (reason = reasonMismatch -> err res = Some errMismatch)) /\
  winsCount mt' = winsCount mt /\ queriesCount mt' = queriesCount mt.
Proof.
  pose proof (fun m => exchange_message p r mt m) as Hm. cbn [usable race_usable]. unfold exchange in *.
  destruct (connect_loop_frame p (maxConnectAttempts - 1) 0 mt) as (mt1 & j & E & _ & E1 & E2 & E3).
  rewrite E in *. destruct (Connect p j) as [ret|e] eqn:Ec.
  - destruct (Match r ret) eqn:Hmatch; cbn [negb msg err to] in *.
    + specialize (Hm ret eq_refl) as [_ Hi].
      destruct (useful (Some ret)); cbn; rewrite ?E1; split_and!; try done.
      intros _. exists reasonUnusable. split_and!; done.
    + cbn. rewrite E1. split_and!; try done. intros _. exists reasonMismatch.
      split_and!; try done; by intros [? ?].
  - cbn. rewrite E1. split_and!; try done. intros _. exists reasonError.
    split_and!; try done; by intros [? ?].
Qed.

(** Dead pooled connections never decide a leg: with up to
    [maxConnectAttempts - 1] of them (a full pool and one more) the leg goes on
    to the first attempt that is not one, its result is what that attempt gives,
    and every discarded connection is counted. *)
Theorem stale_pool_is_drained (p : proxy) (r : Msg) (mt : Metrics) (k : nat)
    (Hk : (k < maxConnectAttempts)%nat)
    (Hdead : forall i, (i < k)%nat -> staleConn (err_of (Connect p i)) = true)
    (Hlive : staleConn (err_of (Connect p k)) = false) :
  let '(mt', res) := exchange p r mt in
  count (staleConns mt') (Addr p) = count (staleConns mt) (Addr p) + Z.of_nat k /\
  res = match Connect p k with
        | Ok ret => if Match r ret then LegResult (Addr p) (Some ret) None
                    else LegResult (Addr p) None (Some errMismatch)
        | Err e => LegResult (Addr p) None (Some e)
        end.
Proof.
  unfold exchange.
  destruct (connect_loop_stale p k (maxConnectAttempts - 1) 0 mt) as (mt1 & -> & Hc & _);
    [unfold maxConnectAttempts, maxIdleConns in *; lia|done..|].
  rewrite Nat.add_0_l. destruct (Connect p k) as [ret|e]; [|done].
  destruct (Match r ret); simpl; [|done]. by destruct (negb _).
Qed.

(** Outside its zone the plugin is absent: the rest of the chain decides
    everything; inside, the rest of the chain is never asked. *)
Theorem ServeDNS_zone (from : str) (w : conn) (r : Msg) (ctx_err : error)
    (evs : list (event legResult)) (mt : Metrics) :
  (NameMatches from (Name r) = false ->
     forall next, ServeDNS from next w r ctx_err evs mt = (mt, next r)) /\
  (NameMatches from (Name r) = true ->
     forall next, ServeDNS from next w r ctx_err evs mt = dispatch w r ctx_err evs mt).
Proof. unfold ServeDNS. by split; intros ->. Qed.

(** In every interleaving of the legs' goroutines and the receiving loop: if
    the caller returned without having seen the cancellation and some upstream
    had a useful reply, it returned a useful reply. *)
Theorem every_interleaving_wins (proxies : list proxy) (r : Msg) (mt0 : Metrics)
    (s : system legResult (option Msg * option error) verdict) (v : verdict)
    (Hreach : reachable (leg_results proxies r mt0) s) (Hret : caller s = Returned v)
    (Hcut : v <> Interrupted) (Huseful : Exists usable (leg_results proxies r mt0)) :
  exists t m, v = Won t m /\ useful (Some m) = true.
Proof.
  apply contest_reachable_inv in Hreach.
  destruct (inv_returned _ _ _ Hreach Hret) as (evs & Hs & <-).
  destruct (collect_cases _ _ Hs)
    as [(pre & [t [m|] e] & post & _ & _ & Hm & ->)|[(order & rest & _ & _ & _ & _ & E)|(order & Hp & _ & Hno & _)]];
    [|done|..].
  - by exists t, m.
  - by rewrite E in Hcut.
  - rewrite <- Hp in Huseful. by apply Forall_Exists_neg in Hno.
Qed.

End Properties.

(** * Witnesses and examples *)

Definition question : Question := MkQuestion (lit "example.com.") 1 1.
Definition query : Msg := MkMsg 7 false false false false 0 [question] [] [] [].
Definition response (truncated : bool) (rcode : Z) (answer : list RR) : Msg :=
  MkMsg 99 true false truncated false rcode [question] answer [] [].
Definition record : RR := MkRR 1 300 (lit "192.0.2.1").
Definition epipe : error := MkError [EPIPE] false.
Definition timeout : error := MkError [DeadlineExceeded] true.

(** An upstream with two dead pooled connections and a good answer, one that
    fails, one that truncates and one that times out. *)
Definition good_upstream : proxy :=
  Proxy (lit "9.9.9.11:853") (fun i => if (i <? 2)%nat then Err epipe else Ok (response false 0 [record])).
Definition failing_upstream : proxy :=
  Proxy (lit "149.112.112.11:853") (fun _ => Ok (response false RcodeServerFailure [])).
Definition truncating_upstream : proxy :=
  Proxy (lit "192.0.2.53:53") (fun _ => Ok (response true 0 [])).
Definition slow_upstream : proxy :=
  Proxy (lit "192.0.2.54:53") (fun _ => Err timeout).

Definition metrics0 : Metrics := MkMetrics ∅ ∅ ∅ ∅.
Definition client : conn := fun _ => None.

Abbreviation legs_of ps := (leg_results (CL := concrete_core) ps query metrics0).
Abbreviation run_dispatch evs :=
  (dispatch (L := concrete_dns) (CL := concrete_core) client query timeout evs metrics0).

(** A truncated reply can reach the client although another upstream
    answered untruncated: with one upstream failing and one truncating, the
    message that arrives last is returned. *)
Theorem truncated_without_all_truncating :
  exists ps order res m m', order ≡ₚ leg_results (CL := concrete_core) ps query metrics0 /\
    res ∈ order /\ msg res = Some m /\ Truncated m = false /\
    written (snd (dispatch (L := concrete_dns) (CL := concrete_core) client query timeout
      (map Arrived order) metrics0)) = [m'] /\ Truncated m' = true.
Proof.
  exists [failing_upstream; truncating_upstream], (legs_of [failing_upstream; truncating_upstream]).
  eexists _, _, _. split; [done|]. split; [by left|]. by vm_compute.
Qed.

(** The failed result does not mean that no upstream could be reached: one
    whose reply does not match the question was reached and answered, and the
    query counts as failed. *)
Theorem failed_although_reached :
  exists p m, Connect p 0 = Ok m /\ useful (Some m) = true /\
    let '(mt', out) := run_dispatch (map Arrived (legs_of [p; slow_upstream])) in
    count (queriesCount mt') resultFailed = 1 /\ written out = [] /\
    count (legFailures (fst (exchange (CL := concrete_core) p query metrics0))) (Addr p, reasonMismatch) = 1.
Proof.
  exists (Proxy (lit "192.0.2.55:53")
    (fun _ => Ok (MkMsg 99 true false false false 0 [MkQuestion (lit "other.example.") 1 1] [record] [] []))).
  eexists. by vm_compute.
Qed.

Lemma one_useful_leg_is_enough_witness :
  let '(mt', out) := run_dispatch (map Arrived (rev (legs_of [good_upstream; failing_upstream]))) in
  exists p m m', p ∈ [good_upstream; failing_upstream] /\
    msg (snd (exchange (CL := concrete_core) p query metrics0)) = Some m /\
    Match (CoreLib := concrete_core) query m = true /\
    written out = [m'] /\ (Rcode m' = RcodeSuccess \/ Rcode m' = RcodeNameError) /\
    Truncated m' = false /\ Id m' = Id query /\ Answer m' = Answer m /\
    count (winsCount mt') (Addr p) = count (winsCount metrics0) (Addr p) + 1 /\
    count (queriesCount mt') resultWon = count (queriesCount metrics0) resultWon + 1.
Proof.
  apply (one_useful_leg_is_enough (L := concrete_dns) (CL := concrete_core)
    [good_upstream; failing_upstream] query client timeout
    (rev (legs_of [good_upstream; failing_upstream])) metrics0 metrics0).
  - symmetry. apply Permutation_rev.
  - left. by vm_compute.
Defined.

Lemma nothing_useful_witness :
  run_dispatch (map Arrived (legs_of [slow_upstream; failing_upstream])) =
  (count_query resultFallback metrics0,
   reply (L := concrete_dns) client query (response false RcodeServerFailure [])).
Proof.
  apply (nothing_useful (L := concrete_dns) (CL := concrete_core) client query timeout
    (legs_of [slow_upstream; failing_upstream]) metrics0).
  repeat constructor; by vm_compute.
Defined.

Lemma dispatch_accounts_witness :
  let '(mt', out) := run_dispatch (map Arrived (legs_of [failing_upstream]) ++ [CtxDone]) in
  (length (written out) <= 1)%nat /\ legFailures mt' = legFailures metrics0.
Proof.
  pose proof (dispatch_accounts (L := concrete_dns) (CL := concrete_core)
    (legs_of [failing_upstream; good_upstream]) (map Arrived (legs_of [failing_upstream]) ++ [CtxDone])
    client query timeout metrics0
    (schedule_cut _ (legs_of [failing_upstream]) (legs_of [good_upstream]) (reflexivity _)
       ltac:(discriminate))) as H.
  destruct (run_dispatch _) as [mt' out]. destruct H as (H1 & _ & H2 & _). exact (conj H1 H2).
Defined.

Lemma stale_pool_is_drained_witness :
  let '(mt', res) := exchange (CL := concrete_core) good_upstream query metrics0 in
  count (staleConns mt') (Addr good_upstream) = 0 + Z.of_nat 2 /\
  res = LegResult (Addr good_upstream) (Some (response false 0 [record])) None.
Proof.
  apply (stale_pool_is_drained (CL := concrete_core) good_upstream query metrics0 2).
  - unfold maxConnectAttempts, maxIdleConns. lia.
  - intros [|[|i]] Hi; [reflexivity|reflexivity|lia].
  - reflexivity.
Defined.

(** The schedule in which the failing upstream answers first. *)
Definition raced : system legResult (option Msg * option error) verdict :=
  MkSystem [] [] (Returned (Won (Addr good_upstream) (response false 0 [record]))) false.

Lemma raced_reachable : reachable (legs_of [failing_upstream; good_upstream]) raced.
Proof.
  eapply rtc_l; [apply (step_send _ []); vm_compute; lia|].
  eapply rtc_l; [apply step_receive|].
  eapply rtc_l; [apply (step_send _ []); vm_compute; lia|].
  apply rtc_once.
  exact (step_receive _ [] (LegResult (Addr good_upstream) (Some (response false 0 [record])) None) [] 0
    (Some (response false RcodeServerFailure []), None) false).
Qed.

Lemma every_interleaving_wins_witness :
  exists t m, Won (Addr good_upstream) (response false 0 [record]) = Won t m /\ useful (Some m) = true.
Proof.
  apply (every_interleaving_wins (CL := concrete_core) [failing_upstream; good_upstream] query metrics0
    raced _ raced_reachable eq_refl).
  - discriminate.
  - right. left. by vm_compute.
Defined.

Lemma legs_never_block_witness :
  exists s', rtc (step (legs_of [failing_upstream; good_upstream])) raced s' /\ running s' = [].
Proof.
  destruct (legs_never_block (legs_of [failing_upstream; good_upstream]) raced raced_reachable)
    as (_ & s' & H & Hr & _). exists s'. exact (conj H Hr).
Defined.

Lemma caller_can_return_witness :
  exists s' v, rtc (step (legs_of [failing_upstream; good_upstream]))
    (launched (legs_of [failing_upstream; good_upstream])) s' /\ caller s' = Returned v.
Proof. apply caller_can_return. apply rtc_refl. Defined.
