(* ===== verification/ProbeStore.v ===== *)
(** * What the probe store promises to its users

    [peercache.race] puts answers into the store and [serveProbe] takes them
    out.  Both are proved against this interface; [PeercacheStore] implements
    it. *)

From Stdlib Require Import Lia ZArith Ascii.
From stdpp Require Import base strings gmap option numbers list.
From S2P Require Import Prelude GoStrings Dns.

Local Open Scope Z_scope.

(** The records whose TTL is a lifetime: all but OPT. *)
Definition timed (rrs : list RR) : list RR := filter (fun rr => Rrtype rr <> TypeOPT) rrs.

Definition records (m : Msg) : list RR := Answer m ++ Ns m ++ Extra m.

(** A message off the wire: its TTLs are [uint32]s. *)
Definition wire_msg (m : Msg) : Prop := Forall (fun rr => 0 <= Ttl rr < 2 ^ 32) (records m).

(** The longest time, in nanoseconds, a replica is considered to run. *)
Definition end_of_time : Z := 2 ^ 62.

Class ProbeStore := {
  ps_state : Type;
  (** [put] of an answer to a request, and [get] for a request, at a time. *)
  ps_put : Msg -> Msg -> Z -> ps_state -> ps_state;
  ps_get : Msg -> Z -> ps_state -> ps_state * option Msg;
}.

Class ProbeStoreLaws (PS : ProbeStore) := {
  (** Consistent at a time. *)
  ps_ok : Z -> ps_state -> Prop;
  ps_ok_later t t' s : ps_ok t s -> t <= t' -> ps_ok t' s;
  ps_put_ok t r m s : 0 <= t -> wire_msg m -> ps_ok t s -> ps_ok t (ps_put r m t s);
  ps_get_ok t r s : t < end_of_time -> ps_ok t s -> ps_ok t (fst (ps_get r t s));
  (** A served answer is a complete reply to the request with usable TTLs. *)
  ps_get_answer t r s m :
    t < end_of_time -> ps_ok t s -> snd (ps_get r t s) = Some m ->
    Id m = Id r /\ Response m = true /\ Truncated m = false /\
    (forall q, head (Questions r) = Some q -> Questions m = [q]) /\
    Forall (fun rr => 5 <= Ttl rr) (timed (records m));
}.
