(* ===== verification/PeercacheStore.v ===== *)
(** * The probe store ([plugin/peercache/store.go])

    Answers kept for siblings, keyed by question, with their TTLs rebased on the
    way out.  Messages are pointers: a message refers to its records by location
    in a heap, so that [Copy], the rewriting of TTLs in place and the sharing
    between the store and its callers are what they are in Go.  The cache, the
    hash and CoreDNS's classification of responses are parameters. *)

From Stdlib Require Import Lia ZArith Ascii.
From stdpp Require Import base strings gmap option numbers list.
From S2P Require Import Prelude GoStrings GoTime Dns ProbeStore.

Local Open Scope Z_scope.

(** ** Messages on the heap *)

Abbreviation heap := (list RR).

(** A [*dns.Msg]: its header fields and question (the record sections of [hdr]
    are not used) and the locations of its records. *)
Record pmsg := PMsg { hdr : Msg; answer : list nat; ns : list nat; extra : list nat }.

(** [[][]dns.RR{m.Answer, m.Ns, m.Extra}], flattened. *)
Definition locs (m : pmsg) : list nat := answer m ++ ns m ++ extra m.

Definition load_rrs (h : heap) (ls : list nat) : list RR := omap (fun l => h !! l) ls.

(** The message a pointer stands for. *)
Definition load (h : heap) (m : pmsg) : Msg :=
  MkMsg (Id (hdr m)) (Response (hdr m)) (Authoritative (hdr m)) (Truncated (hdr m))
    (CheckingDisabled (hdr m)) (Rcode (hdr m)) (Questions (hdr m))
    (load_rrs h (answer m)) (load_rrs h (ns m)) (load_rrs h (extra m)).

Definition valid (h : heap) (m : pmsg) : Prop := Forall (fun l => (l < length h)%nat) (locs m).

(** ** Code that is not in this repository *)

(** [response.Typify]'s classes, those that are stored by name. *)
Inductive response_type : Type := NoError | NameError | NoData | OtherType.

(** [m.Copy()]; [state.Do()], [QType] and [QClass] of a request;
    [response.Typify] of a message at a time;
    [cache.Hash]. *)
Class StoreLib := {
  Copy : heap -> pmsg -> heap * pmsg;
  Do : Msg -> bool;
  QType : Msg -> Z;
  QClass : Msg -> Z;
  Typify : Msg -> Z -> response_type;
  Hash : str -> Z;
}.

(** [Copy] is deep: same message, every record in a cell of its own that did
    not exist before, nothing else allocated. *)
Class StoreLaws (SL : StoreLib) := {
  Copy_spec h m : valid h m ->
    exists cells, fst (Copy h m) = h ++ cells /\ valid (h ++ cells) (snd (Copy h m)) /\
      load (h ++ cells) (snd (Copy h m)) = load h m /\
      Forall (fun l => (length h <= l)%nat) (locs (snd (Copy h m))) /\
      Forall (fun rr => rr ∈ load_rrs h (locs m)) cells;
}.

(** [cache.Cache]: a map of bounded size that evicts any other entries. *)
Class CacheLib (V : Type) := {
  cache_t : Type;
  cache_New : nat -> cache_t;
  cache_Add : Z -> V -> cache_t -> cache_t;
  cache_Get : Z -> cache_t -> option V;
  cache_Remove : Z -> cache_t -> cache_t;
  cache_Len : cache_t -> Z;
}.

Class CacheLaws (V : Type) (C : CacheLib V) := {
  Get_New n k : cache_Get k (cache_New n) = None;
  Get_Add k v c : cache_Get k (cache_Add k v c) = Some v;
  Get_Add_other k k' v v' c :
    k' <> k -> cache_Get k' (cache_Add k v c) = Some v' -> cache_Get k' c = Some v';
  Get_Remove k c : cache_Get k (cache_Remove k c) = None;
  Get_Remove_other k k' c : k' <> k -> cache_Get k' (cache_Remove k c) = cache_Get k' c;
}.

(** ** The store *)

Definition storeCapacity : nat := 4096.
Definition minServeTTL : Z := 5 * Second.

Record entry := Entry { e_msg : pmsg; stored : Z; origTTL : Z }.

Section Store.
Context {L : DnsLib} {SL : StoreLib} {C : CacheLib entry}.

(** The store with the heap its messages live on and the gauge it sets. *)
Record store := Store { mem : heap; c : cache_t; storeEntries : Z }.

Definition newStore (h : heap) : store := Store h (cache_New storeCapacity) 0.

Definition storable (h : heap) (r : Msg) (m : option pmsg) (now : Z) : bool :=
  match m with
  | None => false
  | Some m =>
      if Truncated (hdr m) || Do r || CheckingDisabled r then false
      else match Typify (load h m) now with
           | NoError | NameError | NoData => true
           | OtherType => false
           end
  end.

(** The inner loop of [minTTL]: [min, found] as an option. *)
Fixpoint minTTL_loop (rrs : list RR) (min : option Z) : option Z :=
  match rrs with
  | [] => min
  | rr :: rrs =>
      if Rrtype rr =? TypeOPT then minTTL_loop rrs min
      else
        match min with
        | None => minTTL_loop rrs (Some (Ttl rr))
        | Some v => minTTL_loop rrs (if Ttl rr <? v then Some (Ttl rr) else min)
        end
  end.

Definition minTTL (h : heap) (m : pmsg) : option Z := minTTL_loop (load_rrs h (locs m)) None.

Definition with_ttl (ttl : Z) (rr : RR) : RR :=
  if Rrtype rr =? TypeOPT then rr else MkRR (Rrtype rr) ttl (Rdata rr).

(** [rr.Header().Ttl = ttl] for each record, in place. *)
Fixpoint setTTL_loop (ttl : Z) (ls : list nat) (h : heap) : heap :=
  match ls with
  | [] => h
  | l :: ls => setTTL_loop ttl ls (alter (with_ttl ttl) l h)
  end.

Definition setTTL (h : heap) (m : pmsg) (ttl : Z) : heap := setTTL_loop ttl (locs m) h.

Definition key (r : Msg) : Z :=
  let name := Name r in
  let qtype := QType r in
  let qclass := QClass r in
  Hash (name ++ [byte_of (Z.shiftr qtype 8); byte_of qtype; byte_of (Z.shiftr qclass 8); byte_of qclass]).

(** One reading [now] of the clock stands for the two that [put] takes:
    [time.Now()] in [storable], which [Typify] compares with the validity of
    signatures, and [s.now()], the time stored (the same function outside the
    tests). *)
Definition put (r : Msg) (m : option pmsg) (now : Z) (s : store) : store :=
  match m with
  | Some p =>
      if negb (storable (mem s) r m now) then s
      else
        match minTTL (mem s) p with
        | None => s
        | Some ttl =>
            if dur_mul ttl Second <? minServeTTL then s
            else
              let '(h, p) := Copy (mem s) p in
              let c := cache_Add (key r) (Entry p now ttl) (c s) in
              Store h c (cache_Len c)
        end
  | None => s
  end.

Definition set_rcode (p : pmsg) (r : Msg) (rcode : Z) : pmsg :=
  PMsg (SetRcode (hdr p) r rcode) (answer p) (ns p) (extra p).

Definition get (r : Msg) (now : Z) (s : store) : store * option pmsg :=
  if Do r || CheckingDisabled r then (s, None)
  else
    let k := key r in
    match cache_Get k (c s) with
    | None => (s, None)
    | Some e =>
        let remaining := dur_sub (dur_mul (origTTL e) Second) (time_Sub now (stored e)) in
        if remaining <? minServeTTL then
          let c := cache_Remove k (c s) in
          (Store (mem s) c (cache_Len c), None)
        else
          let '(h, m) := Copy (mem s) (e_msg e) in
          let rcode := Rcode (hdr m) in
          let m := set_rcode m r rcode in
          let h := setTTL h m (uint32_of (Seconds remaining)) in
          (Store h (c s) (storeEntries s), Some m)
    end.

Definition len (s : store) : Z := cache_Len (c s).

(** ** Specification *)

(** A message with every TTL but OPT's replaced. *)
Definition rebase (ttl : Z) (m : Msg) : Msg :=
  MkMsg (Id m) (Response m) (Authoritative m) (Truncated m) (CheckingDisabled m) (Rcode m)
    (Questions m) (map (with_ttl ttl) (Answer m)) (map (with_ttl ttl) (Ns m))
    (map (with_ttl ttl) (Extra m)).

(** A DNS TTL is a [uint32]. *)
Definition ttls_ok (h : heap) : Prop := Forall (fun rr => 0 <= Ttl rr < 2 ^ 32) h.

(** What holds of every entry: its message is readable and complete, and its
    lifetime is the message's least TTL, at least the floor. *)
Record entry_ok (h : heap) (e : entry) : Prop := MkEntryOk {
  entry_valid : valid h (e_msg e);
  entry_complete : Truncated (hdr (e_msg e)) = false;
  entry_ttl : minTTL h (e_msg e) = Some (origTTL e);
  entry_floor : minServeTTL <= origTTL e * Second;
}.

Record store_ok (s : store) : Prop := MkStoreOk {
  store_ttls : ttls_ok (mem s);
  store_entries : forall k e, cache_Get k (c s) = Some e -> entry_ok (mem s) e;
}.

(** ** Lemmas *)

Lemma load_rrs_app h ls ls' : load_rrs h (ls ++ ls') = load_rrs h ls ++ load_rrs h ls'.
Proof. apply omap_app. Qed.

Lemma records_load h m : records (load h m) = load_rrs h (locs m).
Proof. unfold records, locs, load. simpl. by rewrite !load_rrs_app. Qed.

(** Cells that are not touched keep their records. *)
Lemma load_rrs_ext h h' ls :
  Forall (fun l => h !! l = h' !! l) ls -> load_rrs h ls = load_rrs h' ls.
Proof. unfold load_rrs. induction 1 as [|l ls Hl _ IH]; [done|]. cbn. by rewrite Hl, IH. Qed.

Lemma load_ext h h' m : Forall (fun l => h !! l = h' !! l) (locs m) -> load h m = load h' m.
Proof.
  unfold locs. rewrite !Forall_app. intros (H1 & H2 & H3). unfold load.
  by rewrite (load_rrs_ext _ _ _ H1), (load_rrs_ext _ _ _ H2), (load_rrs_ext _ _ _ H3).
Qed.

Lemma valid_ext h h' m :
  valid h m -> (forall l, (l < length h)%nat -> h !! l = h' !! l) -> load h m = load h' m.
Proof. intros Hv He. apply load_ext. eapply Forall_impl; [exact Hv|]. exact He. Qed.

Lemma minTTL_load h h' m m' :
  records (load h m) = records (load h' m') -> minTTL h m = minTTL h' m'.
Proof. rewrite !records_load. unfold minTTL. by intros ->. Qed.

Lemma minTTL_loop_spec rrs min :
  match minTTL_loop rrs min with
  | None => min = None /\ timed rrs = []
  | Some v =>
      Forall (fun rr => v <= Ttl rr) (timed rrs) /\
      match min with Some v0 => v <= v0 | None => True end /\
      (min = Some v \/ exists rr, rr ∈ timed rrs /\ Ttl rr = v)
  end.
Proof.
  revert min. induction rrs as [|rr rrs IH]; intros min; cbn [minTTL_loop].
  { destruct min as [v|]; [|done]. split_and!; [constructor|lia|by left]. }
  unfold timed. destruct (Rrtype rr =? TypeOPT) eqn:Ho; bprop.
  { rewrite filter_cons_False by (intros H; by apply H). apply IH. }
  rewrite filter_cons_True by done. fold (timed rrs).
  destruct min as [v0|]; [destruct (Ttl rr <? v0) eqn:Hlt; bprop|].
  - specialize (IH (Some (Ttl rr))). destruct (minTTL_loop _ _) as [v|]; [|naive_solver].
    destruct IH as (H1 & H2 & H3). split_and!; [constructor; [lia|done]|lia|].
    right. destruct H3 as [[= <-]|(x & Hx & <-)]; [exists rr|exists x]; (split; [|done]); set_solver.
  - specialize (IH (Some v0)). destruct (minTTL_loop _ _) as [v|]; [|naive_solver].
    destruct IH as (H1 & H2 & H3). split_and!; [constructor; [lia|done]|lia|].
    destruct H3 as [[= <-]|(x & Hx & <-)]; [by left|right; exists x; (split; [|done]); set_solver].
  - specialize (IH (Some (Ttl rr))). destruct (minTTL_loop _ _) as [v|]; [|naive_solver].
    destruct IH as (H1 & H2 & H3). split_and!; [constructor; [lia|done]|done|].
    right. destruct H3 as [[= <-]|(x & Hx & <-)]; [exists rr|exists x]; (split; [|done]); set_solver.
Qed.

Lemma minTTL_range h m ttl : ttls_ok h -> minTTL h m = Some ttl -> 0 <= ttl < 2 ^ 32.
Proof.
  intros Hh E. pose proof (minTTL_loop_spec (load_rrs h (locs m)) None) as H. unfold minTTL in E.
  rewrite E in H. destruct H as (_ & _ & [[=]|(rr & Hrr & <-)]).
  apply list_elem_of_filter in Hrr as [_ Hrr]. unfold load_rrs in Hrr.
  apply list_elem_of_omap in Hrr as (l & _ & Hl). unfold ttls_ok in Hh. rewrite Forall_lookup in Hh. eauto.
Qed.


Lemma with_ttl_idem ttl rr : with_ttl ttl (with_ttl ttl rr) = with_ttl ttl rr.
Proof. unfold with_ttl. destruct (Rrtype rr =? TypeOPT) eqn:E; simpl; by rewrite E. Qed.

Lemma setTTL_loop_lookup ttl ls h l :
  setTTL_loop ttl ls h !! l = if bool_decide (l ∈ ls) then with_ttl ttl <$> h !! l else h !! l.
Proof.
  revert h. induction ls as [|l' ls IH]; intros h; simpl; [done|]. rewrite IH.
  destruct (decide (l' = l)) as [->|Hne].
  - rewrite list_lookup_alter_eq, (bool_decide_eq_true_2 (l ∈ l :: ls)) by set_solver.
    case_bool_decide; [|done]. destruct (h !! l); [|done]. simpl. by rewrite with_ttl_idem.
  - rewrite list_lookup_alter_ne by done. by rewrite (bool_decide_ext (l ∈ l' :: ls) (l ∈ ls)) by set_solver.
Qed.

Lemma length_setTTL_loop ttl ls h : length (setTTL_loop ttl ls h) = length h.
Proof. revert h. induction ls as [|l ls IH]; intros h; simpl; [done|]. by rewrite IH, length_alter. Qed.

Lemma load_rrs_setTTL ttl all ls h :
  ls ⊆ all -> load_rrs (setTTL_loop ttl all h) ls = map (with_ttl ttl) (load_rrs h ls).
Proof.
  intros Hsub. unfold load_rrs. induction ls as [|l ls IH]; [done|]. cbn.
  rewrite setTTL_loop_lookup, bool_decide_eq_true_2 by set_solver.
  rewrite IH by set_solver. by destruct (h !! l).
Qed.

Lemma load_setTTL h m ttl : load (setTTL h m ttl) m = rebase ttl (load h m).
Proof.
  unfold load, setTTL, rebase, locs. simpl.
  by rewrite !load_rrs_setTTL by set_solver.
Qed.

(** Writing TTLs into a message whose cells are all new leaves the old cells. *)
Lemma setTTL_old h m ttl n l :
  Forall (fun l => (n <= l)%nat) (locs m) -> (l < n)%nat -> setTTL h m ttl !! l = h !! l.
Proof.
  intros Hnew Hl. unfold setTTL. rewrite setTTL_loop_lookup. case_bool_decide as Hin; [|done].
  rewrite Forall_forall in Hnew. apply Hnew in Hin. lia.
Qed.

Lemma ttls_ok_setTTL h m ttl : 0 <= ttl < 2 ^ 32 -> ttls_ok h -> ttls_ok (setTTL h m ttl).
Proof.
  unfold ttls_ok. rewrite !Forall_lookup. intros Ht Hh l rr. unfold setTTL.
  rewrite setTTL_loop_lookup. case_bool_decide; [|by apply Hh].
  destruct (h !! l) as [rr'|] eqn:E; simpl; [|done]. intros [= <-]. apply Hh in E.
  unfold with_ttl. by destruct (_ =? _).
Qed.

(** Copies keep well-formedness: the new cells hold records the old ones held. *)
Lemma load_rrs_lookup h ls l rr : l ∈ ls -> h !! l = Some rr -> rr ∈ load_rrs h ls.
Proof. intros Hl Hrr. apply list_elem_of_omap. by exists l. Qed.

Lemma entry_ok_ext h h' e :
  entry_ok h e -> (length h <= length h')%nat ->
  (forall l, (l < length h)%nat -> h !! l = h' !! l) -> entry_ok h' e.
Proof.
  intros [Hv Hc Ht Hf] Hlen Hext. split; try done.
  - eapply Forall_impl; [exact Hv|]. simpl. lia.
  - rewrite <- Ht. apply minTTL_load. by rewrite (valid_ext h h').
Qed.

(** What a request that may be served finds. *)
Definition remaining_at (e : entry) (now : Z) : Z := origTTL e * Second - (now - stored e).

Lemma remaining_exact e now :
  0 <= origTTL e < 2 ^ 32 -> 0 <= now - stored e < 2 ^ 62 ->
  dur_sub (dur_mul (origTTL e) Second) (time_Sub now (stored e)) = remaining_at e now.
Proof.
  intros Ht Hn. unfold dur_sub, dur_mul, time_Sub, remaining_at.
  rewrite (wrap64_id (_ * _)) by (unfold int64, Second; lia).
  rewrite Z.min_r, Z.max_r by lia. apply wrap64_id. unfold int64, Second. lia.
Qed.

Section Lemmas.
Context {LL : DnsLaws L} {SLL : StoreLaws SL} {CL : CacheLaws entry C}.

(** The result of copying a readable message. *)
Lemma copy_ok h p :
  valid h p -> ttls_ok h ->
  let '(h', p') := Copy h p in
  (length h <= length h')%nat /\ (forall l, (l < length h)%nat -> h !! l = h' !! l) /\
  valid h' p' /\ load h' p' = load h p /\ ttls_ok h' /\ Forall (fun l => (length h <= l)%nat) (locs p').
Proof.
  intros Hv Ht. destruct (Copy_spec h p Hv) as (cells & E1 & E2 & E3 & E4 & E5).
  destruct (Copy h p) as [h' p']. simpl in *. subst h'. split_and!; try done.
  - rewrite length_app. lia.
  - intros l Hl. by rewrite lookup_app_l.
  - apply Forall_app. split; [done|]. eapply Forall_impl; [exact E5|]. simpl. intros rr Hrr.
    apply list_elem_of_omap in Hrr as (l & _ & Hl). unfold ttls_ok in Ht.
    rewrite Forall_lookup in Ht. by apply (Ht l).
Qed.

(** What [put] stores. *)
Lemma put_stores r p now s :
  store_ok s -> valid (mem s) p ->
  (put r (Some p) now s = s /\
     forall ttl, storable (mem s) r (Some p) now = true -> minTTL (mem s) p = Some ttl -> ttl < 5) \/
  exists ttl p' h', storable (mem s) r (Some p) now = true /\ minTTL (mem s) p = Some ttl /\
    Copy (mem s) p = (h', p') /\
    put r (Some p) now s =
      Store h' (cache_Add (key r) (Entry p' now ttl) (c s))
        (cache_Len (cache_Add (key r) (Entry p' now ttl) (c s))) /\
    entry_ok h' (Entry p' now ttl) /\ load h' p' = load (mem s) p.
Proof.
  intros [Ht He] Hv. unfold put. destruct (storable _ _ _ _) eqn:Hs; [|by left]. cbn [negb].
  destruct (minTTL (mem s) p) as [ttl|] eqn:Hm; [|by left].
  pose proof (minTTL_range _ _ _ Ht Hm) as Hr. unfold dur_mul.
  rewrite wrap64_id by (unfold int64, Second; lia).
  destruct (_ <? _) eqn:Hf; bprop.
  { left. split; [done|]. intros ttl' _ [= <-]. unfold minServeTTL, Second in *. lia. }
  pose proof (copy_ok (mem s) p Hv Ht) as Hc. destruct (Copy (mem s) p) as [h' p'] eqn:Ec.
  destruct Hc as (Hlen & Hext & Hv' & Hl & Ht' & _). right. exists ttl, p', h'.
  split_and!; try done. split; simpl; [done| | |].
  - assert (Truncated (load h' p') = false) as E; [|exact E]. rewrite Hl. simpl.
    unfold storable in Hs. by destruct (Truncated (hdr p)).
  - rewrite <- Hm. apply minTTL_load. by rewrite Hl.
  - lia.
Qed.

Lemma put_ok r p now s : store_ok s -> valid (mem s) p -> store_ok (put r (Some p) now s).
Proof.
  intros Hok Hv. destruct (put_stores r p now s Hok Hv) as [[-> _]|(ttl & p' & h' & _ & _ & Ec & -> & He & _)];
    [done|]. destruct Hok as [Ht Hes].
  pose proof (copy_ok (mem s) p Hv Ht) as Hc. rewrite Ec in Hc. destruct Hc as (Hlen & Hext & _ & _ & Ht' & _).
  split; simpl; [done|]. intros k e Hk. destruct (decide (k = key r)) as [->|Hne].
  - rewrite Get_Add in Hk. by injection Hk as <-.
  - apply Get_Add_other in Hk; [|done]. by eapply entry_ok_ext; [apply (Hes k)| |].
Qed.

(** What [get] does with an entry it finds. *)
Lemma get_hit r now s e :
  store_ok s -> Do r = false -> CheckingDisabled r = false ->
  cache_Get (key r) (c s) = Some e -> 0 <= now - stored e < 2 ^ 62 ->
  if remaining_at e now <? minServeTTL then
    get r now s = (Store (mem s) (cache_Remove (key r) (c s)) (cache_Len (cache_Remove (key r) (c s))), None)
  else
    exists h' m', get r now s = (Store h' (c s) (storeEntries s), Some m') /\
      (forall l, (l < length (mem s))%nat -> mem s !! l = h' !! l) /\
      (length (mem s) <= length h')%nat /\ ttls_ok h' /\ valid h' m' /\
      Forall (fun l => (length (mem s) <= l)%nat) (locs m') /\
      hdr m' = reply_to r (hdr (snd (Copy (mem s) (e_msg e)))) /\
      records (load h' m') =
        map (with_ttl (uint32_of (Seconds (remaining_at e now)))) (records (load (mem s) (e_msg e))).
Proof.
  intros [Ht Hes] Hdo Hcd Hk Hn. unfold get. rewrite Hdo, Hcd, Hk. cbn [orb].
  pose proof (Hes _ _ Hk) as He.
  pose proof (minTTL_range _ _ _ Ht (entry_ttl _ _ He)) as Hr.
  rewrite (remaining_exact e now Hr Hn). destruct (_ <? _) eqn:Hf; [done|]. bprop.
  pose proof (copy_ok (mem s) (e_msg e) (entry_valid _ _ He) Ht) as Hc.
  destruct (Copy (mem s) (e_msg e)) as [h p]. destruct Hc as (Hlen & Hext & Hv & Hl & Ht' & Hnew).
  set (ttl := uint32_of _).
  assert (0 <= ttl < 2 ^ 32) as Httl.
  { apply uint32_Seconds; unfold remaining_at, minServeTTL, Second in *; lia. }
  exists (setTTL h (set_rcode p r (Rcode (hdr p))) ttl), (set_rcode p r (Rcode (hdr p))).
  split_and!; try done.
  - intros l Hll. rewrite (setTTL_old _ _ _ (length (mem s))); [by apply Hext|exact Hnew|done].
  - unfold setTTL. by rewrite length_setTTL_loop.
  - by apply ttls_ok_setTTL.
  - unfold valid, setTTL. rewrite length_setTTL_loop. exact Hv.
  - assert (records (load h p) = records (load (mem s) (e_msg e))) as E by (by rewrite Hl).
    rewrite records_load in E |- *. unfold setTTL. rewrite load_rrs_setTTL by set_solver. by rewrite <- E.
Qed.

Lemma get_ok r now s :
  store_ok s -> (forall e, cache_Get (key r) (c s) = Some e -> 0 <= now - stored e < 2 ^ 62) ->
  store_ok (fst (get r now s)) /\
  (forall l, (l < length (mem s))%nat -> mem s !! l = mem (fst (get r now s)) !! l).
Proof.
  intros Hok Hn. destruct (Do r || CheckingDisabled r) eqn:Hp; [by unfold get; rewrite Hp|].
  bprop. destruct (cache_Get (key r) (c s)) as [e|] eqn:Hk.
  2: { unfold get. by rewrite H, H0, Hk. }
  pose proof (get_hit r now s e Hok H H0 Hk (Hn e eq_refl)) as Hg. destruct (_ <? _).
  - rewrite Hg. split; [|done]. destruct Hok as [Ht Hes]. split; simpl; [done|].
    intros k e' Hk'. destruct (decide (k = key r)) as [->|Hne].
    + by rewrite Get_Remove in Hk'.
    + rewrite Get_Remove_other in Hk' by done. by apply (Hes k).
  - destruct Hg as (h' & m' & -> & Hext & Hlen & Ht' & _). split; [|done].
    destruct Hok as [Ht Hes]. split; simpl; [done|]. intros k e' Hk'.
    by eapply entry_ok_ext; [apply (Hes k)| |].
Qed.


(** The TTL served: what is left, in whole seconds, never more than the record
    had, and never under the floor. *)
Lemma served_ttl_bounds e now :
  0 <= origTTL e < 2 ^ 32 -> 0 <= now - stored e -> minServeTTL <= remaining_at e now ->
  let t := uint32_of (Seconds (remaining_at e now)) in
  5 <= t <= origTTL e /\ remaining_at e now / Second <= t <= remaining_at e now / Second + 1 /\
  (remaining_at e now < 2 ^ 23 * Second -> t = remaining_at e now / Second).
Proof.
  intros Ht Hn Hf t.
  assert (0 <= remaining_at e now <= (2 ^ 32 - 1) * Second) as Hr
    by (unfold remaining_at, minServeTTL, Second in *; lia).
  destruct (uint32_Seconds (remaining_at e now) ltac:(unfold Second in *; lia) ltac:(lia))
    as (_ & Hb & Hs). fold t in Hb, Hs.
  assert (5 <= remaining_at e now / Second).
  { apply Z.div_le_lower_bound; unfold minServeTTL, Second in *; lia. }
  split_and!; try done; try lia.
  destruct (Z.eq_dec (now - stored e) 0) as [E|].
  - assert (remaining_at e now = origTTL e * Second) as E' by (unfold remaining_at; lia).
    unfold t. rewrite E'. rewrite uint32_Seconds_whole.
    + by rewrite Z.div_mul by (unfold Second; lia).
    + unfold Second in *; lia.
    + unfold Second in *; lia.
    + apply Z.rem_mul. unfold Second. lia.
  - assert (remaining_at e now / Second < origTTL e); [|lia].
    apply Z.div_lt_upper_bound; unfold remaining_at, Second in *; lia.
Qed.

(** A request neither side may use the store for. *)
Lemma excluded_put r m now s : Do r || CheckingDisabled r = true -> put r m now s = s.
Proof.
  intros H. unfold put. destruct m as [p|]; [|done]. unfold storable.
  by rewrite <- orb_assoc, H, orb_true_r.
Qed.

Lemma excluded_get r now s : Do r || CheckingDisabled r = true -> get r now s = (s, None).
Proof. intros H. unfold get. by rewrite H. Qed.

(** Putting an answer and getting it later. *)
Lemma put_then_get (s : store) (r r' : Msg) (p : pmsg) (ttl t0 t1 : Z)
    (Hok : store_ok s) (Hv : valid (mem s) p)
    (Hs : storable (mem s) r (Some p) t0 = true)
    (Hm : minTTL (mem s) p = Some ttl) (Hfloor : 5 <= ttl)
    (Hkey : key r' = key r) (Hdo : Do r' = false) (Hcd : CheckingDisabled r' = false)
    (Ht : t0 <= t1 < t0 + 2 ^ 62) :
  let s1 := put r (Some p) t0 s in
  let left := ttl * Second - (t1 - t0) in
  if left <? 5 * Second then
    snd (get r' t1 s1) = None /\ cache_Get (key r) (c (fst (get r' t1 s1))) = None
  else
    exists m, snd (get r' t1 s1) = Some m /\
      let out := load (mem (fst (get r' t1 s1))) m in
      records out = map (with_ttl (uint32_of (Seconds left))) (records (load (mem s) p)) /\
      Id out = Id r' /\ Response out = true /\ Rcode out = Rcode (hdr p) /\ Truncated out = false /\
      (forall q, head (Questions r') = Some q -> Questions out = [q]).
Proof.
  cbn zeta. pose proof (put_ok r p t0 s Hok Hv) as Hok1.
  assert (0 <= ttl < 2 ^ 32) as Hr by (by eapply minTTL_range, Hm; apply store_ttls).
  destruct (put_stores r p t0 s Hok Hv) as [[_ E]|(ttl' & p' & h' & _ & Hm' & Ec & E & He & Hl)].
  { specialize (E _ Hs Hm). lia. }
  rewrite Hm in Hm'. injection Hm' as <-. rewrite <- Hkey in E |- *.
  set (s1 := put r (Some p) t0 s) in *.
  assert (cache_Get (key r') (c s1) = Some (Entry p' t0 ttl)) as Hget by (rewrite E; apply Get_Add).
  pose proof (get_hit r' t1 s1 _ Hok1 Hdo Hcd Hget ltac:(simpl; lia)) as Hg.
  change (remaining_at (Entry p' t0 ttl) t1) with (ttl * Second - (t1 - t0)) in Hg.
  change minServeTTL with (5 * Second) in Hg. destruct (_ <? _); [rewrite Hg; split; [done|apply Get_Remove]|].
  destruct Hg as (h2 & m & Hg & Hext & Hlen & _ & Hv2 & _ & Hh & Hrec). exists m. rewrite Hg. split; [done|].
  simpl. rewrite Hrec, Hh. simpl.
  pose proof (copy_ok (mem s1) p' (entry_valid _ _ (store_entries _ Hok1 _ _ Hget)) (store_ttls _ Hok1)) as Hc.
  destruct (Copy (mem s1) p') as [h3 p3]. destruct Hc as (_ & _ & _ & Hl3 & _). simpl.
  rewrite E in Hl3. simpl in Hl3. rewrite E. simpl. rewrite Hl in Hl3.
  assert (Rcode (hdr p3) = Rcode (hdr p) /\ Truncated (hdr p3) = Truncated (hdr p)) as [Er Et].
  { by injection Hl3. }
  split_and!.
  - by rewrite Hl.
  - apply reply_to_Id.
  - unfold reply_to. apply SetRcode_Response.
  - by rewrite reply_to_Rcode.
  - rewrite reply_to_Truncated, Et. unfold storable in Hs. by destruct (Truncated (hdr p)).
  - intros q Hq. unfold reply_to. by apply SetRcode_Question.
Qed.

(** * Properties *)

(** C33: [put] and [get] keep the store consistent: every entry is a readable,
    complete message whose lifetime is its least TTL and at least the floor; and
    neither changes a record that existed before, so no answer handed out and no
    message a caller keeps using can alter an entry, or the other way round. *)
Theorem store_stays_consistent (s : store) (r : Msg) (p : pmsg) (now : Z)
    (Hok : store_ok s) (Hv : valid (mem s) p)
    (Hnow : forall e, cache_Get (key r) (c s) = Some e -> 0 <= now - stored e < 2 ^ 62) :
  store_ok (put r (Some p) now s) /\ store_ok (fst (get r now s)) /\
  (forall l, (l < length (mem s))%nat ->
     mem s !! l = mem (put r (Some p) now s) !! l /\ mem s !! l = mem (fst (get r now s)) !! l) /\
  match snd (get r now s) with
  | Some m => Forall (fun l => (length (mem s) <= l)%nat) (locs m)
  | None => True
  end.
Proof.
  destruct (get_ok r now s Hok Hnow) as [Hg1 Hg2]. split_and!; [by apply put_ok|done| |].
  - intros l Hl. split; [|by apply Hg2].
    destruct (put_stores r p now s Hok Hv) as [[-> _]|(ttl & p' & h' & _ & _ & Ec & -> & _)]; [done|].
    pose proof (copy_ok (mem s) p Hv (store_ttls _ Hok)) as Hc. rewrite Ec in Hc. by apply Hc.
  - destruct (Do r || CheckingDisabled r) eqn:Hx; [by rewrite excluded_get|]. bprop.
    destruct (cache_Get (key r) (c s)) as [e|] eqn:Hk.
    + pose proof (get_hit r now s e Hok H H0 Hk (Hnow e eq_refl)) as Hg. destruct (_ <? _).
      * by rewrite Hg.
      * destruct Hg as (h' & m' & -> & _ & _ & _ & _ & Hnew & _). exact Hnew.
    + unfold get. by rewrite H, H0, Hk.
Qed.

(** C16: round trip: an answer put for a question is served for that question
    while at least five seconds of its least TTL are left, with the records it
    had, every TTL but OPT's replaced by what is left and the header retargeted
    at the asking query; from then on the entry is gone. *)
Theorem put_get (s : store) (r r' : Msg) (p : pmsg) (ttl t0 t1 : Z)
    (Hok : store_ok s) (Hv : valid (mem s) p)
    (Hs : storable (mem s) r (Some p) t0 = true)
    (Hm : minTTL (mem s) p = Some ttl) (Hfloor : 5 <= ttl)
    (Hkey : key r' = key r) (Hdo : Do r' = false) (Hcd : CheckingDisabled r' = false)
    (Ht : t0 <= t1 < t0 + 2 ^ 62) :
  let s1 := put r (Some p) t0 s in
  let left := ttl * Second - (t1 - t0) in
  if left <? 5 * Second then
    snd (get r' t1 s1) = None /\ cache_Get (key r) (c (fst (get r' t1 s1))) = None
  else
    exists m, snd (get r' t1 s1) = Some m /\
      let out := load (mem (fst (get r' t1 s1))) m in
      records out = map (with_ttl (uint32_of (Seconds left))) (records (load (mem s) p)) /\
      Id out = Id r' /\ Response out = true /\ Rcode out = Rcode (hdr p) /\ Truncated out = false /\
      (forall q, head (Questions r') = Some q -> Questions out = [q]).
Proof. by apply put_then_get. Qed.

(** C17: what a sibling is offered: every record but OPT of a served message has
    one TTL, at least five seconds and at most the least TTL the stored answer
    had; it is the time left in whole seconds, which the conversion through
    floating point can round up by at most one second and never does below 97
    days; no intermediate computation overflows. *)
Theorem served_ttls (s : store) (r : Msg) (now : Z) (e : entry) (m : pmsg)
    (Hok : store_ok s) (He : cache_Get (key r) (c s) = Some e)
    (Hnow : 0 <= now - stored e < 2 ^ 62)
    (Hget : snd (get r now s) = Some m) :
  exists t, Forall (fun rr => Ttl rr = t) (timed (records (load (mem (fst (get r now s))) m))) /\
    5 <= t /\ Forall (fun rr => t <= Ttl rr) (timed (records (load (mem s) (e_msg e)))) /\
    let left := origTTL e * Second - (now - stored e) in
    left / Second <= t <= left / Second + 1 /\ (left < 2 ^ 23 * Second -> t = left / Second).
Proof.
  destruct (Do r || CheckingDisabled r) eqn:Hx; [by rewrite excluded_get in Hget|]. bprop.
  pose proof (store_entries _ Hok _ _ He) as Heok.
  pose proof (minTTL_range _ _ _ (store_ttls _ Hok) (entry_ttl _ _ Heok)) as Hr.
  pose proof (get_hit r now s e Hok H H0 He Hnow) as Hg.
  destruct (_ <? _) eqn:Hf; [by rewrite Hg in Hget|]. bprop.
  destruct Hg as (h' & m' & Hg & _ & _ & _ & _ & _ & _ & Hrec). rewrite Hg in Hget |- *.
  injection Hget as <-. simpl. rewrite Hrec.
  destruct (served_ttl_bounds e now Hr ltac:(lia) Hf) as (Hb & Hb2 & Hb3).
  set (t := uint32_of _) in *. exists t. split; [|split; [lia|split; [|exact (conj Hb2 Hb3)]]].
  - apply Forall_forall. intros rr Hrr. apply list_elem_of_filter in Hrr as [Hty Hrr].
    apply list_elem_of_fmap in Hrr as (rr0 & -> & _). unfold with_ttl in *.
    destruct (Rrtype rr0 =? TypeOPT) eqn:Ho; [bprop; done|done].
  - pose proof (minTTL_loop_spec (load_rrs (mem s) (locs (e_msg e))) None) as Hmin.
    pose proof (entry_ttl _ _ Heok) as Hot. unfold minTTL in Hot. rewrite Hot in Hmin.
    rewrite records_load. destruct Hmin as [Hall _]. eapply Forall_impl; [exact Hall|]. simpl. lia.
Qed.

(** A query with DO or CD set is outside the store on both sides: it stores
    nothing, is served nothing and changes nothing. *)
Theorem dnssec_queries_excluded (s : store) (r : Msg) (m : option pmsg) (now : Z)
    (H : Do r = true \/ CheckingDisabled r = true) :
  put r m now s = s /\ get r now s = (s, None).
Proof.
  assert (Do r || CheckingDisabled r = true) as E by (apply orb_true_iff; done).
  by rewrite excluded_put, excluded_get.
Qed.

(** What is stored at all: an answer enters the store only for a plain query,
    untruncated, classified as a positive, negative or empty answer, with a
    record to take a lifetime from and a least TTL of at least five seconds. *)
Theorem put_stores_only_cacheable (s : store) (r : Msg) (p : pmsg) (now : Z)
    (Hok : store_ok s) (Hv : valid (mem s) p) (Hput : put r (Some p) now s <> s) :
  Truncated (hdr p) = false /\ Do r = false /\ CheckingDisabled r = false /\
  Typify (load (mem s) p) now <> OtherType /\
  exists ttl, minTTL (mem s) p = Some ttl /\ 5 <= ttl /\
    Forall (fun rr => ttl <= Ttl rr) (timed (records (load (mem s) p))).
Proof.
  destruct (put_stores r p now s Hok Hv) as [[E _]|(ttl & p' & h' & Hs & Hm & _ & _ & He & _)]; [done|].
  unfold storable in Hs. destruct (Truncated (hdr p) || Do r || CheckingDisabled r) eqn:Hb; [done|]. bprop.
  split_and!; try done.
  { intros E. by rewrite E in Hs. }
  exists ttl. split_and!; [done| |].
  - destruct He as [_ _ _ Hf]. simpl in Hf. unfold minServeTTL, Second in Hf. lia.
  - pose proof (minTTL_loop_spec (load_rrs (mem s) (locs p)) None) as Hmin.
    unfold minTTL in Hm. rewrite Hm in Hmin. rewrite records_load. apply Hmin.
Qed.

(** ** The store as its users see it *)

(** A message built by the caller: its records in new cells. *)
Definition alloc (m : Msg) (h : heap) : heap * pmsg :=
  let n := length h in
  let na := length (Answer m) in
  let nn := length (Ns m) in
  (h ++ records m, PMsg m (seq n na) (seq (n + na) nn) (seq (n + na + nn) (length (Extra m)))).

Lemma load_rrs_seq h a l b :
  h = a ++ l ++ b -> load_rrs h (seq (length a) (length l)) = l.
Proof.
  revert h a. induction l as [|x l IH]; intros h a ->; [done|]. cbn.
  rewrite list_lookup_middle by done. f_equal.
  change (omap _ _) with (load_rrs (a ++ x :: l ++ b) (seq (S (length a)) (length l))).
  specialize (IH (a ++ x :: l ++ b) (a ++ [x]) ltac:(by rewrite <- app_assoc)).
  rewrite length_app in IH. simpl in IH. by rewrite Nat.add_1_r in IH.
Qed.

Lemma alloc_spec m h :
  let '(h', p) := alloc m h in
  (length h <= length h')%nat /\ (forall l, (l < length h)%nat -> h !! l = h' !! l) /\
  valid h' p /\ load h' p = m /\ (ttls_ok h -> wire_msg m -> ttls_ok h').
Proof.
  unfold alloc, records. split_and!.
  - rewrite !length_app. lia.
  - intros l Hl. by rewrite lookup_app_l.
  - unfold valid, locs. simpl. rewrite !length_app.
    repeat (apply Forall_app; split); apply Forall_seq; intros; lia.
  - unfold load. simpl.
    rewrite (load_rrs_seq _ h (Answer m) (Ns m ++ Extra m)) by done.
    rewrite <- length_app. rewrite (load_rrs_seq _ (h ++ Answer m) (Ns m) (Extra m)) by (by rewrite <- app_assoc).
    rewrite <- length_app. rewrite (load_rrs_seq _ ((h ++ Answer m) ++ Ns m) (Extra m) [])
      by (by rewrite app_nil_r, <- !app_assoc).
    by destruct m.
  - intros Hh Hm. by apply Forall_app.
Qed.

#[export] Instance answer_store : ProbeStore := {|
  ps_state := store;
  ps_put r m now s :=
    let '(h, p) := alloc m (mem s) in put r (Some p) now (Store h (c s) (storeEntries s));
  ps_get r now s :=
    let '(s', res) := get r now s in (s', (fun m => load (mem s') m) <$> res);
|}.

(** Consistent, with every entry stored in the past. *)
Definition store_ok_at (t : Z) (s : store) : Prop :=
  store_ok s /\ forall k e, cache_Get k (c s) = Some e -> 0 <= stored e <= t.

Lemma get_keeps_entries r now s k e :
  cache_Get k (c (fst (get r now s))) = Some e -> cache_Get k (c s) = Some e.
Proof.
  unfold get. destruct (_ || _); [done|]. destruct (cache_Get (key r) (c s)) as [e'|]; [|done].
  destruct (_ <? _); simpl.
  - destruct (decide (k = key r)) as [->|Hne]; [by rewrite Get_Remove|by rewrite Get_Remove_other].
  - by destruct (Copy _ _).
Qed.

Lemma probe_put_ok t r m s : 0 <= t -> wire_msg m -> store_ok_at t s -> store_ok_at t (ps_put r m t s).
Proof.
  intros H0 Hm [Hok Ht]. cbn [ps_put answer_store]. pose proof (alloc_spec m (mem s)) as Ha.
  destruct (alloc m (mem s)) as [h p]. destruct Ha as (Hlen & Hext & Hv & _ & Hh).
  assert (store_ok (Store h (c s) (storeEntries s))) as Hok1.
  { split; simpl; [apply Hh; [apply Hok|done]|]. intros k e Hk.
    eapply entry_ok_ext; [by eapply store_entries|done|done]. }
  split; [by apply put_ok|]. intros k e Hk.
  destruct (put_stores r p t _ Hok1 Hv) as [[E _]|(ttl & p' & h' & _ & _ & _ & E & _)];
    rewrite E in Hk; simpl in Hk; [by apply (Ht k)|].
  destruct (decide (k = key r)) as [->|Hne].
  - rewrite Get_Add in Hk. injection Hk as <-. simpl. lia.
  - apply Get_Add_other in Hk; [|done]. by apply (Ht k).
Qed.

Lemma probe_get_ok t r s :
  t < end_of_time -> store_ok_at t s -> store_ok_at t (fst (ps_get r t s)).
Proof.
  intros Hend [Hok Ht]. cbn [ps_get answer_store]. destruct (get r t s) as [s' res] eqn:E. cbn [fst].
  assert (s' = fst (get r t s)) as -> by (by rewrite E). split.
  - apply get_ok; [done|]. intros e He. specialize (Ht _ _ He). unfold end_of_time in *. lia.
  - intros k e Hk. apply get_keeps_entries in Hk. by apply (Ht k).
Qed.

Lemma probe_get_answer t r s m :
  t < end_of_time -> store_ok_at t s -> snd (ps_get r t s) = Some m ->
  Id m = Id r /\ Response m = true /\ Truncated m = false /\
  (forall q, head (Questions r) = Some q -> Questions m = [q]) /\
  Forall (fun rr => 5 <= Ttl rr) (timed (records m)).
Proof.
  intros Hend [Hok Ht] Hget. cbn [ps_get answer_store] in Hget.
  destruct (get r t s) as [s' res] eqn:E. cbn [snd] in Hget.
  destruct res as [p|]; [|done]. injection Hget as <-.
  destruct (Do r || CheckingDisabled r) eqn:Hx; [by rewrite excluded_get in E|]. bprop.
  destruct (cache_Get (key r) (c s)) as [e|] eqn:Hk.
  2: { unfold get in E. by rewrite H, H0, Hk in E. }
  pose proof (store_entries _ Hok _ _ Hk) as Heok. pose proof (Ht _ _ Hk) as Hst.
  pose proof (minTTL_range _ _ _ (store_ttls _ Hok) (entry_ttl _ _ Heok)) as Hr.
  pose proof (get_hit r t s e Hok H H0 Hk ltac:(unfold end_of_time in *; lia)) as Hg.
  destruct (_ <? _) eqn:Hf; [by rewrite Hg in E|]. bprop.
  destruct Hg as (h' & m' & Hg & _ & _ & _ & _ & _ & Hh & Hrec). rewrite Hg in E. injection E as <- <-.
  destruct (served_ttl_bounds e t Hr ltac:(lia) Hf) as (Hb & _).
  pose proof (copy_ok (mem s) (e_msg e) (entry_valid _ _ Heok) (store_ttls _ Hok)) as Hc.
  destruct (Copy (mem s) (e_msg e)) as [h3 p3]. destruct Hc as (_ & _ & _ & Hl3 & _).
  simpl in Hh. simpl. split_and!.
  - rewrite Hh. apply reply_to_Id.
  - rewrite Hh. apply SetRcode_Response.
  - rewrite Hh, reply_to_Truncated. injection Hl3 as _ _ _ -> _ _ _ _ _ _. apply entry_complete with (mem s), Heok.
  - intros q Hq. rewrite Hh. by apply SetRcode_Question.
  - change (mem _) with h'. rewrite Hrec. apply Forall_forall. intros rr Hrr.
    apply list_elem_of_filter in Hrr as [Hty Hrr].
    apply list_elem_of_fmap in Hrr as (rr0 & -> & _). unfold with_ttl in *.
    destruct (Rrtype rr0 =? TypeOPT) eqn:Ho; [by bprop|]. simpl. lia.
Qed.

(** The implementation keeps the interface's promises. *)
#[export] Instance answer_store_laws : ProbeStoreLaws answer_store := {|
  ps_ok := store_ok_at;
  ps_ok_later t t' s H Hle := conj (proj1 H) (fun k e Hk =>
    conj (proj1 (proj2 H k e Hk)) (Z.le_trans _ _ _ (proj2 (proj2 H k e Hk)) Hle));
  ps_put_ok := probe_put_ok;
  ps_get_ok := probe_get_ok;
  ps_get_answer := probe_get_answer;
|}.

End Lemmas.
End Store.

(** * A concrete library and witnesses *)

Definition concrete_copy (h : heap) (m : pmsg) : heap * pmsg :=
  let n := length h in
  let na := length (answer m) in
  let nn := length (ns m) in
  (h ++ load_rrs h (locs m),
   PMsg (hdr m) (seq n na) (seq (n + na) nn) (seq (n + na + nn) (length (extra m)))).

(** DO is bit 15 of the OPT record's TTL; the hash is a checksum of 64 bits. *)
Definition concrete_store : StoreLib := {|
  Copy := concrete_copy;
  Do r := existsb (fun rr => (Rrtype rr =? TypeOPT) && Z.testbit (Ttl rr) 15) (Extra r);
  QType r := match Questions r with q :: _ => Qtype q | [] => 0 end;
  QClass r := match Questions r with q :: _ => Qclass q | [] => 0 end;
  Typify m _ :=
    if Rcode m =? RcodeNameError then NameError
    else if Rcode m =? RcodeSuccess then (match Answer m with [] => NoData | _ => NoError end)
    else OtherType;
  Hash b := fold_right (fun x acc => (bval x + acc) mod 2 ^ 64) 0 b;
|}.

Lemma load_rrs_length h ls : Forall (fun l => (l < length h)%nat) ls -> length (load_rrs h ls) = length ls.
Proof.
  unfold load_rrs. induction 1 as [|l ls Hl _ IH]; [done|]. cbn.
  apply lookup_lt_is_Some in Hl as [rr ->]. cbn. by rewrite IH.
Qed.

#[export] Instance concrete_store_laws : StoreLaws concrete_store.
Proof.
  split. intros h m Hv. exists (load_rrs h (locs m)). simpl. unfold valid, locs in *. simpl.
  rewrite !Forall_app in Hv. destruct Hv as (Ha & Hn & He).
  pose proof (load_rrs_length _ _ Ha) as La. pose proof (load_rrs_length _ _ Hn) as Ln.
  pose proof (load_rrs_length _ _ He) as Le. split_and!; [done| | | |].
  - rewrite !load_rrs_app, !length_app, La, Ln, Le.
    repeat (apply Forall_app; split); apply Forall_seq; intros; lia.
  - unfold load. simpl. rewrite !load_rrs_app. f_equal.
    + rewrite <- La. by eapply load_rrs_seq.
    + rewrite <- La, <- Ln, <- length_app. eapply load_rrs_seq. by rewrite <- !app_assoc.
    + rewrite <- La, <- Ln, <- Le, <- !length_app. eapply (load_rrs_seq _ _ _ []).
      by rewrite <- !app_assoc, app_nil_r.
  - repeat (apply Forall_app; split); apply Forall_seq; intros; lia.
  - apply Forall_forall. done.
Qed.

(** A cache that evicts its first key when full. *)
Definition concrete_cache_Add (k : Z) (v : entry) (c : gmap Z entry * nat) : gmap Z entry * nat :=
  let m := c.1 in
  let m := if bool_decide (is_Some (m !! k)) || (size m <? c.2)%nat then m
           else match map_to_list m with (k', _) :: _ => delete k' m | [] => m end in
  (<[k := v]> m, c.2).

Definition concrete_cache : CacheLib entry := {|
  cache_t := gmap Z entry * nat;
  cache_New n := (∅, n);
  cache_Add := concrete_cache_Add;
  cache_Get k c := c.1 !! k;
  cache_Remove k c := (delete k c.1, c.2);
  cache_Len c := Z.of_nat (size c.1);
|}.

#[export] Instance concrete_cache_laws : CacheLaws entry concrete_cache.
Proof.
  split; simpl.
  - intros n k. apply lookup_empty.
  - intros k v c. apply lookup_insert_eq.
  - intros k k' v v' c Hk. unfold concrete_cache_Add. simpl. rewrite lookup_insert_ne by done.
    destruct (_ || _); [done|]. destruct (map_to_list _) as [|[k0 ?] ?]; [done|].
    rewrite lookup_delete_Some. tauto.
  - intros k c. apply lookup_delete_eq.
  - intros k k' c Hk. by rewrite lookup_delete_ne.
Qed.

Definition ask (name : str) : Msg :=
  MkMsg 7 false false false false 0 [MkQuestion name 1 1] [] [] [].

Definition stored_answer : pmsg :=
  PMsg (MkMsg 99 true false false false 0 [MkQuestion (lit "ab.example.") 1 1] [] [] []) [0%nat] [] [1%nat].

Definition first_store : store :=
  Store (C := concrete_cache) [MkRR 1 300 (lit "192.0.2.1"); MkRR TypeOPT 0 []] (∅, storeCapacity) 0.

Abbreviation put' := (put (L := concrete_dns) (SL := concrete_store) (C := concrete_cache)).
Abbreviation get' := (get (L := concrete_dns) (SL := concrete_store) (C := concrete_cache)).

Lemma first_store_ok : store_ok first_store.
Proof.
  split; [repeat constructor; simpl; lia|]. intros k e Hk. simpl in Hk. by rewrite lookup_empty in Hk.
Qed.

Lemma stored_answer_valid : valid (mem first_store) stored_answer.
Proof. repeat constructor; simpl; lia. Qed.

Lemma store_stays_consistent_witness :
  store_ok (put' (ask (lit "ab.example.")) (Some stored_answer) 0 first_store) /\
  store_ok (fst (get' (ask (lit "ab.example.")) 0 first_store)).
Proof.
  pose proof (store_stays_consistent (L := concrete_dns) (SL := concrete_store) (C := concrete_cache)
    first_store (ask (lit "ab.example.")) stored_answer 0 first_store_ok stored_answer_valid
    ltac:(intros e He; simpl in He; by rewrite lookup_empty in He)) as (H1 & H2 & _).
  exact (conj H1 H2).
Defined.

(** The two names differ and hash alike, so the second is given the first's
    address. *)
Lemma put_get_witness :
  exists m, snd (get' (ask (lit "ba.example.")) (120 * Second)
      (put' (ask (lit "ab.example.")) (Some stored_answer) 0 first_store)) = Some m /\
    records (load (mem (fst (get' (ask (lit "ba.example.")) (120 * Second)
      (put' (ask (lit "ab.example.")) (Some stored_answer) 0 first_store)))) m)
    = [MkRR 1 180 (lit "192.0.2.1"); MkRR TypeOPT 0 []].
Proof.
  pose proof (put_get (L := concrete_dns) (SL := concrete_store) (C := concrete_cache)
    first_store (ask (lit "ab.example.")) (ask (lit "ba.example.")) stored_answer 300 0 (120 * Second)
    first_store_ok stored_answer_valid) as H.
  destruct H as (m & H1 & H2 & _); [by vm_compute..|unfold Second; lia|].
  exists m. split; [exact H1|]. rewrite H2. by vm_compute.
Defined.

Lemma dnssec_queries_excluded_witness :
  get' (MkMsg 7 false false false true 0 [MkQuestion (lit "ab.example.") 1 1] [] [] []) 0 first_store
  = (first_store, None).
Proof.
  apply (dnssec_queries_excluded (L := concrete_dns) (SL := concrete_store) (C := concrete_cache)
    first_store (MkMsg 7 false false false true 0 [MkQuestion (lit "ab.example.") 1 1] [] [] []) None 0).
  right. reflexivity.
Defined.

Definition second_store : store := put' (ask (lit "ab.example.")) (Some stored_answer) 0 first_store.

Lemma second_store_ok : store_ok second_store.
Proof. apply put_ok; [apply first_store_ok|apply stored_answer_valid]. Qed.

Definition stored_entry : entry :=
  Entry (PMsg (hdr stored_answer) [2%nat] [] [3%nat]) 0 300.

Lemma served_ttls_witness :
  exists t, 5 <= t /\ t = (300 * Second - (100 * Second + 1)) / Second.
Proof.
  destruct (snd (get' (ask (lit "ab.example.")) (100 * Second + 1) second_store)) as [m|] eqn:E;
    [|by vm_compute in E].
  destruct (served_ttls (L := concrete_dns) (SL := concrete_store) (C := concrete_cache)
    second_store (ask (lit "ab.example.")) (100 * Second + 1) stored_entry m second_store_ok)
    as (t & _ & H5 & _ & _ & Ht).
  - by vm_compute.
  - simpl. unfold Second. lia.
  - exact E.
  - exists t. split; [exact H5|]. apply Ht. simpl. unfold Second. lia.
Defined.

Lemma put_stores_only_cacheable_witness :
  Truncated (hdr stored_answer) = false /\
  exists ttl, minTTL (mem first_store) stored_answer = Some ttl /\ 5 <= ttl.
Proof.
  destruct (put_stores_only_cacheable (L := concrete_dns) (SL := concrete_store) (C := concrete_cache)
    first_store (ask (lit "ab.example.")) stored_answer 0 first_store_ok stored_answer_valid)
    as (H1 & _ & _ & _ & ttl & H2 & H3 & _).
  - intros E. apply (f_equal (fun s => length (mem s))) in E. by vm_compute in E.
  - split; [exact H1|]. exists ttl. exact (conj H2 H3).
Defined.
