(* ===== verification/PeercacheStoreSpec.v ===== *)
(** * What the probe store implements

    Seen from its users the store of [PeercacheStore] (records on a heap, a
    bounded cache of hashes) is a map from questions to the answers accepted
    last, each with the time it was put, from which entries may be missing.
    This file states what is accepted and what is served in terms of messages
    alone, and proves that every sequence of [put]s and [get]s refines that. *)

From Stdlib Require Import Lia ZArith Ascii.
From stdpp Require Import base strings gmap option numbers list.
From S2P Require Import Prelude GoStrings GoTime Dns ProbeStore PeercacheStore.

Local Open Scope Z_scope.

(** The least TTL of a message, and a message's data: all but its identity and
    its TTLs. *)
Definition least (m : Msg) : option Z := minTTL_loop (records m) None.

Definition same_data (m m' : Msg) : Prop :=
  Rcode m = Rcode m' /\ map (with_ttl 0) (records m) = map (with_ttl 0) (records m').

#[export] Instance same_data_equivalence : Equivalence same_data.
Proof. split; unfold same_data; repeat intro; intuition congruence. Qed.

Section Spec.
Context {L : DnsLib} {SL : StoreLib} {C : CacheLib entry}.

(** What [put] accepts, of a message as such. *)
Definition accepts (r m : Msg) (t : Z) : bool :=
  negb (Truncated m || Do r || CheckingDisabled r) &&
  match Typify m t with NoError | NameError | NoData => true | OtherType => false end &&
  match least m with Some ttl => 5 <=? ttl | None => false end.

(** Every entry of a store satisfies [P] of its key, its time and its message. *)
Definition entries (P : Z -> Z -> Msg -> Prop) (s : store) : Prop :=
  forall k e, cache_Get k (c s) = Some e -> P k (stored e) (load (mem s) (e_msg e)).

(** ** Lemmas *)

Lemma minTTL_least h p : minTTL h p = least (load h p).
Proof. unfold least. by rewrite records_load. Qed.

Lemma same_data_rebased rc rrs m m' ttl :
  Rcode m = rc -> records m = map (with_ttl ttl) rrs -> rrs = records m' -> rc = Rcode m' ->
  same_data m m'.
Proof.
  intros <- Hm -> Hrc. split; [done|]. rewrite Hm, map_map. apply map_ext. intros rr.
  unfold with_ttl. destruct (Rrtype rr =? TypeOPT) eqn:E; simpl; by rewrite E.
Qed.

(** The least of rebased TTLs. *)
Lemma least_rebased m rrs ttl v :
  records m = map (with_ttl ttl) rrs -> minTTL_loop rrs None = Some v -> least m = Some ttl.
Proof.
  intros Hm Hv. pose proof (minTTL_loop_spec rrs None) as H. rewrite Hv in H.
  destruct H as (_ & _ & [[=]|(rr & Hrr & _)]). unfold least. rewrite Hm.
  pose proof (minTTL_loop_spec (map (with_ttl ttl) rrs) None) as H'.
  apply list_elem_of_filter in Hrr as [Hty Hrr].
  assert (with_ttl ttl rr ∈ timed (map (with_ttl ttl) rrs) /\ Ttl (with_ttl ttl rr) = ttl) as [Hin Ht].
  { unfold with_ttl at 1 3. rewrite (proj2 (Z.eqb_neq _ _) Hty). simpl. split; [|done].
    apply list_elem_of_filter. split; [exact Hty|]. apply list_elem_of_fmap. exists rr.
    split; [|done]. unfold with_ttl. by rewrite (proj2 (Z.eqb_neq _ _) Hty). }
  destruct (minTTL_loop (map (with_ttl ttl) rrs) None) as [v'|].
  - destruct H' as (_ & _ & [[=]|(x & Hx & <-)]). f_equal.
    apply list_elem_of_filter in Hx as [Hxt Hx]. apply list_elem_of_fmap in Hx as (x0 & -> & _).
    unfold with_ttl in *. by destruct (Rrtype x0 =? TypeOPT) eqn:E; [bprop|].
  - destruct H' as [_ E]. rewrite E in Hin. by apply not_elem_of_nil in Hin.
Qed.

Lemma accepts_storable r m t h p :
  Truncated (hdr p) = Truncated m -> load h p = m ->
  accepts r m t = true <->
  storable h r (Some p) t = true /\ exists ttl, minTTL h p = Some ttl /\ 5 <= ttl.
Proof.
  intros Hh Hl. unfold accepts, storable. rewrite minTTL_least, Hl, Hh.
  destruct (Truncated m || Do r || CheckingDisabled r); cbn [negb andb]; [by split; [|intros []]|].
  destruct (least m) as [ttl|]; [|rewrite andb_false_r; split; [done|by intros (_ & ? & [=] & _)]].
  rewrite andb_true_iff, Z.leb_le. split; [intros []; eauto|intros (? & ? & [= <-] & ?); done].
Qed.

Lemma alloc_header m h : Truncated (hdr (snd (alloc m h))) = Truncated m.
Proof. done. Qed.

Lemma least_None m : least m = None <-> timed (records m) = [].
Proof.
  unfold least. pose proof (minTTL_loop_spec (records m) None) as H. destruct (minTTL_loop _ _) as [v|].
  - destruct H as (_ & _ & [[=]|(rr & Hrr & _)]). split; [done|]. intros E. rewrite E in Hrr.
    by apply not_elem_of_nil in Hrr.
  - split; [|done]. intros _; apply H.
Qed.

Lemma timed_with_ttl ttl l : timed (map (with_ttl ttl) l) = map (with_ttl ttl) (timed l).
Proof.
  unfold timed. induction l as [|rr l IH]; [done|]. cbn [map].
  assert (Rrtype (with_ttl ttl rr) = Rrtype rr) as E by (unfold with_ttl; by destruct (_ =? _)).
  destruct (decide (Rrtype rr = TypeOPT)) as [Ho|Ho].
  - rewrite !filter_cons_False by (rewrite ?E; intros H; by apply H). exact IH.
  - rewrite !filter_cons_True by (by rewrite ?E). cbn [map]. by rewrite <- IH.
Qed.

(** Messages with the same data have a lifetime or not together. *)
Lemma same_data_least m m' ttl : same_data m m' -> least m = Some ttl -> exists T, least m' = Some T.
Proof.
  intros [_ Hd] Hl. destruct (least m') as [T|] eqn:E; [by exists T|].
  apply least_None in E. apply (f_equal timed) in Hd. rewrite !timed_with_ttl, E in Hd.
  apply map_eq_nil in Hd. apply least_None in Hd. congruence.
Qed.

Section Lemmas.
Context {LL : DnsLaws L} {SLL : StoreLaws SL} {CLL : CacheLaws entry C}.

Lemma entry_load_ext s k e h :
  store_ok s -> cache_Get k (c s) = Some e ->
  (forall l, (l < length (mem s))%nat -> mem s !! l = h !! l) ->
  load h (e_msg e) = load (mem s) (e_msg e).
Proof. intros Hok He Hext. symmetry. apply valid_ext; [|done]. eapply entry_valid, store_entries; eauto. Qed.

(** Where an entry after [put] comes from. *)
Lemma put_entry r m t s k e :
  wire_msg m -> store_ok s -> cache_Get k (c (ps_put r m t s)) = Some e ->
  let s' := ps_put r m t s in
  (accepts r m t = true /\ k = key r /\ stored e = t /\ load (mem s') (e_msg e) = m) \/
  ((accepts r m t = true -> k <> key r) /\ cache_Get k (c s) = Some e /\
   load (mem s') (e_msg e) = load (mem s) (e_msg e)).
Proof.
  intros Hm Hok Hk. cbn zeta. cbn [ps_put answer_store] in *. pose proof (alloc_spec m (mem s)) as Ha.
  pose proof (alloc_header m (mem s)) as Hh0.
  destruct (alloc m (mem s)) as [h p]. destruct Ha as (Hlen & Hext & Hv & Hl & Hh). cbn in Hh0.
  assert (store_ok (Store h (c s) (storeEntries s))) as Hok1.
  { split; simpl; [apply Hh; [apply Hok|done]|]. intros k' e' Hk'.
    eapply entry_ok_ext; [by eapply store_entries|done|done]. }
  pose proof (accepts_storable r m t h p Hh0 Hl) as Hacc.
  destruct (put_stores r p t _ Hok1 Hv) as [[E Hno]|(ttl & p' & h' & Hs & Ht & Ec & E & He & Hl')];
    rewrite E in *; cbn [c mem] in *.
  - right. split_and!; [|done|by rewrite (entry_load_ext s k)]. intros Hy. apply Hacc in Hy as (Hs & ttl & Ht & Hge).
    specialize (Hno ttl Hs Ht). lia.
  - pose proof (copy_ok h p Hv (store_ttls _ Hok1)) as Hc. rewrite Ec in Hc. destruct Hc as (_ & Hext' & _).
    destruct (decide (k = key r)) as [->|Hne].
    + rewrite Get_Add in Hk. injection Hk as <-. simpl. left. rewrite Hl', Hl. split_and!; try done.
      apply Hacc. split; [done|]. exists ttl. split; [done|]. pose proof (entry_floor _ _ He) as Hf.
      simpl in Hf. unfold minServeTTL, Second in Hf. lia.
    + apply Get_Add_other in Hk; [|done]. right. split_and!; [done..|].
      rewrite (entry_load_ext (Store h (c s) (storeEntries s)) k) by done. by rewrite (entry_load_ext s k).
Qed.

Lemma put_entries P r m t s :
  wire_msg m -> store_ok s -> entries P s -> (accepts r m t = true -> P (key r) t m) ->
  entries P (ps_put r m t s).
Proof.
  intros Hm Hok HP Hnew k e Hk.
  destruct (put_entry r m t s k e Hm Hok Hk) as [(Ha & -> & -> & ->)|(_ & Hk' & ->)]; auto.
Qed.

Lemma get_entries P r t s :
  t < end_of_time -> store_ok_at t s -> entries P s -> entries P (fst (ps_get r t s)).
Proof.
  intros Hend [Hok Ht] HP. cbn [ps_get answer_store]. destruct (get r t s) as [s' res] eqn:E. cbn [fst].
  assert (s' = fst (get r t s)) as -> by (by rewrite E). intros k e Hk. apply get_keeps_entries in Hk.
  rewrite (entry_load_ext s k); [by apply HP|done|done|]. apply get_ok; [done|].
  intros e' He'. specialize (Ht _ _ He'). unfold end_of_time in *. lia.
Qed.

(** Where a served answer comes from. *)
Lemma get_from r t s m :
  t < end_of_time -> store_ok_at t s -> snd (ps_get r t s) = Some m ->
  exists e, cache_Get (key r) (c s) = Some e /\ wire_msg m /\
    minServeTTL <= remaining_at e t /\ entry_ok (mem s) e /\
    same_data m (load (mem s) (e_msg e)) /\ least m = Some (uint32_of (Seconds (remaining_at e t))) /\
    records m = map (with_ttl (uint32_of (Seconds (remaining_at e t)))) (records (load (mem s) (e_msg e))).
Proof.
  intros Hend [Hok Ht] Hget. cbn [ps_get answer_store] in Hget.
  destruct (get r t s) as [s' res] eqn:E. cbn [snd] in Hget.
  destruct res as [p|]; [|done]. injection Hget as <-.
  destruct (Do r || CheckingDisabled r) eqn:Hx; [by rewrite excluded_get in E|]. bprop.
  destruct (cache_Get (key r) (c s)) as [e|] eqn:Hk.
  2: { unfold get in E. by rewrite H, H0, Hk in E. }
  pose proof (store_entries _ Hok _ _ Hk) as Heok. pose proof (Ht _ _ Hk) as Hst. exists e. split; [done|].
  pose proof (get_hit r t s e Hok H H0 Hk ltac:(unfold end_of_time in *; lia)) as Hg.
  destruct (_ <? _) eqn:Hf; [by rewrite Hg in E|]. bprop.
  destruct Hg as (h' & m' & Hg & _ & _ & Ht' & Hv' & _ & Hh & Hrec). rewrite Hg in E. injection E as <- <-.
  simpl. split_and!; [|done|done| | |done].
  - unfold wire_msg. rewrite records_load. apply Forall_forall. intros rr Hrr.
    apply list_elem_of_omap in Hrr as (l & _ & Hl). unfold ttls_ok in Ht'. rewrite Forall_lookup in Ht'. by apply (Ht' l).
  - pose proof (copy_ok (mem s) (e_msg e) (entry_valid _ _ Heok) (store_ttls _ Hok)) as Hc.
    destruct (Copy (mem s) (e_msg e)) as [h3 p3]. destruct Hc as (_ & _ & _ & Hl3 & _).
    eapply same_data_rebased; [|exact Hrec|done|]; [done|]. simpl. rewrite Hh. simpl.
    rewrite reply_to_Rcode. by injection Hl3.
  - eapply least_rebased; [exact Hrec|]. fold (least (load (mem s) (e_msg e))).
    rewrite <- minTTL_least. by apply entry_ttl.
Qed.

Lemma entries_mono (P Q : Z -> Z -> Msg -> Prop) s :
  (forall k t m, P k t m -> Q k t m) -> entries P s -> entries Q s.
Proof. intros HPQ HP k e Hk. by apply HPQ, HP. Qed.

Lemma store_later t t' s : store_ok_at t s -> t <= t' -> store_ok_at t' s.
Proof. intros Hok Ht. exact (ps_ok_later (PS := answer_store) t t' s Hok Ht). Qed.

(** ** The map *)

(** The answer accepted last for a key, and when. *)
Abbreviation answers := (gmap Z (Msg * Z)).

Definition spec_put (r m : Msg) (t : Z) (a : answers) : answers :=
  if accepts r m t then <[key r := (m, t)]> a else a.

(** The TTL to serve and the answer, while five seconds are left. *)
Definition spec_get (r : Msg) (t : Z) (a : answers) : option (Z * Msg) :=
  if Do r || CheckingDisabled r then None
  else
    match a !! key r with
    | None => None
    | Some (m, t0) =>
        match least m with
        | None => None
        | Some ttl =>
            let left := ttl * Second - (t - t0) in
            if left <? 5 * Second then None else Some (uint32_of (Seconds left), m)
        end
    end.

(** [m] replies to [r] with the answer [x]. *)
Definition serves (r : Msg) (x : Z * Msg) (m : Msg) : Prop :=
  records m = map (with_ttl (fst x)) (records (snd x)) /\ Rcode m = Rcode (snd x) /\
  Id m = Id r /\ Response m = true /\ Truncated m = false /\
  (forall q, head (Questions r) = Some q -> Questions m = [q]).

Inductive op : Type :=
| OPut (r m : Msg)
| OGet (r : Msg).

Definition run_op (s : store) (x : Z * op) : store :=
  match snd x with
  | OPut r m => ps_put r m (fst x) s
  | OGet r => fst (ps_get r (fst x) s)
  end.

Definition spec_op (a : answers) (x : Z * op) : answers :=
  match snd x with
  | OPut r m => spec_put r m (fst x) a
  | OGet _ => a
  end.

(** Operations in the order of time, on messages off the wire. *)
Fixpoint timely (from : Z) (ops : list (Z * op)) : Prop :=
  match ops with
  | [] => True
  | (t, o) :: ops =>
      from <= t < end_of_time /\ match o with OPut _ m => wire_msg m | OGet _ => True end /\ timely t ops
  end.

Definition refines (t : Z) (s : store) (a : answers) : Prop :=
  store_ok_at t s /\ entries (fun k t0 m => a !! k = Some (m, t0)) s.

Lemma run_op_refines from t o s a :
  0 <= from -> timely from [(t, o)] -> refines from s a -> refines t (run_op s (t, o)) (spec_op a (t, o)).
Proof.
  intros H0 (Ht & Hw & _) [Hok He]. pose proof (store_later _ t _ Hok ltac:(lia)) as Hok'.
  destruct o as [r m|r]; unfold run_op, spec_op; cbn [fst snd].
  - split; [by apply probe_put_ok; [lia| |]|]. intros k e Hk. unfold spec_put.
    destruct (put_entry r m t s k e Hw (proj1 Hok) Hk) as [(-> & -> & -> & ->)|(Hno & Hk' & ->)];
      [by rewrite lookup_insert_eq|].
    destruct (accepts r m t); [rewrite lookup_insert_ne by (symmetry; by apply Hno)|]; by apply He.
  - split; [by apply probe_get_ok; [lia|]|]. by apply get_entries; [lia| |].
Qed.

Lemma run_refines ops from t r s a :
  0 <= from -> timely from (ops ++ [(t, OGet r)]) -> refines from s a ->
  refines t (fold_left run_op ops s) (fold_left spec_op ops a).
Proof.
  revert from s a. induction ops as [|[t1 o] ops IH]; intros from s a H0 Hall Hr; cbn [fold_left app].
  - destruct Hall as (Ht & _). destruct Hr as [Hok He]. split; [by eapply store_later; [|apply Ht]|done].
  - destruct Hall as (Ht & Hw & Hall). eapply (IH t1); [lia|exact Hall|].
    by eapply run_op_refines; [exact H0| |].
Qed.

Lemma newStore_refines : refines 0 (newStore []) ∅.
Proof.
  split; [split; [split; [constructor|]|]|]; intros k e; cbn; by rewrite Get_New.
Qed.

(** * Properties *)

(** C9: the store refines the map: after any sequence of puts and gets in the
    order of time, what [get] serves is the answer accepted last for that key,
    with its records, the response code and every TTL but OPT's replaced by the
    time left, as a reply to the asking query; and it serves nothing only if the
    map has nothing with five seconds left either, or the cache holds no entry
    for the key. *)
Theorem store_refines_map (ops : list (Z * op)) (r : Msg) (t : Z)
    (Hops : timely 0 (ops ++ [(t, OGet r)])) :
  let s := fold_left run_op ops (newStore []) in
  let a := fold_left spec_op ops ∅ in
  match snd (ps_get (ProbeStore := answer_store) r t s) with
  | Some m => exists x, spec_get r t a = Some x /\ serves r x m
  | None => spec_get r t a = None \/ cache_Get (key r) (c s) = None
  end.
Proof.
  cbn zeta. pose proof (run_refines ops 0 t r _ _ ltac:(lia) Hops newStore_refines) as [Hok He].
  assert (t < end_of_time) as Hend.
  { clear -Hops. revert Hops. generalize 0. induction ops as [|[t1 o] ops IH]; intros from H; cbn in H.
    - lia.
    - destruct H as (_ & _ & H). by eapply IH. }
  set (s := fold_left run_op ops _) in *. set (a := fold_left spec_op ops _) in *.
  destruct (snd (ps_get (ProbeStore := answer_store) r t s)) as [m|] eqn:Hg.
  - destruct (get_from r t s m Hend Hok Hg) as (e & Hk & _ & Hf & Heok & [Hrc _] & _ & Hrec).
    destruct (probe_get_answer t r s m Hend Hok Hg) as (H1 & H2 & H3 & H4 & _).
    pose proof (He _ _ Hk) as Ha. cbn in Ha.
    assert (Do r || CheckingDisabled r = false) as Hp.
    { destruct (Do r || CheckingDisabled r) eqn:E; [|done]. cbn in Hg. by rewrite excluded_get in Hg. }
    exists (uint32_of (Seconds (remaining_at e t)), load (mem s) (e_msg e)). split; [|done].
    unfold spec_get. rewrite Hp, Ha, <- minTTL_least, (entry_ttl _ _ Heok). cbn zeta.
    fold (remaining_at e t). change (5 * Second) with minServeTTL. by rewrite (proj2 (Z.ltb_ge _ _) Hf).
  - destruct (cache_Get (key r) (c s)) as [e|] eqn:Hk; [left|by right].
    unfold spec_get. destruct (Do r || CheckingDisabled r) eqn:Hp; [done|].
    pose proof (He _ _ Hk) as Ha. cbn in Ha. rewrite Ha.
    pose proof (store_entries _ (proj1 Hok) _ _ Hk) as Heok.
    rewrite <- minTTL_least, (entry_ttl _ _ Heok). cbn zeta. fold (remaining_at e t).
    change (5 * Second) with minServeTTL. apply orb_false_iff in Hp as [Hdo Hcd].
    pose proof (proj2 Hok _ _ Hk) as Hst.
    pose proof (get_hit r t s e (proj1 Hok) Hdo Hcd Hk ltac:(unfold end_of_time in *; lia)) as Hgh.
    destruct (_ <? _); [done|]. destruct Hgh as (h' & m' & E & _). cbn in Hg. by rewrite E in Hg.
Qed.

End Lemmas.
End Spec.

(** * Witnesses *)

#[local] Existing Instance concrete_dns.
#[local] Existing Instance concrete_store.
#[local] Existing Instance concrete_cache.

(** An answer, another one ten seconds later, and one too short-lived to keep. *)
Definition answer_of (ttl : Z) (data : string) : Msg :=
  MkMsg 99 true false false false 0 [MkQuestion (lit "ab.example.") 1 1] [MkRR 1 ttl (lit data)] [] [].

Definition sample_ops : list (Z * op) :=
  [(0, OPut (ask (lit "ab.example.")) (answer_of 300 "192.0.2.1"));
   (10 * Second, OPut (ask (lit "ab.example.")) (answer_of 60 "192.0.2.2"));
   (20 * Second, OPut (ask (lit "ab.example.")) (answer_of 4 "192.0.2.3"));
   (21 * Second, OGet (ask (lit "ab.example.")))].

Lemma sample_timely : timely 0 (sample_ops ++ [(30 * Second, OGet (ask (lit "ab.example.")))]).
Proof.
  cbn [timely app sample_ops]. unfold end_of_time, Second, wire_msg.
  split_and!; try lia; try exact I; apply List.Forall_cons; try apply List.Forall_nil; cbn; lia.
Qed.

Lemma store_refines_map_witness :
  exists m, snd (ps_get (ProbeStore := answer_store) (ask (lit "ab.example.")) (30 * Second)
      (fold_left run_op sample_ops (newStore []))) = Some m /\
    records m = [MkRR 1 40 (lit "192.0.2.2")] /\
    exists x, spec_get (ask (lit "ab.example.")) (30 * Second) (fold_left spec_op sample_ops ∅) = Some x.
Proof.
  pose proof (store_refines_map sample_ops (ask (lit "ab.example.")) (30 * Second) sample_timely) as H.
  cbv zeta in H.
  destruct (snd (ps_get (ProbeStore := answer_store) (ask (lit "ab.example.")) (30 * Second)
    (fold_left run_op sample_ops (newStore [])))) as [m|] eqn:E; [|by vm_compute in E].
  exists m. split; [reflexivity|]. split.
  - vm_compute in E. injection E as <-. by vm_compute.
  - destruct H as (x & Hx & _). exists x. exact Hx.
Defined.
