(* ===== verification/Peercache.v ===== *)
(** * The peercache plugin ([plugin/peercache/peercache.go], [metrics.go])

    On a local cache miss every sibling and the upstream are asked at once and
    the first useful answer is taken.  The legs and the receiving loop are an
    instance of [Contest]; the probe store is used through [ProbeStore]; what a
    sibling answers and what the rest of the chain does are arguments. *)

From Stdlib Require Import Lia ZArith Ascii.
From stdpp Require Import base strings gmap option numbers list.
From S2P Require Import Prelude GoStrings Dns Contest ProbeStore.

Local Open Scope Z_scope.

(** ** A detached writer ([internal/detached/writer.go]) *)

Module Detached.
(** The addresses it snapshots and the reply it captured. *)
Record Writer := MkWriter { local : str; remote : str; captured : option Msg }.

Definition New (local remote : str) : Writer := MkWriter local remote None.

Definition LocalAddr (d : Writer) : str := local d.
Definition RemoteAddr (d : Writer) : str := remote d.

Definition WriteMsg (d : Writer) (m : Msg) : Writer * option error :=
  (MkWriter (local d) (remote d) (Some m), None).

Definition Write (d : Writer) (b : str) : Writer * (Z * option error) :=
  (d, (Z.of_nat (length b), None)).

(** The methods that do nothing. *)
Definition Close (d : Writer) : Writer * option error := (d, None).
Definition TsigStatus (d : Writer) : Writer * option error := (d, None).
Definition TsigTimersOnly (b : bool) (d : Writer) : Writer := d.
Definition Hijack (d : Writer) : Writer := d.

(** A handler that writes these messages, in order. *)
Definition write_all (d : Writer) (ms : list Msg) : Writer :=
  fold_left (fun d m => fst (WriteMsg d m)) ms d.

Lemma write_all_captured ms d :
  captured (write_all d ms) = match last ms with Some m => Some m | None => captured d end /\
  local (write_all d ms) = local d /\ remote (write_all d ms) = remote d.
Proof.
  revert d. induction ms as [|m ms IH]; intros d; [done|]. cbn [write_all fold_left].
  destruct (IH (fst (WriteMsg d m))) as (H1 & H2 & H3). unfold write_all in *.
  rewrite H1, H2, H3, last_cons. split_and!; [|done..]. by destruct (last ms).
Qed.
End Detached.

(** ** Metrics *)

Definition sourcePeer : str := lit "peer".
Definition sourceUpstream : str := lit "upstream".
Definition sent : str := lit "sent".
Definition received : str := lit "received".

(** [probeDuration] is its observation count per direction. *)
Record Metrics := MkMetrics {
  winsCount : gmap str Z;
  probesCount : gmap str Z;
  probeDuration : gmap str Z;
  probeFailures : gmap str Z;
  peersTotal : Z;
}.

Definition count_win (source : str) (m : Metrics) : Metrics :=
  MkMetrics (inc source (winsCount m)) (probesCount m) (probeDuration m) (probeFailures m) (peersTotal m).
Definition count_probe (direction : str) (m : Metrics) : Metrics :=
  MkMetrics (winsCount m) (inc direction (probesCount m)) (probeDuration m) (probeFailures m) (peersTotal m).
Definition observe_probe (direction : str) (m : Metrics) : Metrics :=
  MkMetrics (winsCount m) (probesCount m) (inc direction (probeDuration m)) (probeFailures m) (peersTotal m).
Definition count_probe_failure (reason : str) (m : Metrics) : Metrics :=
  MkMetrics (winsCount m) (probesCount m) (probeDuration m) (inc reason (probeFailures m)) (peersTotal m).
Definition set_peers (n : Z) (m : Metrics) : Metrics :=
  MkMetrics (winsCount m) (probesCount m) (probeDuration m) (probeFailures m) n.

(** ** [useful] and [isTimeout] *)

Definition useful (m : option Msg) : bool :=
  match m with
  | None => false
  | Some m =>
      if Truncated m then false
      else (Rcode m =? RcodeSuccess) || (Rcode m =? RcodeNameError)
  end.

Definition isTimeout (err : option error) : bool :=
  match err with Some e => e_timeout e | None => false end.

(** ** Legs *)

Record legResult := LegResult { source : str; msg : option Msg; rcode : Z; err : option error }.

(** [probe]: [exchanged] is what [client.ExchangeContext] returned. *)
Definition probe (exchanged : result error Msg) (mt : Metrics) : Metrics * legResult :=
  let mt := observe_probe sent (count_probe sent mt) in
  let err := match exchanged with Ok _ => None | Err e => Some e end in
  let nothing := LegResult sourcePeer None 0 None in
  if errors_Is err Canceled then (mt, nothing)
  else if errors_Is err DeadlineExceeded || isTimeout err then
    (count_probe_failure (lit "timeout") mt, nothing)
  else
    match exchanged with
    | Err _ => (count_probe_failure (lit "error") mt, nothing)
    | Ok m => (mt, LegResult sourcePeer (Some m) 0 None)
    end.

(** The upstream leg: the rest of the chain writing to a detached writer. *)
Definition upstream_leg (local remote : str) (next : handler) (r : Msg) : legResult :=
  let out := next r in
  LegResult sourceUpstream (Detached.captured (Detached.write_all (Detached.New local remote) (written out)))
    (ret_rcode out) (ret_err out).

(** ** [race] *)

(** How the receiving loop ends. *)
Inductive verdict : Type :=
| Answered (res : legResult) (m : Msg)
| FromUpstream (upstream : legResult)
| NoLeg
| Interrupted.

(** The loop's variable is [upstream]. *)
#[export] Instance peer_contest : Contest legResult (option legResult) verdict := {|
  opening := None;
  consider upstream res :=
    let upstream := if bool_decide (source res = sourceUpstream) then Some res else upstream in
    match msg res with
    | Some m => if negb (useful (Some m)) then inl upstream else inr (Answered res m)
    | None => inl upstream
    end;
  closing upstream :=
    match upstream with
    | None => NoLeg
    | Some up => FromUpstream up
    end;
  interrupted := Interrupted;
|}.

Section Handler.
Context {L : DnsLib} {CL : CoreLib} {PS : ProbeStore}.

Definition reply (w : conn) (r m : Msg) (err : option error) : outcome :=
  let m := reply_to r m in
  match w m with
  | Some werr => Outcome [m] RcodeServerFailure (Some werr)
  | None => Outcome [m] RcodeSuccess err
  end.

(** The mutable state a query touches. *)
Record state := State { probe_store : ps_state; metrics : Metrics }.

(** What follows the loop's end; [now] is the clock when it ends. *)
Definition conclude (w : conn) (r : Msg) (ctx_err : error) (now : Z) (v : verdict) (st : state) :
    state * outcome :=
  match v with
  | Answered res m =>
      (State (ps_put r m now (probe_store st)) (count_win (source res) (metrics st)),
       reply w r m (err res))
  | FromUpstream up =>
      (st, match msg up with
           | None => Outcome [] (rcode up) (err up)
           | Some m => reply w r m (err up)
           end)
  | NoLeg =>
      (st, Outcome [] RcodeServerFailure
             (Some (PluginError "peercache" (new_error "no leg produced an answer"))))
  | Interrupted => (st, Outcome [] RcodeServerFailure (Some ctx_err))
  end.

(** [race] on the outcomes of its [select]s. *)
Definition race (w : conn) (r : Msg) (ctx_err : error) (now : Z) (evs : list (event legResult))
    (st : state) : state * outcome :=
  conclude w r ctx_err now (collect evs opening) st.

(** [peerList]: [None] before anything was published. *)
Definition peerList (peers : option (list str)) : list str :=
  match peers with Some v => v | None => [] end.

(** [ServeDNS]; [recorded] is the reply [dnstest.Recorder] keeps of what the
    rest of the chain wrote. *)
Definition ServeDNS (recorded : list Msg -> option Msg) (peers : option (list str))
    (next : handler) (w : conn) (r : Msg) (ctx_err : error) (now : Z) (evs : list (event legResult))
    (st : state) : state * outcome :=
  if (length (peerList peers) =? 0)%nat then
    let out := next r in
    match recorded (written out) with
    | Some m => (State (ps_put r m now (probe_store st)) (metrics st), out)
    | None => (st, out)
    end
  else race w r ctx_err now evs st.

(** The results the legs of a query send: one per sibling, then the upstream. *)
Definition leg_results (peers : list str) (exchanged : str -> result error Msg) (local remote : str)
    (next : handler) (r : Msg) (mt : Metrics) : list legResult :=
  map (fun addr => snd (probe (exchanged addr) mt)) peers ++ [upstream_leg local remote next r].

End Handler.

(** ** The loop *)

Definition peer_absorb (upstream : option legResult) (res : legResult) : option legResult :=
  if bool_decide (source res = sourceUpstream) then Some res else upstream.

Definition peer_decision (res : legResult) : verdict :=
  match msg res with Some m => Answered res m | None => Interrupted end.

#[export] Instance peer_usable : Usable peer_contest.
Proof.
  refine {|
    usable res := useful (msg res) = true;
    usable_dec res := bool_eq_dec (useful (msg res)) true;
    absorb := peer_absorb;
    decision := peer_decision;
  |}.
  - intros up [s m c e] Hu%not_true_is_false. cbn [consider peer_contest msg] in *.
    destruct m as [m|]; [by rewrite Hu|done].
  - intros up [s m c e] Hu. cbn [consider peer_contest msg] in *.
    destruct m as [m|]; [by rewrite Hu|done].
Defined.

Lemma absorb_peers (pre : list legResult) up :
  Forall (fun res => source res <> sourceUpstream) pre -> fold_left absorb pre up = up.
Proof.
  intros H. revert up. induction H as [|res pre Hs _ IH]; intros up; [done|].
  cbn [fold_left]. rewrite IH. cbn [absorb peer_usable]. unfold peer_absorb.
  by rewrite bool_decide_eq_false_2.
Qed.

(** With one upstream leg among the results, the loop ends holding it. *)
Lemma absorb_upstream (order peers : list legResult) up res :
  order ≡ₚ peers ++ [up] -> source up = sourceUpstream ->
  Forall (fun res => source res <> sourceUpstream) peers ->
  fold_left absorb order res = Some up.
Proof.
  intros Hp Hu Hpeers. assert (up ∈ order) as (l & r & ->)%list_elem_of_split.
  { rewrite Hp. apply elem_of_app. right. by left. }
  assert (l ++ r ≡ₚ peers) as Hlr.
  { apply (Permutation_cons_inv (a := up)). rewrite Permutation_middle, Hp.
    by rewrite Permutation_app_comm. }
  rewrite <- Hlr in Hpeers. apply Forall_app in Hpeers as [Hl Hr].
  rewrite fold_left_app. cbn [fold_left]. rewrite (absorb_peers r) by done.
  cbn [absorb peer_usable]. unfold peer_absorb. by rewrite bool_decide_eq_true_2.
Qed.

(** A probe's result never claims to be the upstream's, and carries a message
    only when the exchange returned one. *)
Lemma probe_source x mt : source (snd (probe x mt)) = sourcePeer.
Proof. unfold probe. repeat (destruct (_ || _) || destruct (errors_Is _ _)); by destruct x. Qed.

Lemma probe_msg x mt m : msg (snd (probe x mt)) = Some m <-> x = Ok m.
Proof.
  unfold probe. destruct x as [m'|e]; simpl; [naive_solver|].
  destruct (bool_decide _); [done|]. by destruct (_ || _).
Qed.

Lemma peers_are_peers {A} (f : A -> result error Msg) (l : list A) mt :
  Forall (fun res => source res <> sourceUpstream) (map (fun a => snd (probe (f a) mt)) l).
Proof.
  apply Forall_forall. intros res (a & -> & _)%list_elem_of_fmap. by rewrite probe_source.
Qed.

(** * Properties *)

Section Properties.
Context {L : DnsLib} {CL : CoreLib} {PS : ProbeStore} {LL : DnsLaws L} {PSL : ProbeStoreLaws PS}.

(** C18: the first useful answer ends the race: whatever arrives or is cancelled
    later, the client gets that answer as a reply to its query, untruncated and
    NOERROR or NXDOMAIN, it is put into the store and its leg is counted; so a
    sibling that is slow, fails or refuses costs the client nothing once the
    upstream has answered. *)
Theorem first_useful_answer_wins (w : conn) (r : Msg) (ctx_err : error) (now : Z)
    (pre : list legResult) (res : legResult) (m : Msg) (later : list (event legResult)) (st : state)
    (Hpre : Forall (fun res => ~ usable res) pre) (Hmsg : msg res = Some m) (Hm : useful (Some m) = true) :
  let '(st', out) := race w r ctx_err now (map Arrived pre ++ Arrived res :: later) st in
  probe_store st' = ps_put r m now (probe_store st) /\
  count (winsCount (metrics st')) (source res) = count (winsCount (metrics st)) (source res) + 1 /\
  exists m', written out = [m'] /\ (Rcode m' = RcodeSuccess \/ Rcode m' = RcodeNameError) /\
    Truncated m' = false /\ Id m' = Id r /\ Answer m' = Answer m /\
    match w m' with
    | None => ret_rcode out = RcodeSuccess /\ ret_err out = err res
    | Some werr => ret_rcode out = RcodeServerFailure /\ ret_err out = Some werr
    end.
Proof.
  unfold race. rewrite collect_usable; [|done|cbn [usable peer_usable]; by rewrite Hmsg].
  cbn [decision peer_usable]. unfold peer_decision. rewrite Hmsg. cbn [conclude probe_store metrics winsCount count_win].
  split_and!; [done|apply count_inc|]. exists (reply_to r m). unfold reply. autorewrite with go; [|done..].
  simpl in Hm. destruct (Truncated m); [done|]. apply orb_true_iff in Hm.
  destruct (w _); split_and!; try done; destruct Hm; bprop; auto.
Qed.

(** C19: when nothing useful arrived from anyone, the client gets what the rest of
    the chain did: the message it wrote last, retargeted, with its error, or,
    when it wrote none, exactly the code and error it returned; nothing is stored
    and no win is counted. *)
Theorem upstream_failure_unchanged (peers : list str) (exchanged : str -> result error Msg)
    (local remote : str) (next : handler) (w : conn) (r : Msg) (ctx_err : error) (now : Z)
    (order : list legResult) (mt : Metrics) (st : state)
    (Horder : order ≡ₚ leg_results peers exchanged local remote next r mt)
    (Hnone : Forall (fun res => ~ usable res) order) :
  race w r ctx_err now (map Arrived order) st =
  (st, match last (written (next r)) with
       | Some m => reply w r m (ret_err (next r))
       | None => Outcome [] (ret_rcode (next r)) (ret_err (next r))
       end).
Proof.
  unfold race. rewrite <- (app_nil_r (map _ _)), collect_unusable by done.
  rewrite (absorb_upstream order _ (upstream_leg local remote next r) _ Horder);
    [|done|apply peers_are_peers].
  cbn [collect closing peer_contest conclude]. unfold upstream_leg. cbn [msg rcode err].
  destruct (Detached.write_all_captured (written (next r)) (Detached.New local remote)) as (-> & _).
  simpl. by destruct (last (written (next r))).
Qed.

(** With no sibling known the plugin is absent: the client gets exactly what
    the rest of the chain does, and the only effect is that the recorded answer
    is put into the store. *)
Theorem no_peers_transparent (recorded : list Msg -> option Msg) (peers : option (list str))
    (next : handler) (w : conn) (r : Msg) (ctx_err : error) (now : Z) (evs : list (event legResult))
    (st : state) (Hnone : peers = None \/ peers = Some []) :
  let '(st', out) := ServeDNS recorded peers next w r ctx_err now evs st in
  out = next r /\ metrics st' = metrics st /\
  probe_store st' = match recorded (written (next r)) with
                    | Some m => ps_put r m now (probe_store st)
                    | None => probe_store st
                    end.
Proof.
  unfold ServeDNS. destruct Hnone as [-> | ->]; simpl; by destruct (recorded _).
Qed.

(** For every outcome of the [select]s of a query's race: at most one message
    is written; without one the return is the cancellation's or the rest of the
    chain's; a win is counted and the store touched only when a useful answer is
    given; and the store stays consistent when the messages of the legs are ones
    that came off the wire. *)
Theorem race_accounts (peers : list str) (exchanged : str -> result error Msg) (local remote : str)
    (next : handler) (w : conn) (r : Msg) (ctx_err : error) (now : Z) (evs : list (event legResult))
    (mt : Metrics) (st : state)
    (Hs : schedule (leg_results peers exchanged local remote next r mt) evs)
    (Hwire : Forall (fun res => forall m, msg res = Some m -> wire_msg m)
       (leg_results peers exchanged local remote next r mt))
    (Hnow : 0 <= now) (Hok : ps_ok now (probe_store st)) :
  let '(st', out) := race w r ctx_err now evs st in
  ps_ok now (probe_store st') /\ (length (written out) <= 1)%nat /\
  (written out = [] -> st' = st /\
     (out = Outcome [] RcodeServerFailure (Some ctx_err) \/
      out = Outcome [] (ret_rcode (next r)) (ret_err (next r)))) /\
  (st' = st \/ exists res m, msg res = Some m /\ useful (Some m) = true /\
     st' = State (ps_put r m now (probe_store st)) (count_win (source res) (metrics st))).
Proof.
  assert (forall m e, length (written (reply w r m e)) = 1%nat) as Hrep.
  { intros m e. unfold reply. by destruct (w _). }
  assert (forall m e, written (reply w r m e) <> []) as Hne.
  { intros m e. unfold reply. by destruct (w _). }
  unfold race. destruct (collect_cases _ _ Hs)
    as [(pre & [s [m|] c e] & post & Hp & _ & Hu & ->)|[(order & rest & _ & _ & _ & _ & ->)|(order & Hp & _ & _ & ->)]];
    [|done|..].
  - cbn [decision peer_usable peer_decision msg conclude probe_store]. split_and!; try done.
    + apply ps_put_ok; [done| |done]. rewrite <- Hp in Hwire. apply Forall_app in Hwire as [_ Hw].
      apply Forall_cons in Hw as [Hw _]. by apply Hw.
    + by rewrite Hrep.
    + by intros ?%Hne.
    + right. by exists (LegResult s (Some m) c e), m.
  - cbn. split_and!; try done; [lia|auto..].
  - rewrite (absorb_upstream order _ (upstream_leg local remote next r) _ Hp);
      [|done|apply peers_are_peers].
    cbn [closing peer_contest conclude]. unfold upstream_leg. cbn [msg rcode err].
    destruct (Detached.captured _) as [m|].
    + split_and!; auto; [by rewrite Hrep|by intros ?%Hne].
    + cbn. split_and!; auto; lia.
Qed.

(** What a probe reports: a message exactly when the exchange returned one; a
    timeout or another error is counted once under its reason, a cancellation not
    at all; every probe is counted as sent and observed once. *)
Theorem probe_spec (exchanged : result error Msg) (mt : Metrics) :
  let '(mt', res) := probe exchanged mt in
  source res = sourcePeer /\ err res = None /\
  (forall m, msg res = Some m <-> exchanged = Ok m) /\
  probesCount mt' = inc sent (probesCount mt) /\ probeDuration mt' = inc sent (probeDuration mt) /\
  winsCount mt' = winsCount mt /\
  probeFailures mt' =
    match exchanged with
    | Ok _ => probeFailures mt
    | Err e =>
        if errors_Is (Some e) Canceled then probeFailures mt
        else if errors_Is (Some e) DeadlineExceeded || e_timeout e
        then inc (lit "timeout") (probeFailures mt)
        else inc (lit "error") (probeFailures mt)
    end.
Proof.
  pose proof (probe_source exchanged mt) as Hs. pose proof (probe_msg exchanged mt) as Hm.
  unfold probe in *. destruct exchanged as [m'|e]; cbn in *.
  { split_and!; done. }
  destruct (bool_decide (Canceled ∈ e_chain e)); [split_and!; done|].
  destruct (bool_decide (DeadlineExceeded ∈ e_chain e) || e_timeout e); split_and!; done.
Qed.

End Properties.
