(* ===== verification/PeercacheDiscovery.v ===== *)
(** * Peer discovery ([plugin/peercache/discovery.go])

    [republish] turns the informer's pods into the peer set.  The Kubernetes
    client that delivers the pods is an argument. *)

From Stdlib Require Import Lia ZArith Ascii.
From stdpp Require Import base strings gmap option numbers sorting list.
From S2P Require Import Prelude GoStrings Netip Dns Peercache.

Local Open Scope Z_scope.

(** ** Pods *)

(** The fields of a pod [republish] looks at: its IP, whether its phase is
    [PodRunning], and whether a deletion timestamp is set. *)
Record Pod := MkPod { PodIP : str; Running : bool; Deleting : bool }.

(** The peer pointer and the metrics. *)
Record discovery := MkDiscovery { peers : option (list str); d_metrics : Metrics }.

(** The loop's filter: what is skipped. *)
Definition skipped (self : str) (pod : Pod) : bool :=
  bool_decide (PodIP pod = []) || bool_decide (PodIP pod = self) || negb (Running pod) || Deleting pod.

Fixpoint collect_addrs (self : str) (port : Z) (pods : list Pod) (addrs : list str) : list str :=
  match pods with
  | [] => addrs
  | pod :: pods =>
      if skipped self pod then collect_addrs self port pods addrs
      else collect_addrs self port pods (addrs ++ [join_host_port (PodIP pod) (itoa port)])
  end.

Definition republish (self : str) (port : Z) (pods : result error (list Pod)) (d : discovery) : discovery :=
  match pods with
  | Err _ => d
  | Ok pods =>
      let addrs := sort_strings (collect_addrs self port pods []) in
      MkDiscovery (Some addrs) (set_peers (Z.of_nat (length addrs)) (d_metrics d))
  end.

(** ** Specification *)

(** A running sibling. *)
Definition sibling (self : str) (pod : Pod) : Prop :=
  PodIP pod <> [] /\ PodIP pod <> self /\ Running pod = true /\ Deleting pod = false.

#[export] Instance sibling_dec self pod : Decision (sibling self pod).
Proof. unfold sibling. solve_decision. Defined.

Lemma skipped_spec self pod : skipped self pod = false <-> sibling self pod.
Proof.
  unfold skipped, sibling. rewrite !orb_false_iff, !bool_decide_eq_false, negb_false_iff. tauto.
Qed.

Lemma collect_addrs_spec self port pods addrs :
  collect_addrs self port pods addrs =
  addrs ++ map (fun pod => join_host_port (PodIP pod) (itoa port)) (filter (sibling self) pods).
Proof.
  revert addrs. induction pods as [|pod pods IH]; intros addrs; simpl; [by rewrite app_nil_r|].
  rewrite !IH, filter_cons. destruct (skipped self pod) eqn:E.
  - rewrite decide_False; [done|]. rewrite <- skipped_spec. congruence.
  - rewrite decide_True by (by apply skipped_spec). by rewrite <- app_assoc.
Qed.

Definition sibling_addrs (self : str) (port : Z) (pods : list Pod) : list str :=
  map (fun pod => join_host_port (PodIP pod) (itoa port)) (filter (sibling self) pods).

Lemma republish_peers self port pods d :
  peers (republish self port (Ok pods) d) = Some (sort_strings (sibling_addrs self port pods)).
Proof. simpl. by rewrite collect_addrs_spec. Qed.

Lemma elem_of_sibling_addrs self port pods addr :
  addr ∈ sort_strings (sibling_addrs self port pods) <->
  exists pod, pod ∈ pods /\ sibling self pod /\ addr = join_host_port (PodIP pod) (itoa port).
Proof.
  rewrite elem_of_sort_strings. unfold sibling_addrs. rewrite list_elem_of_fmap.
  setoid_rewrite list_elem_of_filter. naive_solver.
Qed.

(** * Properties *)

(** C35: what is published: after a successful listing the peer set is the sorted
    list of the addresses of exactly the running siblings, each with the probe
    port, the replica itself is not in it, the gauge is its length, and it does
    not depend on the order the pods were listed in; a failed listing keeps the
    previous set. *)
Theorem republish_spec (self : str) (port : Z) (pods : list Pod) (e : error) (d : discovery)
    (Hself : no_delims self) (Hpods : Forall (fun pod => no_delims (PodIP pod)) pods) :
  republish self port (Err e) d = d /\
  exists addrs, peers (republish self port (Ok pods) d) = Some addrs /\
    StronglySorted str_le addrs /\
    (forall addr, addr ∈ addrs <->
       exists pod, pod ∈ pods /\ sibling self pod /\ addr = join_host_port (PodIP pod) (itoa port)) /\
    (join_host_port self (itoa port) ∉ addrs) /\
    length addrs = length (filter (sibling self) pods) /\
    peersTotal (d_metrics (republish self port (Ok pods) d)) = Z.of_nat (length addrs) /\
    (forall pods', pods' ≡ₚ pods -> peers (republish self port (Ok pods') d) = Some addrs).
Proof.
  split; [done|]. exists (sort_strings (sibling_addrs self port pods)). split_and!.
  - apply republish_peers.
  - apply sort_strings_sorted.
  - apply elem_of_sibling_addrs.
  - intros (pod & Hp & (_ & Hne & _) & E)%elem_of_sibling_addrs.
    destruct (itoa_no_delims port) as [Hport Hcolon]. rewrite Forall_forall in Hpods.
    apply (f_equal split_host_port) in E.
    rewrite (split_join_host_port self) in E by done.
    rewrite (split_join_host_port (PodIP pod)) in E by auto. injection E as E. by destruct Hne.
  - rewrite length_sort_strings. apply length_map.
  - simpl. by rewrite collect_addrs_spec.
  - intros pods' Hp. rewrite republish_peers. f_equal. unfold sibling_addrs. by rewrite Hp.
Qed.

(** * Witness *)

Definition sample_pods : list Pod :=
  [MkPod (lit "10.0.0.3") true false; MkPod (lit "10.0.0.1") true false;
   MkPod (lit "fd00::2") true false; MkPod (lit "10.0.0.9") true true; MkPod [] false false].

Example republish_sample :
  peers (republish (lit "10.0.0.1") 8053 (Ok sample_pods) (MkDiscovery None (MkMetrics ∅ ∅ ∅ ∅ 0)))
  = Some [lit "10.0.0.3:8053"; lit "[fd00::2]:8053"].
Proof. by vm_compute. Qed.

Lemma no_delims_sample : Forall (fun pod => no_delims (PodIP pod)) sample_pods.
Proof. apply (bool_decide_unpack _). by vm_compute. Qed.

Lemma republish_spec_witness :
  exists addrs, peers (republish (lit "10.0.0.1") 8053 (Ok sample_pods)
      (MkDiscovery None (MkMetrics ∅ ∅ ∅ ∅ 0))) = Some addrs /\ length addrs = 2%nat.
Proof.
  destruct (republish_spec (lit "10.0.0.1") 8053 sample_pods (new_error "x")
    (MkDiscovery None (MkMetrics ∅ ∅ ∅ ∅ 0))) as (_ & addrs & H1 & _ & _ & _ & H2 & _).
  - apply (proj1 (list.Forall_forall _ _) no_delims_sample (MkPod (lit "10.0.0.1") true false)).
    right. left.
  - exact no_delims_sample.
  - exists addrs. split; [exact H1|]. rewrite H2. reflexivity.
Defined.
