(* ===== verification/PeercacheListener.v ===== *)
(** * The probe listener ([plugin/peercache/listener.go])

    Binding the port with retries, the source check and the handler that answers
    siblings from the store.  The socket and the DNS server loop are arguments:
    whether an attempt to bind succeeds, and what arrives. *)

From Stdlib Require Import Lia ZArith Ascii.
From stdpp Require Import base strings gmap option numbers sorting list.
From S2P Require Import Prelude GoStrings GoTime Netip Dns Contest ProbeStore Peercache PeercacheDiscovery.

Local Open Scope Z_scope.

(** ** [bind] *)

Definition bindAttempts : nat := 20.
Definition bindDelay : Z := 250 * Millisecond.

(** How [bind] ends: listening since an attempt, cancelled while waiting after
    one, or given up, with the duration its warning reports. *)
Inductive bind_result : Type :=
| Bound (attempt : nat)
| BindCancelled (attempt : nat)
| GaveUp (reported : Z).

(** The loop from attempt [i] with [more] attempts to go: [listens i] says
    whether the attempt succeeds and [cancelled i] whether the context is done
    during the wait after it; the second component is the time waited. *)
Fixpoint bind_loop (listens cancelled : nat -> bool) (more i : nat) (waited : Z) : bind_result * Z :=
  match more with
  | O => (GaveUp 0, waited)
  | S more =>
      if listens i then (Bound i, waited)
      else if (i =? bindAttempts - 1)%nat then
        (GaveUp (dur_mul (Z.of_nat bindAttempts) bindDelay), waited)
      else if cancelled i then (BindCancelled i, waited)
      else bind_loop listens cancelled more (S i) (waited + bindDelay)
  end.

Definition bind (listens cancelled : nat -> bool) : bind_result * Z :=
  bind_loop listens cancelled bindAttempts 0 0.

(** ** [isPeer] *)

(** The loop over the published peers. *)
Fixpoint matches_peer (ip : list Z) (peers : list str) : bool :=
  match peers with
  | [] => false
  | peer :: peers =>
      match split_host_port peer with
      | None => matches_peer ip peers
      | Some (peerHost, _) =>
          if ip_equal ip (parse_ip peerHost) then true else matches_peer ip peers
      end
  end.

Definition isPeer (peers : option (list str)) (remote : str) : bool :=
  match split_host_port remote with
  | None => false
  | Some (host, _) =>
      match parse_ip host with
      | None => false
      | Some ip => matches_peer ip (peerList peers)
      end
  end.

(** ** [serveProbe] *)

Section Listener.
Context {L : DnsLib} {PS : ProbeStore}.

(** [refuse]: the message it writes. *)
Definition refuse (r : Msg) : Msg := SetRcode new_msg r RcodeRefused.

(** The handler: the state afterwards and the messages written; errors of
    [WriteMsg] are ignored or logged. *)
Definition serveProbe (peers : option (list str)) (remote : str) (r : Msg) (now : Z) (st : state) :
    state * list Msg :=
  let mt := count_probe received (metrics st) in
  let '(store, mt, out) :=
    if negb (isPeer peers remote) then
      (probe_store st, count_probe_failure (lit "not_a_peer") mt, [refuse r])
    else if negb (length (Questions r) =? 1)%nat then (probe_store st, mt, [refuse r])
    else
      let '(store, res) := ps_get r now (probe_store st) in
      match res with
      | None => (store, mt, [refuse r])
      | Some m => (store, mt, [m])
      end in
  (State store (observe_probe received mt), out).

End Listener.

(** ** Lemmas *)

Lemma matches_peer_spec ip peers :
  matches_peer ip peers = true <->
  exists peer host port, peer ∈ peers /\ split_host_port peer = Some (host, port) /\ parse_ip host = Some ip.
Proof.
  induction peers as [|peer peers IH]; simpl.
  { split; [done|]. by intros (? & ? & ? & ?%not_elem_of_nil & _). }
  assert ((exists p h q, p ∈ peer :: peers /\ split_host_port p = Some (h, q) /\ parse_ip h = Some ip) <->
    (exists h q, split_host_port peer = Some (h, q) /\ parse_ip h = Some ip) \/
    (exists p h q, p ∈ peers /\ split_host_port p = Some (h, q) /\ parse_ip h = Some ip)) as ->.
  { setoid_rewrite elem_of_cons. naive_solver. }
  rewrite <- IH. destruct (split_host_port peer) as [[h q]|]; [|naive_solver].
  unfold ip_equal. case_bool_decide as Hip; [naive_solver|].
  split; [by right|]. intros [(h' & q' & [= <- <-] & Hp)|H]; done.
Qed.

Lemma bind_loop_spec listens cancelled more i waited :
  (i + more)%nat = bindAttempts -> (0 < more)%nat ->
  let '(res, total) := bind_loop listens cancelled more i waited in
  match res with
  | Bound j => (i <= j < bindAttempts)%nat /\ listens j = true /\
      (forall k, (i <= k < j)%nat -> listens k = false) /\ total = waited + Z.of_nat (j - i) * bindDelay
  | BindCancelled j => (i <= j)%nat /\ (j < bindAttempts - 1)%nat /\ cancelled j = true /\
      (forall k, (i <= k <= j)%nat -> listens k = false) /\ total = waited + Z.of_nat (j - i) * bindDelay
  | GaveUp reported => (forall k, (i <= k < bindAttempts)%nat -> listens k = false) /\
      reported = Z.of_nat bindAttempts * bindDelay /\
      total = waited + Z.of_nat (bindAttempts - 1 - i) * bindDelay
  end.
Proof.
  revert i waited. induction more as [|more IH]; intros i waited Hsum Hpos; [lia|].
  cbn [bind_loop]. destruct (listens i) eqn:Hl.
  { split_and!; [lia|lia|done|intros; lia|lia]. }
  destruct (i =? bindAttempts - 1)%nat eqn:Hi; bprop.
  { subst i. split_and!; [|done|lia]. intros k Hk. by replace k with (bindAttempts - 1)%nat by lia. }
  destruct (cancelled i) eqn:Hc.
  { split_and!; [lia|lia|done| |lia]. intros k Hk. by replace k with i by lia. }
  specialize (IH (S i) (waited + bindDelay) ltac:(lia) ltac:(lia)).
  destruct (bind_loop _ _ _ _ _) as [[j|j|rep] total].
  - destruct IH as (H1 & H2 & H3 & H4). split_and!; try done; try (unfold bindDelay, Millisecond in *; lia).
    intros k Hk. destruct (decide (k = i)) as [->|]; [done|]. apply H3. lia.
  - destruct IH as (H1 & H2 & H3 & H4 & H5). split_and!; try done; try (unfold bindDelay, Millisecond in *; lia).
    intros k Hk. destruct (decide (k = i)) as [->|]; [done|]. apply H4. lia.
  - destruct IH as (H1 & H2 & H3). split_and!; try done; try (unfold bindDelay, Millisecond in *; lia).
    intros k Hk. destruct (decide (k = i)) as [->|]; [done|]. apply H1. lia.
Qed.

(** * Properties *)

Section Properties.
Context {L : DnsLib} {PS : ProbeStore} {LL : DnsLaws L} {PSL : ProbeStoreLaws PS}.

(** How binding ends: at the first attempt that succeeds unless the context
    is done in a wait before it, and in failure only after every attempt failed;
    between two attempts it waits [bindDelay]. *)
Theorem bind_spec (listens cancelled : nat -> bool) :
  let '(res, waited) := bind listens cancelled in
  match res with
  | Bound i => (i < bindAttempts)%nat /\ listens i = true /\
      (forall k, (k < i)%nat -> listens k = false) /\ waited = Z.of_nat i * bindDelay
  | BindCancelled i => (i < bindAttempts - 1)%nat /\ cancelled i = true /\
      (forall k, (k <= i)%nat -> listens k = false) /\ waited = Z.of_nat i * bindDelay
  | GaveUp _ => (forall k, (k < bindAttempts)%nat -> listens k = false) /\
      waited = Z.of_nat (bindAttempts - 1) * bindDelay
  end.
Proof.
  pose proof (bind_loop_spec listens cancelled bindAttempts 0 0 eq_refl ltac:(unfold bindAttempts; lia)) as H.
  unfold bind. destruct (bind_loop _ _ _ _ _) as [[i|i|rep] waited].
  - destruct H as (H1 & H2 & H3 & H4). split_and!; [lia|done|intros; apply H3; lia|].
    rewrite H4, Nat.sub_0_r. lia.
  - destruct H as (_ & H1 & H2 & H3 & H4). split_and!; [lia|done|intros; apply H3; lia|].
    rewrite H4, Nat.sub_0_r. lia.
  - destruct H as (H1 & _ & H3). split; [intros; apply H1; lia|]. by rewrite H3, Nat.sub_0_r.
Qed.

(** The warning of a failed bind overstates the time: it reports twenty
    delays, five seconds, when nineteen were waited. *)
Theorem bind_reports_one_delay_too_many (listens cancelled : nat -> bool) (reported : Z)
    (H : fst (bind listens cancelled) = GaveUp reported) :
  reported = 5000 * Millisecond /\ snd (bind listens cancelled) = 4750 * Millisecond.
Proof.
  pose proof (bind_loop_spec listens cancelled bindAttempts 0 0 eq_refl ltac:(unfold bindAttempts; lia)) as Hb.
  unfold bind in *. destruct (bind_loop _ _ _ _ _) as [res waited]. simpl in *. subst res.
  destruct Hb as (_ & -> & ->). done.
Qed.

(** C21: the source check accepts exactly the running siblings: after a pod
    listing was published, a probe from an address is let through when and only
    when that address is the IP of a running sibling, whatever its port and
    however the IP is spelled. *)
Theorem isPeer_after_republish (self : str) (port : Z) (pods : list Pod) (d : discovery)
    (host sport : str) (ip : list Z)
    (Hpods : Forall (fun pod => no_delims (PodIP pod)) pods)
    (Hhost : no_delims host) (Hport : no_delims sport) (Hcolon : ":"%char ∉ sport)
    (Hip : parse_ip host = Some ip) :
  isPeer (peers (republish self port (Ok pods) d)) (join_host_port host sport) = true <->
  exists pod, pod ∈ pods /\ sibling self pod /\ parse_ip (PodIP pod) = Some ip.
Proof.
  unfold isPeer. rewrite split_join_host_port, Hip by done. rewrite republish_peers. simpl.
  rewrite matches_peer_spec. setoid_rewrite elem_of_sibling_addrs.
  destruct (itoa_no_delims port) as [Hp Hc]. rewrite Forall_forall in Hpods. split.
  - intros (peer & h & q & (pod & Hin & Hs & ->) & Hsplit & Hparse).
    rewrite split_join_host_port in Hsplit by auto. injection Hsplit as <- <-. by exists pod.
  - intros (pod & Hin & Hs & Hparse).
    exists (join_host_port (PodIP pod) (itoa port)), (PodIP pod), (itoa port).
    split_and!; [by exists pod| |done]. apply split_join_host_port; auto.
Qed.

(** C20: what a probe gets: always exactly one message, which answers this query:
    REFUSED, without a record, for a source that is not a peer, for anything but
    one question and for a question the store has no usable answer to, and
    otherwise the store's answer, complete, untruncated and with every TTL at
    least five seconds; every probe is counted and timed once as received, only
    a foreign source is counted as a failure and it does not reach the store. *)
Theorem serveProbe_spec (peers : option (list str)) (remote : str) (r : Msg) (now : Z) (st : state)
    (Hend : now < end_of_time) (Hok : ps_ok now (probe_store st)) :
  let '(st', out) := serveProbe peers remote r now st in
  ps_ok now (probe_store st') /\
  probesCount (metrics st') = inc received (probesCount (metrics st)) /\
  probeDuration (metrics st') = inc received (probeDuration (metrics st)) /\
  probeFailures (metrics st') =
    (if isPeer peers remote then probeFailures (metrics st)
     else inc (lit "not_a_peer") (probeFailures (metrics st))) /\
  (isPeer peers remote = false -> probe_store st' = probe_store st) /\
  exists m, out = [m] /\ Id m = Id r /\ Response m = true /\ Truncated m = false /\
    if isPeer peers remote && (length (Questions r) =? 1)%nat then
      match snd (ps_get r now (probe_store st)) with
      | Some answer => m = answer /\ Forall (fun rr => 5 <= Ttl rr) (timed (records m))
      | None => Rcode m = RcodeRefused /\ records m = []
      end
    else Rcode m = RcodeRefused /\ records m = [].
Proof.
  assert (Id (refuse r) = Id r /\ Response (refuse r) = true /\ Truncated (refuse r) = false /\
    Rcode (refuse r) = RcodeRefused /\ records (refuse r) = []) as (R1 & R2 & R3 & R4 & R5).
  { unfold refuse, records.
    rewrite SetRcode_Id, SetRcode_Response, SetRcode_Truncated, SetRcode_Rcode, SetRcode_Answer,
      SetRcode_Ns, SetRcode_Extra. done. }
  unfold serveProbe. destruct (isPeer peers remote); simpl.
  2: { split_and!; try done. by exists (refuse r). }
  destruct (length (Questions r) =? 1)%nat; simpl.
  2: { split_and!; try done. by exists (refuse r). }
  pose proof (ps_get_ok now r (probe_store st) Hend Hok) as Hg.
  pose proof (ps_get_answer now r (probe_store st)) as Ha.
  destruct (ps_get r now (probe_store st)) as [s' [m|]]; simpl in *.
  - destruct (Ha m Hend Hok eq_refl) as (H1 & H2 & H3 & _ & H5). split_and!; try done. by exists m.
  - split_and!; try done. by exists (refuse r).
Qed.

(** A refusal never decides a race: the reply a sibling refuses with is not
    useful to the replica that asked. *)
Theorem refusal_never_wins (r : Msg) (mt : Metrics) :
  ~ usable (snd (probe (Ok (refuse r)) mt)).
Proof.
  cbn [usable peer_usable]. unfold probe. simpl. unfold refuse.
  rewrite SetRcode_Truncated, SetRcode_Rcode. done.
Qed.

End Properties.
