(* ===== verification/PeercacheLifecycle.v ===== *)
(** * The peercache's goroutines ([start] and [shutdown] of
      [plugin/peercache/setup.go], [discover] of [discovery.go], [listen],
      [serve] and [bind] of [listener.go])

    [start] launches the probe listener and pod discovery; discovery starts a
    Kubernetes informer, whose event handler republishes the peers on a
    goroutine of its own, beside the [republish] of [discover] itself.  The
    peer pointer and the gauge are written by single atomic operations, so the
    system is a step relation with one step per effect.  The file proves what
    holds of the published peers in every interleaving, that a missing cluster
    leaves the plugin without peers for good, that [shutdown] cannot deadlock
    and what it leaves behind, and exhibits the interleaving after which the
    peer set is out of date. *)

From Stdlib Require Import Lia ZArith Ascii.
From stdpp Require Import base strings gmap option numbers sorting relations list.
From S2P Require Import Prelude GoStrings GoTime Netip Dns Peercache PeercacheDiscovery PeercacheListener.

Local Open Scope Z_scope.

(** ** Setting up discovery *)

(** Why [discover] gives up before it watches anything. *)
Inductive discover_failure : Type :=
| ReadNamespace (e : string)
| InClusterConfig
| NewForConfig
| WatchPods.

(** What it meets: the contents of the namespace file, and whether the
    Kubernetes client library's calls succeed. *)
Record k8s := MkK8s {
  k_namespace : result string str;
  k_config : bool;
  k_client : bool;
  k_handler : bool;
}.

(** [discover] up to [factory.Start]: the namespace and the label selector of
    the informer. *)
Definition discover_setup (selector : str) (k : k8s) : result discover_failure (str * str) :=
  match k_namespace k with
  | Err e => Err (ReadNamespace e)
  | Ok ns =>
      if negb (k_config k) then Err InClusterConfig
      else if negb (k_client k) then Err NewForConfig
      else
        let factory := (trim_space ns, selector) in
        if negb (k_handler k) then Err WatchPods else Ok factory
  end.

(** ** States *)

(** A call of [republish]: not running, before [p.peers.Store], before
    [peersTotal.Set]. *)
Inductive republish_pc : Type :=
| RIdle
| RStore (addrs : list str)
| RGauge (addrs : list str).

(** [discover]: setting up, in [WaitForCacheSync], in its own [republish],
    at [<-ctx.Done()], in [factory.Shutdown()], returned. *)
Inductive discover_pc : Type :=
| DSetup
| DSync
| DStore (addrs : list str)
| DGauge (addrs : list str)
| DWait
| DShutdown
| DExit.

(** [listen]: before attempt [i] to bind, in the delay after it, in
    [ActivateAndServe], returned, and returned because serving failed. *)
Inductive listen_pc : Type :=
| LTry (i : nat)
| LDelay (i : nat)
| LServing
| LExit
| LFailed.

(** [cluster] is the informer's cache, [notified] the events its handler has
    not been called with yet, [socket] whether the probe port is bound. *)
Record sys := MkSys {
  cluster : list Pod;
  notified : nat;
  informer : bool;
  published : discovery;
  handling : republish_pc;
  discovering : discover_pc;
  listening : listen_pc;
  socket : bool;
  ctx_done : bool;
}.

Definition with_peers (addrs : list str) (d : discovery) : discovery :=
  MkDiscovery (Some addrs) (d_metrics d).

Definition with_gauge (addrs : list str) (d : discovery) : discovery :=
  MkDiscovery (peers d) (set_peers (Z.of_nat (length addrs)) (d_metrics d)).

(** ** Steps *)

Section Lifecycle.
(** This replica's IP ([POD_IP]), the probe port, the selector, the cluster,
    and whether a listing can fail. *)
Context (self : str) (port : Z) (selector : str) (k : k8s) (may_fail : bool).

Definition new_discovery : discovery := MkDiscovery None (MkMetrics ∅ ∅ ∅ ∅ 0).

(** [start]: both goroutines, or neither without [POD_IP]. *)
Definition start : sys :=
  if bool_decide (self = [])
  then MkSys [] 0 false new_discovery RIdle DExit LExit false false
  else MkSys [] 0 false new_discovery RIdle DSetup (LTry 0) false false.

(** The addresses [republish] computes from a listing. *)
Definition listing (pods : list Pod) : list str := sort_strings (collect_addrs self port pods []).

(** Steps of the plugin's goroutines and of the informer it started.  A change
    of the informer's cache and its notification are one step of the outside. *)
Inductive step : sys -> sys -> Prop :=
(** The event handler, one call at a time. *)
| h_list pods n p d l s c :
    step (MkSys pods (S n) true p RIdle d l s c) (MkSys pods n true p (RStore (listing pods)) d l s c)
| h_list_failed pods n p d l s c :
    may_fail = true ->
    step (MkSys pods (S n) true p RIdle d l s c) (MkSys pods n true p RIdle d l s c)
| h_store pods n i p addrs d l s c :
    step (MkSys pods n i p (RStore addrs) d l s c)
      (MkSys pods n i (with_peers addrs p) (RGauge addrs) d l s c)
| h_gauge pods n i p addrs d l s c :
    step (MkSys pods n i p (RGauge addrs) d l s c)
      (MkSys pods n i (with_gauge addrs p) RIdle d l s c)
(** The informer stops when the context is done, after the call it is in. *)
| i_stop pods n p d l s :
    step (MkSys pods n true p RIdle d l s true) (MkSys pods 0 false p RIdle d l s true)
(** [discover]. *)
| d_failed pods n i p h l s c e :
    discover_setup selector k = Err e ->
    step (MkSys pods n i p h DSetup l s c) (MkSys pods n i p h DExit l s c)
| d_started pods n i p h l s c factory :
    discover_setup selector k = Ok factory ->
    step (MkSys pods n i p h DSetup l s c) (MkSys pods n true p h DSync l s c)
| d_list pods n i p h l s c :
    step (MkSys pods n i p h DSync l s c) (MkSys pods n i p h (DStore (listing pods)) l s c)
| d_list_failed pods n i p h l s c :
    may_fail = true ->
    step (MkSys pods n i p h DSync l s c) (MkSys pods n i p h DWait l s c)
| d_store pods n i p h addrs l s c :
    step (MkSys pods n i p h (DStore addrs) l s c)
      (MkSys pods n i (with_peers addrs p) h (DGauge addrs) l s c)
| d_gauge pods n i p h addrs l s c :
    step (MkSys pods n i p h (DGauge addrs) l s c)
      (MkSys pods n i (with_gauge addrs p) h DWait l s c)
| d_done pods n i p h l s :
    step (MkSys pods n i p h DWait l s true) (MkSys pods n i p h DShutdown l s true)
| d_exit pods n p h l s c :
    step (MkSys pods n false p h DShutdown l s c) (MkSys pods n false p h DExit l s c)
(** [bind]. *)
| l_bound pods n i p h d a s c :
    step (MkSys pods n i p h d (LTry a) s c) (MkSys pods n i p h d LServing true c)
| l_busy pods n i p h d a s c :
    a <> (bindAttempts - 1)%nat ->
    step (MkSys pods n i p h d (LTry a) s c) (MkSys pods n i p h d (LDelay a) s c)
| l_gave_up pods n i p h d a s c :
    a = (bindAttempts - 1)%nat ->
    step (MkSys pods n i p h d (LTry a) s c) (MkSys pods n i p h d LExit s c)
| l_cancelled pods n i p h d a s :
    step (MkSys pods n i p h d (LDelay a) s true) (MkSys pods n i p h d LExit s true)
| l_retry pods n i p h d a s c :
    step (MkSys pods n i p h d (LDelay a) s c) (MkSys pods n i p h d (LTry (S a)) s c)
(** [serve]: its closing goroutine, and the two ways [ActivateAndServe]
    returns. *)
| l_close pods n i p h d l :
    step (MkSys pods n i p h d l true true) (MkSys pods n i p h d l false true)
| l_closed pods n i p h d c :
    step (MkSys pods n i p h d LServing false c) (MkSys pods n i p h d LExit false c)
| l_broken pods n i p h d s c :
    step (MkSys pods n i p h d LServing s c) (MkSys pods n i p h d LFailed s c).

(** Steps from outside: a pod changed, or a resync, while the informer runs;
    and the cancellation in [shutdown]. *)
Inductive outside : sys -> sys -> Prop :=
| o_cache pods pods' n p h d l s c :
    outside (MkSys pods n true p h d l s c) (MkSys pods' (S n) true p h d l s c)
| o_shutdown pods n i p h d l s c :
    outside (MkSys pods n i p h d l s c) (MkSys pods n i p h d l s true).

Definition any_step (s s' : sys) : Prop := step s s' \/ outside s s'.

Definition reachable (s : sys) : Prop := rtc any_step start s.

(** [p.wg.Wait()] has returned. *)
Definition waited (s : sys) : Prop :=
  discovering s = DExit /\ (listening s = LExit \/ listening s = LFailed).

(** [shutdown] has returned: at once when [start] never ran ([None]). *)
Definition shutdown_returned (s : option sys) : Prop :=
  match s with
  | None => True
  | Some s => ctx_done s = true /\ waited s
  end.

(** ** The invariant *)

Definition from_listing (addrs : list str) : Prop := exists pods, addrs = listing pods.

Definition peers_ok (p : discovery) : Prop :=
  match peers p with None => True | Some addrs => from_listing addrs end.

Definition handling_ok (h : republish_pc) : Prop :=
  match h with RIdle => True | RStore addrs | RGauge addrs => from_listing addrs end.

Definition discovering_ok (d : discover_pc) : Prop :=
  match d with DStore addrs | DGauge addrs => from_listing addrs | _ => True end.

(** Whether [discover] has started the informer and not yet shut it down. *)
Definition watching (d : discover_pc) : Prop :=
  match d with DSetup | DExit => False | _ => True end.

Definition socket_ok (l : listen_pc) (s c : bool) : Prop :=
  match l with
  | LTry _ | LDelay _ | LExit => s = false
  | LServing => s = true \/ c = true
  | LFailed => True
  end.

(** [bind]'s loop variable stays in range. *)
Definition attempt_ok (l : listen_pc) : Prop :=
  match l with
  | LTry a => (a < bindAttempts)%nat
  | LDelay a => (a < bindAttempts - 1)%nat
  | _ => True
  end.

Record inv (s : sys) : Prop := MkInv {
  i_peers : peers_ok (published s);
  i_handling : handling_ok (handling s);
  i_discovering : discovering_ok (discovering s);
  i_informer : informer s = true -> watching (discovering s);
  i_idle : handling s <> RIdle -> informer s = true;
  i_socket : socket_ok (listening s) (socket s) (ctx_done s);
  i_attempt : attempt_ok (listening s);
}.

Lemma lifecycle_inv_start : inv start.
Proof. unfold start. case_bool_decide; split; simpl; try done. unfold bindAttempts. lia. Qed.

Lemma from_listing_intro pods : from_listing (listing pods).
Proof. by exists pods. Qed.
#[local] Hint Resolve from_listing_intro : core.

Lemma lifecycle_step_inv s s' : step s s' -> inv s -> inv s'.
Proof.
  destruct 1; intros [H1 H2 H3 H4 H5 H6 H7]; split; cbn -[bindAttempts] in *; eauto; try done;
    try (unfold bindAttempts in *; lia); try (destruct l; simpl in *; by auto);
    try (intros; by apply H5); try tauto; try (destruct H6; congruence).
Qed.

Lemma outside_inv s s' : outside s s' -> inv s -> inv s'.
Proof.
  destruct 1; intros [H1 H2 H3 H4 H5 H6 H7]; split; cbn -[bindAttempts] in *; try done.
  destruct l; simpl in *; tauto.
Qed.

Lemma lifecycle_reachable_inv s : reachable s -> inv s.
Proof.
  intros H. refine (rtc_preserves _ inv _ _ _ H lifecycle_inv_start).
  intros x y [Hs|Hs]; eauto using lifecycle_step_inv, outside_inv.
Qed.

(** Discovery that cannot be set up never starts. *)
Definition never_started (s : sys) : Prop :=
  peers (published s) = None /\ handling s = RIdle /\ informer s = false /\
  (discovering s = DSetup \/ discovering s = DExit).

Lemma step_never_started e s s' :
  discover_setup selector k = Err e -> any_step s s' -> never_started s -> never_started s'.
Proof.
  intros He [Hs|Hs] (H1 & H2 & H3 & H4); destruct Hs; cbn in *; try done; try congruence;
    split_and!; cbn; try done; auto; try (destruct H4; congruence); try congruence.
Qed.

(** ** In step with the cluster *)

(** [discover] is past its own [republish]. *)
Definition settled (d : discover_pc) : Prop :=
  match d with DWait | DShutdown | DExit => True | _ => False end.

(** The published peers and their gauge are those of the informer's cache. *)
Definition in_step (s : sys) : Prop :=
  peers (published s) = Some (listing (cluster s)) /\
  peersTotal (d_metrics (published s)) = Z.of_nat (length (listing (cluster s))).

(** They are, or the handler is going to make them so. *)
Definition catching_up (s : sys) : Prop :=
  settled (discovering s) /\
  ((0 < notified s)%nat \/
   match handling s with
   | RIdle => in_step s
   | RStore addrs => addrs = listing (cluster s)
   | RGauge addrs => addrs = listing (cluster s) /\ peers (published s) = Some addrs
   end).

Lemma step_catching_up s s' :
  may_fail = false -> any_step s s' -> informer s' = true -> catching_up s -> catching_up s'.
Proof.
  unfold catching_up, in_step. intros Hf [Hs|Hs] Hi [Hd Hc]; destruct Hs; cbn in *;
    try done; try congruence; split; auto; try lia; try (destruct Hc as [Hc|Hc]; [by left|right]);
    try (destruct Hc; subst; by split);
    try (by subst); by right.
Qed.

Lemma settled_step s s' :
  any_step s s' -> settled (discovering s) ->
  settled (discovering s') /\ (informer s' = true -> informer s = true).
Proof. intros [Hs|Hs]; destruct Hs; cbn; done. Qed.

Lemma steps_catching_up s s' :
  may_fail = false -> rtc any_step s s' ->
  settled (discovering s) /\ (informer s = true -> catching_up s) ->
  settled (discovering s') /\ (informer s' = true -> catching_up s').
Proof.
  intros Hf. apply (rtc_preserves _ (fun s => settled (discovering s) /\ (informer s = true -> catching_up s))).
  intros a b Hab [Hd Hc]. destruct (settled_step a b Hab Hd) as [Hd' Hi]. split; [done|].
  intros Hb. eapply step_catching_up; eauto.
Qed.

(** ** Termination *)

Definition weight (s : sys) : nat :=
  (3 * notified s + (if informer s then 1 else 0)
   + match handling s with RIdle => 0 | RStore _ => 2 | RGauge _ => 1 end
   + match discovering s with
     | DSetup => 7 | DSync => 5 | DStore _ => 4 | DGauge _ => 3 | DWait => 2 | DShutdown => 1 | DExit => 0
     end
   + match listening s with
     | LTry a => 2 * (bindAttempts - a) + 3
     | LDelay a => 2 * (bindAttempts - a) + 2
     | LServing => 1
     | LExit | LFailed => 0
     end
   + (if socket s then 1 else 0))%nat.

Lemma lifecycle_step_weight s s' : step s s' -> inv s -> (weight s' < weight s)%nat.
Proof.
  destruct 1; intros [_ _ _ _ _ _ Ha]; unfold weight; cbn -[Nat.mul] in *;
    try (destruct s); try (destruct i); unfold bindAttempts in *; try lia.
Qed.

Lemma steps_bounded n s s' : nsteps step n s s' -> inv s -> (n + weight s' <= weight s)%nat.
Proof.
  induction 1 as [|n x y z H _ IH]; [lia|]. intros Hi.
  pose proof (lifecycle_step_weight x y H Hi). specialize (IH (lifecycle_step_inv x y H Hi)). lia.
Qed.

(** ** Progress after a cancellation *)

Definition at_rest (s : sys) : Prop := waited s /\ informer s = false /\ socket s = false.

Lemma handler_moves s : handling s <> RIdle \/ informer s = true -> ctx_done s = true -> exists s', step s s'.
Proof.
  destruct s as [pods n i p h d l sk c]; cbn. intros Hh ->. destruct h as [|addrs|addrs].
  - destruct Hh as [Hh| ->]; [done|]. eexists. apply i_stop.
  - eexists. apply h_store.
  - eexists. apply h_gauge.
Qed.

Lemma discover_moves s :
  discovering s <> DExit -> informer s = false -> ctx_done s = true -> exists s', step s s'.
Proof.
  destruct s as [pods n i p h d l sk c]; cbn. intros Hd -> ->. destruct d; try done.
  - destruct (discover_setup selector k) as [f|e] eqn:E; eexists; [by eapply d_started|by eapply d_failed].
  - eexists. apply d_list.
  - eexists. apply d_store.
  - eexists. apply d_gauge.
  - eexists. apply d_done.
  - eexists. apply d_exit.
Qed.

Lemma listener_moves s :
  (listening s <> LExit /\ listening s <> LFailed) \/ socket s = true -> ctx_done s = true ->
  exists s', step s s'.
Proof.
  destruct s as [pods n i p h d l sk c]; cbn. intros Hl ->. destruct sk; [eexists; apply l_close|].
  destruct Hl as [[H1 H2]|Hl]; [|done]. destruct l; try done; eexists;
    [apply l_bound|apply l_cancelled|apply l_closed].
Qed.

Lemma cancelled_progress s : ctx_done s = true -> (exists s', step s s') \/ at_rest s.
Proof.
  intros Hc. destruct (informer s) eqn:Hi; [left; apply handler_moves; auto|].
  assert (discovering s = DExit \/ discovering s <> DExit) as [Hd|Hd] by (destruct (discovering s); auto).
  2: { left. by apply discover_moves. }
  destruct (socket s) eqn:Hs; [left; apply listener_moves; auto|].
  assert ((listening s = LExit \/ listening s = LFailed) \/
    (listening s <> LExit /\ listening s <> LFailed)) as [Hl|Hl]
    by (destruct (listening s); auto; right; done).
  - right. by split.
  - left. apply listener_moves; auto.
Qed.

(** * Properties *)

(** Whatever the order in which discovery, the informer's handler, pod
    events and shutdown took their steps, the peers a query or a probe sees are
    none, or the sorted addresses of the running siblings of one listing: never
    a mixture, never this replica. *)
Theorem peers_are_one_listing (s : sys) (H : reachable s) :
  peerList (peers (published s)) = [] \/
  exists pods, peerList (peers (published s)) = sort_strings (sibling_addrs self port pods).
Proof.
  apply lifecycle_reachable_inv, i_peers in H. unfold peers_ok in H.
  destruct (peers (published s)) as [addrs|]; [right|by left]. destruct H as [pods ->].
  exists pods. simpl. unfold listing. by rewrite collect_addrs_spec.
Qed.

(** Without [POD_IP] or without a usable cluster (no namespace file, no
    in-cluster configuration, no client, no watch) the plugin runs with an
    empty peer set for ever: every query takes the upstream leg alone. *)
Theorem degrades_to_no_peers (s : sys)
    (H : reachable s) (Hoff : self = [] \/ is_ok (discover_setup selector k) = false) :
  peerList (peers (published s)) = [].
Proof.
  assert (never_started start /\ (self = [] -> discovering start = DExit)) as [H0 H1].
  { unfold start. case_bool_decide; split; done || (split_and!; simpl; auto). }
  assert (never_started s) as (-> & _); [|done].
  destruct Hoff as [Hself|Hoff].
  - refine (proj1 (rtc_preserves _ (fun s => never_started s /\ discovering s = DExit) _ _ _ H _)); [|by auto].
    intros a b [Hs|Hs] [(E1 & E2 & E3 & E4) E5]; destruct Hs; cbn in *; try done; try congruence;
      split; try done; split_and!; cbn; auto.
  - destruct (discover_setup selector k) as [f|e] eqn:E; [done|].
    refine (rtc_preserves _ never_started _ _ _ H H0). intros a b. by eapply step_never_started.
Qed.

(** C24: [shutdown] cannot deadlock and leaves nothing behind: once the context
    is cancelled the plugin's goroutines take a bounded number of steps, and
    when none can move any more both goroutines are done, the informer has
    stopped and the probe port is free. *)
Theorem lifecycle_shutdown (s : sys) (H : reachable s) (Hc : ctx_done s = true) :
  (forall n s', nsteps step n s s' -> (n <= weight s)%nat) /\
  (forall s', rtc step s s' -> (exists s'', step s' s'') \/ at_rest s') /\
  exists s', rtc step s s' /\ at_rest s' /\ shutdown_returned (Some s').
Proof.
  apply lifecycle_reachable_inv in H.
  assert (forall s', rtc step s s' -> ctx_done s' = true /\ inv s') as Hp.
  { intros s' Hs. refine (rtc_preserves _ (fun s => ctx_done s = true /\ inv s) _ _ _ Hs _); [|done].
    intros a b Hab [Ha Hi]. split; [by destruct Hab|by eapply lifecycle_step_inv]. }
  split_and!.
  - intros n s' Hn. apply steps_bounded in Hn; [lia|done].
  - intros s' Hs. apply cancelled_progress. by apply Hp.
  - remember (weight s) as w eqn:Ew. assert (weight s <= w)%nat as Hw by lia. clear Ew.
    revert s H Hc Hp Hw. induction w as [|w IH]; intros s H Hc Hp Hw;
      (destruct (cancelled_progress s Hc) as [[s1 H1]|Hr];
        [pose proof (lifecycle_step_weight s s1 H1 H)|exists s; split; [done|split; [done|split; [done|apply Hr]]]]).
    { lia. }
    destruct (Hp s1 (rtc_once _ _ H1)) as [Hc1 Hi1].
    destruct (IH s1) as (s' & Hs' & Hr); [done|done| |lia|].
    + intros s' Hs'. apply Hp. by eapply rtc_l.
    + exists s'. split; [by eapply rtc_l|done].
Qed.

(** When [shutdown] has returned, whatever else is still running: the
    informer is stopped, no event handler is in the middle of publishing, and
    the probe port is free for the plugin's next instance unless its server
    loop had failed before. *)
Theorem shutdown_releases (s : sys) (H : reachable s) (Hr : shutdown_returned (Some s)) :
  informer s = false /\ handling s = RIdle /\ (listening s = LExit -> socket s = false).
Proof.
  apply lifecycle_reachable_inv in H. destruct H as [_ _ _ H4 H5 H6 _]. destruct Hr as [_ [Hd Hl]].
  rewrite Hd in H4. split_and!.
  - destruct (informer s); [by destruct H4|done].
  - destruct (handling s); [done|..]; by destruct H4; apply H5.
  - intros E. by rewrite E in H6.
Qed.

(** C25: the next pod event puts the peers right, provided that [discover] is past
    its own [republish] and that listings do not fail: if an event is pending
    then, whatever happens from there on, whenever the handler has worked off its
    events the published set and the gauge are those of the informer's cache.
    (Before [discover] is past its [republish] this is not so; the run that
    leaves the peers stale then is exhibited below, and by this theorem it lasts
    until the next event only.) *)
Theorem pending_event_resyncs (s s' : sys)
    (Hf : may_fail = false) (Hd : settled (discovering s)) (Hn : (0 < notified s)%nat)
    (H : rtc any_step s s') (Hi : informer s' = true) (Hq : handling s' = RIdle)
    (H0 : notified s' = 0%nat) : in_step s'.
Proof.
  destruct (steps_catching_up s s' Hf H) as [_ Hc].
  { split; [done|]. intros _. split; [done|by left]. }
  destruct (Hc Hi) as [_ Hin]. rewrite H0, Hq in Hin. destruct Hin; [lia|done].
Qed.

(** Nothing is running or pending, and discovery is complete. *)
Definition quiet (s : sys) : Prop :=
  handling s = RIdle /\ notified s = 0%nat /\ discovering s = DWait /\ informer s = true /\
  ctx_done s = false.

(** C31: the peer set can stay out of date: [discover]'s own [republish] lists
    the pods, the handler then publishes a newer listing twice over, and the
    older one is stored last; with nothing running or pending the plugin keeps
    the old peers until the next pod event. *)
Theorem stale_peers_reachable (pods pods' : list Pod) (factory : str * str)
    (Hself : self <> []) (Hk : discover_setup selector k = Ok factory) :
  exists s, reachable s /\ quiet s /\ cluster s = pods' /\
    peers (published s) = Some (listing pods).
Proof.
  unfold reachable, start. rewrite bool_decide_eq_false_2 by done. eexists. split.
  { eapply rtc_l; [left; by eapply d_started|].
    eapply rtc_l; [right; apply (o_cache [] pods)|]. eapply rtc_l; [left; apply d_list|].
    eapply rtc_l; [right; apply (o_cache pods pods')|].
    eapply rtc_l; [left; apply h_list|]. eapply rtc_l; [left; apply h_store|].
    eapply rtc_l; [left; apply h_gauge|]. eapply rtc_l; [left; apply h_list|].
    eapply rtc_l; [left; apply h_store|]. eapply rtc_l; [left; apply h_gauge|].
    eapply rtc_l; [left; apply d_store|]. apply rtc_once. left. apply d_gauge. }
  split; [by split_and!|done].
Qed.

End Lifecycle.

(** * Witnesses *)

Definition sample_k8s : k8s := MkK8s (Ok (lit "homedns
")) true true true.

Definition sample_self : str := lit "10.0.0.1".

(** A pod, and the same pod with a sibling. *)
Definition one_pod : list Pod := [MkPod (lit "10.0.0.1") true false].
Definition two_pods : list Pod := MkPod (lit "10.0.0.2") true false :: one_pod.

Example sample_discover_setup :
  discover_setup (lit "app=homedns") sample_k8s = Ok (lit "homedns", lit "app=homedns").
Proof. by vm_compute. Qed.

Definition sample_step : relation sys :=
  any_step sample_self 8053 (lit "app=homedns") sample_k8s false.

Lemma stale_peers_reachable_witness :
  exists s, reachable sample_self 8053 (lit "app=homedns") sample_k8s false s /\ quiet s /\
    peers (published s) = Some [] /\
    listing sample_self 8053 (cluster s) = [lit "10.0.0.2:8053"].
Proof.
  destruct (stale_peers_reachable sample_self 8053 (lit "app=homedns") sample_k8s false one_pod two_pods
    (lit "homedns", lit "app=homedns")) as (s & H1 & H2 & H3 & H4).
  - done.
  - exact sample_discover_setup.
  - exists s. split; [exact H1|]. split; [exact H2|]. rewrite H3, H4. split; vm_compute; reflexivity.
Defined.

(** The replica of [stale_peers_reachable] after the next event, handled. *)
Definition waiting_sys (p : discovery) (n : nat) : sys :=
  MkSys two_pods n true p RIdle DWait (LTry 0) false false.

Definition resynced : discovery :=
  with_gauge [lit "10.0.0.2:8053"] (with_peers [lit "10.0.0.2:8053"] new_discovery).

Lemma sample_listing : listing sample_self 8053 two_pods = [lit "10.0.0.2:8053"].
Proof. by vm_compute. Qed.

Lemma resync_steps : rtc sample_step (waiting_sys new_discovery 1) (waiting_sys resynced 0).
Proof.
  eapply rtc_l; [left; apply h_list|]. rewrite sample_listing.
  eapply rtc_l; [left; apply h_store|]. apply rtc_once. left. apply h_gauge.
Qed.

Lemma pending_event_resyncs_witness : in_step sample_self 8053 (waiting_sys resynced 0).
Proof.
  apply (pending_event_resyncs sample_self 8053 (lit "app=homedns") sample_k8s false
    (waiting_sys new_discovery 1) (waiting_sys resynced 0));
    first [exact I | exact resync_steps | apply le_n | reflexivity].
Defined.

(** Shut down right after the start. *)
Definition stopped_early : sys := MkSys [] 0 false new_discovery RIdle DSetup (LTry 0) false true.

Lemma stopped_early_reachable :
  reachable sample_self 8053 (lit "app=homedns") sample_k8s false stopped_early.
Proof.
  apply rtc_once. right. change (start sample_self) with (MkSys [] 0 false new_discovery RIdle DSetup (LTry 0) false false).
  apply o_shutdown.
Qed.

Lemma lifecycle_shutdown_witness :
  exists s', rtc (step sample_self 8053 (lit "app=homedns") sample_k8s false) stopped_early s' /\ at_rest s'.
Proof.
  destruct (lifecycle_shutdown sample_self 8053 (lit "app=homedns") sample_k8s false stopped_early
    stopped_early_reachable eq_refl) as (_ & _ & s' & H1 & H2 & _).
  exists s'. split; [exact H1|exact H2].
Defined.

Lemma peers_are_one_listing_witness : peerList (peers (published stopped_early)) = [].
Proof.
  destruct (peers_are_one_listing sample_self 8053 (lit "app=homedns") sample_k8s false stopped_early
    stopped_early_reachable) as [H|_]; [exact H|reflexivity].
Defined.

Lemma degrades_to_no_peers_witness : peerList (peers (published (start []))) = [].
Proof.
  apply (degrades_to_no_peers [] 8053 [] sample_k8s false (start [])); [apply rtc_refl|].
  left. reflexivity.
Defined.

Lemma shutdown_releases_witness :
  informer (MkSys [] 0 false new_discovery RIdle DExit LExit false true) = false.
Proof.
  apply (shutdown_releases [] 8053 [] sample_k8s false); [|by split; [|split; [|left]]].
  apply rtc_once. right. change (start []) with (MkSys [] 0 false new_discovery RIdle DExit LExit false false).
  apply o_shutdown.
Defined.
