(* ===== verification/PeercacheSystem.v ===== *)
(** * Two replicas

    The parts of peercache put together: an answer stored on one replica, asked
    for by a sibling's probe, wins the race of the query on the sibling.  The
    store's implementation meets its users here; the file also holds the
    witnesses of the theorems that were proved against the store's interface. *)

From Stdlib Require Import Lia ZArith Ascii.
From stdpp Require Import base strings gmap option numbers sorting list.
From S2P Require Import Prelude GoStrings GoTime Netip Dns Contest ProbeStore PeercacheStore Peercache PeercacheDiscovery PeercacheListener.

Local Open Scope Z_scope.

Section System.
Context {L : DnsLib} {CL : CoreLib} {SL : StoreLib} {C : CacheLib entry}.
Context {LL : DnsLaws L} {SLL : StoreLaws SL} {CLL : CacheLaws entry C}.

Lemma matches_sibling self port pods d host sport ip :
  Forall (fun pod => no_delims (PodIP pod)) pods -> no_delims host -> no_delims sport ->
  ":"%char ∉ sport -> parse_ip host = Some ip ->
  (exists pod, pod ∈ pods /\ sibling self pod /\ parse_ip (PodIP pod) = Some ip) ->
  isPeer (peers (republish self port (Ok pods) d)) (join_host_port host sport) = true.
Proof.
  intros Hpods Hh Hs Hc Hip (pod & Hin & Hsib & Hparse).
  unfold isPeer. rewrite split_join_host_port, Hip by done. rewrite republish_peers. simpl.
  apply matches_peer_spec. setoid_rewrite elem_of_sibling_addrs.
  destruct (itoa_no_delims port) as [Hp Hc']. rewrite Forall_forall in Hpods.
  exists (join_host_port (PodIP pod) (itoa port)), (PodIP pod), (itoa port).
  split_and!; [by exists pod| |done]. apply split_join_host_port; auto.
Qed.

(** C1: a name warm on one replica is cheap on all of them: replica A put the
    answer [p] to [r0] into its store at [t0]; at [t1], with at least five
    seconds of its TTL left, a running sibling of A probes it, from any port,
    with a query [r] for the same question.  A writes exactly that answer, its
    TTLs rebased, as a reply to [r]; and on the sibling that reply, arriving
    before any other useful one, decides the race: the client gets the stored
    records, whatever the upstream and the other siblings do later. *)
Theorem warm_on_one_cheap_on_all (s : store) (r0 r : Msg) (p : pmsg) (ttl t0 t1 : Z)
    (self host sport : str) (port : Z) (pods : list Pod) (d : discovery) (ip : list Z)
    (w : conn) (ctx_err : error) (now : Z) (pre : list legResult) (later : list (event legResult))
    (mtA mtB : Peercache.Metrics) (stB : Peercache.state (PS := answer_store))
    (Hok : store_ok s) (Hv : valid (mem s) p) (Hs : storable (mem s) r0 (Some p) t0 = true)
    (Hm : minTTL (mem s) p = Some ttl) (Hkey : key r = key r0)
    (Hplain : Do r = false /\ CheckingDisabled r = false) (Hq : length (Questions r) = 1%nat)
    (Hrcode : Rcode (hdr p) = RcodeSuccess \/ Rcode (hdr p) = RcodeNameError)
    (Ht : t0 <= t1 < t0 + 2 ^ 62) (Hleft : 5 * Second <= ttl * Second - (t1 - t0))
    (Hpods : Forall (fun pod => no_delims (PodIP pod)) pods)
    (Hhost : no_delims host /\ no_delims sport /\ ":"%char ∉ sport) (Hip : parse_ip host = Some ip)
    (Hsib : exists pod, pod ∈ pods /\ sibling self pod /\ parse_ip (PodIP pod) = Some ip)
    (Hpre : Forall (fun res => ~ usable res) pre) :
  exists answer,
    snd (serveProbe (peers (republish self port (Ok pods) d)) (join_host_port host sport) r t1
           (State (PS := answer_store) (put r0 (Some p) t0 s) mtA)) = [answer] /\
    records answer =
      map (with_ttl (uint32_of (Seconds (ttl * Second - (t1 - t0))))) (records (load (mem s) p)) /\
    Id answer = Id r /\
    let '(_, out) := race w r ctx_err now
      (map Arrived pre ++ Arrived (snd (probe (Ok answer) mtB)) :: later) stB in
    exists m, written out = [m] /\ Rcode m = Rcode (hdr p) /\ Id m = Id r /\ Answer m = Answer answer.
Proof.
  destruct Hplain as [Hdo Hcd], Hhost as (Hh & Hsp & Hc).
  pose proof (put_then_get s r0 r p ttl t0 t1 Hok Hv Hs Hm ltac:(unfold Second in *; lia) Hkey Hdo Hcd Ht) as Hg.
  cbn zeta in Hg. rewrite (proj2 (Z.ltb_ge _ _) Hleft) in Hg.
  destruct Hg as (m & Hget & Hrec & Hid & _ & Hrc & Htr & _).
  set (s1 := put r0 (Some p) t0 s) in *. set (answer := load (mem (fst (get r t1 s1))) m) in *.
  exists answer. split_and!; [|done|done|].
  - unfold serveProbe. rewrite (matches_sibling _ _ _ _ _ _ ip) by done. rewrite Hq.
    cbn [negb Nat.eqb ps_get answer_store probe_store]. unfold answer.
    destruct (get r t1 s1) as [s2 res]. simpl in Hget. by rewrite Hget.
  - assert (useful (Some answer) = true) as Hu.
    { unfold useful. rewrite Htr, Hrc. destruct Hrcode as [-> | ->]; done. }
    unfold race. rewrite collect_usable; [|done|done].
    cbn [decision peer_usable peer_decision probe snd msg conclude]. unfold peer_decision, probe. cbn.
    unfold reply. exists (reply_to r answer).
    destruct (w _); simpl; autorewrite with go; try done; rewrite reply_to_Rcode; done.
Qed.

End System.

(** * Witnesses *)

Definition metrics0 : Peercache.Metrics := MkMetrics ∅ ∅ ∅ ∅ 0.

#[local] Existing Instance concrete_dns.
#[local] Existing Instance concrete_core.
#[local] Existing Instance concrete_store.
#[local] Existing Instance concrete_cache.

Definition client : conn := fun _ => None.
Definition canceled : error := MkError [Canceled] false.
Definition timeout : error := MkError [OtherErr "i/o timeout"] true.
Definition query : Msg := ask (lit "ab.example.").
Definition good_answer : Msg :=
  MkMsg 99 true false false false 0 [MkQuestion (lit "ab.example.") 1 1] [MkRR 1 300 (lit "192.0.2.1")] [] [].

(** The rest of the chain: an answer, and a failure without a message. *)
Definition good_next : handler := fun r => Outcome [reply_to r good_answer] RcodeSuccess None.
Definition failing_next : handler := fun _ => Outcome [] RcodeServerFailure (Some canceled).

(** Siblings that refuse or time out. *)
Definition cold : str -> result error Msg :=
  fun addr => if bool_decide (addr = lit "10.0.0.3:8053") then Ok (refuse query) else Err timeout.

Definition siblings : list str := [lit "10.0.0.3:8053"; lit "10.0.0.4:8053"].

Definition state0 : state := State first_store metrics0.

Lemma state0_ok : ps_ok 0 (probe_store state0).
Proof. split; [apply first_store_ok|]. intros k e Hk. simpl in Hk. by rewrite lookup_empty in Hk. Qed.

Abbreviation legs_of next := (leg_results siblings cold (lit "l") (lit "r") next query metrics0).

Lemma first_useful_answer_wins_witness :
  exists m', written (snd (race client query canceled 0
      (map Arrived (map (fun a => snd (probe (cold a) metrics0)) siblings) ++
       Arrived (upstream_leg (lit "l") (lit "r") good_next query) :: [CtxDone]) state0)) = [m'] /\
    Id m' = Id query /\ Answer m' = Answer good_answer.
Proof.
  pose proof (first_useful_answer_wins client query canceled 0
    (map (fun a => snd (probe (cold a) metrics0)) siblings)
    (upstream_leg (lit "l") (lit "r") good_next query) (reply_to query good_answer) [CtxDone] state0) as H.
  destruct (race _ _ _ _ _ _) as [st' out]. destruct H as (_ & _ & m' & H1 & _ & _ & H2 & H3 & _).
  - repeat constructor; by vm_compute.
  - reflexivity.
  - reflexivity.
  - exists m'. exact (conj H1 (conj H2 H3)).
Defined.

Lemma upstream_failure_unchanged_witness :
  race client query canceled 0 (map Arrived (legs_of failing_next)) state0 =
  (state0, Outcome [] RcodeServerFailure (Some canceled)).
Proof.
  apply (upstream_failure_unchanged siblings cold (lit "l") (lit "r") failing_next client query canceled
    0 (legs_of failing_next) metrics0 state0).
  - reflexivity.
  - repeat constructor; by vm_compute.
Defined.

Lemma no_peers_transparent_witness :
  snd (ServeDNS last None good_next client query canceled 0 [] state0) = good_next query.
Proof.
  pose proof (no_peers_transparent last None good_next client query canceled 0 [] state0
    (or_introl eq_refl)) as H.
  destruct (ServeDNS _ _ _ _ _ _ _ _ _) as [st' out]. exact (proj1 H).
Defined.

Lemma race_accounts_witness :
  let '(st', out) := race client query canceled 0 (map Arrived (legs_of good_next)) state0 in
  ps_ok 0 (probe_store st') /\ (length (written out) <= 1)%nat.
Proof.
  pose proof (race_accounts siblings cold (lit "l") (lit "r") good_next client query canceled 0
    (map Arrived (legs_of good_next)) metrics0 state0 (schedule_all _ _ (reflexivity _))) as H.
  destruct (race _ _ _ _ _ _) as [st' out]. destruct H as (H1 & H2 & _).
  - repeat constructor; intros m Hm; vm_compute in Hm; try discriminate Hm; injection Hm as <-;
      repeat constructor; vm_compute; congruence.
  - lia.
  - exact state0_ok.
  - exact (conj H1 H2).
Defined.

Lemma bind_reports_one_delay_too_many_witness :
  snd (bind (fun _ => false) (fun _ => false)) = 4750 * Millisecond.
Proof.
  apply (bind_reports_one_delay_too_many (fun _ => false) (fun _ => false) (5000 * Millisecond)).
  by vm_compute.
Defined.

Lemma isPeer_after_republish_witness :
  isPeer (peers (republish (lit "10.0.0.1") 8053 (Ok sample_pods) (MkDiscovery None metrics0)))
    (join_host_port (lit "10.0.0.3") (lit "40123")) = true.
Proof.
  apply (isPeer_after_republish (lit "10.0.0.1") 8053 sample_pods (MkDiscovery None metrics0)
    (lit "10.0.0.3") (lit "40123") ([0; 0; 0; 0; 0; 0; 0; 0; 0; 0; 255; 255; 10; 0; 0; 3])).
  - exact no_delims_sample.
  - apply (bool_decide_unpack _). by vm_compute.
  - apply (bool_decide_unpack _). by vm_compute.
  - apply (bool_decide_unpack _). by vm_compute.
  - by vm_compute.
  - exists (MkPod (lit "10.0.0.3") true false). split; [by left|]. split; [|by vm_compute].
    apply (bool_decide_unpack _). by vm_compute.
Defined.

Lemma serveProbe_spec_witness :
  let '(st', out) := serveProbe (Some siblings) (lit "10.0.0.9:5353") query 0 state0 in
  ps_ok 0 (probe_store st') /\ probe_store st' = first_store.
Proof.
  pose proof (serveProbe_spec (Some siblings) (lit "10.0.0.9:5353") query 0 state0 ltac:(done) state0_ok) as H.
  destruct (serveProbe _ _ _ _ _) as [st' out]. destruct H as (H1 & _ & _ & _ & H2 & _).
  split; [exact H1|]. apply H2. by vm_compute.
Defined.

Lemma refusal_never_wins_witness : useful (msg (snd (probe (Ok (refuse query)) metrics0))) <> true.
Proof. exact (refusal_never_wins query metrics0). Defined.

Lemma warm_on_one_cheap_on_all_witness :
  exists answer,
    snd (serveProbe (peers (republish (lit "10.0.0.1") 8053 (Ok sample_pods) (MkDiscovery None metrics0)))
           (join_host_port (lit "10.0.0.3") (lit "40123")) query (100 * Second)
           (State (PS := answer_store) (put query (Some stored_answer) 0 first_store) metrics0)) = [answer] /\
    Id answer = Id query.
Proof.
  destruct (warm_on_one_cheap_on_all first_store query query stored_answer 300 0 (100 * Second)
    (lit "10.0.0.1") (lit "10.0.0.3") (lit "40123") 8053 sample_pods (MkDiscovery None metrics0)
    ([0; 0; 0; 0; 0; 0; 0; 0; 0; 0; 255; 255; 10; 0; 0; 3]) client canceled 0 [] [] metrics0 metrics0 state0)
    as (answer & H1 & _ & H2 & _); [..|exists answer; exact (conj H1 H2)].
  1: exact first_store_ok.
  1: exact stored_answer_valid.
  1-3: reflexivity.
  1: split; reflexivity.
  1: reflexivity.
  1: left; reflexivity.
  1-2: unfold Second; lia.
  1: exact no_delims_sample.
  1: split_and!; apply (bool_decide_unpack _); by vm_compute.
  1: reflexivity.
  1: exists (MkPod (lit "10.0.0.3") true false); split; [by left|]; split; [|by vm_compute];
     apply (bool_decide_unpack _); by vm_compute.
  1: constructor.
Defined.
