(* ===== verification/PeercacheNetwork.v ===== *)
(** * Replicas relaying answers to each other

    Any number of replicas, the network between them and a clock: queries raced
    and probes answered, in any order, on the code's own handlers ([ServeDNS],
    [serveProbe] and the store).  What a sibling's answer is put into the store
    of the replica that asked, which may answer another sibling from it, and so
    on; this file shows where every such answer comes from and for how long it
    can go round. *)

From Stdlib Require Import Lia ZArith Ascii.
From stdpp Require Import base strings gmap option numbers relations functions list.
From S2P Require Import Prelude GoStrings GoTime Dns Contest ProbeStore PeercacheStore PeercacheStoreSpec Peercache PeercacheListener PeercacheSystem.

Local Open Scope Z_scope.

Section Network.
Context {L : DnsLib} {CL : CoreLib} {SL : StoreLib} {C : CacheLib entry}.

(** ** The system *)

Abbreviation replica := (state (PS := answer_store)).

(** A message a replica wrote in answer to a probe: the key of the probe's
    question and the time. *)
Record packet := Packet { p_key : Z; p_msg : Msg; p_sent : Z }.

(** A message the rest of a replica's chain produced: the key of the question
    and the time. *)
Record origin := Origin { o_key : Z; o_msg : Msg; o_time : Z }.

(** The packets are those ever written (the network may lose or repeat them);
    [history] is what upstreams ever answered. *)
Record network := Network {
  clock : Z;
  replicas : nat -> replica;
  packets : list packet;
  history : list origin;
}.

Definition start (mts : nat -> Metrics) : network :=
  Network 0 (fun i => State (newStore []) (mts i)) [] [].

(** How long a packet may be under way until the race that asked for it ends. *)
Context (delay : Z).

(** What arrives in a race for [r] that ends at [t]: the upstream leg's result,
    or from a sibling nothing or a packet. *)
Definition may_arrive (n : network) (local remote : str) (next : handler) (r : Msg) (t : Z)
    (res : legResult) : Prop :=
  res = upstream_leg local remote next r \/
  source res = sourcePeer /\
  (msg res = None \/
   exists p, p ∈ packets n /\ p_key p = key r /\ msg res = Some (p_msg p) /\ t <= p_sent p + delay).

(** A probe answered by replica [i], or a query that replica [i] answers.  A
    query is one step, at the time its race ends: it touches nothing shared
    before.  Time passes between steps. *)
Inductive step : network -> network -> Prop :=
| Probed n t i peers remote r st' out
    (Ht : clock n < t < end_of_time)
    (E : serveProbe peers remote r t (replicas n i) = (st', out)) :
    step n (Network t (<[i := st']> (replicas n))
      (map (fun m => Packet (key r) m t) out ++ packets n) (history n))
| Queried n t i peers recorded local remote next w r ctx_err evs st' out
    (Ht : clock n < t < end_of_time)
    (Hrec : forall ms m, recorded ms = Some m -> m ∈ ms)
    (Hwire : Forall wire_msg (written (next r)))
    (Harr : forall res, Arrived res ∈ evs -> may_arrive n local remote next r t res)
    (E : ServeDNS recorded peers next w r ctx_err t evs (replicas n i) = (st', out)) :
    step n (Network t (<[i := st']> (replicas n)) (packets n)
      (map (fun m => Origin (key r) m t) (written (next r)) ++ history n)).

(** ** Copies *)

(** [m], at time [t], is a copy of [o] after [hops] hops between replicas: the
    same data, a least TTL that lost a second per hop, and an end of life at
    most [late] after [o]'s.  (Above 97 days the [float64] seconds may round a
    TTL up, and nothing is claimed of it.) *)
Definition copy_of (o : origin) (hops : nat) (late t : Z) (m : Msg) : Prop :=
  same_data m (o_msg o) /\
  forall T ttl, least (o_msg o) = Some T -> least m = Some ttl -> T < 2 ^ 23 ->
    ttl <= T - Z.of_nat hops /\ t + ttl * Second <= o_time o + T * Second + late.

Definition known (hist : list origin) (k : Z) (hops : nat) (late t : Z) (m : Msg) : Prop :=
  exists o, o ∈ hist /\ o_key o = k /\ copy_of o hops late t m.

(** A stored answer went through some hops, each with its delay; an answer
    under way has not yet had the last one's. *)
Definition stored_known (hist : list origin) (k t : Z) (m : Msg) : Prop :=
  exists hops, known hist k hops (Z.of_nat hops * delay) t m.

Definition sent_known (hist : list origin) (p : packet) : Prop :=
  wire_msg (p_msg p) /\
  exists hops, known hist (p_key p) (S hops) (Z.of_nat hops * delay) (p_sent p) (p_msg p).

Record network_ok (n : network) : Prop := MkNetworkOk {
  ok_clock : 0 <= clock n < end_of_time;
  ok_stores : forall i, store_ok_at (clock n) (probe_store (replicas n i));
  ok_entries : forall i, entries (stored_known (history n)) (probe_store (replicas n i));
  ok_packets : forall p, p ∈ packets n -> Rcode (p_msg p) <> RcodeRefused -> sent_known (history n) p;
  ok_past : forall p, p ∈ packets n -> p_sent p <= clock n;
}.

(** ** Lemmas *)

Section Lemmas.
Context {LL : DnsLaws L} {SLL : StoreLaws SL} {CLL : CacheLaws entry C}.

(** A hop: what is served from an entry is a copy of what the entry is a copy
    of, a hop further. *)
Lemma copy_hop o hops late t s e m :
  copy_of o hops late (stored e) (load (mem s) (e_msg e)) -> store_ok s -> entry_ok (mem s) e ->
  stored e < t -> minServeTTL <= remaining_at e t ->
  same_data m (load (mem s) (e_msg e)) -> least m = Some (uint32_of (Seconds (remaining_at e t))) ->
  copy_of o (S hops) late t m.
Proof.
  intros [Hd Hc] Hok He Hlt Hf Hd' Hl. split; [by rewrite Hd'|]. intros T ttl HT Httl HTs.
  rewrite Hl in Httl. injection Httl as <-.
  destruct (Hc T (origTTL e) HT ltac:(rewrite <- minTTL_least; apply He) HTs) as [H1 H2].
  pose proof (minTTL_range _ _ _ (store_ttls _ Hok) (entry_ttl _ _ He)) as Hr.
  destruct (served_ttl_bounds e t Hr ltac:(lia) Hf) as (_ & _ & ->); [|unfold remaining_at, Second in *; lia].
  assert (remaining_at e t / Second < origTTL e) as Hq.
  { apply Z.div_lt_upper_bound; unfold remaining_at, Second in *; lia. }
  split; [lia|]. pose proof (Z.mul_div_le (remaining_at e t) Second ltac:(done)) as Hm.
  unfold remaining_at in Hm at 2. lia.
Qed.

(** A packet's delay. *)
Lemma copy_later o hops late t t' m :
  copy_of o hops late t m -> t' <= t + delay -> copy_of o hops (late + delay) t' m.
Proof.
  intros [Hd Hc] Ht. split; [done|]. intros T ttl HT Hl Hs. destruct (Hc T ttl HT Hl Hs). lia.
Qed.

Lemma known_mono hist hist' k hops late t m :
  hist ⊆ hist' -> known hist k hops late t m -> known hist' k hops late t m.
Proof. intros Hs (o & Ho & Hrest). exists o. split; [by apply Hs|done]. Qed.

Lemma stored_mono hist hist' k t m :
  hist ⊆ hist' -> stored_known hist k t m -> stored_known hist' k t m.
Proof. intros Hs (hops & H). exists hops. by eapply known_mono. Qed.

Lemma sent_mono hist hist' p : hist ⊆ hist' -> sent_known hist p -> sent_known hist' p.
Proof. intros Hs (Hw & hops & H). split; [done|]. exists hops. by eapply known_mono. Qed.

(** An upstream's answer is a copy of itself. *)
Lemma origin_known hist k t m : Origin k m t ∈ hist -> stored_known hist k t m.
Proof.
  intros Hin. exists O, (Origin k m t). split_and!; [done..|]. split; [done|].
  intros T ttl HT Hl _. simpl in *. rewrite HT in Hl. injection Hl as <-. lia.
Qed.

(** ** The handlers *)

Lemma serveProbe_cases peers remote r t (st st' : replica) out :
  serveProbe peers remote r t st = (st', out) ->
  (probe_store st' = probe_store st /\ out = [refuse r]) \/
  (probe_store st' = fst (ps_get r t (probe_store st)) /\
   (out = [refuse r] \/ exists m, out = [m] /\ snd (ps_get r t (probe_store st)) = Some m)).
Proof.
  unfold serveProbe. destruct (negb (isPeer _ _)); [intros [= <- <-]; by left|].
  destruct (negb _); [intros [= <- <-]; by left|]. destruct (ps_get _ _ _) as [s [m|]];
    intros [= <- <-]; right; (split; [done|]); [right|left]; eauto.
Qed.

(** What decides a race arrived. *)
Lemma collect_arrived evs up :
  match collect (C := peer_contest) evs up with
  | Answered res m => Arrived res ∈ evs /\ msg res = Some m /\ useful (Some m) = true
  | FromUpstream res => up = Some res \/ (Arrived res ∈ evs /\ source res = sourceUpstream)
  | _ => True
  end.
Proof.
  revert up. induction evs as [|[res|] evs IH]; intros up; cbn [collect]; [by destruct up; cbn; auto| |done].
  cbn [consider peer_contest].
  assert (forall up', (up' = up \/ (up' = Some res /\ source res = sourceUpstream)) ->
    match collect (C := peer_contest) evs up' with
    | Answered res' m => Arrived res' ∈ Arrived res :: evs /\ msg res' = Some m /\ useful (Some m) = true
    | FromUpstream res' => up = Some res' \/ (Arrived res' ∈ Arrived res :: evs /\ source res' = sourceUpstream)
    | _ => True
    end) as Hgo.
  { intros up' Hup. specialize (IH up'). destruct (collect _ _) as [res' m|res'| |]; [|..|done|done].
    - destruct IH as (H & ?). split; [by right|done].
    - destruct IH as [->|[H ?]]; [|right; split; [by right|done]].
      destruct Hup as [<-|[[= ->] ?]]; [by left|right; split; [by left|done]]. }
  assert ((if bool_decide (source res = sourceUpstream) then Some res else up) = up \/
    ((if bool_decide (source res = sourceUpstream) then Some res else up) = Some res /\
     source res = sourceUpstream)) as Hup by (case_bool_decide; auto).
  destruct (msg res) as [m|] eqn:Hm; [destruct (useful (Some m)) eqn:Hu; cbn [negb]|]; [|by apply Hgo..].
  split_and!; [by left|done..].
Qed.

(** What a query may use at [t]: a message of the rest of the chain, or a useful
    packet. *)
Definition usable_at (n : network) (next : handler) (r : Msg) (t : Z) (m : Msg) : Prop :=
  m ∈ written (next r) \/
  exists p, p ∈ packets n /\ p_key p = key r /\ m = p_msg p /\ t <= p_sent p + delay /\ useful (Some m) = true.

Lemma upstream_leg_written local remote next r m :
  msg (upstream_leg local remote next r) = Some m -> m ∈ written (next r).
Proof.
  unfold upstream_leg. cbn [msg].
  destruct (Detached.write_all_captured (written (next r)) (Detached.New local remote)) as (-> & _).
  destruct (last (written (next r))) eqn:E; [|done]. intros [= <-]. by apply last_Some_elem_of.
Qed.

Lemma ServeDNS_cases n recorded peers local remote next w r ctx_err t evs (st st' : replica) out :
  (forall ms m, recorded ms = Some m -> m ∈ ms) ->
  (forall res, Arrived res ∈ evs -> may_arrive n local remote next r t res) ->
  ServeDNS recorded peers next w r ctx_err t evs st = (st', out) ->
  (probe_store st' = probe_store st \/
   exists m, probe_store st' = ps_put r m t (probe_store st) /\ usable_at n next r t m) /\
  (forall m', m' ∈ written out -> exists m, usable_at n next r t m /\ (m' = m \/ m' = reply_to r m)).
Proof.
  intros Hrec Harr. unfold ServeDNS. destruct (_ =? _)%nat.
  { assert (forall m', m' ∈ written (next r) -> exists m, usable_at n next r t m /\ (m' = m \/ m' = reply_to r m)) as Hw.
    { intros m' Hm'. exists m'. split; [by left|by left]. }
    destruct (recorded _) as [m|] eqn:E; intros [= <- <-]; (split; [|done]); [right|by left].
    exists m. split; [done|]. left. by apply (Hrec _ _ E). }
  assert (forall m m' e, m' ∈ written (reply w r m e) -> m' = reply_to r m) as Hrep.
  { intros m m' e. unfold reply. by destruct (w _); intros ->%list_elem_of_singleton. }
  assert (forall res m, Arrived res ∈ evs -> msg res = Some m -> source res = sourceUpstream \/ useful (Some m) = true ->
    usable_at n next r t m) as Hu.
  { intros res m Hin Hm Hor. destruct (Harr _ Hin) as [->|[Hs [E|(p & H1 & H2 & H3 & H4)]]]; [|congruence|].
    - left. by eapply upstream_leg_written.
    - right. exists p. assert (m = p_msg p) as -> by congruence. destruct Hor as [E|]; [by rewrite Hs in E|]. done. }
  unfold race. pose proof (collect_arrived evs opening) as Hc. destruct (collect evs opening) as [res m|up| |];
    cbn [conclude].
  - destruct Hc as (Hin & Hm & Hus). intros [= <- <-]. split.
    + right. exists m. eauto.
    + intros m' Hm'. apply Hrep in Hm' as ->. exists m. eauto.
  - destruct Hc as [E|[Hin Hs]]; [done|]. intros [= <- <-]. split; [by left|]. intros m' Hm'.
    destruct (msg up) as [m|] eqn:Hm; [|by apply not_elem_of_nil in Hm'].
    apply Hrep in Hm' as ->. exists m. eauto.
  - intros [= <- <-]. split; [by left|]. by intros m' ?%not_elem_of_nil.
  - intros [= <- <-]. split; [by left|]. by intros m' ?%not_elem_of_nil.
Qed.

(** What a query may use is known. *)
Lemma usable_known n next r t m :
  network_ok n -> Forall wire_msg (written (next r)) -> usable_at n next r t m ->
  wire_msg m /\
  stored_known (map (fun m => Origin (key r) m t) (written (next r)) ++ history n) (key r) t m.
Proof.
  intros Hok Hwire [Hm|(p & Hp & Hk & -> & Ht & Hu)].
  - split; [by rewrite Forall_forall in Hwire; apply Hwire|]. apply origin_known. apply elem_of_app. left.
    by apply (list_elem_of_fmap_2 (fun m => Origin (key r) m t)).
  - destruct (ok_packets _ Hok p Hp) as (Hw & hops & o & Ho & Hok' & Hc).
    { intros E. unfold useful in Hu. rewrite E in Hu. by destruct (Truncated _). }
    split; [done|]. exists (S hops), o. split_and!; [set_solver|congruence|].
    replace (Z.of_nat (S hops) * delay) with (Z.of_nat hops * delay + delay) by lia. by eapply copy_later.
Qed.

(** What is served from a consistent store is known. *)
Lemma served_known hist r t t' s m :
  t < t' < end_of_time -> store_ok_at t s -> entries (stored_known hist) s ->
  snd (ps_get r t' s) = Some m -> sent_known hist (Packet (key r) m t').
Proof.
  intros Ht Hok Hent Hget.
  assert (store_ok_at t' s) as Hok' by (eapply store_later; [exact Hok|lia]).
  destruct (get_from r t' s m ltac:(lia) Hok' Hget) as (e & He & Hw & Hf & Heok & Hd & Hl & _).
  split; [done|]. destruct (Hent _ _ He) as (hops & o & Ho & Hk & Hc). exists hops, o.
  split_and!; [done..|]. pose proof (proj2 Hok _ _ He).
  by apply (copy_hop o hops _ t' s e m Hc (proj1 Hok') Heok ltac:(lia) Hf Hd Hl).
Qed.

(** ** The invariant *)

Lemma replicas_update (P : replica -> Prop) (f : nat -> replica) i st :
  (forall j, P (f j)) -> P st -> forall j, P (<[i := st]> f j).
Proof.
  intros Hf Hst j. destruct (decide (j = i)) as [->|]; [by rewrite fn_lookup_insert|].
  by rewrite fn_lookup_insert_ne.
Qed.

Lemma refusal_unknown r k t hist :
  Rcode (p_msg (Packet k (refuse r) t)) <> RcodeRefused -> sent_known hist (Packet k (refuse r) t).
Proof. simpl. unfold refuse. by rewrite SetRcode_Rcode. Qed.

Lemma probed_ok n t i peers remote r st' out :
  clock n < t < end_of_time -> serveProbe peers remote r t (replicas n i) = (st', out) -> network_ok n ->
  network_ok (Network t (<[i := st']> (replicas n))
    (map (fun m => Packet (key r) m t) out ++ packets n) (history n)).
Proof.
  intros Ht E [Hclk Hst Hent Hpk Hpast].
  assert (forall j, store_ok_at t (probe_store (replicas n j))) as Hlater.
  { intros j. by eapply store_later; [apply Hst|lia]. }
  pose proof (serveProbe_cases _ _ _ _ _ _ _ E) as Hc. split; simpl; [lia| | | |].
  - apply (replicas_update (fun st => store_ok_at t (probe_store st))); [done|].
    destruct Hc as [[-> _]|[-> _]]; [done|]. by apply probe_get_ok; [lia|].
  - apply (replicas_update (fun st => entries _ (probe_store st))); [done|].
    destruct Hc as [[-> _]|[-> _]]; [done|]. by apply get_entries; [lia| |].
  - intros p [(m & -> & Hm)%list_elem_of_fmap|Hp]%elem_of_app Hr; [|by apply Hpk].
    destruct Hc as [[_ ->]|[_ [->|(m' & -> & Hg)]]]; apply list_elem_of_singleton in Hm as ->;
      [by apply refusal_unknown..|]. by eapply served_known; [|apply Hst|apply Hent|exact Hg].
  - intros p [(m & -> & _)%list_elem_of_fmap|Hp%Hpast]%elem_of_app; simpl; lia.
Qed.

Lemma step_ok n n' : step n n' -> network_ok n -> network_ok n'.
Proof.
  intros [|] Hok; [by eapply probed_ok|]. pose proof Hok as [Hclk Hst Hent Hpk Hpast].
  set (hist := map _ _ ++ history n0) in *. assert (history n0 ⊆ hist) as Hsub by set_solver.
  destruct (ServeDNS_cases _ _ _ _ _ _ _ _ _ _ _ _ _ _ Hrec Harr E) as [Hput _].
  assert (forall j, store_ok_at t (probe_store (replicas n0 j))) as Hlater.
  { intros j. by eapply store_later; [apply Hst|lia]. }
  assert (forall j, entries (stored_known hist) (probe_store (replicas n0 j))) as Hgrow.
  { intros j. eapply entries_mono; [|apply Hent]. intros k t' m. by apply stored_mono. }
  split; simpl; [lia| | | |].
  - apply (replicas_update (fun st => store_ok_at t (probe_store st))); [done|].
    destruct Hput as [-> | (m & -> & Hm)]; [done|]. apply probe_put_ok; [lia| |done].
    by eapply usable_known.
  - apply (replicas_update (fun st => entries _ (probe_store st))); [done|].
    destruct Hput as [-> | (m & -> & Hm)]; [done|].
    destruct (usable_known _ _ _ _ _ Hok Hwire Hm) as [Hw Hk]. by apply put_entries; [|apply Hst| |].
  - intros p Hp Hr. eapply sent_mono; [exact Hsub|]. by apply Hpk.
  - intros p Hp%Hpast. lia.
Qed.

Lemma start_ok mts : network_ok (start mts).
Proof.
  split; simpl; [by compute| | | |].
  - intros _. split; [split; simpl; [constructor|]|]; intros k e; simpl; by rewrite Get_New.
  - intros _ k e. simpl. by rewrite Get_New.
  - by intros p ?%not_elem_of_nil.
  - by intros p ?%not_elem_of_nil.
Qed.

Lemma reachable_ok mts n : rtc step (start mts) n -> network_ok n.
Proof. intros H. exact (rtc_preserves _ network_ok _ _ step_ok H (start_ok mts)). Qed.

Lemma records_reply r m : records (reply_to r m) = records m.
Proof. unfold records, reply_to. by rewrite SetRcode_Answer, SetRcode_Ns, SetRcode_Extra. Qed.

Lemma copy_reply o hops late t r m : copy_of o hops late t m -> copy_of o hops late t (reply_to r m).
Proof.
  intros [[Hr Hd] Hc]. unfold copy_of, same_data, least in *. rewrite records_reply, reply_to_Rcode. done.
Qed.

(** * Properties *)

(** C5: nothing a replica offers its siblings is made up or goes round for
    ever.  In every state the replicas can reach by asking their upstreams and
    each other, with packets lost, repeated and up to [delay] late, what a
    replica answers to a probe, other than a refusal, has the response code and
    the records, TTLs apart, of an answer some replica's upstream gave to that
    question (or one with the same hash); it has at least five seconds to live,
    has lost at least a second at each of its hops, and ends no later than the
    upstream's answer did plus the delays on its way (the last two if that one's
    least TTL was below [2 ^ 23] seconds, 97 days).  So such an answer, of least
    TTL [T], makes at most [T - 5] hops. *)
Theorem siblings_offer_upstream_answers (mts : nat -> Metrics) (n : network) (i : nat)
    (peers : option (list str)) (remote : str) (r : Msg) (t : Z) (st' : replica) (out : list Msg) (m : Msg)
    (Hreach : rtc step (start mts) n) (Ht : clock n < t < end_of_time)
    (E : serveProbe peers remote r t (replicas n i) = (st', out))
    (Hm : m ∈ out) (Hr : Rcode m <> RcodeRefused) :
  exists o T ttl hops, o ∈ history n /\ o_key o = key r /\ same_data m (o_msg o) /\
    least (o_msg o) = Some T /\ least m = Some ttl /\ 5 <= ttl /\
    (T < 2 ^ 23 -> ttl + Z.of_nat (S hops) <= T /\
       t + ttl * Second <= o_time o + T * Second + Z.of_nat hops * delay).
Proof.
  pose proof (reachable_ok _ _ Hreach) as Hok. pose proof (ok_stores _ Hok i) as Hst.
  assert (snd (ps_get r t (probe_store (replicas n i))) = Some m) as Hg.
  { destruct (serveProbe_cases _ _ _ _ _ _ _ E) as [[_ ->]|[_ [->|(m' & -> & Hg)]]];
      apply list_elem_of_singleton in Hm as ->; [| |done]; unfold refuse in Hr; by rewrite SetRcode_Rcode in Hr. }
  destruct (served_known _ _ _ _ _ _ Ht Hst (ok_entries _ Hok i) Hg) as (_ & hops & o & Ho & Hk & Hd & Hc).
  destruct (get_from r t _ m ltac:(lia) (store_later _ t _ Hst ltac:(lia)) Hg) as (e & He & _ & Hf & Heok & _ & Hl & _).
  destruct (same_data_least _ _ _ Hd Hl) as [T HT]. exists o, T, (uint32_of (Seconds (remaining_at e t))), hops.
  split_and!; try done.
  - pose proof (minTTL_range _ _ _ (store_ttls _ (proj1 Hst)) (entry_ttl _ _ Heok)) as Hrange.
    pose proof (proj2 Hst _ _ He). by apply (served_ttl_bounds e t Hrange ltac:(lia) Hf).
  - intros HTs. destruct (Hc _ _ HT Hl HTs) as [H1 H2]. simpl in H2. lia.
Qed.

(** C6: what the replicas do for each other is invisible in the data: in every
    reachable state, whatever a client is answered through the plugin has the
    response code and the records, TTLs apart, of an answer to that question or to
    one with the same 64-bit hash that some replica's upstream gave, then or
    earlier; and if that answer's least TTL was below [2 ^ 23] seconds (97 days),
    the client's is at most that, less a second for every hop between replicas,
    and ends no later than the upstream's did, plus the delays on its way. *)
Theorem clients_get_upstream_answers (mts : nat -> Metrics) (n : network) (i : nat)
    (recorded : list Msg -> option Msg) (peers : option (list str)) (local remote : str)
    (next : handler) (w : conn) (r : Msg) (ctx_err : error) (t : Z) (evs : list (event legResult))
    (st' : replica) (out : outcome) (m : Msg)
    (Hreach : rtc step (start mts) n) (Ht : clock n < t < end_of_time)
    (Hrec : forall ms m, recorded ms = Some m -> m ∈ ms)
    (Hwire : Forall wire_msg (written (next r)))
    (Harr : forall res, Arrived res ∈ evs -> may_arrive n local remote next r t res)
    (E : ServeDNS recorded peers next w r ctx_err t evs (replicas n i) = (st', out))
    (Hm : m ∈ written out) :
  exists o hops, o ∈ map (fun m => Origin (key r) m t) (written (next r)) ++ history n /\
    o_key o = key r /\ same_data m (o_msg o) /\
    forall T ttl, least (o_msg o) = Some T -> least m = Some ttl -> T < 2 ^ 23 ->
      ttl + Z.of_nat hops <= T /\
      t + ttl * Second <= o_time o + T * Second + Z.of_nat hops * delay.
Proof.
  pose proof (reachable_ok _ _ Hreach) as Hok.
  destruct (ServeDNS_cases _ _ _ _ _ _ _ _ _ _ _ _ _ _ Hrec Harr E) as [_ Hout].
  destruct (Hout _ Hm) as (m0 & Hu & Hm0).
  destruct (usable_known _ _ _ _ _ Hok Hwire Hu) as (_ & hops & o & Ho & Hk & Hc).
  assert (copy_of o hops (Z.of_nat hops * delay) t m) as [Hd Hc'].
  { destruct Hm0 as [-> | ->]; [done|by apply copy_reply]. }
  exists o, hops. split_and!; try done. intros T ttl HT Hl Hs. destruct (Hc' T ttl HT Hl Hs). lia.
Qed.

End Lemmas.
End Network.

(** * Witnesses *)

#[local] Existing Instance concrete_dns.
#[local] Existing Instance concrete_core.
#[local] Existing Instance concrete_store.
#[local] Existing Instance concrete_cache.

(** Replica 0 asks its upstream at one second, without siblings; replica 1 asks
    it at 100 seconds and stores its answer 0.2 seconds later. *)
Definition net0 : network := start (C := concrete_cache) (fun _ => metrics0).

Definition run0 := ServeDNS last None good_next client query canceled Second [] (replicas net0 0).

Definition net1 : network :=
  Network Second (<[0%nat := fst run0]> (replicas net0)) []
    (map (fun m => Origin (key query) m Second) (written (good_next query)) ++ []).

Definition run1 := serveProbe (Some siblings) (lit "10.0.0.4:40123") query (100 * Second) (replicas net1 0).

Definition net2 : network :=
  Network (100 * Second) (<[0%nat := fst run1]> (replicas net1))
    (map (fun m => Packet (key query) m (100 * Second)) (snd run1) ++ []) (history net1).

Definition relayed : legResult := LegResult sourcePeer (head (snd run1)) 0 None.

Definition run2 := ServeDNS last (Some siblings) failing_next client query canceled (100200 * Millisecond)
  [Arrived relayed] (replicas net2 1).

Definition net3 : network :=
  Network (100200 * Millisecond) (<[1%nat := fst run2]> (replicas net2)) (packets net2)
    ([] ++ history net2).

Lemma last_written (ms : list Msg) m : last ms = Some m -> m ∈ ms.
Proof. apply last_Some_elem_of. Qed.

Lemma net3_reached : rtc (step Second) net0 net3.
Proof.
  apply rtc_l with net1; [|apply rtc_l with net2; [|apply rtc_once]].
  - eapply (Queried Second net0 Second 0 None last (lit "l") (lit "r") good_next client query canceled []);
      [by vm_compute|exact last_written| |by intros res ?%not_elem_of_nil|apply surjective_pairing].
    repeat constructor; by vm_compute.
  - eapply (Probed Second net1 (100 * Second) 0); [by vm_compute|apply surjective_pairing].
  - eapply (Queried Second net2 (100200 * Millisecond) 1 (Some siblings) last (lit "l") (lit "r") failing_next
      client query canceled [Arrived relayed]);
      [by vm_compute|exact last_written|constructor| |apply surjective_pairing].
    intros res [= ->]%list_elem_of_singleton. right. split; [done|]. right.
    exists (Packet (key query) (default query (head (snd run1))) (100 * Second)).
    split_and!; [|done|by vm_compute|by vm_compute].
    apply elem_of_app. left. apply list_elem_of_fmap. exists (default query (head (snd run1))).
    split; [done|]. by vm_compute; left.
Qed.

(** The answer had 300 seconds; replica 0 passed 201 of them on, replica 1
    offers 151. *)
Example relayed_twice :
  map (fun m => (least m, Answer m)) (snd (serveProbe (Some siblings) (lit "10.0.0.3:40123") query (150 * Second)
    (replicas net3 1))) = [(Some 151, [MkRR 1 151 (lit "192.0.2.1")])].
Proof. by vm_compute. Qed.

Definition second_relay := serveProbe (Some siblings) (lit "10.0.0.3:40123") query (150 * Second) (replicas net3 1).

Lemma siblings_offer_upstream_answers_witness :
  exists m o, snd second_relay = [m] /\ o ∈ history net3 /\ same_data m (o_msg o) /\ least m = Some 151.
Proof.
  destruct (siblings_offer_upstream_answers Second (fun _ => metrics0) net3 1 (Some siblings)
    (lit "10.0.0.3:40123") query (150 * Second) (fst second_relay) (snd second_relay)
    (default query (head (snd second_relay)))) as (o & T & ttl & hops & Ho & _ & Hd & _ & Hl & _).
  - exact net3_reached.
  - by vm_compute.
  - apply surjective_pairing.
  - by vm_compute; left.
  - by vm_compute.
  - exists (default query (head (snd second_relay))), o.
    split; [by vm_compute|]. split; [exact Ho|]. split; [exact Hd|]. by vm_compute.
Defined.

Definition third_query := ServeDNS last (Some siblings) good_next client query canceled (150 * Second)
  [Arrived (upstream_leg (lit "l") (lit "r") good_next query)] (replicas net3 1).

Lemma clients_get_upstream_answers_witness :
  exists m o, written (snd third_query) = [m] /\ same_data m (o_msg o).
Proof.
  destruct (clients_get_upstream_answers Second (fun _ => metrics0) net3 1 last (Some siblings) (lit "l") (lit "r")
    good_next client query canceled (150 * Second) [Arrived (upstream_leg (lit "l") (lit "r") good_next query)]
    (fst third_query) (snd third_query) (reply_to query (reply_to query good_answer)))
    as (o & hops & _ & _ & Hd & _).
  - exact net3_reached.
  - by vm_compute.
  - exact last_written.
  - repeat constructor; by vm_compute.
  - intros res [= ->]%list_elem_of_singleton. by left.
  - apply surjective_pairing.
  - by vm_compute; left.
  - exists (reply_to query (reply_to query good_answer)), o. split; [by vm_compute|exact Hd].
Defined.
