(* ===== verification/Latency.v ===== *)
(** * When a race is over

    The receiving loop of [race.dispatch] and [peercache.race] with the clock:
    each leg's result is in at some time, the loop takes the results in that
    order, and it returns at the time of the result that decides, or of the last
    one.  The file proves how long the client waits in either plugin, and what a
    hung sibling costs. *)

From Stdlib Require Import Lia ZArith Ascii.
From stdpp Require Import base strings gmap option numbers sorting list.
From S2P Require Import Prelude GoStrings GoTime Dns Contest ProbeStore PeercacheStore Race Peercache PeercacheSystem.

Local Open Scope Z_scope.

(** ** The loop with the clock *)

Section Timed.
Context `{C : Contest R A V}.

(** [collect] on events with their times: when the loop returns, and what;
    [now] is when it was entered last. *)
Fixpoint collect_at (evs : list (Z * event R)) (now : Z) (a : A) : Z * V :=
  match evs with
  | [] => (now, closing a)
  | (t, CtxDone) :: _ => (t, interrupted)
  | (t, Arrived r) :: evs =>
      match consider a r with
      | inl a => collect_at evs t a
      | inr v => (t, v)
      end
  end.

Definition arrival (x : Z * R) : Z * event R := (fst x, Arrived (snd x)).

Definition earlier (x y : Z * R) : Prop := fst x <= fst y.

(** The legs' results, each with the time at which it is in, in the order in
    which they are received when the race starts at [t0] and is not cancelled. *)
Definition in_order (t0 : Z) (legs order : list (Z * R)) : Prop :=
  order ≡ₚ legs /\ StronglySorted earlier order /\ Forall (fun x => t0 <= fst x) order.

Lemma collect_at_value evs now a : snd (collect_at evs now a) = collect (map snd evs) a.
Proof.
  revert now a. induction evs as [|[t [r|]] evs IH]; intros now a; [done| |done].
  cbn. destruct (consider a r); [apply IH|done].
Qed.

Lemma arrivals_events order : map snd (map arrival order) = map Arrived (map snd order).
Proof. by rewrite !map_map. Qed.

(** The order is one of the schedules of the sequential loop. *)
Lemma in_order_schedule t0 legs order :
  in_order t0 legs order -> schedule (map snd legs) (map snd (map arrival order)).
Proof.
  intros (Hp & _). rewrite arrivals_events. apply schedule_all. by rewrite Hp.
Qed.

Context {U : Usable C}.

Abbreviation useless := (Forall (fun x : Z * R => ~ usable (snd x))).

Lemma collect_at_useless pre evs now a :
  useless pre ->
  collect_at (map arrival pre ++ evs) now a =
  collect_at evs (match last pre with Some x => fst x | None => now end)
    (fold_left absorb (map snd pre) a).
Proof.
  intros H. revert now a. induction H as [|[t r] pre Hr _ IH]; intros now a; [done|].
  cbn. rewrite consider_unusable by done. rewrite IH, last_cons. by destruct (last pre).
Qed.

Lemma first_useful (l : list (Z * R)) :
  useless l \/ exists pre x post, l = pre ++ x :: post /\ useless pre /\ usable (snd x).
Proof.
  induction l as [|x l IH]; [by left|]. destruct (decide (usable (snd x))) as [Hx|Hx].
  - right. by exists [], x, l.
  - destruct IH as [H|(pre & y & post & -> & Hp & Hy)]; [left; by constructor|].
    right. exists (x :: pre), y, post. split_and!; [done|by constructor|done].
Qed.

Lemma sorted_after pre x post y :
  StronglySorted earlier (pre ++ x :: post) -> y ∈ post -> fst x <= fst y.
Proof.
  intros H Hy. induction pre as [|z pre IH]; cbn in H.
  - apply StronglySorted_cons in H as [Hx _]. rewrite Forall_forall in Hx. by apply Hx.
  - apply StronglySorted_cons in H as [_ H]. by apply IH.
Qed.

(** The time of the decision: the least at which a usable result is in. *)
Lemma decided_at t0 legs order now a :
  in_order t0 legs order -> Exists (fun x => usable (snd x)) legs ->
  exists x, x ∈ legs /\ usable (snd x) /\
    collect_at (map arrival order) now a = (fst x, decision (snd x)) /\
    forall y, y ∈ legs -> usable (snd y) -> fst x <= fst y.
Proof.
  intros (Hp & Hs & _) He.
  destruct (first_useful order) as [H|(pre & x & post & -> & Hpre & Hx)].
  { rewrite Hp in H. by apply Forall_Exists_neg in H. }
  exists x. split_and!.
  - rewrite <- Hp. apply elem_of_app. right. by left.
  - done.
  - rewrite map_app. cbn [map]. rewrite collect_at_useless by done. cbn. by rewrite consider_usable.
  - intros y Hy Hu. rewrite <- Hp in Hy. apply elem_of_app in Hy as [Hy|[->|Hy]%elem_of_cons]; [|done|].
    + rewrite Forall_forall in Hpre. by apply Hpre in Hy.
    + by eapply sorted_after.
Qed.

(** Without a usable result the loop waits for all of them. *)
Lemma exhausted_at t0 legs order a :
  in_order t0 legs order -> useless legs ->
  collect_at (map arrival order) t0 a =
    (match last order with Some x => fst x | None => t0 end,
     closing (fold_left absorb (map snd order) a)) /\
  forall y, y ∈ legs -> fst y <= fst (collect_at (map arrival order) t0 a).
Proof.
  intros (Hp & Hs & _) Hu. rewrite <- Hp in Hu.
  pose proof (collect_at_useless order [] t0 a Hu) as E. rewrite app_nil_r in E. rewrite E. cbn.
  split; [done|]. intros y Hy. rewrite <- Hp in Hy.
  destruct order as [|x order] using rev_ind; [by apply not_elem_of_nil in Hy|].
  rewrite last_snoc. apply elem_of_app in Hy as [Hy| ->%list_elem_of_singleton]; [|done].
  apply list_elem_of_split in Hy as (l1 & l2 & ->). rewrite <- app_assoc in Hs. cbn in Hs.
  eapply sorted_after; [exact Hs|]. apply elem_of_app. right. by left.
Qed.

(** The loop never outlasts the last result. *)
Lemma returns_by t0 legs order bound a :
  in_order t0 legs order -> t0 <= bound -> Forall (fun x => fst x <= bound) legs ->
  fst (collect_at (map arrival order) t0 a) <= bound.
Proof.
  intros (Hp & _) H0 Hb. rewrite <- Hp in Hb. clear Hp. revert t0 a H0.
  induction Hb as [|[t r] order Ht _ IH]; intros t0 a H0; [done|]. cbn.
  destruct (consider a r); [by apply IH|done].
Qed.

End Timed.

(** ** The plugins with the clock *)

Section Plugins.
Context {L : DnsLib} {CL : CoreLib} {PS : ProbeStore}.

(** [peercache.race] entered at [t0]: when it returns, the state and what the
    client gets; the store is given the time of the decision. *)
Definition race_at (w : conn) (r : Msg) (ctx_err : error) (t0 : Z)
    (evs : list (Z * event Peercache.legResult)) (st : Peercache.state) : Z * (Peercache.state * outcome) :=
  let '(t, v) := collect_at evs t0 opening in
  (t, Peercache.conclude w r ctx_err t v st).

(** [race.dispatch] likewise. *)
Definition dispatch_at (w : conn) (r : Msg) (ctx_err : error) (t0 : Z)
    (evs : list (Z * event Race.legResult)) (mt : Race.Metrics) : Z * (Race.Metrics * outcome) :=
  let '(t, v) := collect_at evs t0 opening in
  (t, Race.conclude w r ctx_err v mt).

Definition probeTimeout : Z := 500 * Millisecond.

(** The legs of [peercache.race]: what each sibling's exchange returned, and
    the upstream leg, with their times. *)
Definition timed_legs (siblings : list (Z * result error Msg)) (mt : Peercache.Metrics)
    (tu : Z) (up : Peercache.legResult) : list (Z * Peercache.legResult) :=
  map (fun x => (fst x, snd (probe (snd x) mt))) siblings ++ [(tu, up)].

(** Without the clock they are the handlers of [Peercache] and [Race]. *)
Lemma race_at_race w r ctx_err t0 evs st :
  snd (race_at w r ctx_err t0 evs st) =
  Peercache.race w r ctx_err (fst (race_at w r ctx_err t0 evs st)) (map snd evs) st.
Proof.
  unfold race_at, Peercache.race. pose proof (collect_at_value evs t0 opening) as E.
  destruct (collect_at _ _ _) as [t v]. cbn in *. by rewrite E.
Qed.

Lemma dispatch_at_dispatch w r ctx_err t0 evs mt :
  snd (dispatch_at w r ctx_err t0 evs mt) = Race.dispatch w r ctx_err (map snd evs) mt.
Proof.
  unfold dispatch_at, Race.dispatch. pose proof (collect_at_value evs t0 opening) as E.
  destruct (collect_at _ _ _) as [t v]. cbn in *. by rewrite E.
Qed.

Lemma race_at_time w r ctx_err t0 evs st :
  fst (race_at w r ctx_err t0 evs st) = fst (collect_at evs t0 opening).
Proof. unfold race_at. by destruct (collect_at _ _ _). Qed.

Lemma probed_usable siblings mt tu up x m :
  x ∈ siblings -> snd x = Ok m -> Peercache.useful (Some m) = true ->
  exists y, y ∈ timed_legs siblings mt tu up /\ fst y = fst x /\ usable (snd y).
Proof.
  intros Hx E Hu. exists (fst x, snd (probe (snd x) mt)). split_and!; [|done|].
  - apply elem_of_app. left. by apply (list_elem_of_fmap_2 (fun x => (fst x, snd (probe (snd x) mt)))).
  - cbn [usable peer_usable snd]. pose proof (proj2 (probe_msg (snd x) mt m) E) as ->. done.
Qed.

(** * Properties *)

(** C12: what siblings cost and bring: a query raced by peercache is over as soon
    as the first useful answer is in, the upstream's or a sibling's, so with a
    useful upstream no sibling can delay it; and whatever anyone does it is over
    when the upstream has come back and the probes' timeout has passed. *)
Theorem siblings_never_delay_an_answer (siblings : list (Z * result error Msg)) (mt : Peercache.Metrics)
    (tu : Z) (up : Peercache.legResult) (w : conn) (r : Msg) (ctx_err : error) (t0 : Z)
    (order : list (Z * Peercache.legResult)) (st : Peercache.state)
    (Horder : in_order t0 (timed_legs siblings mt tu up) order)
    (Htimeout : Forall (fun x => fst x <= t0 + probeTimeout) siblings) :
  let over := fst (race_at w r ctx_err t0 (map arrival order) st) in
  (Peercache.useful (Peercache.msg up) = true -> over <= tu) /\
  (forall x m, x ∈ siblings -> snd x = Ok m -> Peercache.useful (Some m) = true -> over <= fst x) /\
  over <= Z.max tu (t0 + probeTimeout).
Proof.
  cbn zeta. rewrite race_at_time.
  assert (forall y, y ∈ timed_legs siblings mt tu up -> usable (snd y) ->
    fst (collect_at (map arrival order) t0 opening) <= fst y) as Hfirst.
  { intros y Hy Hu. destruct (decided_at t0 _ order t0 opening Horder) as (x & _ & _ & -> & Hmin).
    - apply Exists_exists. by exists y.
    - by apply Hmin. }
  split_and!.
  - intros Hu. apply (Hfirst (tu, up)); [|done]. apply elem_of_app. right. by left.
  - intros x m Hx E Hu. destruct (probed_usable siblings mt tu up x m Hx E Hu) as (y & Hy & <- & Huy).
    by apply Hfirst.
  - eapply returns_by; [exact Horder|unfold probeTimeout, Millisecond; lia|].
    apply Forall_app. split; [|constructor; [cbn; lia|constructor]].
    apply Forall_fmap. eapply Forall_impl; [exact Htimeout|]. cbn. lia.
Qed.

(** C13: a failure is as slow as the slowest sibling: when no leg brings
    anything useful the query is not over before every sibling has answered or
    timed out, although all the client gets then is what the upstream said at
    [tu]. *)
Theorem failure_waits_for_every_sibling (siblings : list (Z * result error Msg)) (mt : Peercache.Metrics)
    (tu : Z) (local remote : str) (next : handler) (w : conn) (r : Msg) (ctx_err : error) (t0 : Z)
    (order : list (Z * Peercache.legResult)) (st : Peercache.state)
    (Horder : in_order t0 (timed_legs siblings mt tu (upstream_leg local remote next r)) order)
    (Hnone : Forall (fun x => ~ usable (snd x)) (timed_legs siblings mt tu (upstream_leg local remote next r))) :
  let '(over, (st', out)) := race_at w r ctx_err t0 (map arrival order) st in
  (forall x, x ∈ siblings -> fst x <= over) /\ tu <= over /\ st' = st /\
  out = match last (written (next r)) with
        | Some m => Peercache.reply w r m (ret_err (next r))
        | None => Outcome [] (ret_rcode (next r)) (ret_err (next r))
        end.
Proof.
  pose proof (exhausted_at t0 _ order opening Horder Hnone) as [E Hall]. rewrite E in Hall.
  unfold race_at. rewrite E. cbn [fst] in Hall.
  rewrite (absorb_upstream (map snd order) (map (fun x => snd (probe (snd x) mt)) siblings)
    (upstream_leg local remote next r) opening).
  - cbn [closing peer_contest Peercache.conclude]. split_and!.
    + intros x Hx. apply (Hall (fst x, snd (probe (snd x) mt))). apply elem_of_app. left.
      by apply (list_elem_of_fmap_2 (fun x => (fst x, snd (probe (snd x) mt)))).
    + apply (Hall (tu, upstream_leg local remote next r)). apply elem_of_app. right. by left.
    + done.
    + unfold upstream_leg. cbn [Peercache.msg Peercache.err Peercache.rcode].
      destruct (Detached.write_all_captured (written (next r)) (Detached.New local remote)) as (-> & _).
      simpl. by destruct (last (written (next r))).
  - destruct Horder as (Hp & _). rewrite Hp. unfold timed_legs. by rewrite map_app, map_map.
  - done.
  - apply Forall_forall. intros res (x & -> & _)%list_elem_of_fmap. by rewrite probe_source.
Qed.

(** C14: a raced query is as fast as the fastest useful upstream: it is over
    the moment the first useful reply is in, and that reply is the client's. *)
Theorem race_is_as_fast_as_the_fastest (legs order : list (Z * Race.legResult)) (w : conn)
    (r : Msg) (ctx_err : error) (t0 : Z) (mt : Race.Metrics)
    (Horder : in_order t0 legs order) (Huseful : Exists (fun x => usable (snd x)) legs) :
  let '(over, (mt', out)) := dispatch_at w r ctx_err t0 (map arrival order) mt in
  exists x m, x ∈ legs /\ Race.msg (snd x) = Some m /\ over = fst x /\
    (forall y, y ∈ legs -> usable (snd y) -> over <= fst y) /\
    out = Race.reply w r m /\ count (Race.winsCount mt') (to (snd x)) = count (Race.winsCount mt) (to (snd x)) + 1.
Proof.
  destruct (decided_at t0 legs order t0 opening Horder Huseful) as (x & Hx & Hu & E & Hmin).
  unfold dispatch_at. rewrite E. cbn [decision race_usable]. unfold race_decision.
  cbn [usable race_usable] in Hu. destruct (Race.msg (snd x)) as [m|] eqn:Em; [|done].
  cbn [Race.conclude]. exists x, m. split_and!; try done. apply count_inc.
Qed.

End Plugins.

(** * Witnesses *)

#[local] Existing Instance concrete_dns.
#[local] Existing Instance concrete_core.
#[local] Existing Instance concrete_store.
#[local] Existing Instance concrete_cache.

(** A sibling that hangs until its probe times out, and an upstream that comes
    back after 20 milliseconds. *)
Definition hung : list (Z * result error Msg) := [(probeTimeout, Err timeout)].

Definition with_upstream (next : handler) : list (Z * Peercache.legResult) :=
  timed_legs hung metrics0 (20 * Millisecond) (upstream_leg (lit "l") (lit "r") next query).

Definition received_order (next : handler) : list (Z * Peercache.legResult) := rev (with_upstream next).

Lemma received_in_order next : in_order 0 (with_upstream next) (received_order next).
Proof.
  split; [symmetry; apply Permutation_rev|]. split.
  - repeat constructor. unfold earlier. by vm_compute.
  - repeat constructor; by vm_compute.
Qed.

Lemma siblings_never_delay_an_answer_witness :
  fst (race_at client query canceled 0 (map arrival (received_order good_next)) state0) <= 20 * Millisecond.
Proof.
  apply (siblings_never_delay_an_answer hung metrics0 (20 * Millisecond)
    (upstream_leg (lit "l") (lit "r") good_next query) client query canceled 0 (received_order good_next) state0
    (received_in_order good_next)); [|reflexivity].
  repeat constructor. by vm_compute.
Defined.

(** The upstream failed after 20 milliseconds; the client learns it after 500. *)
Lemma failure_waits_for_every_sibling_witness :
  probeTimeout <= fst (race_at client query canceled 0 (map arrival (received_order failing_next)) state0) /\
  snd (snd (race_at client query canceled 0 (map arrival (received_order failing_next)) state0)) =
    Outcome [] RcodeServerFailure (Some canceled).
Proof.
  pose proof (failure_waits_for_every_sibling hung metrics0 (20 * Millisecond) (lit "l") (lit "r") failing_next
    client query canceled 0 (received_order failing_next) state0 (received_in_order failing_next)) as H.
  destruct (race_at _ _ _ _ _ _) as [over [st' out]]. destruct H as (H1 & _ & _ & H2).
  - repeat constructor; by vm_compute.
  - split; [|exact H2]. apply (H1 (probeTimeout, Err timeout)). by left.
Defined.

Definition upstreams : list (Z * Race.legResult) :=
  [(15 * Millisecond, snd (exchange Race.failing_upstream Race.query Race.metrics0));
   (30 * Millisecond, snd (exchange Race.good_upstream Race.query Race.metrics0))].

Lemma race_is_as_fast_as_the_fastest_witness :
  fst (dispatch_at client Race.query canceled 0 (map arrival upstreams) Race.metrics0) = 30 * Millisecond.
Proof.
  pose proof (race_is_as_fast_as_the_fastest upstreams upstreams client Race.query canceled 0 Race.metrics0) as H.
  destruct (dispatch_at _ _ _ _ _ _) as [over [mt' out]] eqn:E. destruct H as (x & m & Hx & Hm & -> & _).
  - split; [done|]. split; [repeat constructor; unfold earlier; by vm_compute|repeat constructor; by vm_compute].
  - right. left. by vm_compute.
  - apply elem_of_cons in Hx as [->|[->|[]%not_elem_of_nil]%elem_of_cons]; [by vm_compute in Hm|reflexivity].
Defined.
