(* ===== verification/Chain.v ===== *)
(** * A query through the whole chain

    [directives.go] places blocklist before CoreDNS's cache and peercache and
    race behind it; on a local cache miss a query passes the three plugins in
    this order, each one's [Next] being the rest.  This file composes their
    handlers the way the chain does (the upstream leg of peercache runs race on
    a detached writer) and proves what a client gets from the composition. *)

From Stdlib Require Import Lia ZArith Ascii.
From stdpp Require Import base strings gmap option numbers sorting list.
From S2P Require Import Prelude GoStrings BlocklistParse BlocklistMatcher Dns Blocklist Contest ProbeStore PeercacheStore Race Peercache PeercacheSystem.

Local Open Scope Z_scope.

(** ** The composition *)

Section Chain.
Context {UC : UnicodeCase} {L : DnsLib} {CL : CoreLib} {PS : ProbeStore}.

(** The mutable state of the three plugins that a query touches. *)
Record replica := MkReplica {
  r_blocklist : Blocklist.Blocklist;
  r_peercache : Peercache.state;
  r_race : Race.Metrics;
}.

(** What surrounds one query: the server's metrics label, race's zone, the rest
    of the chain behind race, the published peers, what [dnstest.Recorder]
    keeps, the client's connection and addresses, the context's error and the
    clock. *)
Record setting := MkSetting {
  s_server : str;
  s_from : str;
  s_rest : handler;
  s_peers : option (list str);
  s_recorded : list Msg -> option Msg;
  s_conn : conn;
  s_local : str;
  s_remote : str;
  s_ctx_err : error;
  s_now : Z;
}.

(** Writing to a detached writer never fails. *)
Definition detached_conn (s : setting) : conn :=
  fun m => snd (Detached.WriteMsg (Detached.New (s_local s) (s_remote s)) m).

(** The writer peercache hands to the rest of the chain: the client's (behind a
    recorder) without peers, a detached one in a race. *)
Definition inner_conn (s : setting) : conn :=
  if (length (peerList (s_peers s)) =? 0)%nat then s_conn s else detached_conn s.

(** race as peercache's [Next], on the outcomes [revs] of its [select]s. *)
Definition race_next (s : setting) (revs : list (event Race.legResult)) (mt : Race.Metrics) (r : Msg) :
    Race.Metrics * outcome :=
  Race.ServeDNS (s_from s) (s_rest s) (inner_conn s) r (s_ctx_err s) revs mt.

(** peercache as the rest of the chain behind blocklist, on the outcomes [pevs]
    of its own [select]s; race runs whether or not a sibling was faster. *)
Definition peercache_next (s : setting) (revs : list (event Race.legResult))
    (pevs : list (event Peercache.legResult)) (st : Peercache.state) (mt : Race.Metrics) (r : Msg) :
    Peercache.state * Race.Metrics * outcome :=
  let next r := snd (race_next s revs mt r) in
  let '(st, out) := Peercache.ServeDNS (s_recorded s) (s_peers s) next (s_conn s) r (s_ctx_err s)
                      (s_now s) pevs st in
  (st, fst (race_next s revs mt r), out).

(** A query: blocklist's handler, the chain behind it with the other plugins'
    state as its [Next]. *)
Definition serve (s : setting) (revs : list (event Race.legResult))
    (pevs : list (event Peercache.legResult)) (rep : replica) (r : Msg) : replica * outcome :=
  let next behind r := peercache_next s revs pevs (fst behind) (snd behind) r in
  let '(bl, behind, out) := Blocklist.ServeDNS_in (s_server s) next (s_conn s) (r_blocklist rep)
                              (r_peercache rep, r_race rep) r in
  (MkReplica bl (fst behind) (snd behind), out).

(** The legs of peercache's race. *)
Definition peer_legs (s : setting) (exchanged : str -> result error Msg)
    (revs : list (event Race.legResult)) (rep : replica) (r : Msg) : list Peercache.legResult :=
  Peercache.leg_results (peerList (s_peers s)) exchanged (s_local s) (s_remote s)
    (fun r => snd (race_next s revs (r_race rep) r)) r (Peercache.metrics (r_peercache rep)).

(** ** Lemmas *)

Definition clean (m : Msg) : Prop :=
  Truncated m = false /\ (Rcode m = RcodeSuccess \/ Rcode m = RcodeNameError).

Lemma useful_clean m : Race.useful (Some m) = true <-> clean m.
Proof.
  unfold clean. simpl. destruct (Truncated m); [split; [done|by intros [? _]]|].
  rewrite orb_true_iff, !Z.eqb_eq. tauto.
Qed.

Lemma reply_clean `{!DnsLaws L} r m : clean m -> clean (reply_to r m).
Proof. unfold clean. by rewrite reply_to_Truncated, reply_to_Rcode. Qed.

(** race on a query for its zone that some upstream answers usefully. *)
Lemma race_answers `{!DnsLaws L} s proxies order r mt mt0 :
  NameMatches (s_from s) (Name r) = true ->
  order ≡ₚ Race.leg_results proxies r mt0 -> Exists usable (Race.leg_results proxies r mt0) ->
  exists p m, p ∈ proxies /\ Race.msg (snd (Race.exchange p r mt0)) = Some m /\ Match r m = true /\
    clean m /\ written (snd (race_next s (map Arrived order) mt r)) = [reply_to r m].
Proof.
  intros Hz Hp He. destruct (usable_in_order order _ Hp He) as (pre & [t [m|] e] & post & -> & Hpre & Hm);
    [|done].
  assert (Race.LegResult t (Some m) e ∈ Race.leg_results proxies r mt0) as Hin.
  { rewrite <- Hp.
    apply elem_of_app. right. by left. }
  destruct (leg_result_inv _ _ _ _ Hin) as (p & Hpr & E & _). exists p, m. rewrite <- E.
  split_and!; try done.
  - by apply (exchange_message p r mt0 m); rewrite <- E.
  - by apply useful_clean.
  - unfold race_next, Race.ServeDNS. rewrite Hz. cbn [negb]. unfold dispatch.
    rewrite map_app. cbn [map]. rewrite collect_usable by done.
    cbn [decision race_usable race_decision Race.msg Race.conclude snd]. unfold Race.reply.
    by destruct (inner_conn s _).
Qed.

(** What the upstream leg of peercache carries then. *)
Lemma upstream_leg_answers s revs mt r m :
  written (snd (race_next s revs mt r)) = [m] ->
  Peercache.msg (upstream_leg (s_local s) (s_remote s) (fun r => snd (race_next s revs mt r)) r) = Some m.
Proof.
  intros E. unfold upstream_leg. cbn [Peercache.msg].
  destruct (Detached.write_all_captured (written (snd (race_next s revs mt r)))
    (Detached.New (s_local s) (s_remote s))) as (-> & _). by rewrite E.
Qed.

(** Where the answer [m] the client is given came from. *)
Definition answered_by (s : setting) (exchanged : str -> result error Msg) (proxies : list proxy)
    (r : Msg) (mt0 : Race.Metrics) (m : Msg) : Prop :=
  (exists addr, addr ∈ peerList (s_peers s) /\ exchanged addr = Ok m) \/
  (exists p m0, p ∈ proxies /\ Race.msg (snd (Race.exchange p r mt0)) = Some m0 /\ Match r m0 = true /\
     m = reply_to r m0).

(** peercache on a query whose upstream leg brings a useful answer. *)
Lemma peer_race_answers `{!DnsLaws L} s exchanged revs rep r porder m :
  (length (peerList (s_peers s)) =? 0)%nat = false ->
  porder ≡ₚ peer_legs s exchanged revs rep r -> clean m ->
  written (snd (race_next s revs (r_race rep) r)) = [m] ->
  exists m1,
    (m1 = m \/ exists addr, addr ∈ peerList (s_peers s) /\ exchanged addr = Ok m1) /\ clean m1 /\
    let '(st, out) := Peercache.ServeDNS (s_recorded s) (s_peers s)
      (fun r => snd (race_next s revs (r_race rep) r)) (s_conn s) r (s_ctx_err s) (s_now s)
      (map Arrived porder) (r_peercache rep) in
    written out = [reply_to r m1] /\
    probe_store st = ps_put r m1 (s_now s) (probe_store (r_peercache rep)).
Proof.
  intros Hn Hp Hm Hw. pose proof (upstream_leg_answers s revs (r_race rep) r m Hw) as Hup.
  destruct (usable_in_order porder _ Hp) as (pre & res & post & -> & Hpre & Hu).
  { apply Exists_app. right. apply Exists_cons. left. cbn [usable peer_usable]. rewrite Hup.
    by apply useful_clean. }
  assert (res ∈ peer_legs s exchanged revs rep r) as Hin.
  { rewrite <- Hp. apply elem_of_app. right. by left. }
  cbn [usable peer_usable] in Hu. destruct (Peercache.msg res) as [m1|] eqn:Em; [|done].
  exists m1. split; [|split; [by apply useful_clean|]].
  - apply elem_of_app in Hin as [(a & -> & Ha)%list_elem_of_fmap| ->%list_elem_of_singleton].
    + right. exists a. split; [done|]. by apply probe_msg in Em.
    + left. congruence.
  - unfold Peercache.ServeDNS. rewrite Hn. unfold race. rewrite map_app. cbn [map].
    rewrite collect_usable; [|done|cbn [usable peer_usable]; by rewrite Em].
    cbn [decision peer_usable]. unfold peer_decision. rewrite Em. cbn [Peercache.conclude].
    unfold Peercache.reply. by destruct (s_conn s _).
Qed.

(** * Properties *)

(** C23: a blocked name goes nowhere: whatever the siblings and the upstreams
    would have said, the client gets one authoritative NXDOMAIN for its query
    and neither plugin behind the blocklist is run: the state of peercache (probe
    store, metrics) and of race is what it was, so nobody is asked, no
    answer is stored and nothing is counted but the one block. *)
Theorem blocked_goes_nowhere `{!DnsLaws L} (s : setting) (revs : list (event Race.legResult))
    (pevs : list (event Peercache.legResult)) (rep : replica) (r : Msg)
    (Hb : blocked (current (r_blocklist rep)) (normalizeQuery (Name r)) = true) :
  let '(rep', out) := serve s revs pevs rep r in
  r_peercache rep' = r_peercache rep /\ r_race rep' = r_race rep /\
  count (blockedCount (Blocklist.metrics (r_blocklist rep'))) (s_server s) =
    count (blockedCount (Blocklist.metrics (r_blocklist rep))) (s_server s) + 1 /\
  allowedCount (Blocklist.metrics (r_blocklist rep')) = allowedCount (Blocklist.metrics (r_blocklist rep)) /\
  exists m, written out = [m] /\ Rcode m = RcodeNameError /\ Id m = Id r /\ Authoritative m = true /\
    Answer m = [].
Proof.
  unfold serve, Blocklist.ServeDNS_in. rewrite Hb. destruct (s_conn s _); cbn;
    do 2 (split; [done|]); (split; [apply count_inc|]); (split; [done|]); eexists; (split; [done|]); cbn;
    by rewrite SetRcode_Rcode, SetRcode_Id, SetRcode_Answer.
Qed.

(** C3: an unblocked name in race's zone that at least one upstream answers is
    answered: in whatever order the upstreams' and the siblings' results
    arrive, and whatever the siblings do, the client gets exactly one message,
    a clean reply to its query with the records of a sibling's answer or of an
    upstream's reply to this very question, and the answer given is in the
    probe store for the siblings. *)
Theorem unblocked_is_answered `{!DnsLaws L} (s : setting) (exchanged : str -> result error Msg)
    (proxies : list proxy) (order : list Race.legResult) (porder : list Peercache.legResult)
    (rep : replica) (r : Msg) (mt0 : Race.Metrics)
    (Hb : blocked (current (r_blocklist rep)) (normalizeQuery (Name r)) = false)
    (Hz : NameMatches (s_from s) (Name r) = true)
    (Horder : order ≡ₚ Race.leg_results proxies r mt0) (Huseful : Exists usable (Race.leg_results proxies r mt0))
    (Hporder : porder ≡ₚ peer_legs s exchanged (map Arrived order) rep r)
    (Hrec : forall m, s_recorded s [m] = Some m) :
  let '(rep', out) := serve s (map Arrived order) (map Arrived porder) rep r in
  exists m m', answered_by s exchanged proxies r mt0 m /\
    written out = [m'] /\ clean m' /\ Id m' = Id r /\ Answer m' = Answer m /\
    probe_store (r_peercache rep') = ps_put r m (s_now s) (probe_store (r_peercache rep)).
Proof.
  destruct (race_answers s proxies order r (r_race rep) mt0 Hz Horder Huseful)
    as (p & m0 & Hp & Hm0 & Hmatch & Hclean & Hw).
  apply (reply_clean r) in Hclean.
  assert (answered_by s exchanged proxies r mt0 (reply_to r m0)) as Hby by (right; by exists p, m0).
  unfold serve, Blocklist.ServeDNS_in, peercache_next. rewrite Hb. cbn [fst snd].
  destruct (length (peerList (s_peers s)) =? 0)%nat eqn:Hn.
  - unfold Peercache.ServeDNS. rewrite Hn, Hw, Hrec. cbn [fst snd r_peercache probe_store].
    exists (reply_to r m0), (reply_to r m0). split_and!; try done; try apply Hclean. apply reply_to_Id.
  - destruct (peer_race_answers s exchanged _ rep r porder _ Hn Hporder Hclean Hw) as (m1 & Hm1 & Hc1 & H1).
    destruct (Peercache.ServeDNS _ _ _ _ _ _ _ _ _) as [st out]. destruct H1 as [Hw1 Hst].
    cbn [fst snd r_peercache]. exists m1, (reply_to r m1). split.
    { destruct Hm1 as [->|(addr & Ha & He)]; [done|]. left. by exists addr. }
    split_and!; try done; try apply (reply_clean r m1 Hc1); autorewrite with go; try done.
Qed.

End Chain.

(** * Witnesses *)

#[local] Existing Instance latin1_case.
#[local] Existing Instance concrete_dns.
#[local] Existing Instance concrete_core.
#[local] Existing Instance concrete_store.
#[local] Existing Instance concrete_cache.

(** A replica with a list that blocks [ads.example.com], and two siblings that
    do not help. *)
Definition sample_replica : replica :=
  MkReplica (reload sample_config (sample_env 200) init_blocklist) state0 Race.metrics0.

Definition sample_setting : setting :=
  MkSetting (lit "dns://:53") (lit ".") (fun _ => Outcome [] RcodeServerFailure None) (Some siblings)
    last (fun _ => None) (lit "10.0.0.1:53") (lit "10.0.9.9:4711") Race.timeout 0.

Definition sample_proxies : list proxy := [failing_upstream; good_upstream].

Definition sample_order : list Race.legResult := Race.leg_results sample_proxies Race.query Race.metrics0.

Definition sample_porder : list Peercache.legResult :=
  peer_legs sample_setting cold (map Arrived sample_order) sample_replica Race.query.

Lemma blocked_goes_nowhere_witness :
  exists m, written (snd (serve sample_setting [] [] sample_replica sample_query)) = [m] /\
    Rcode m = RcodeNameError.
Proof.
  pose proof (blocked_goes_nowhere sample_setting [] [] sample_replica sample_query) as H.
  destruct (serve sample_setting [] [] sample_replica sample_query) as [rep' out].
  destruct H as (_ & _ & _ & _ & m & H1 & H2 & _); [by vm_compute|]. exists m. exact (conj H1 H2).
Defined.

Lemma unblocked_is_answered_witness :
  exists m', written (snd (serve sample_setting (map Arrived sample_order) (map Arrived sample_porder)
      sample_replica Race.query)) = [m'] /\ clean m' /\ Id m' = Id Race.query.
Proof.
  pose proof (unblocked_is_answered sample_setting cold sample_proxies sample_order sample_porder
    sample_replica Race.query Race.metrics0) as H.
  destruct (serve sample_setting (map Arrived sample_order) (map Arrived sample_porder)
    sample_replica Race.query) as [rep' out].
  destruct H as (m & m' & _ & H1 & H2 & H3 & _).
  - by vm_compute.
  - reflexivity.
  - reflexivity.
  - right. left. by vm_compute.
  - reflexivity.
  - reflexivity.
  - exists m'. exact (conj H1 (conj H2 H3)).
Defined.
