(* ===== verification/Buildinfo.v ===== *)
(** * Build information ([buildinfo.go])

    Which revision the binary reports, and the gauge that carries it.  What the
    toolchain embedded ([debug.ReadBuildInfo]) is an argument. *)

From Stdlib Require Import Lia ZArith Ascii.
From stdpp Require Import base strings gmap option numbers list.
From S2P Require Import Prelude.

Local Open Scope Z_scope.

(** The variables the linker stamps, at their defaults. *)
Definition version : str := lit "dev".
Definition revision : str := lit "".

(** The loop over the build settings. *)
Fixpoint find_revision (settings : list (str * str)) : str :=
  match settings with
  | [] => lit "unknown"
  | (key, value) :: settings =>
      if bool_decide (key = lit "vcs.revision") then value else find_revision settings
  end.

(** [vcsRevision]; [info] is the build information, if there is any. *)
Definition vcsRevision (revision : str) (info : option (list (str * str))) : str :=
  if bool_decide (revision <> []) then revision
  else
    match info with
    | None => lit "unknown"
    | Some settings => find_revision settings
    end.

(** [init]: the labels of the gauge and its value. *)
Definition buildInfo (version revision coreVersion goVersion : str)
    (info : option (list (str * str))) : gmap (list str) Z :=
  {[ [version; vcsRevision revision info; coreVersion; goVersion] := 1 ]}.

Lemma find_revision_spec settings value :
  (exists pre post, settings = pre ++ (lit "vcs.revision", value) :: post /\
     Forall (fun kv => fst kv <> lit "vcs.revision") pre) ->
  find_revision settings = value.
Proof.
  intros (pre & post & -> & Hpre). induction Hpre as [|[key v] pre Hk _ IH]; simpl; [done|].
  by rewrite bool_decide_eq_false_2.
Qed.

Lemma find_revision_unknown settings :
  Forall (fun kv => fst kv <> lit "vcs.revision") settings -> find_revision settings = lit "unknown".
Proof.
  induction 1 as [|[key v] settings Hk _ IH]; simpl; [done|]. by rewrite bool_decide_eq_false_2.
Qed.

(** A stamped revision wins; without one a plain build reports the first
    revision the toolchain embedded, and [unknown] only when there is none. *)
Lemma vcsRevision_spec (revision value : str) (settings : list (str * str)) :
  (revision <> [] -> forall info, vcsRevision revision info = revision) /\
  vcsRevision [] None = lit "unknown" /\
  (Forall (fun kv => fst kv <> lit "vcs.revision") settings ->
     vcsRevision [] (Some settings) = lit "unknown" /\
     forall post, vcsRevision [] (Some (settings ++ (lit "vcs.revision", value) :: post)) = value).
Proof.
  unfold vcsRevision. split_and!; [|done|].
  - intros Hr info. by rewrite bool_decide_eq_true_2.
  - intros Hs. split; [by apply find_revision_unknown|]. intros post.
    apply find_revision_spec. by exists settings, post.
Qed.

(** The gauge is always 1, on exactly one label set. *)
Lemma buildInfo_always_1 v r c g info :
  map snd (map_to_list (buildInfo v r c g info)) = [1].
Proof. unfold buildInfo. by rewrite map_to_list_singleton. Qed.
