(* ===== verification/Loadgen.v ===== *)
(** * The load generator's data ([scripts/loadgen/main.go])

    Reading the query names, the latency statistics (percentile indices through
    [float64], [Duration.Round]), what a worker does with one query and its
    connection, the merge of a worker's results, the report and the exit code.
    The goroutines are in [LoadgenRun]. *)

From Stdlib Require Import Lia ZArith Ascii.
From stdpp Require Import base strings gmap sorting numbers option list.
From S2P Require Import Prelude GoStrings GoTime BlocklistParse Dns.

Local Open Scope Z_scope.

(** ** Query names *)

Inductive read_error : Type :=
| ErrOpen (e : string)
| ErrScan (e : scan_error).

(** A blank line or a comment. *)
Definition ignored (name : str) : bool :=
  bool_decide (name = []) || has_prefix name (lit "#").

(** The loop of [readNames] over the scanner's lines: the names, and the lines
    left when the limit stopped it. *)
Fixpoint read_loop (limit : Z) (lines names : list str) : list str * option (list str) :=
  match lines with
  | [] => (names, None)
  | line :: rest =>
      let name := trim_space line in
      if ignored name then read_loop limit rest names
      else
        let names := names ++ [name] in
        if (0 <? limit) && (limit <=? Z.of_nat (length names)) then (names, Some rest)
        else read_loop limit rest names
  end.

(** Whether the scanner had to read past the last line to deliver it. *)
Definition unterminated (s : str) : bool :=
  match last s with
  | Some c => bool_decide (c <> "010"%char)
  | None => false
  end.

(** [sc.Err()] after all lines were scanned. *)
Definition scan_err (long : bool) (r : reader) : option read_error :=
  if long then Some (ErrScan ErrTooLong) else ErrScan <$> (ErrRead <$> r_err r).

(** [readNames]: both results.  After a [break] the scanner has met its error
    only when the line it stopped at was the unterminated rest of the file. *)
Definition readNames (opened : result string reader) (limit : Z)
    : list str * option read_error :=
  match opened with
  | Err e => ([], Some (ErrOpen e))
  | Ok r =>
      let '(lines, long) := scan_lines max_line (r_bytes r) [] 0 in
      match read_loop limit lines [] with
      | (names, None) => (names, scan_err long r)
      | (names, Some rest) =>
          (names, if negb long && bool_decide (rest = []) && unterminated (r_bytes r)
                  then scan_err long r else None)
      end
  end.

(** ** Percentiles *)

(** The 53-bit significand of the [float64] nearest to [n / d], for a constant
    in [1/2, 1): the constant is this many units of [2^-53]. *)
Definition significand (n d : Z) : Z := nearest (n * 2 ^ 53) d.

Definition p50 : Z := significand 50 100.
Definition p90 : Z := significand 90 100.
Definition p99 : Z := significand 99 100.

(** [int(float64(len(sorted)-1) * p)]. *)
Definition pct_index (x p : Z) : Z := Z.quot (float53 (float53 x 1 * p) 1) (2 ^ 53).

(** [pct]; [None] is the index panic. *)
Definition pct (sorted : list Z) (p : Z) : option Z :=
  let i := pct_index (Z.of_nat (length sorted) - 1) p in
  if i <? 0 then None else sorted !! Z.to_nat i.

(** ** Rounded durations *)

Definition Microsecond : Z := 1000.

(** [d.Round(m)] of [time.Duration]. *)
Definition dur_round (d m : Z) : Z :=
  if m <=? 0 then d
  else
    let r := Z.rem d m in
    if d <? 0 then
      let r := - r in
      if r + r <? m then d + r
      else let d1 := wrap64 (d - m + r) in if d1 <? d then d1 else - 2 ^ 63
    else if r + r <? m then d - r
    else let d1 := wrap64 (d + m - r) in if d <? d1 then d1 else 2 ^ 63 - 1.

(** [round]. *)
Definition round (d : Z) : Z :=
  if d <? Millisecond then dur_round d Microsecond else dur_round d (10 * Microsecond).

(** ** One worker *)

(** The sockets of a worker: the one in [conn], and those still open. *)
Record conns := MkConns { current_conn : nat; opened : gset nat; next_conn : nat }.

(** A [Dial] that succeeded, the first one and the reconnect. *)
Definition dialed (c : conns) : conns :=
  MkConns (next_conn c) ({[ next_conn c ]} ∪ opened c) (S (next_conn c)).

Definition first_dial : conns := dialed (MkConns 0 ∅ 0).

(** [conn.Close()]. *)
Definition close_conn (c : conns) : conns :=
  MkConns (current_conn c) (opened c ∖ {[ current_conn c ]}) (next_conn c).

(** What the network does with one query: the error of [WriteMsg], what
    [ReadMsg] returns (the rcode of a non-nil message), the time taken, and
    whether a reconnect would succeed. *)
Record exchange := MkExchange {
  x_write : option string;
  x_read : option Z * option string;
  x_took : Z;
  x_redial : bool;
}.

(** [resp] and [err] after the exchange. *)
Definition x_result (x : exchange) : option Z * option string :=
  match x_write x with
  | None => x_read x
  | Some e => (None, Some e)
  end.

(** The answer an exchange counts as, if it does. *)
Definition answered (x : exchange) : option Z :=
  match x_result x with
  | (Some rcode, None) => Some rcode
  | _ => None
  end.

(** The variables of a worker. *)
Record local := MkLocal {
  l_latencies : list Z;
  l_rcodes : gmap Z Z;
  l_errs : Z;
  l_samples : list str;
  l_unexpected : list str;
}.

Definition new_local : local := MkLocal [] ∅ 0 [] [].

(** [fmt.Sprintf("%s: %v", name, err)]. *)
Definition sample (name : str) (err : option string) : str :=
  name ++ lit ": " ++ lit (default "<nil>"%string err).

(** The results the workers share. *)
Record results := MkResults {
  latencies : list Z;
  rcodes : gmap Z Z;
  errors : Z;
  mismatches : Z;
  samples : list str;
  unexpected : list str;
  elapsed : Z;
}.

Definition new_results : results := MkResults [] ∅ 0 0 [] [] 0.

(** A worker that could not dial. *)
Definition dial_failed (r : results) : results :=
  MkResults (latencies r) (rcodes r) (errors r + 1) (mismatches r) (samples r)
    (unexpected r) (elapsed r).

(** The locked section at a worker's end. *)
Definition merge (l : local) (r : results) : results :=
  MkResults (latencies r ++ l_latencies l)
    (union_with (fun a b => Some (a + b)) (rcodes r) (l_rcodes l))
    (errors r + l_errs l) (mismatches r) (samples r ++ l_samples l)
    (unexpected r ++ l_unexpected l) (elapsed r).

Definition with_elapsed (t : Z) (r : results) : results :=
  MkResults (latencies r) (rcodes r) (errors r) (mismatches r) (samples r) (unexpected r) t.

Definition with_mismatches (n : Z) (r : results) : results :=
  MkResults (latencies r) (rcodes r) (errors r) n (samples r) (unexpected r) (elapsed r).

Definition with_latencies (ls : list Z) (r : results) : results :=
  MkResults ls (rcodes r) (errors r) (mismatches r) (samples r) (unexpected r) (elapsed r).

Section Worker.
(** [dns.RcodeToString]. *)
Context (rcode_string : Z -> str).

(** The body of the worker's loop for a name it took: its variables and its
    connection afterwards, and whether the loop goes on. *)
Definition query (want : Z) (name : str) (x : exchange) (c : conns) (l : local)
    : conns * local * bool :=
  let '(resp, err) := x_result x in
  match resp, err with
  | Some rcode, None =>
      (c,
       MkLocal (l_latencies l ++ [x_took x]) (inc rcode (l_rcodes l)) (l_errs l) (l_samples l)
         (if (0 <=? want) && negb (rcode =? want) && (length (l_unexpected l) <? 10)%nat
          then l_unexpected l ++ [name ++ lit " -> " ++ rcode_string rcode]
          else l_unexpected l),
       true)
  | _, _ =>
      let c := close_conn c in
      (if x_redial x then dialed c else c,
       MkLocal (l_latencies l) (l_rcodes l) (l_errs l + 1)
         (if (length (l_samples l) <? 5)%nat then l_samples l ++ [sample name err] else l_samples l)
         (l_unexpected l),
       x_redial x)
  end.

(** ** The report *)

(** The lines [report] prints, before the formatting of [fmt]. *)
Inductive report_line : Type :=
| LSent (total : Z)
| LAnswered (n : Z)
| LErrors (n : Z)
| LElapsed (secs : Z)
| LThroughput (n secs : Z)
| LLatency (m50 m90 m99 max : Z)
| LRcodes (parts : list (str * Z))
| LMismatch (n : Z) (want : str)
| LUnexpected (u : str)
| LSample (s : str).

(** [sort.Slice] and [sort.Ints]: the ascending rearrangement. *)
Definition sort_ints (l : list Z) : list Z := merge_sort Z.le l.

Definition latency_line (sorted : list Z) : option report_line :=
  a ← pct sorted p50; b ← pct sorted p90; c ← pct sorted p99; d ← last sorted;
  Some (LLatency (round a) (round b) (round c) (round d)).

Definition rcode_parts (m : gmap Z Z) : list (str * Z) :=
  map (fun c => (rcode_string c, count m c)) (sort_ints (map fst (map_to_list m))).

(** [r.mismatches]. *)
Definition count_mismatches (want : Z) (r : results) : Z :=
  Z.of_nat (length (latencies r)) - count (rcodes r) want.

(** [report]: the lines, [None] if it panics, and the results afterwards. *)
Definition report (total want : Z) (r : results) : option (list report_line) * results :=
  let answered := Z.of_nat (length (latencies r)) in
  let secs := Seconds (elapsed r) in
  let r := if 0 <? answered then with_latencies (sort_ints (latencies r)) r else r in
  let r' := if 0 <=? want then with_mismatches (count_mismatches want r) r else r in
  (latency ← (if 0 <? answered
              then (fun line => [line]) <$> latency_line (latencies r)
              else Some []);
   Some ([LSent total; LAnswered answered; LErrors (errors r); LElapsed secs] ++
         (if 0 <? secs then [LThroughput answered secs] else []) ++
         latency ++ [LRcodes (rcode_parts (rcodes r))] ++
         (if (0 <=? want) && (0 <? mismatches r')
          then LMismatch (mismatches r') (rcode_string want) ::
               map LUnexpected (take 10 (unexpected r))
          else []) ++
         map LSample (samples r)),
   r').

(** The exit code of [main] after the report. *)
Definition exit_code (want : Z) (r : results) : Z :=
  if (0 <=? want) && (0 <? mismatches r) then 1
  else if 0 <? errors r then 1
  else 0.

End Worker.

(** ** The command line *)

(** [unicode.ToUpper] above U+007F, a table like [UnicodeCase]. *)
Class UnicodeUpper := unicode_upper : Z -> Z.

Definition upper_rune `{UU : UnicodeUpper} (r : Z) : Z :=
  if r <=? 0x7F then (if in_range 0x61 0x7A r then r - 0x20 else r) else unicode_upper r.

(** [strings.ToUpper]; on an ASCII string the runes are its bytes. *)
Definition to_upper `{UU : UnicodeUpper} (s : str) : str :=
  concat (map (fun '(r, _) => encode_rune (upper_rune r)) (runes s)).

(** What [main] does before [run]: the exit code, or the names and the rcode
    wanted ([-1] for none).  [string_to_rcode] is [dns.StringToRcode]. *)
Definition prepare `{UU : UnicodeUpper} (string_to_rcode : str -> option Z)
    (file : str) (read : list str * option read_error) (expect : str)
    : Z + list str * Z :=
  if bool_decide (file = []) then inl 2
  else
    match read with
    | (_, Some _) => inl 1
    | ([], None) => inl 1
    | (names, None) =>
        if bool_decide (expect = []) then inr (names, -1)
        else
          match string_to_rcode (to_upper expect) with
          | None => inl 2
          | Some code => inr (names, code)
          end
    end.

(** ** Lemmas: names *)

(** The names a file's lines hold. *)
Definition query_names (lines : list str) : list str :=
  filter (fun name => ignored name = false) (map trim_space lines).

Lemma query_names_cons line lines :
  query_names (line :: lines) =
  if ignored (trim_space line) then query_names lines else trim_space line :: query_names lines.
Proof.
  unfold query_names. rewrite fmap_cons, filter_cons. by destruct (ignored (trim_space line)).
Qed.

Lemma read_loop_all limit lines names :
  limit <= 0 -> read_loop limit lines names = (names ++ query_names lines, None).
Proof.
  intros Hl. revert names. induction lines as [|line lines IH]; intros names.
  { by rewrite app_nil_r. }
  rewrite query_names_cons. cbn [read_loop]. destruct (ignored _); [apply IH|].
  destruct (Z.ltb_spec 0 limit); [lia|]. simpl. by rewrite IH, <- app_assoc.
Qed.

Lemma read_loop_limit limit lines names :
  Z.of_nat (length names) < limit ->
  let k := (Z.to_nat limit - length names)%nat in
  fst (read_loop limit lines names) = names ++ take k (query_names lines) /\
  (snd (read_loop limit lines names) = None <-> (length (query_names lines) < k)%nat).
Proof.
  revert names. induction lines as [|line lines IH]; intros names Hl; cbn zeta.
  { change (query_names []) with (@nil str). rewrite take_nil, app_nil_r.
    split; [done|]. split; [intros _; simpl; lia|done]. }
  rewrite query_names_cons. cbn [read_loop]. destruct (ignored _); [by apply IH|].
  rewrite length_app, Nat2Z.inj_add. simpl length.
  destruct (Z.to_nat limit - length names)%nat as [|k] eqn:Ek; [lia|]. simpl.
  destruct (Z.ltb_spec 0 limit); [|lia].
  destruct (Z.leb_spec limit (Z.of_nat (length names) + Z.of_nat 1)) as [Hle|Hgt]; simpl.
  - assert (k = 0%nat) as -> by lia. rewrite take_0. split; [done|]. split; [done|lia].
  - destruct (IH (names ++ [trim_space line])) as [E1 E2]; [rewrite length_app; simpl; lia|].
    rewrite length_app in E1, E2. simpl in E1, E2.
    replace (Z.to_nat limit - (length names + 1))%nat with k in * by lia.
    rewrite E1, E2, <- app_assoc. split; [done|lia].
Qed.

(** ** Lemmas: [float64] *)

Lemma nearest_close K n d : 0 < d -> 2 * Z.abs (n - K * d) < d -> nearest n d = K.
Proof.
  intros Hd Hc. unfold nearest.
  destruct (Z.le_gt_cases (K * d) n) as [H|H].
  - assert (n / d = K) as E by (symmetry; apply (Z.div_unique_pos n d K (n - K * d)); lia).
    assert (n mod d = n - K * d) as Er by (pose proof (Z.div_mod n d ltac:(lia)); lia).
    rewrite E, Er. destruct (Z.ltb_spec (2 * (n - K * d)) d); [done|lia].
  - assert (n / d = K - 1) as E by (symmetry; apply (Z.div_unique_pos n d (K - 1) (n - K * d + d)); lia).
    assert (n mod d = n - K * d + d) as Er by (pose proof (Z.div_mod n d ltac:(lia)); lia).
    rewrite E, Er. destruct (Z.ltb_spec (2 * (n - K * d + d)) d); [lia|].
    destruct (Z.ltb_spec d (2 * (n - K * d + d))); lia.
Qed.

Lemma float53_small x : 0 <= x < 2 ^ 53 -> float53 x 1 = x.
Proof.
  intros Hx. pose proof (float53_bounds x x x 1 0 ltac:(lia) ltac:(lia)) as H.
  rewrite Z.div_1_r, Z.pow_0_r, !Z.mul_1_r in H. apply Z.le_antisymm; apply H; lia.
Qed.

(** A product within a small fraction of a multiple of [2^53] rounds to it. *)
Lemma float53_snap n K :
  2 ^ 52 <= n < 2 ^ 105 -> 2 ^ 54 * Z.abs (n - K * 2 ^ 53) <= n -> float53 n 1 = K * 2 ^ 53.
Proof.
  intros Hn Hc. unfold float53. rewrite Z.div_1_r, Z.mul_1_l.
  assert (52 <= Z.log2 n < 105) as Hlog.
  { split; [apply Z.log2_le_pow2; lia|apply Z.log2_lt_pow2; lia]. }
  rewrite Z.max_r by lia. set (sh := Z.log2 n - 52) in *.
  pose proof (Z.log2_spec n ltac:(lia)) as [_ H2].
  replace (Z.succ (Z.log2 n)) with (53 + sh) in H2 by (unfold sh; lia).
  rewrite Z.pow_add_r in H2 by (unfold sh; lia).
  assert (2 ^ 53 = 2 ^ (53 - sh) * 2 ^ sh) as E.
  { rewrite <- Z.pow_add_r by (unfold sh; lia). f_equal. unfold sh. lia. }
  assert (0 < 2 ^ sh) by (apply Z.pow_pos_nonneg; unfold sh; lia).
  rewrite (nearest_close (K * 2 ^ (53 - sh))); [by rewrite E, Z.mul_assoc|done|].
  rewrite <- Z.mul_assoc, <- E. lia.
Qed.

(** Between a multiple of [2^53] and the next, away from the next one. *)
Lemma float53_floor n K :
  0 <= K -> K * 2 ^ 53 <= n -> n + 2 ^ 40 <= (K + 1) * 2 ^ 53 -> n < 2 ^ 93 ->
  K * 2 ^ 53 <= float53 n 1 < (K + 1) * 2 ^ 53.
Proof.
  intros HK H1 H2 H3.
  pose proof (float53_bounds (K * 2 ^ 13) ((K + 1) * 2 ^ 13) n 1 40 ltac:(lia) ltac:(lia)) as Hb.
  pose proof (float53_error n 1 40 ltac:(lia) ltac:(lia)) as He.
  rewrite Z.div_1_r in *. lia.
Qed.

(** ** Lemmas: percentiles *)

(** The three constants: how far the [float64] is from the decimal. *)
Definition percent (k p : Z) : Prop := 50 <= k < 100 /\ - 8 <= 100 * p - k * 2 ^ 53 <= 20.

Lemma percent_50 : percent 50 p50.
Proof. by vm_compute. Qed.

Lemma percent_90 : percent 90 p90.
Proof. by vm_compute. Qed.

Lemma percent_99 : percent 99 p99.
Proof. by vm_compute. Qed.

Lemma pct_index_exact k p x :
  percent k p -> 0 <= x < 2 ^ 40 -> pct_index x p = k * x / 100.
Proof.
  intros [Hk Hp] Hx. unfold pct_index. rewrite (float53_small x) by lia.
  pose proof (Z.div_mod (k * x) 100 ltac:(lia)) as E.
  pose proof (Z.mod_pos_bound (k * x) 100 ltac:(lia)) as Hr.
  set (q := k * x / 100) in *. set (r := (k * x) mod 100) in *. clearbody q r.
  assert (100 * (x * p) = (100 * q + r) * 2 ^ 53 + x * (100 * p - k * 2 ^ 53)) as En by nia.
  assert (- 8 * x <= x * (100 * p - k * 2 ^ 53) <= 20 * x) as Hd by nia.
  set (dl := x * (100 * p - k * 2 ^ 53)) in *. set (n := x * p) in *. clearbody n dl.
  assert (0 <= q) by nia. assert (k * x <= 99 * x) by nia. assert (50 * x <= k * x) by nia.
  assert (q * 2 ^ 53 <= float53 n 1 < (q + 1) * 2 ^ 53) as Hf.
  { destruct (Z.le_gt_cases (q * 2 ^ 53) n) as [Hq|Hq].
    - apply float53_floor; lia.
    - assert (r = 0 /\ 0 < x) as [-> Hx0] by lia.
      rewrite (float53_snap n q); [lia|split; lia|].
      rewrite Z.abs_neq by lia. lia. }
  rewrite Z.quot_div_nonneg by lia. symmetry.
  apply (Z.div_unique_pos _ _ q (float53 n 1 - 2 ^ 53 * q)); lia.
Qed.

Lemma pct_lookup k p (sorted : list Z) :
  percent k p -> 0 < Z.of_nat (length sorted) <= 2 ^ 40 ->
  pct sorted p = sorted !! Z.to_nat (k * (Z.of_nat (length sorted) - 1) / 100).
Proof.
  intros Hp Hl. unfold pct. rewrite (pct_index_exact k) by (done || lia).
  destruct Hp. destruct (Z.ltb_spec (k * (Z.of_nat (length sorted) - 1) / 100) 0) as [Hlt|]; [|done].
  assert (0 <= k * (Z.of_nat (length sorted) - 1) / 100) by (apply Z.div_pos; nia). lia.
Qed.

(** ** Lemmas: rounding *)

(** For a non-negative duration: to the nearest multiple, halves up. *)
Lemma dur_round_nonneg d m :
  0 < m -> 0 <= d -> d + m < 2 ^ 63 -> dur_round d m = (2 * d + m) / (2 * m) * m.
Proof.
  intros Hm Hd Hmax. unfold dur_round.
  destruct (Z.leb_spec m 0); [lia|]. destruct (Z.ltb_spec d 0); [lia|].
  rewrite Z.rem_mod_nonneg by lia.
  pose proof (Z.div_mod d m ltac:(lia)) as E. pose proof (Z.mod_pos_bound d m Hm) as Hr.
  set (q := d / m) in *. set (r := d mod m) in *. clearbody q r.
  destruct (Z.ltb_spec (r + r) m).
  - rewrite <- (Z.div_unique_pos (2 * d + m) (2 * m) q (2 * r + m)); lia.
  - rewrite wrap64_id by (unfold int64; lia).
    destruct (Z.ltb_spec d (d + m - r)); [|lia].
    rewrite <- (Z.div_unique_pos (2 * d + m) (2 * m) (q + 1) (2 * r - m)); lia.
Qed.

Lemma round_half_up d m :
  0 < m -> let r := (2 * d + m) / (2 * m) * m in 2 * Z.abs (r - d) <= m.
Proof.
  intros Hm. cbn zeta. pose proof (Z.div_mod (2 * d + m) (2 * m) ltac:(lia)).
  pose proof (Z.mod_pos_bound (2 * d + m) (2 * m) ltac:(lia)). lia.
Qed.

Lemma round_mono d e : 0 <= d <= e -> e < 2 ^ 62 -> round d <= round e.
Proof.
  intros Hd He. unfold round, Millisecond, Microsecond.
  destruct (Z.ltb_spec d 1000000), (Z.ltb_spec e 1000000); [| |lia|]; rewrite !dur_round_nonneg by lia.
  - apply Z.mul_le_mono_nonneg_r, Z.div_le_mono; lia.
  - transitivity (1000 * 1000); [apply Z.mul_le_mono_nonneg_r; [lia|]|].
    + apply Z.lt_succ_r, Z.div_lt_upper_bound; lia.
    + change (1000 * 1000) with (100 * (10 * 1000)). apply Z.mul_le_mono_nonneg_r; [lia|].
      apply Z.div_le_lower_bound; lia.
  - apply Z.mul_le_mono_nonneg_r, Z.div_le_mono; lia.
Qed.

(** ** Lemmas: sorting *)

#[local] Instance Z_le_total : Total Z.le.
Proof. intros x y. lia. Qed.

Lemma sort_ints_perm l : sort_ints l ≡ₚ l.
Proof. apply merge_sort_Permutation. Qed.

Lemma sort_ints_sorted l : StronglySorted Z.le (sort_ints l).
Proof. apply StronglySorted_merge_sort; apply _. Qed.

(** What [report] leaves behind. *)
Lemma report_results (rs : Z -> str) total want r :
  let r' := snd (report rs total want r) in
  mismatches r' = (if 0 <=? want then count_mismatches want r else mismatches r) /\
  errors r' = errors r /\ latencies r' ≡ₚ latencies r.
Proof.
  unfold report. cbn [snd]. destruct (0 <=? want), (0 <? _); cbn; split_and!; try done;
    try apply sort_ints_perm.
  unfold count_mismatches. cbn. by rewrite (Permutation_length (sort_ints_perm _)).
Qed.

Lemma sorted_lookup_le (l : list Z) i j x y :
  StronglySorted Z.le l -> (i <= j)%nat -> l !! i = Some x -> l !! j = Some y -> x <= y.
Proof.
  intros Hs Hij Hi Hj. destruct (decide (i = j)) as [->|Hne]; [simplify_eq; lia|].
  rewrite <- (take_drop (S i) l) in Hs. eapply StronglySorted_app_1_elem_of; [exact Hs|..].
  - apply list_elem_of_lookup. exists i. by rewrite lookup_take_lt by lia.
  - apply list_elem_of_lookup. exists (j - S i)%nat. rewrite lookup_drop, <- Hj. f_equal. lia.
Qed.

Lemma pct_sorted k p (sorted : list Z) :
  percent k p -> 0 < Z.of_nat (length sorted) <= 2 ^ 40 -> exists i v,
  pct sorted p = Some v /\ sorted !! i = Some v /\ Z.of_nat i = k * (Z.of_nat (length sorted) - 1) / 100.
Proof.
  intros Hp Hl. rewrite (pct_lookup k) by done. destruct Hp as [Hk _].
  set (n := Z.of_nat (length sorted)) in *.
  assert (0 <= k * (n - 1) / 100 < n) as Hi.
  { split; [apply Z.div_pos; nia|]. apply Z.div_lt_upper_bound; nia. }
  destruct (lookup_lt_is_Some_2 sorted (Z.to_nat (k * (n - 1) / 100))) as [v Hv]; [lia|].
  eexists _, v. split; [done|]. split; [done|lia].
Qed.

(** The percentiles of a sorted, non-empty list. *)
Lemma latency_sorted (s : list Z) :
  StronglySorted Z.le s -> 0 < Z.of_nat (length s) <= 2 ^ 40 -> exists a b c d,
  latency_line s = Some (LLatency (round a) (round b) (round c) (round d)) /\
  a ∈ s /\ b ∈ s /\ c ∈ s /\ d ∈ s /\ Forall (fun x => x <= d) s /\ a <= b /\ b <= c /\ c <= d.
Proof.
  intros Hs Hlen.
  destruct (pct_sorted 50 p50 s percent_50 Hlen) as (i & a & Ea & Ha & Hi).
  destruct (pct_sorted 90 p90 s percent_90 Hlen) as (j & b & Eb & Hb & Hj).
  destruct (pct_sorted 99 p99 s percent_99 Hlen) as (k & c & Ec & Hc & Hk).
  destruct (last s) as [d|] eqn:Ed; [|apply last_None in Ed; subst s; exfalso; clear -Hlen; cbn in Hlen; lia].
  pose proof Ed as Hd. rewrite last_lookup in Hd.
  assert (forall i x, s !! i = Some x -> x <= d) as Hmax.
  { intros i' x Hx. eapply sorted_lookup_le; [done| |done..]. apply lookup_lt_Some in Hx. lia. }
  exists a, b, c, d. unfold latency_line. rewrite Ea, Eb, Ec, Ed. cbn.
  split; [done|]. split_and!; try (by eapply list_elem_of_lookup_2); try (by eapply Hmax).
  - apply Forall_forall. intros x [i' Hx]%list_elem_of_lookup. by eapply Hmax.
  - eapply (sorted_lookup_le s i j); [done| |done..].
    apply Nat2Z.inj_le. rewrite Hi, Hj. apply Z.div_le_mono; lia.
  - eapply (sorted_lookup_le s j k); [done| |done..].
    apply Nat2Z.inj_le. rewrite Hj, Hk. apply Z.div_le_mono; lia.
Qed.

(** ** Lemmas: connections *)

(** The worker has one socket open, the one it uses; or none. *)
Definition conns_ok (live : bool) (c : conns) : Prop :=
  opened c = (if live then {[ current_conn c ]} else ∅) /\ (current_conn c < next_conn c)%nat.

Lemma first_dial_ok : conns_ok true first_dial.
Proof. split; [set_solver|simpl; lia]. Qed.

Lemma dialed_ok c : conns_ok false c -> conns_ok true (dialed c).
Proof. intros [Ho Hc]. split; simpl; [rewrite Ho; set_solver|lia]. Qed.

Lemma close_conn_ok live c : conns_ok live c -> conns_ok false (close_conn c).
Proof. intros [Ho Hc]. split; simpl; [|done]. rewrite Ho. destruct live; set_solver. Qed.
#[export] Hint Resolve first_dial_ok dialed_ok close_conn_ok : go.

(** ** Lemmas: one query *)

(** What a query adds to the counts, and the connection it leaves. *)
Lemma query_answered rs want name x rcode c l c' l' go :
  answered x = Some rcode -> query rs want name x c l = (c', l', go) ->
  go = true /\ c' = c /\ l_latencies l' = l_latencies l ++ [x_took x] /\
  l_rcodes l' = inc rcode (l_rcodes l) /\ l_errs l' = l_errs l /\ l_samples l' = l_samples l.
Proof.
  unfold answered, query. destruct (x_result x) as [[rc|] [e|]]; intros [= ->]. by intros [= <- <- <-].
Qed.

Lemma query_failed rs want name x c l c' l' go :
  answered x = None -> query rs want name x c l = (c', l', go) ->
  go = x_redial x /\ c' = (if x_redial x then dialed (close_conn c) else close_conn c) /\
  l_latencies l' = l_latencies l /\ l_rcodes l' = l_rcodes l /\ l_errs l' = l_errs l + 1 /\
  l_unexpected l' = l_unexpected l.
Proof.
  unfold answered, query.
  destruct (x_result x) as [[rc|] [e|]]; intros Ha; try done; by intros [= <- <- <-].
Qed.

Lemma query_conns rs want name x c l c' l' go :
  conns_ok true c -> query rs want name x c l = (c', l', go) -> conns_ok go c'.
Proof.
  intros Hc E. destruct (answered x) as [rcode|] eqn:Ha.
  - by destruct (query_answered _ _ _ _ _ _ _ _ _ _ Ha E) as (-> & -> & _).
  - destruct (query_failed _ _ _ _ _ _ _ _ _ Ha E) as (-> & -> & _). destruct (x_redial x); eauto with go.
Qed.

(** * Properties *)

(** [readNames] returns the trimmed lines that are neither blank nor
    comments, in order, cut at the limit if there is one; without a limit or
    below it, it fails exactly when the scan failed. *)
Theorem readNames_spec (r : reader) (limit : Z) :
  let '(lines, long) := scan_lines max_line (r_bytes r) [] 0 in
  let all := query_names lines in
  let cut := if 0 <? limit then take (Z.to_nat limit) all else all in
  fst (readNames (Ok r) limit) = cut /\
  Forall (fun name => ignored name = false) cut /\
  (limit <= 0 \/ Z.of_nat (length all) < limit ->
     snd (readNames (Ok r) limit) = scan_err long r).
Proof.
  unfold readNames. destruct (scan_lines _ _ _ _) as [lines long]. cbn zeta.
  assert (Forall (fun name => ignored name = false) (query_names lines)) as Hf.
  { apply Forall_forall. intros x Hx%list_elem_of_filter. apply Hx. }
  destruct (Z.ltb_spec 0 limit) as [Hl|Hl].
  - destruct (read_loop_limit limit lines []) as [E1 E2]; [done|].
    simpl in E1, E2. rewrite Nat.sub_0_r in E1, E2.
    destruct (read_loop limit lines []) as [names rest] eqn:E. simpl in E1, E2. subst names.
    split; [by destruct rest|]. split; [by apply Forall_take|].
    intros [|Hs]; [lia|]. simpl in E2. by rewrite (proj2 E2) by lia.
  - rewrite read_loop_all by done. simpl. done.
Qed.

(** A names file as [scripts/loadtest.sh] writes it: one name per line. *)
Definition render_names (names : list str) : str := concat (map (fun n => n ++ ["010"%char]) names).

Lemma scan_render_names names :
  Forall (fun n => token n /\ Z.of_nat (length n) < max_line) names ->
  scan_lines max_line (render_names names) [] 0 = (map drop_cr names, false).
Proof.
  induction 1 as [|n names [[Hne Ht] Hl] Hns IH]; [done|].
  unfold render_names in *. cbn [map concat]. rewrite <- app_assoc. simpl app.
  rewrite scan_lines_line; [by rewrite IH| |lia].
  intros Hin. eapply Forall_forall in Ht; [|done]. by destruct Ht.
Qed.

(** The names a file was written from are the names read back, whatever
    they are as long as they are non-empty, without white space, no comments
    and fit the scanner's buffer. *)
Theorem readNames_render (names : list str)
    (Hok : Forall (fun n => token n /\ Z.of_nat (length n) < max_line) names)
    (Hc : Forall (fun n => has_prefix n (lit "#") = false) names) :
  readNames (Ok (Reader (render_names names) None)) 0 = (names, None).
Proof.
  unfold readNames. cbn [r_bytes r_err]. rewrite scan_render_names by done.
  rewrite read_loop_all by done. simpl. f_equal. unfold query_names.
  induction Hok as [|n names [Ht Hl] Hns IH]; [done|].
  inversion Hc as [|? ? Hn Hcs]; subst. cbn [map].
  assert (trim_space (drop_cr n) = n) as E.
  { assert (drop_cr n = n) as ->; [|by apply trim_space_token].
    unfold drop_cr, trim_suffix. destruct (has_prefix (rev n) _) eqn:Hp; [|done].
    apply has_prefix_spec in Hp as (t & Hp). destruct Ht as [_ Ht].
    assert ("013"%char ∈ n) as Hin by (apply list_elem_of_In, in_rev; rewrite Hp; by left).
    eapply Forall_forall in Ht; [|done]. by destruct Ht. }
  rewrite E, filter_cons_True; [by rewrite IH|].
  unfold ignored. rewrite bool_decide_eq_false_2 by apply Ht. done.
Qed.

(** C30: the index [int(float64(len-1) * p)] is exactly the integer part of the
    decimal product for every sample count that fits a machine: rounding to
    [float64], of the constants and of the product, never moves it. *)
Theorem pct_is_exact (sorted : list Z) (Hlen : 0 < Z.of_nat (length sorted) <= 2 ^ 40) :
  let n := Z.of_nat (length sorted) - 1 in
  pct sorted p50 = sorted !! Z.to_nat (50 * n / 100) /\
  pct sorted p90 = sorted !! Z.to_nat (90 * n / 100) /\
  pct sorted p99 = sorted !! Z.to_nat (99 * n / 100).
Proof.
  split_and!; apply pct_lookup; auto using percent_50, percent_90, percent_99.
Qed.

(** The latency line of a run with answers is printed without a panic, and
    its four numbers are rounded latencies of the run in ascending order, the
    last the rounded largest one. *)
Theorem latency_line_ordered (ls : list Z)
    (Hlen : 0 < Z.of_nat (length ls) <= 2 ^ 40) (Hpos : Forall (fun d => 0 <= d < 2 ^ 62) ls) :
  exists a b c d,
  latency_line (sort_ints ls) = Some (LLatency (round a) (round b) (round c) (round d)) /\
  a ∈ ls /\ b ∈ ls /\ c ∈ ls /\ d ∈ ls /\ Forall (fun x => x <= d) ls /\
  round a <= round b <= round c /\ round c <= round d.
Proof.
  pose proof (sort_ints_perm ls) as Hp.
  destruct (latency_sorted (sort_ints ls)) as (a & b & c & d & E & Ha & Hb & Hc & Hd & Hm & Habc).
  { apply sort_ints_sorted. }
  { by rewrite Hp. }
  exists a, b, c, d. split; [done|]. rewrite Hp in Ha, Hb, Hc, Hd, Hm.
  rewrite Forall_forall in Hm, Hpos. split_and!; try done; [by apply Forall_forall|..];
    apply round_mono; try (by apply Hpos); split; try apply Habc; by apply Hpos.
Qed.

(** A reported latency is within half a unit of the measured one: half a
    microsecond below a millisecond, five microseconds above. *)
Theorem round_error (d : Z) (Hd : 0 <= d < 2 ^ 62) :
  2 * Z.abs (round d - d) <= (if d <? Millisecond then Microsecond else 10 * Microsecond).
Proof.
  unfold round, Millisecond, Microsecond. destruct (Z.ltb_spec d 1000000).
  - rewrite dur_round_nonneg by lia. by apply round_half_up.
  - rewrite dur_round_nonneg by lia. by apply round_half_up.
Qed.

(** * Witnesses *)

Lemma readNames_render_witness :
  readNames (Ok (Reader (render_names [lit "a.example"; lit "b.example"]) None)) 0
  = ([lit "a.example"; lit "b.example"], None).
Proof.
  apply readNames_render.
  - repeat constructor; try done; by vm_compute.
  - repeat constructor.
Defined.

(** With a limit, and with lines to skip. *)
Example readNames_limit :
  readNames (Ok (Reader (lit "# head

 a.example
b.example
c.example
") None)) 2 = ([lit "a.example"; lit "b.example"], None).
Proof. by vm_compute. Qed.

Lemma pct_is_exact_witness : pct [1; 2; 3; 4; 5; 6; 7; 8; 9; 10] p90 = Some 9.
Proof. apply (pct_is_exact [1; 2; 3; 4; 5; 6; 7; 8; 9; 10]). simpl. lia. Defined.

Lemma latency_line_ordered_witness :
  exists a b c d, latency_line (sort_ints [3000; 1000; 2000]) =
    Some (LLatency (round a) (round b) (round c) (round d)) /\ round c <= round d.
Proof.
  destruct (latency_line_ordered [3000; 1000; 2000]) as (a & b & c & d & E & H).
  - simpl. lia.
  - repeat constructor; lia.
  - exists a, b, c, d. split; [exact E|]. apply H.
Defined.
