(* ===== verification/LoadgenRun.v ===== *)
(** * The load generator's goroutines ([run] and [worker] of
      [scripts/loadgen/main.go])

    [run] starts its workers, sends every name over a bounded channel, closes
    it and waits.  The system is a step relation whose labels are what the
    network did: a failed dial, or one exchange.  The file proves that every
    run ends, in which states it can end, what the shared results are worth
    then, and that the program exits with 0 exactly when every name was asked
    and answered as expected. *)

From Stdlib Require Import Lia ZArith Ascii.
From stdpp Require Import base strings gmap sorting numbers option relations list.
From S2P Require Import Prelude GoStrings GoTime BlocklistParse Dns Loadgen.

Local Open Scope Z_scope.

(** ** States *)

(** A worker: before its dial, at the [range] over the queue, in the middle of
    an exchange, behind its loop, or gone ([wg.Done]). *)
Inductive wstate : Type :=
| Dialing
| Waiting (c : conns) (l : local)
| Asking (name : str) (c : conns) (l : local)
| Flushing (c : conns) (l : local)
| Gone (c : conns).

(** [to_send] is the rest of the range over [names], [queue] the channel's
    buffer. *)
Record sys := MkSys {
  to_send : list str;
  closed : bool;
  queue : list str;
  workers : list wstate;
  shared : results;
}.

(** What the network did. *)
Inductive event : Type :=
| EDialFailed
| EExchange (name : str) (x : exchange).

(** ** Steps *)

Section Run.
(** The arguments of [run]: [W] is [workers] (a negative number, with which
    [make] would panic, is left out), [rs] is [dns.RcodeToString]. *)
Context (rs : Z -> str) (names : list str) (W : nat) (want : Z).

(** [make(chan string, workers*4)]. *)
Definition capacity : nat := (W * 4)%nat.

Definition no_conns : conns := MkConns 0 ∅ 0.

(** The queue is created and the workers launched. *)
Definition start : sys := MkSys names false [] (replicate W Dialing) new_results.

(** One step of a worker: the channel, the shared results and its own state
    before and after.  The merge at its end is one locked section; the deferred
    [Close] follows it. *)
Inductive wstep (cl : bool) :
    list str -> results -> wstate -> option event -> list str -> results -> wstate -> Prop :=
| w_dial_failed q r :
    wstep cl q r Dialing (Some EDialFailed) q (dial_failed r) (Gone no_conns)
| w_dialed q r :
    wstep cl q r Dialing None q r (Waiting first_dial new_local)
| w_take name q r c l :
    wstep cl (name :: q) r (Waiting c l) None q r (Asking name c l)
| w_exchange q r name x c l c' l' go :
    query rs want name x c l = (c', l', go) ->
    wstep cl q r (Asking name c l) (Some (EExchange name x)) q r
      (if go then Waiting c' l' else Flushing c' l')
| w_drained r c l :
    cl = true -> wstep cl [] r (Waiting c l) None [] r (Flushing c l)
| w_flush q r c l :
    wstep cl q r (Flushing c l) None q (merge l r) (Gone (close_conn c)).

(** A step of some worker, of the sending loop (which blocks while the buffer
    is full), or the [close] after it. *)
Inductive step : sys -> option event -> sys -> Prop :=
| s_worker ts cl q q' ws1 w w' ws2 r r' e :
    wstep cl q r w e q' r' w' ->
    step (MkSys ts cl q (ws1 ++ w :: ws2) r) e (MkSys ts cl q' (ws1 ++ w' :: ws2) r')
| s_send name ts q ws r :
    (length q < capacity)%nat ->
    step (MkSys (name :: ts) false q ws r) None (MkSys ts false (q ++ [name]) ws r)
| s_close q ws r :
    step (MkSys [] false q ws r) None (MkSys [] true q ws r).

(** An execution: the events so far and the state reached. *)
Inductive execution : list event -> sys -> Prop :=
| exec_start : execution [] start
| exec_step tr s e s' :
    execution tr s -> step s e s' -> execution (tr ++ option_list e) s'.

(** [wg.Wait()] has returned. *)
Definition gone (w : wstate) : Prop := match w with Gone _ => True | _ => False end.

Definition returned (s : sys) : Prop := closed s = true /\ Forall gone (workers s).

(** No goroutine can move. *)
Definition stuck (s : sys) : Prop := forall e s', ~ step s e s'.

(** What [run] returns. *)
Definition run_result (t : Z) (s : sys) : results := with_elapsed t (shared s).

(** ** What an execution did *)

Definition ev_asked (e : event) : list str :=
  match e with EExchange name _ => [name] | EDialFailed => [] end.

(** The rcode and the latency of an answer. *)
Definition ev_answers (e : event) : list (Z * Z) :=
  match e with
  | EExchange _ x => match answered x with Some rcode => [(rcode, x_took x)] | None => [] end
  | EDialFailed => []
  end.

Definition ev_failures (e : event) : Z :=
  match e with
  | EExchange _ x => match answered x with Some _ => 0 | None => 1 end
  | EDialFailed => 1
  end.

Fixpoint zsum (l : list Z) : Z := match l with [] => 0 | x :: l' => x + zsum l' end.

Definition asked (tr : list event) : list str := concat (map ev_asked tr).
Definition answers (tr : list event) : list (Z * Z) := concat (map ev_answers tr).
Definition failures (tr : list event) : Z := zsum (map ev_failures tr).

(** How many answers had an rcode. *)
Definition with_rcode (c : Z) (l : list (Z * Z)) : Z :=
  Z.of_nat (length (filter (fun a => a.1 = c) l)).

(** An event after which the worker goes on. *)
Definition healthy (e : event) : Prop :=
  match e with
  | EDialFailed => False
  | EExchange _ x => answered x = None -> x_redial x = true
  end.

(** ** The contents of a worker *)

Definition w_local (w : wstate) : local :=
  match w with
  | Waiting _ l | Asking _ _ l | Flushing _ l => l
  | Dialing | Gone _ => new_local
  end.

Definition w_name (w : wstate) : list str :=
  match w with Asking name _ _ => [name] | _ => [] end.

Definition w_conns_ok (w : wstate) : Prop :=
  match w with
  | Dialing => True
  | Waiting c _ | Asking _ c _ => conns_ok true c
  | Flushing c _ => exists live, conns_ok live c
  | Gone c => opened c = ∅
  end.

(** Where it is on its way out. *)
Definition leaving (w : wstate) : Prop :=
  match w with Flushing _ _ | Gone _ => True | _ => False end.

Definition w_weight (w : wstate) : nat :=
  match w with Dialing => 3 | Waiting _ _ => 2 | Asking _ _ _ => 3 | Flushing _ _ => 1 | Gone _ => 0 end.

Definition weight (s : sys) : nat :=
  (3 * length (to_send s) + 2 * length (queue s) + (if closed s then 0 else 1)
   + sum_list_with w_weight (workers s))%nat.

(** ** Sums over traces and workers *)

Lemma zsum_app l1 l2 : zsum (l1 ++ l2) = zsum l1 + zsum l2.
Proof. induction l1 as [|x l1 IH]; simpl; lia. Qed.

Lemma with_rcode_app c l1 l2 : with_rcode c (l1 ++ l2) = with_rcode c l1 + with_rcode c l2.
Proof. unfold with_rcode. rewrite filter_app, length_app. lia. Qed.

Lemma asked_app t1 t2 : asked (t1 ++ t2) = asked t1 ++ asked t2.
Proof. unfold asked. by rewrite map_app, concat_app. Qed.

Lemma answers_app t1 t2 : answers (t1 ++ t2) = answers t1 ++ answers t2.
Proof. unfold answers. by rewrite map_app, concat_app. Qed.

Lemma failures_app t1 t2 : failures (t1 ++ t2) = failures t1 + failures t2.
Proof. unfold failures. by rewrite map_app, zsum_app. Qed.

Lemma concat_middle {A B} (f : A -> list B) l1 x l2 :
  concat (map f (l1 ++ x :: l2)) ≡ₚ f x ++ concat (map f (l1 ++ l2)).
Proof. rewrite !map_app, !concat_app. cbn. solve_Permutation. Qed.

Lemma zsum_middle {A} (f : A -> Z) l1 x l2 :
  zsum (map f (l1 ++ x :: l2)) = f x + zsum (map f (l1 ++ l2)).
Proof. rewrite !map_app, !zsum_app. cbn. lia. Qed.

Lemma count_union_with (m1 m2 : gmap Z Z) c :
  count (union_with (fun a b => Some (a + b)) m1 m2) c = count m1 c + count m2 c.
Proof.
  unfold count. rewrite lookup_union_with. destruct (m1 !! c), (m2 !! c); simpl; lia.
Qed.

Lemma count_empty (c : Z) : count (∅ : gmap Z Z) c = 0.
Proof. unfold count. by rewrite lookup_empty. Qed.

(** ** One step of a worker *)

(** What it moves between the queue, the worker, the shared results and the
    trace. *)
Lemma wstep_effect cl q r w e q' r' w' :
  wstep cl q r w e q' r' w' ->
  let tr := option_list e in
  w_name w ++ q ≡ₚ asked tr ++ w_name w' ++ q' /\
  latencies r' ++ l_latencies (w_local w') ≡ₚ
    latencies r ++ l_latencies (w_local w) ++ map snd (answers tr) /\
  (forall c, count (rcodes r') c + count (l_rcodes (w_local w')) c =
     count (rcodes r) c + count (l_rcodes (w_local w)) c + with_rcode c (answers tr)) /\
  errors r' + l_errs (w_local w') = errors r + l_errs (w_local w) + failures tr /\
  (length q' <= length q)%nat.
Proof.
  unfold asked, answers, failures. destruct 1; cbn zeta;
    cbn -[count inc union_with query with_rcode dial_failed merge].
  all: try (unfold with_rcode; simpl; rewrite ?app_nil_r; split_and!; first [done | intros; lia]).
  - (* an exchange *)
    assert (w_name (if go then Waiting c' l' else Flushing c' l') = []) as -> by by destruct go.
    assert (w_local (if go then Waiting c' l' else Flushing c' l') = l') as -> by by destruct go.
    split; [done|]. destruct (answered x) as [rcode|] eqn:Ha; cbn [app map].
    + destruct (query_answered _ _ _ _ _ _ _ _ _ _ Ha H) as (_ & _ & -> & -> & -> & _).
      split; [done|]. split; [|split; [lia|done]]. intros c0. unfold with_rcode. rewrite filter_cons.
      cbn. destruct (decide (rcode = c0)) as [->|Hne].
      * rewrite count_inc. simpl. lia.
      * rewrite count_inc_ne by done. simpl. lia.
    + destruct (query_failed _ _ _ _ _ _ _ _ _ Ha H) as (_ & _ & -> & -> & -> & _).
      rewrite app_nil_r. split; [done|]. split; [|split; [lia|done]]. intros c0.
      unfold with_rcode. simpl. lia.
  - (* the merge *)
    cbn [merge latencies rcodes errors new_local l_latencies l_rcodes l_errs].
    rewrite !app_nil_r. split_and!; try done.
    + intros c0. rewrite count_union_with, count_empty. unfold with_rcode. simpl. lia.
Qed.

Lemma wstep_conns cl q r w e q' r' w' :
  wstep cl q r w e q' r' w' -> w_conns_ok w -> w_conns_ok w'.
Proof.
  destruct 1; simpl; eauto using first_dial_ok.
  - intros Hc. pose proof (query_conns _ _ _ _ _ _ _ _ _ Hc H). destruct go; simpl; eauto.
  - intros [live Hc]. by destruct (close_conn_ok _ _ Hc).
Qed.

Lemma wstep_weight cl q r w e q' r' w' :
  wstep cl q r w e q' r' w' ->
  (2 * length q' + w_weight w' < 2 * length q + w_weight w)%nat.
Proof. destruct 1; simpl; try lia. destruct go; simpl; lia. Qed.

(** ** The invariant *)

Record inv (tr : list event) (s : sys) : Prop := MkInv {
  i_workers : length (workers s) = W;
  i_queue : (length (queue s) <= capacity)%nat;
  i_closed : closed s = true -> to_send s = [];
  i_names : names ≡ₚ asked tr ++ concat (map w_name (workers s)) ++ queue s ++ to_send s;
  i_latencies : latencies (shared s) ++ concat (map (fun w => l_latencies (w_local w)) (workers s))
                ≡ₚ map snd (answers tr);
  i_rcodes c : count (rcodes (shared s)) c +
               zsum (map (fun w => count (l_rcodes (w_local w)) c) (workers s))
               = with_rcode c (answers tr);
  i_errors : errors (shared s) + zsum (map (fun w => l_errs (w_local w)) (workers s)) = failures tr;
  i_conns : Forall w_conns_ok (workers s);
}.

Lemma zsum_replicate {A} (f : A -> Z) n x : f x = 0 -> zsum (map f (replicate n x)) = 0.
Proof. intros H. induction n; simpl; lia. Qed.

Lemma concat_replicate {A B} (f : A -> list B) n x : f x = [] -> concat (map f (replicate n x)) = [].
Proof. intros H. induction n as [|n IH]; simpl; [done|]. by rewrite H. Qed.

Lemma run_inv_start : inv [] start.
Proof.
  split; simpl; rewrite ?concat_replicate, ?zsum_replicate by done; try done.
  - apply length_replicate.
  - lia.
  - intros c. by rewrite zsum_replicate.
  - by apply Forall_replicate.
Qed.

Lemma worker_inv tr ts cl q q' ws1 w w' ws2 r r' e :
  wstep cl q r w e q' r' w' ->
  inv tr (MkSys ts cl q (ws1 ++ w :: ws2) r) ->
  inv (tr ++ option_list e) (MkSys ts cl q' (ws1 ++ w' :: ws2) r').
Proof.
  intros Hw [Hl Hq Hc Hn Ht Hr He Hs]; cbn [workers queue closed to_send shared] in *.
  destruct (wstep_effect _ _ _ _ _ _ _ _ Hw) as (En & Et & Er & Ee & Eq).
  split; cbn [workers queue closed to_send shared].
  - rewrite length_app in *. done.
  - lia.
  - done.
  - rewrite Hn, asked_app, !concat_middle. rewrite <- !app_assoc.
    transitivity (asked tr ++ concat (map w_name (ws1 ++ ws2)) ++ (w_name w ++ q) ++ ts);
      [solve_Permutation|]. rewrite En. solve_Permutation.
  - rewrite answers_app, (map_app (snd : Z * Z -> Z)), <- Ht, !concat_middle.
    rewrite app_assoc, Et. solve_Permutation.
  - intros c. rewrite answers_app, with_rcode_app, <- Hr, !zsum_middle. specialize (Er c). lia.
  - rewrite failures_app, <- He, !zsum_middle. lia.
  - apply Forall_app in Hs as [Hs1 Hs2]. apply Forall_cons in Hs2 as [Hs2 Hs3].
    apply Forall_app. split; [done|]. constructor; [|done]. by eapply wstep_conns.
Qed.

Lemma run_step_inv tr s e s' : step s e s' -> inv tr s -> inv (tr ++ option_list e) s'.
Proof.
  destruct 1.
  - by apply worker_inv.
  - intros [Hl Hq Hc Hn Ht Hr He Hs]; simpl in *. rewrite app_nil_r.
    split; simpl; try done; [rewrite length_app; simpl; lia|]. rewrite Hn. solve_Permutation.
  - intros [Hl Hq Hc Hn Ht Hr He Hs]; simpl in *. rewrite app_nil_r. by split.
Qed.

Lemma execution_inv tr s : execution tr s -> inv tr s.
Proof. induction 1; eauto using run_inv_start, run_step_inv. Qed.

(** While every worker goes on, none leaves before the queue is closed and
    empty. *)
Definition patient (s : sys) : Prop :=
  Exists leaving (workers s) -> closed s = true /\ queue s = [].

Lemma wstep_leaving cl q r w e q' r' w' :
  wstep cl q r w e q' r' w' -> Forall healthy (option_list e) -> leaving w' ->
  (leaving w /\ q' = q) \/ (cl = true /\ q' = []).
Proof.
  destruct 1; cbn; intros Hh Hl; try done; auto; [by inversion Hh|].
  destruct go; [done|]. exfalso. inversion_clear Hh as [|? ? Hx].
  destruct (answered x) as [rcode|] eqn:Ha.
  - by destruct (query_answered _ _ _ _ _ _ _ _ _ _ Ha H).
  - destruct (query_failed _ _ _ _ _ _ _ _ _ Ha H) as [E _]. simpl in Hx. by rewrite Hx in E.
Qed.

Lemma step_patient s e s' :
  step s e s' -> Forall healthy (option_list e) -> patient s -> patient s'.
Proof.
  unfold patient. destruct 1; cbn; intros Hh Hp Hex.
  - rewrite Exists_app, Exists_cons in *.
    assert (Exists leaving ws1 \/ Exists leaving ws2 \/ leaving w' ) as [Ho|[Ho|Ho]] by tauto.
    3: { destruct (wstep_leaving _ _ _ _ _ _ _ _ H Hh Ho) as [[Hl ->]|Hl]; [|done]. tauto. }
    all: destruct Hp as [-> ->]; [tauto|]; inversion H; subst; auto.
  - by destruct Hp.
  - split; [done|]. by apply Hp.
Qed.

Lemma execution_patient tr s : execution tr s -> Forall healthy tr -> patient s.
Proof.
  induction 1 as [|tr s e s' _ IH Hs].
  - intros _ Hex%Exists_exists. destruct Hex as (w & Hw & Hl).
    by apply elem_of_replicate in Hw as [-> _].
  - intros [H1 H2]%Forall_app. eauto using step_patient.
Qed.

(** ** When nothing can move *)

Lemma worker_cases cl q r w :
  gone w \/ (exists c l, w = Waiting c l) \/ exists e q' r' w', wstep cl q r w e q' r' w'.
Proof.
  destruct w as [|c l|name c l|c l|c]; [|by eauto| | |by left]; right; right.
  - do 4 eexists. apply w_dialed.
  - destruct (query rs want name (MkExchange None (None, None) 0 false) c l) as [[c' l'] go] eqn:E.
    do 4 eexists. by eapply w_exchange.
  - do 4 eexists. apply w_flush.
Qed.

#[local] Instance gone_dec w : Decision (gone w).
Proof. destruct w; apply _. Defined.

(** The sending loop is blocked for ever: no worker is left to receive and the
    queue is full. *)
Definition hung (s : sys) : Prop :=
  Forall gone (workers s) /\ closed s = false /\ to_send s <> [] /\
  (capacity <= length (queue s))%nat.

Lemma waiting_moves tr s ws1 c l ws2 :
  inv tr s -> workers s = ws1 ++ Waiting c l :: ws2 -> exists e s', step s e s'.
Proof.
  intros [Hl _ _ _ _ _ _ _] E. destruct s as [ts cl q ws r]; cbn in *; subst ws.
  destruct q as [|n q]; [|do 2 eexists; apply s_worker, w_take].
  destruct cl; [do 2 eexists; by apply s_worker, w_drained|].
  destruct ts as [|n ts]; [do 2 eexists; apply s_close|]. do 2 eexists. apply s_send. simpl.
  unfold capacity. rewrite <- Hl, length_app. simpl. lia.
Qed.

(** Something can move, or the run is over one way or the other. *)
Lemma run_progress tr s :
  inv tr s -> (exists e s', step s e s') \/ returned s \/ hung s.
Proof.
  intros Hi. destruct (decide (Forall gone (workers s))) as [Hg|Hg].
  - destruct s as [ts [|] q ws r]; [right; left; by split|]. destruct ts as [|n ts].
    { left. do 2 eexists. apply s_close. }
    destruct (decide (length q < capacity)%nat) as [Hq|Hq].
    + left. do 2 eexists. by apply s_send.
    + right. right. split; [done|]. split; [done|]. split; [done|simpl; lia].
  - left. apply not_Forall_Exists in Hg; [|apply _]. apply Exists_exists in Hg as (w & Hw & Hn).
    apply list_elem_of_split in Hw as (ws1 & ws2 & E).
    destruct (worker_cases (closed s) (queue s) (shared s) w) as [Hg|[(c & l & ->)|H]];
      [by destruct Hn|by eapply waiting_moves|].
    destruct s as [ts cl q ws r]; cbn in *; subst ws. destruct H as (e & q' & r' & w' & H).
    do 2 eexists. by apply s_worker.
Qed.

Lemma gone_stays cl q r w e q' r' w' : gone w -> ~ wstep cl q r w e q' r' w'.
Proof. intros Hg H. by destruct H. Qed.

Lemma over_stuck s : returned s \/ hung s -> stuck s.
Proof.
  intros Ho e s' H.
  assert (Forall gone (workers s)) as Hg by (destruct Ho as [[_ ?]|[? _]]; done).
  destruct H; cbn in *.
  - apply Forall_app in Hg as [_ [Hg _]%Forall_cons]. by eapply gone_stays.
  - destruct Ho as [[? _]|(_ & _ & _ & Hq)]; cbn in *; [done|lia].
  - destruct Ho as [[? _]|(_ & _ & ? & _)]; done.
Qed.

Lemma gone_empty {B} (f : wstate -> list B) ws :
  (forall c, f (Gone c) = []) -> Forall gone ws -> concat (map f ws) = [].
Proof.
  intros Hf. induction 1 as [|w ws Hw _ IH]; [done|]. simpl. rewrite IH.
  destruct w; try done. by rewrite Hf.
Qed.

Lemma gone_zero (f : wstate -> Z) ws :
  (forall c, f (Gone c) = 0) -> Forall gone ws -> zsum (map f ws) = 0.
Proof.
  intros Hf. induction 1 as [|w ws Hw _ IH]; [done|]. simpl. rewrite IH.
  destruct w; try done. by rewrite Hf.
Qed.

(** What the shared results are once every worker is gone. *)
Lemma gone_results tr s :
  inv tr s -> Forall gone (workers s) ->
  names ≡ₚ asked tr ++ queue s ++ to_send s /\
  latencies (shared s) ≡ₚ map snd (answers tr) /\
  (forall c, count (rcodes (shared s)) c = with_rcode c (answers tr)) /\
  errors (shared s) = failures tr.
Proof.
  intros [_ _ _ Hn Ht Hr He _] Hg. split_and!.
  - by rewrite Hn, gone_empty.
  - by rewrite <- Ht, gone_empty, app_nil_r.
  - intros c. rewrite <- Hr, gone_zero; [lia| |done]. intros ?. apply count_empty.
  - rewrite <- He, gone_zero; [lia|done|done].
Qed.

(** ** Termination *)

Lemma step_weight s e s' : step s e s' -> (weight s' < weight s)%nat.
Proof.
  unfold weight. destruct 1; cbn.
  - apply wstep_weight in H. rewrite !sum_list_with_app. simpl. lia.
  - rewrite length_app. simpl. lia.
  - lia.
Qed.

(** One step, whatever it did. *)
Definition moves (s s' : sys) : Prop := exists e, step s e s'.

Lemma moves_bounded n s s' : nsteps moves n s s' -> (n + weight s' <= weight s)%nat.
Proof. induction 1 as [|n x y z [e H] _ IH]; [lia|]. apply step_weight in H. lia. Qed.

Lemma weight_start : weight start = (3 * length names + 1 + 3 * W)%nat.
Proof.
  unfold weight, start. cbn [to_send queue closed workers length].
  assert (sum_list_with w_weight (replicate W Dialing) = 3 * W)%nat as ->; [|lia].
  induction W as [|n IH]; simpl in *; lia.
Qed.

(** ** Counting answers *)

Lemma with_rcode_bound c l : 0 <= with_rcode c l <= Z.of_nat (length l).
Proof. unfold with_rcode. pose proof (length_filter (fun a => a.1 = c) l). lia. Qed.

Lemma with_rcode_all c l : with_rcode c l = Z.of_nat (length l) <-> Forall (fun a => a.1 = c) l.
Proof.
  unfold with_rcode. induction l as [|a l IH]; [done|].
  rewrite filter_cons, Forall_cons. destruct (decide (a.1 = c)) as [E|E]; simpl.
  - rewrite <- IH. split; [intros; split; [done|lia]|intros []; lia].
  - pose proof (length_filter (fun a => a.1 = c) l). split; [lia|by intros [? _]].
Qed.

Lemma failures_nonneg tr : 0 <= failures tr.
Proof.
  induction tr as [|e tr IH]; [done|]. change (e :: tr) with ([e] ++ tr). rewrite failures_app.
  unfold failures at 1. destruct e as [|name x]; simpl; [lia|]. destruct (answered x); lia.
Qed.

(** An event without a failure. *)
Definition answered_ev (e : event) : Prop :=
  match e with EDialFailed => False | EExchange _ x => is_Some (answered x) end.

Lemma failures_zero tr : failures tr = 0 <-> Forall answered_ev tr.
Proof.
  induction tr as [|e tr IH]; [done|]. rewrite Forall_cons, <- IH.
  change (e :: tr) with ([e] ++ tr). rewrite failures_app. pose proof (failures_nonneg tr).
  unfold failures at 1. destruct e as [|name x]; simpl; [split; [lia|by intros [[] _]]|].
  destruct (answered x); simpl; split; try lia; [intros; split; [done|lia]|by intros [[? ?] _]].
Qed.

Lemma answered_healthy tr : Forall answered_ev tr -> Forall healthy tr.
Proof.
  intros H. apply (Forall_impl _ _ _ H). intros [|name x]; simpl; [done|]. by intros [? ->].
Qed.

(** ** The sequences of events an unreachable server produces *)

(** Every worker fails to dial: the first [n] of them. *)
Lemma dials_fail n k r :
  exists r', forall ts q tr,
  execution tr (MkSys ts false q (replicate k (Gone no_conns) ++ replicate n Dialing) r) ->
  execution (tr ++ replicate n EDialFailed)
    (MkSys ts false q (replicate (k + n) (Gone no_conns)) r').
Proof.
  revert k r. induction n as [|n IH]; intros k r.
  - exists r. intros ts q tr H. rewrite app_nil_r in *. by rewrite Nat.add_0_r.
  - destruct (IH (S k) (dial_failed r)) as [r' Hr]. exists r'. intros ts q tr H.
    assert (replicate (S n) EDialFailed = [EDialFailed] ++ replicate n EDialFailed) as -> by done.
    rewrite app_assoc. replace (k + S n)%nat with (S k + n)%nat by lia. apply Hr.
    eapply (exec_step _ _ (Some EDialFailed)) in H; [exact H|].
    rewrite (replicate_S_end k (Gone no_conns)), <- (app_assoc (replicate k _)). apply s_worker, w_dial_failed.
Qed.

(** The queue fills while nobody receives. *)
Lemma queue_fills m ts ts' q ws r tr :
  ts = take m ts ++ ts' -> length (take m ts) = m -> (length q + m <= capacity)%nat ->
  execution tr (MkSys ts false q ws r) ->
  execution tr (MkSys ts' false (q ++ take m ts) ws r).
Proof.
  revert ts q. induction m as [|m IH]; intros ts q E Hm Hq H.
  - simpl in *. rewrite app_nil_r. by rewrite <- E.
  - destruct ts as [|n ts]; [done|]. simpl in *. simplify_eq E. intros E'. simplify_eq Hm. intros Hm'.
    rewrite cons_middle, app_assoc. apply IH; [done|done|rewrite length_app; simpl; lia|].
    eapply (exec_step _ _ None) in H; [rewrite app_nil_r in H; exact H|]. apply s_send. lia.
Qed.

Lemma with_rcode_split c l :
  Z.of_nat (length l) = with_rcode c l + Z.of_nat (length (filter (fun a => a.1 <> c) l)).
Proof.
  unfold with_rcode. induction l as [|a l IH]; [done|]. rewrite !filter_cons.
  repeat case_decide; simpl; try tauto; lia.
Qed.

(** What [run] returned, against the trace. *)
Lemma returned_results (tr : list event) (s : sys) (t : Z) :
  execution tr s -> returned s ->
  let r := run_result t s in
  names ≡ₚ asked tr ++ queue s /\
  latencies r ≡ₚ map snd (answers tr) /\
  (forall c, count (rcodes r) c = with_rcode c (answers tr)) /\
  errors r = failures tr /\
  count_mismatches want r = Z.of_nat (length (answers tr)) - with_rcode want (answers tr).
Proof.
  intros H [Hc Hg]. apply execution_inv in H.
  destruct (gone_results tr s H Hg) as (Hn & Ht & Hcodes & He).
  rewrite (i_closed _ _ H Hc), app_nil_r in Hn. cbn. split_and!; try done.
  unfold count_mismatches. cbn. by rewrite Ht, Hcodes, length_map.
Qed.

(** * Properties *)

(** C27: every run ends: it has at most [3 * names + 3 * workers + 1] steps, and
    a state that cannot move is one in which [run] returned or one in which the
    sending loop is blocked for ever on a full queue because no worker is
    left. *)
Theorem every_run_ends (tr : list event) (s : sys) (H : execution tr s) :
  (forall n s', nsteps moves n start s' -> (n <= 3 * length names + 3 * W + 1)%nat) /\
  (stuck s <-> returned s \/ hung s) /\
  ((exists e s', step s e s') \/ returned s \/ hung s).
Proof.
  apply execution_inv, run_progress in H. split_and!; [|split|done].
  - intros n s' Hn. apply moves_bounded in Hn. rewrite weight_start in Hn. lia.
  - intros Hs. destruct H as [(e & s' & H)|]; [by destruct (Hs e s')|done].
  - apply over_stuck.
Qed.

(** C28: what [run] returns is what happened, in every interleaving: the names
    are those asked and those left in the queue, the latencies and the counts
    of the rcodes are those of the answers, the error count is the number of
    failed dials and exchanges, and the mismatches [report] computes are the
    answers with another rcode than the one wanted. *)
Theorem run_accounts (tr : list event) (s : sys) (t : Z)
    (H : execution tr s) (Hr : returned s) :
  let r := run_result t s in
  names ≡ₚ asked tr ++ queue s /\
  latencies r ≡ₚ map snd (answers tr) /\
  (forall c, count (rcodes r) c = with_rcode c (answers tr)) /\
  errors r = failures tr /\
  count_mismatches want r = Z.of_nat (length (filter (fun a => a.1 <> want) (answers tr))).
Proof.
  destruct (returned_results tr s t H Hr) as (Hn & Ht & Hcodes & He & Hm). split_and!; try done.
  rewrite Hm. pose proof (with_rcode_split want (answers tr)). lia.
Qed.

(** The exit code can be trusted: after a run the program exits with 0
    exactly when no worker failed to dial, every name was asked, once per
    occurrence, every question was answered and, with [-expect], every answer
    had the rcode wanted. *)
Theorem exit_zero_iff (tr : list event) (s : sys) (t : Z)
    (H : execution tr s) (Hr : returned s) :
  exit_code want (snd (report rs (Z.of_nat (length names)) want (run_result t s))) = 0 <->
  Forall answered_ev tr /\ asked tr ≡ₚ names /\
  (0 <= want -> Forall (fun a => a.1 = want) (answers tr)).
Proof.
  pose proof (returned_results tr s t H Hr) as (Hn & Ht & Hcodes & He & Em). cbn zeta in *.
  pose proof (execution_patient tr s H) as Hp. apply execution_inv in H.
  pose proof (failures_nonneg tr) as Hnn. rewrite <- failures_zero, <- with_rcode_all.
  pose proof (with_rcode_bound want (answers tr)) as Hb.
  assert (failures tr = 0 -> asked tr ≡ₚ names) as Hq.
  { intros H0%failures_zero%answered_healthy. rewrite Hn.
    destruct (workers s) as [|w ws] eqn:Ew.
    - pose proof (i_workers _ _ H) as Hl. pose proof (i_queue _ _ H) as Hlq.
      rewrite Ew in Hl. simpl in Hl. unfold capacity in Hlq.
      destruct (queue s); [by rewrite app_nil_r|simpl in Hlq; lia].
    - destruct (Hp H0) as [_ ->]; [|by rewrite app_nil_r]. rewrite Ew. apply Exists_cons. left.
      destruct Hr as [_ Hg]. rewrite Ew in Hg. apply Forall_cons in Hg as [Hg _]. by destruct w. }
  assert (errors (shared s) = failures tr) as He' by done.
  destruct (report_results rs (Z.of_nat (length names)) want (run_result t s)) as (Er1 & Er2 & _).
  unfold exit_code. rewrite Er1, Er2. cbn [errors run_result with_elapsed].
  destruct (Z.leb_spec 0 want) as [Hw|Hw]; cbn [andb].
  - rewrite Em, He'. destruct (Z.ltb_spec 0 (Z.of_nat (length (answers tr)) - with_rcode want (answers tr)));
      [split; [done|intros (_ & _ & ?); lia]|].
    destruct (Z.ltb_spec 0 (failures tr)); [split; [done|intros (? & _); lia]|].
    split; [|done]. intros _. split_and!; [lia|apply Hq; lia|lia].
  - rewrite He'. destruct (Z.ltb_spec 0 (failures tr)); [split; [done|intros (? & _); lia]|].
    split; [|done]. intros _. split_and!; [lia|apply Hq; lia|lia].
Qed.

(** As long as every worker can connect and reconnect, a run with at least
    one worker never blocks and loses nothing: when nothing can move, [run] has
    returned, the queue is empty and every name was asked. *)
Theorem healthy_run_returns (tr : list event) (s : sys)
    (H : execution tr s) (Hh : Forall healthy tr) (HW : (0 < W)%nat) (Hs : stuck s) :
  returned s /\ queue s = [] /\ asked tr ≡ₚ names.
Proof.
  pose proof (execution_patient tr s H Hh) as Hp. apply execution_inv in H.
  assert (Exists leaving (workers s) -> queue s = [] /\ closed s = true) as Hq by (intros; by destruct Hp).
  destruct (run_progress tr s H) as [(e & s' & Hst)|Ho]; [by destruct (Hs e s')|].
  assert (Forall gone (workers s)) as Hg by (destruct Ho as [[_ ?]|[? _]]; done).
  destruct Hq as [Hq Hc].
  { pose proof (i_workers _ _ H) as Hl. destruct (workers s) as [|w ws]; [simpl in Hl; lia|].
    apply Exists_cons. left. apply Forall_cons in Hg as [Hg _]. by destruct w. }
  split; [by split|]. split; [done|]. destruct (gone_results tr s H Hg) as (Hn & _).
  rewrite Hn, Hq, (i_closed _ _ H Hc). by rewrite !app_nil_r.
Qed.

(** C29: [run] deadlocks when its workers have given up: once no more than
    [asked tr] names were taken and more than the queue holds are left, it never
    returns, and the sending loop ends up blocked; with more than four names per
    worker this is what happens when every dial fails. *)
Theorem unreachable_server_hangs (Hnames : (capacity < length names)%nat) :
  (forall tr s, execution tr s -> (length (asked tr) + capacity < length names)%nat ->
     ~ returned s /\ (stuck s -> hung s)) /\
  exists s, execution (replicate W EDialFailed) s /\ hung s.
Proof.
  split.
  - intros tr s H Ha. pose proof H as Hi. apply execution_inv in Hi.
    assert (~ returned s) as Hr.
    { intros [Hc Hg]. destruct (gone_results tr s Hi Hg) as (Hn & _).
      pose proof (i_queue _ _ Hi) as Hq. apply Permutation_length in Hn.
      rewrite (i_closed _ _ Hi Hc), !length_app in Hn. simpl in Hn. lia. }
    split; [done|]. intros Hs. destruct (run_progress tr s Hi) as [(e & s' & Hst)|[?|?]]; try done.
    by destruct (Hs e s').
  - destruct (dials_fail W 0 new_results) as [r' Hd]. specialize (Hd names [] [] exec_start).
    cbn [app replicate Nat.add] in Hd. rewrite <- (take_drop capacity names) in Hd at 1.
    eexists. split.
    + eapply (queue_fills capacity names (drop capacity names) []);
        [by rewrite take_drop|rewrite length_take; lia|simpl; lia|].
      by rewrite (take_drop capacity names) in Hd.
    + split; [by apply Forall_replicate|]. split; [done|]. cbn [to_send queue app]. split.
      * intros Hd0. apply (f_equal length) in Hd0. rewrite length_drop in Hd0. simpl in Hd0. lia.
      * rewrite length_take. lia.
Qed.

(** A worker that is gone has closed every socket it opened, whatever its
    reconnects did; one that is not has at most one open. *)
Theorem no_socket_leaks (tr : list event) (s : sys) (w : wstate)
    (H : execution tr s) (Hw : w ∈ workers s) :
  match w with
  | Gone c => opened c = ∅
  | Dialing => True
  | Waiting c _ | Asking _ c _ => opened c = {[ current_conn c ]}
  | Flushing c _ => opened c ⊆ {[ current_conn c ]}
  end.
Proof.
  apply execution_inv, i_conns in H. rewrite Forall_forall in H. apply H in Hw.
  destruct w; simpl in *; try done; try (by destruct Hw).
  destruct Hw as [live [-> _]]. by destruct live.
Qed.

End Run.

(** * The program *)

(** The command line, with its defaults. *)
Record flags := MkFlags {
  f_server : str;
  f_file : str;
  f_workers : nat;
  f_expect : str;
  f_limit : Z;
  f_timeout : Z;
}.

Definition default_flags : flags :=
  MkFlags (lit "127.0.0.1:1053") [] 32 [] 0 (2 * Second).

(** [main]: the codes it can exit with, given what the file holds and
    [dns.StringToRcode] and [dns.RcodeToString]. *)
Definition main_exits `{UU : UnicodeUpper} (string_to_rcode : str -> option Z) (rs : Z -> str)
    (f : flags) (opened : result string reader) (code : Z) : Prop :=
  match prepare string_to_rcode (f_file f) (readNames opened (f_limit f)) (f_expect f) with
  | inl early => code = early
  | inr (names, want) =>
      exists tr s t, execution rs names (f_workers f) want tr s /\ returned s /\
        code = exit_code want (snd (report rs (Z.of_nat (length names)) want (run_result t s)))
  end.

(** [prepare] hands on the names read and the rcode looked up. *)
Lemma prepare_inr `{UU : UnicodeUpper} string_to_rcode file read expect names want :
  prepare string_to_rcode file read expect = inr (names, want) ->
  read = (names, None) /\ names <> [] /\
  (expect = [] /\ want = -1 \/ expect <> [] /\ string_to_rcode (to_upper expect) = Some want).
Proof.
  unfold prepare. case_bool_decide; [done|]. destruct read as [[|n ns] [e|]]; try done.
  case_bool_decide as He; [intros [= <- <-]; auto|].
  destruct (string_to_rcode _) as [c|] eqn:E; [|done]. intros [= <- <-]. auto.
Qed.

(** [prepare] never reports success. *)
Lemma prepare_inl `{UU : UnicodeUpper} string_to_rcode file read expect code :
  prepare string_to_rcode file read expect = inl code -> code <> 0.
Proof.
  unfold prepare. case_bool_decide; [by intros [= <-]|]. destruct read as [[|n ns] [e|]];
    try (by intros [= <-]). case_bool_decide; [done|].
  destruct (string_to_rcode _); [done|]. by intros [= <-].
Qed.

(** C26: exit code 0 can be trusted from the command line on: if the program
    exits with 0, the file was read without an error and held names, and there
    was a complete run in which no worker failed to dial, exactly these names
    were asked, each question was answered, and, with [-expect], the rcode
    given is a known one and every answer had it. *)
Theorem main_exits_zero `{UU : UnicodeUpper} (string_to_rcode : str -> option Z) (rs : Z -> str)
    (f : flags) (opened : result string reader)
    (Hrc : forall name c, string_to_rcode name = Some c -> 0 <= c)
    (H : main_exits string_to_rcode rs f opened 0) :
  exists names want tr s,
    readNames opened (f_limit f) = (names, None) /\ names <> [] /\
    execution rs names (f_workers f) want tr s /\ returned s /\
    Forall answered_ev tr /\ asked tr ≡ₚ names /\
    (f_expect f <> [] ->
       string_to_rcode (to_upper (f_expect f)) = Some want /\ Forall (fun a => a.1 = want) (answers tr)).
Proof.
  unfold main_exits in H. destruct (prepare _ _ _ _) as [early|[names want]] eqn:E.
  { by apply prepare_inl in E. }
  apply prepare_inr in E as (Hread & Hne & Hexp). destruct H as (tr & s & t & Hx & Hr & Hcode).
  symmetry in Hcode. apply (exit_zero_iff rs names (f_workers f) want tr s t Hx Hr) in Hcode
    as (Ha & Hasked & Hwant).
  exists names, want, tr, s. split_and!; try done. intros He.
  destruct Hexp as [[? _]|[_ Hw]]; [done|]. split; [done|]. apply Hwant. by eapply Hrc.
Qed.

(** * Witnesses *)

Definition sample_rcodes (c : Z) : str := if c =? 3 then lit "NXDOMAIN" else lit "NOERROR".

Definition sample_name : str := lit "ads.example.com".

Definition sample_exchange : exchange := MkExchange None (Some 3, None) 1500000 true.

Definition sample_local : local := MkLocal [1500000] {[ 3 := 1 ]} 0 [] [].

(** One worker, one name, wanted NXDOMAIN and got it. *)
Definition sample_end : sys :=
  MkSys [] true [] [Gone (close_conn first_dial)] (merge sample_local new_results).

Ltac exec_next H e := eapply (exec_step _ _ _ _ _ _ e) in H.

Lemma sample_execution :
  execution sample_rcodes [sample_name] 1 3 [EExchange sample_name sample_exchange] sample_end.
Proof.
  pose proof (exec_start sample_rcodes [sample_name] 1 3) as H.
  exec_next H (@None event); [|apply s_send; simpl; unfold capacity; lia].
  exec_next H (@None event); [|apply s_close].
  exec_next H (@None event); [|eapply s_worker with (ws1 := []), w_dialed].
  exec_next H (@None event); [|eapply s_worker with (ws1 := []), w_take].
  exec_next H (Some (EExchange sample_name sample_exchange));
    [|eapply s_worker with (ws1 := []), w_exchange; reflexivity].
  exec_next H (@None event); [|eapply s_worker with (ws1 := []), w_drained; reflexivity].
  exec_next H (@None event); [|eapply s_worker with (ws1 := []), w_flush].
  exact H.
Qed.

Lemma sample_returned : returned sample_end.
Proof. split; [done|]. by repeat constructor. Qed.

Lemma every_run_ends_witness :
  stuck sample_rcodes 1 3 sample_end <-> returned sample_end \/ hung 1 sample_end.
Proof. apply (every_run_ends _ _ _ _ _ _ sample_execution). Defined.

Lemma run_accounts_witness :
  count_mismatches 3 (run_result 2000000 sample_end) = 0.
Proof. apply (run_accounts _ _ _ _ _ _ 2000000 sample_execution sample_returned). Defined.

Lemma exit_zero_iff_witness :
  exit_code 3 (snd (report sample_rcodes 1 3 (run_result 2000000 sample_end))) = 0.
Proof.
  apply (exit_zero_iff _ _ _ _ _ _ 2000000 sample_execution sample_returned).
  split; [repeat constructor; eexists; reflexivity|]. split; [reflexivity|]. by repeat constructor.
Defined.

Lemma healthy_run_returns_witness : returned sample_end /\ queue sample_end = [].
Proof.
  destruct (healthy_run_returns _ _ _ _ _ _ sample_execution) as (H1 & H2 & _).
  - by repeat constructor.
  - apply le_n.
  - apply over_stuck. left. apply sample_returned.
  - by split.
Defined.

Lemma unreachable_server_hangs_witness :
  exists s, execution sample_rcodes (replicate 5 sample_name) 1 3 [EDialFailed] s /\ hung 1 s.
Proof. apply (unreachable_server_hangs sample_rcodes (replicate 5 sample_name) 1 3). apply le_n. Defined.

Lemma no_socket_leaks_witness : opened (close_conn first_dial) = ∅.
Proof.
  apply (no_socket_leaks _ _ _ _ _ _ (Gone (close_conn first_dial)) sample_execution).
  apply list_elem_of_singleton. reflexivity.
Defined.

Definition sample_upper : UnicodeUpper := fun r => r.

Definition sample_codes (s : str) : option Z := if bool_decide (s = lit "NXDOMAIN") then Some 3 else None.

Definition sample_flags : flags :=
  MkFlags (lit "127.0.0.1:1053") (lit "names.txt") 1 (lit "nxdomain") 0 (2 * Second).

Definition sample_file : result string reader := Ok (Reader (render_names [sample_name]) None).

Lemma sample_prepare :
  prepare (UU := sample_upper) sample_codes (lit "names.txt") (readNames sample_file 0) (lit "nxdomain")
  = inr ([sample_name], 3).
Proof. by vm_compute. Qed.

Lemma sample_main : main_exits (UU := sample_upper) sample_codes sample_rcodes sample_flags sample_file 0.
Proof.
  unfold main_exits, sample_flags. cbn [f_file f_limit f_expect f_workers]. rewrite sample_prepare.
  exists [EExchange sample_name sample_exchange], sample_end, 2000000.
  split; [exact sample_execution|]. split; [exact sample_returned|]. by vm_compute.
Qed.

Lemma sample_codes_nonneg name c : sample_codes name = Some c -> 0 <= c.
Proof. unfold sample_codes. case_bool_decide; [|done]. intros [= <-]. lia. Qed.

Lemma main_exits_zero_witness :
  exists names, readNames sample_file 0 = (names, None) /\ names <> [].
Proof.
  destruct (main_exits_zero (UU := sample_upper) sample_codes sample_rcodes sample_flags sample_file
    sample_codes_nonneg sample_main) as (names & _ & _ & _ & H1 & H2 & _).
  exists names. exact (conj H1 H2).
Defined.
