(* ===== verification/Caddy.v ===== *)
(** * The Corefile dispenser

    The plugins parse their configuration with caddy's [Controller].  Caddy is
    not in this repository: its cursor operations are the class [Dispenser],
    and what they do on a Corefile, seen as a list of directives with arguments
    and a block of properties, is [DispenserLaws].  The file also has the
    parser monad and the two loops ([for c.Next()], [for c.NextBlock()]) the
    parsers are written with, and what the loops compute on such a Corefile. *)

From Stdlib Require Import Lia ZArith Ascii.
From stdpp Require Import base strings option numbers list.
From S2P Require Import Prelude.

(** ** Corefiles as the parsers see them *)

(** One occurrence of the plugin's directive: its arguments and the properties
    of its block, each a name with its arguments. *)
Record directive := MkDirective { d_args : list str; d_block : list (str * list str) }.

(** Where a dispenser stands: before the next directive, in the arguments of
    one, between the properties of its block, or on a property's name. *)
Inductive position : Type :=
| AtStart (ds : list directive)
| AtArgs (args : list str) (block : list (str * list str)) (ds : list directive)
| AtBlock (block : list (str * list str)) (ds : list directive)
| AtProp (name : str) (args : list str) (block : list (str * list str)) (ds : list directive).

Class Dispenser (C : Type) := {
  Next : C -> bool * C;
  NextBlock : C -> bool * C;
  RemainingArgs : C -> list str * C;
  (** [c.Args(&x)]: the next argument, if there is one. *)
  Args1 : C -> option (str * C);
  Val : C -> str;
}.

Class DispenserLaws (C : Type) (D : Dispenser C) := {
  at_pos : C -> position -> Prop;
  Next_end c : at_pos c (AtStart []) -> fst (Next c) = false;
  Next_directive c d ds : at_pos c (AtStart (d :: ds)) ->
    fst (Next c) = true /\ at_pos (snd (Next c)) (AtArgs (d_args d) (d_block d) ds);
  RemainingArgs_directive c args block ds : at_pos c (AtArgs args block ds) ->
    fst (RemainingArgs c) = args /\ at_pos (snd (RemainingArgs c)) (AtBlock block ds);
  Args1_none c block ds : at_pos c (AtArgs [] block ds) -> Args1 c = None;
  Args1_some c a args block ds : at_pos c (AtArgs (a :: args) block ds) ->
    exists c', Args1 c = Some (a, c') /\ at_pos c' (AtArgs args block ds);
  NextBlock_end c ds : at_pos c (AtBlock [] ds) ->
    fst (NextBlock c) = false /\ at_pos (snd (NextBlock c)) (AtStart ds);
  NextBlock_prop c name args block ds : at_pos c (AtBlock ((name, args) :: block) ds) ->
    fst (NextBlock c) = true /\ at_pos (snd (NextBlock c)) (AtProp name args block ds);
  Val_prop c name args block ds : at_pos c (AtProp name args block ds) -> Val c = name;
  RemainingArgs_prop c name args block ds : at_pos c (AtProp name args block ds) ->
    fst (RemainingArgs c) = args /\ at_pos (snd (RemainingArgs c)) (AtBlock block ds);
}.

(** A dispenser that is its position, for examples. *)
#[export] Instance position_dispenser : Dispenser position := {|
  Next c := match c with
            | AtStart (d :: ds) => (true, AtArgs (d_args d) (d_block d) ds)
            | _ => (false, c)
            end;
  NextBlock c := match c with
                 | AtBlock ((n, a) :: block) ds => (true, AtProp n a block ds)
                 | AtBlock [] ds => (false, AtStart ds)
                 | _ => (false, c)
                 end;
  RemainingArgs c := match c with
                     | AtArgs args block ds | AtProp _ args block ds => (args, AtBlock block ds)
                     | _ => ([], c)
                     end;
  Args1 c := match c with
             | AtArgs (a :: args) block ds => Some (a, AtArgs args block ds)
             | _ => None
             end;
  Val c := match c with AtProp n _ _ _ => n | _ => [] end;
|}.

#[export] Instance position_laws : DispenserLaws position position_dispenser.
Proof. refine {| at_pos c p := c = p |}; intros; subst; simpl; eauto. Defined.

Lemma position_at (p : position) : at_pos p p.
Proof. reflexivity. Qed.

(** ** Parsers *)

(** The errors the parsers return, as far as they are told apart. *)
Inductive parse_error : Type :=
| Twice
| TakesNoArguments
| ArgErr
| UnknownProperty (name : str)
| BadValue (property value : str)
| NotPositive (property : str) (d : Z)
| TooShort (property : str) (d : Z)
| Missing (what : string).

(** A parser threads the dispenser and a configuration under construction. *)
Definition parser (C S : Type) : Type := C -> S -> result parse_error (C * S).

Section Loops.
Context {C S : Type} `{D : Dispenser C}.

(** [for c.NextBlock() { body }]. *)
Fixpoint block_loop (fuel : nat) (body : parser C S) (c : C) (s : S) : result parse_error (C * S) :=
  match fuel with
  | O => Ok (c, s)
  | Datatypes.S fuel =>
      let '(more, c) := NextBlock c in
      if more then
        match body c s with
        | Err e => Err e
        | Ok (c, s) => block_loop fuel body c s
        end
      else Ok (c, s)
  end.

(** [for c.Next() { if configured { error }; configured = true; body }]. *)
Fixpoint directive_loop (fuel : nat) (configured : bool) (body : parser C S) (c : C) (s : S) :
    result parse_error S :=
  match fuel with
  | O => Ok s
  | Datatypes.S fuel =>
      let '(more, c) := Next c in
      if more then
        if configured then Err Twice
        else
          match body c s with
          | Err e => Err e
          | Ok (c, s) => directive_loop fuel true body c s
          end
      else Ok s
  end.

(** What a loop body does on a property, as a function of its name and
    arguments alone. *)
Definition implements_prop `{!DispenserLaws C D} (body : parser C S)
    (f : str -> list str -> S -> result parse_error S) : Prop :=
  forall c name args block ds s, at_pos c (AtProp name args block ds) ->
    match f name args s with
    | Err e => body c s = Err e
    | Ok s' => exists c', body c s = Ok (c', s') /\ at_pos c' (AtBlock block ds)
    end.

(** The properties of a block, in order, up to the first error. *)
Fixpoint fold_props (f : str -> list str -> S -> result parse_error S)
    (block : list (str * list str)) (s : S) : result parse_error S :=
  match block with
  | [] => Ok s
  | (name, args) :: block => let? s := f name args s in fold_props f block s
  end.

Lemma block_loop_spec `{!DispenserLaws C D} body f fuel block ds c s :
  implements_prop body f -> at_pos c (AtBlock block ds) -> length block < fuel ->
  match fold_props f block s with
  | Err e => block_loop fuel body c s = Err e
  | Ok s' => exists c', block_loop fuel body c s = Ok (c', s') /\ at_pos c' (AtStart ds)
  end.
Proof.
  intros Hbody. revert fuel c s. induction block as [|[name args] block IH]; intros fuel c s Hc Hf;
    (destruct fuel as [|fuel]; [simpl in Hf; lia|]); cbn [block_loop fold_props].
  - destruct (NextBlock_end c ds Hc) as [E Hat]. destruct (NextBlock c) as [more c'].
    simpl in *. subst. eauto.
  - destruct (NextBlock_prop c name args block ds Hc) as [E Hat]. destruct (NextBlock c) as [more c'].
    simpl in E, Hat. subst more. specialize (Hbody c' name args block ds s Hat).
    destruct (f name args s) as [s'|e]; simpl; [|by rewrite Hbody].
    destruct Hbody as (c2 & -> & Hat2). apply IH; [done|]. simpl in Hf. lia.
Qed.

(** A directive's body as a function of the directive, on directives that
    satisfy [P]. *)
Definition implements_directive `{!DispenserLaws C D} (P : directive -> Prop) (body : parser C S)
    (f : directive -> S -> result parse_error S) : Prop :=
  forall c d ds s, P d -> at_pos c (AtArgs (d_args d) (d_block d) ds) ->
    match f d s with
    | Err e => body c s = Err e
    | Ok s' => exists c', body c s = Ok (c', s') /\ at_pos c' (AtStart ds)
    end.

(** What [directive_loop] computes: nothing without a directive, an error with
    two, the body's result with one. *)
Definition one_directive (f : directive -> S -> result parse_error S) (ds : list directive) (s : S) :
    result parse_error S :=
  match ds with
  | [] => Ok s
  | [d] => f d s
  | d :: _ => let? _ := f d s in Err Twice
  end.

Lemma directive_loop_spec `{!DispenserLaws C D} P body f fuel ds c s :
  implements_directive P body f -> Forall P ds -> at_pos c (AtStart ds) -> 2 <= fuel ->
  directive_loop fuel false body c s = one_directive f ds s.
Proof.
  intros Hbody HP Hc Hf. destruct fuel as [|[|fuel]]; [lia..|]. cbn [directive_loop].
  destruct ds as [|d ds]; cbn [one_directive].
  { pose proof (Next_end c Hc) as E. destruct (Next c) as [more c']. simpl in E. by subst. }
  destruct (Next_directive c d ds Hc) as [E Hat]. destruct (Next c) as [more c']. simpl in *. subst more.
  specialize (Hbody c' d ds s (Forall_inv HP) Hat). destruct (f d s) as [s'|e]; simpl.
  - destruct Hbody as (c2 & -> & Hat2). destruct ds as [|d2 ds].
    + pose proof (Next_end c2 Hat2) as E. destruct (Next c2) as [more c3]. simpl in E. by subst.
    + destruct (Next_directive c2 d2 ds Hat2) as [E _]. destruct (Next c2) as [more c3].
      simpl in *. by subst.
  - rewrite Hbody. by destruct ds.
Qed.

End Loops.

(** ** Registration *)

(** What the plugins' [setup] functions register with caddy and the server
    block: the start and stop hooks and the handlers, each bound to the plugin
    it belongs to. *)
Record controller (P : Type) := MkController {
  on_startup : list P;
  on_shutdown : list P;
  handlers : list P;
}.
Arguments MkController {P} _ _ _.
Arguments on_startup {P} _.
Arguments on_shutdown {P} _.
Arguments handlers {P} _.

(** The common body of the three [setup] functions: a failed parse is returned
    (wrapped by [plugin.Error]) and nothing is registered. *)
Definition setup {P} (parsed : result parse_error P) (c : controller P) :
    option parse_error * controller P :=
  match parsed with
  | Err e => (Some e, c)
  | Ok p =>
      (None, MkController (on_startup c ++ [p]) (on_shutdown c ++ [p]) (handlers c ++ [p]))
  end.

(** A server block gets a handler exactly with the hooks that start and stop
    it. *)
Definition paired {P} (c : controller P) : Prop :=
  on_startup c = handlers c /\ on_shutdown c = handlers c.

Lemma setup_spec {P} (parsed : result parse_error P) (c : controller P) :
  paired c ->
  paired (snd (setup parsed c)) /\
  match fst (setup parsed c) with
  | Some e => parsed = Err e /\ snd (setup parsed c) = c
  | None => exists p, parsed = Ok p /\ handlers (snd (setup parsed c)) = handlers c ++ [p]
  end.
Proof.
  intros [E1 E2]. unfold setup, paired. destruct parsed as [p|e]; simpl; [|done].
  rewrite E1, E2. eauto.
Qed.
