(* ===== verification/BlocklistSetup.v ===== *)
(** * The blocklist's configuration ([plugin/blocklist/setup.go])

    [parseConfig] over caddy's dispenser, what it computes on a Corefile, and
    that a configuration it returns is one the running plugin can rely on.
    [url.Parse] is a parameter. *)

From Stdlib Require Import Lia ZArith Ascii.
From stdpp Require Import base strings option numbers list.
From S2P Require Import Prelude GoStrings GoTime Netip GoParse BlocklistParse BlocklistSource Caddy.

Local Open Scope Z_scope.

(** [url.Parse], as far as it is looked at: the scheme and the host. *)
Class UrlLib := url_Parse : str -> option (str * str).

(** ** Defaults *)

Definition defaultRefresh : Z := 24 * 3600 * Second.
Definition defaultReadyTimeout : Z := 60 * Second.
Definition defaultBootstrapDNS : list str := [lit "1.1.1.1:53"; lit "9.9.9.9:53"].

(** The fields [parseConfig] fills; [c_bootstrap] is its local [bootstrap]. *)
Record config := MkConfig {
  c_urls : list str;
  c_allow : list str;
  c_bootstrap : list str;
  c_refresh : Z;
  c_readyTimeout : Z;
}.

Definition empty_config : config := MkConfig [] [] [] defaultRefresh defaultReadyTimeout.

(** ** Values *)

Definition validateURL `{UL : UrlLib} (raw : str) : bool :=
  match url_Parse raw with
  | None => false
  | Some (scheme, host) =>
      if bool_decide (scheme <> lit "http") && bool_decide (scheme <> lit "https") then false
      else negb (bool_decide (host = []))
  end.

(** [normalizeDNSAddr]; [None] is its error. *)
Definition normalizeDNSAddr (raw : str) : option str :=
  match parse_addr raw with
  | Some addr => Some (join_host_port (addr_string addr) (lit "53"))
  | None =>
      match split_host_port raw with
      | None => None
      | Some (host, port) =>
          match parse_addr host with
          | None => None
          | Some addr =>
              match Atoi port with
              | None => None
              | Some p =>
                  if (p <? 1) || (65535 <? p) then None
                  else Some (join_host_port (addr_string addr) port)
              end
          end
      end
  end.

(** [durationArg], after the property's name and arguments were read. *)
Definition duration_arg (prop : str) (args : list str) : result parse_error Z :=
  match args with
  | [arg] =>
      match ParseDuration arg with
      | None => Err (BadValue prop arg)
      | Some d => if d <=? 0 then Err (NotPositive prop d) else Ok d
      end
  | _ => Err ArgErr
  end.

Section Parser.
Context {UL : UrlLib} {UC : UnicodeCase}.

(** The loops over a property's arguments. *)
Fixpoint add_urls (args : list str) (s : config) : result parse_error config :=
  match args with
  | [] => Ok s
  | raw :: args =>
      if negb (validateURL raw) then Err (BadValue (lit "url") raw)
      else add_urls args
             (MkConfig (c_urls s ++ [raw]) (c_allow s) (c_bootstrap s) (c_refresh s) (c_readyTimeout s))
  end.

Fixpoint add_allow (args : list str) (s : config) : result parse_error config :=
  match args with
  | [] => Ok s
  | raw :: args =>
      match normalizeEntry raw with
      | None => Err (BadValue (lit "allow") raw)
      | Some name =>
          add_allow args
            (MkConfig (c_urls s) (c_allow s ++ [name]) (c_bootstrap s) (c_refresh s) (c_readyTimeout s))
      end
  end.

Fixpoint add_bootstrap (args : list str) (s : config) : result parse_error config :=
  match args with
  | [] => Ok s
  | raw :: args =>
      match normalizeDNSAddr raw with
      | None => Err (BadValue (lit "bootstrap_dns") raw)
      | Some addr =>
          add_bootstrap args
            (MkConfig (c_urls s) (c_allow s) (c_bootstrap s ++ [addr]) (c_refresh s) (c_readyTimeout s))
      end
  end.

(** What a property's arguments do to the configuration. *)
Definition apply_property (name : str) (args : list str) (s : config) : result parse_error config :=
  if bool_decide (name = lit "url") then
    if (length args =? 0)%nat then Err ArgErr else add_urls args s
  else if bool_decide (name = lit "allow") then
    if (length args =? 0)%nat then Err ArgErr else add_allow args s
  else if bool_decide (name = lit "bootstrap_dns") then
    if (length args =? 0)%nat then Err ArgErr else add_bootstrap args s
  else if bool_decide (name = lit "refresh") then
    let? d := duration_arg name args in
    if d <? 60 * Second then Err (TooShort name d)
    else Ok (MkConfig (c_urls s) (c_allow s) (c_bootstrap s) d (c_readyTimeout s))
  else if bool_decide (name = lit "ready_timeout") then
    let? d := duration_arg name args in
    Ok (MkConfig (c_urls s) (c_allow s) (c_bootstrap s) (c_refresh s) d)
  else Err (UnknownProperty name).

(** The properties whose arguments the switch reads. *)
Definition properties : list str :=
  [lit "url"; lit "allow"; lit "bootstrap_dns"; lit "refresh"; lit "ready_timeout"].

Section Dispensed.
Context {C : Type} `{D : Dispenser C}.

(** The switch: an unknown property is reported before its arguments are read. *)
Definition parse_property : parser C config := fun c s =>
  let name := Val c in
  if bool_decide (name ∈ properties) then
    let '(args, c) := RemainingArgs c in
    let? s := apply_property name args s in
    Ok (c, s)
  else Err (UnknownProperty name).

(** One directive: no arguments, then the block. *)
Definition parse_directive (fuel : nat) : parser C config := fun c s =>
  let '(args, c) := RemainingArgs c in
  if (0 <? length args)%nat then Err TakesNoArguments else block_loop fuel parse_property c s.

Definition finish (s : config) : result parse_error config :=
  if (length (c_urls s) =? 0)%nat then Err (Missing "url")
  else
    let bootstrap := if (length (c_bootstrap s) =? 0)%nat then defaultBootstrapDNS else c_bootstrap s in
    Ok (MkConfig (c_urls s) (c_allow s) bootstrap (c_refresh s) (c_readyTimeout s)).

Definition parseConfig (fuel : nat) (c : C) : result parse_error config :=
  let? s := directive_loop fuel false (parse_directive fuel) c empty_config in
  finish s.

(** [setup]: the plugin is registered with its hooks if its configuration parses. *)
Definition setup (fuel : nat) (c : C) (ctl : controller config) :
    option parse_error * controller config :=
  Caddy.setup (parseConfig fuel c) ctl.

End Dispensed.

(** ** What it computes on a Corefile *)

(** A directive's effect. *)
Definition apply_directive (d : directive) (s : config) : result parse_error config :=
  if (0 <? length (d_args d))%nat then Err TakesNoArguments else fold_props apply_property (d_block d) s.

(** Tokens enough for the longest block. *)
Definition enough (fuel : nat) (ds : list directive) : Prop :=
  (2 <= fuel)%nat /\ Forall (fun d => (length (d_block d) < fuel)%nat) ds.

(** ** Valid configurations *)

Definition web_url (raw : str) : Prop :=
  exists scheme host, url_Parse raw = Some (scheme, host) /\
    (scheme = lit "http" \/ scheme = lit "https") /\ host <> [].

(** An address the bootstrap resolver can dial without resolving a name. *)
Definition dns_server (s : str) : Prop :=
  exists a port p, s = join_host_port (addr_string a) port /\ Atoi port = Some p /\ 1 <= p <= 65535.

Record config_ok (s : config) : Prop := MkConfigOk {
  ok_urls : Forall web_url (c_urls s);
  ok_allow : Forall blockable (c_allow s);
  ok_bootstrap : Forall dns_server (c_bootstrap s);
  ok_refresh : 60 * Second <= c_refresh s;
  ok_readyTimeout : 0 < c_readyTimeout s;
}.

(** ** Lemmas *)

Lemma validateURL_spec raw : validateURL raw = true <-> web_url raw.
Proof.
  unfold validateURL, web_url. destruct (url_Parse raw) as [[scheme host]|].
  2: { split; [done|]. by intros (? & ? & ? & _). }
  repeat case_bool_decide; simpl; split; intros H'; try done; try naive_solver;
    destruct H' as (? & ? & [= <- <-] & [-> | ->] & ?); done.
Qed.

Lemma normalizeDNSAddr_server raw s : normalizeDNSAddr raw = Some s -> dns_server s.
Proof.
  unfold normalizeDNSAddr, dns_server. destruct (parse_addr raw) as [a|].
  { intros [= <-]. exists a, (lit "53"), 53. split_and!; [done|by vm_compute|lia..]. }
  destruct (split_host_port raw) as [[host port]|]; [|done].
  destruct (parse_addr host) as [a|]; [|done]. destruct (Atoi port) as [p|] eqn:Hp; [|done].
  destruct (_ || _) eqn:Hr; [done|]. bprop. intros [= <-]. exists a, port, p. split_and!; [done..|lia|lia].
Qed.

Lemma add_urls_ok args s s' : add_urls args s = Ok s' -> config_ok s -> config_ok s'.
Proof.
  revert s. induction args as [|raw args IH]; intros s; cbn [add_urls]; [by intros [= <-]|].
  destruct (validateURL raw) eqn:Hv; [|done]. intros H [? ? ? ? ?]. apply (IH _ H).
  split; simpl; try done. apply Forall_app. split; [done|]. constructor; [by apply validateURL_spec|constructor].
Qed.

Lemma add_allow_ok args s s' : add_allow args s = Ok s' -> config_ok s -> config_ok s'.
Proof.
  revert s. induction args as [|raw args IH]; intros s; cbn [add_allow]; [by intros [= <-]|].
  destruct (normalizeEntry raw) as [n|] eqn:Hn; [|done]. intros H [? ? ? ? ?]. apply (IH _ H).
  split; simpl; try done. apply Forall_app. split; [done|].
  constructor; [by eapply normalizeEntry_blockable|constructor].
Qed.

Lemma add_bootstrap_ok args s s' : add_bootstrap args s = Ok s' -> config_ok s -> config_ok s'.
Proof.
  revert s. induction args as [|raw args IH]; intros s; cbn [add_bootstrap]; [by intros [= <-]|].
  destruct (normalizeDNSAddr raw) as [a|] eqn:Hn; [|done]. intros H [? ? ? ? ?]. apply (IH _ H).
  split; simpl; try done. apply Forall_app. split; [done|].
  constructor; [by eapply normalizeDNSAddr_server|constructor].
Qed.

Lemma duration_arg_pos name args d : duration_arg name args = Ok d -> 0 < d.
Proof.
  unfold duration_arg. destruct args as [|arg [|]]; [done| |done].
  destruct (ParseDuration arg) as [d'|]; [|done]. destruct (d' <=? 0) eqn:Hd; [done|]. bprop.
  by intros [= <-].
Qed.

Lemma blocklist_apply_property_ok name args s s' :
  apply_property name args s = Ok s' -> config_ok s -> config_ok s'.
Proof.
  unfold apply_property. repeat case_bool_decide; try done;
    try (destruct (length args =? 0)%nat; [done|]; eauto using add_urls_ok, add_allow_ok, add_bootstrap_ok);
    (destruct (duration_arg name args) as [d|] eqn:Hd; [|done]); apply duration_arg_pos in Hd; simpl.
  - destruct (d <? 60 * Second) eqn:Hlt; [done|]. bprop. intros [= <-] [? ? ? ? ?]. by split.
  - intros [= <-] [? ? ? ? ?]. by split.
Qed.

Lemma blocklist_fold_props_ok block s s' :
  fold_props apply_property block s = Ok s' -> config_ok s -> config_ok s'.
Proof.
  revert s. induction block as [|[name args] block IH]; intros s; cbn [fold_props]; [by intros [= <-]|].
  destruct (apply_property name args s) as [s1|] eqn:E; [|done]. simpl.
  eauto using blocklist_apply_property_ok.
Qed.

Lemma blocklist_one_directive_ok ds s s' :
  one_directive apply_directive ds s = Ok s' -> config_ok s -> config_ok s'.
Proof.
  unfold one_directive, apply_directive. destruct ds as [|d [|d2 ds]]; [by intros [= <-]| |].
  - destruct (0 <? length (d_args d))%nat; [done|]. apply blocklist_fold_props_ok.
  - destruct (0 <? length (d_args d))%nat; [done|]. by destruct (fold_props _ _ _).
Qed.

Section Laws.
Context {C : Type} `{D : Dispenser C} `{!DispenserLaws C D}.

Lemma blocklist_property_spec : implements_prop parse_property apply_property.
Proof.
  intros c name args block ds s Hc. unfold parse_property.
  rewrite (Val_prop c name args block ds Hc).
  destruct (RemainingArgs_prop c name args block ds Hc) as [E Hat].
  destruct (RemainingArgs c) as [args' c']. simpl in E, Hat. subst args'.
  case_bool_decide as Hn.
  - destruct (apply_property name args s); simpl; eauto.
  - assert (apply_property name args s = Err (UnknownProperty name)) as ->; [|done].
    unfold properties in Hn. rewrite !not_elem_of_cons in Hn. unfold apply_property.
    by rewrite !bool_decide_eq_false_2 by tauto.
Qed.

Lemma blocklist_directive_spec fuel :
  implements_directive (fun d => (length (d_block d) < fuel)%nat) (parse_directive fuel) apply_directive.
Proof.
  intros c d ds s Hf Hc. unfold parse_directive, apply_directive.
  destruct (RemainingArgs_directive c _ _ _ Hc) as [E Hat].
  destruct (RemainingArgs c) as [args c']. simpl in E, Hat. subst args.
  destruct (0 <? length (d_args d))%nat; [done|].
  apply (block_loop_spec parse_property apply_property fuel (d_block d) ds c' s blocklist_property_spec Hat Hf).
Qed.

Lemma parseConfig_spec fuel c ds :
  at_pos c (AtStart ds) -> enough fuel ds ->
  parseConfig fuel c = (let? s := one_directive apply_directive ds empty_config in finish s).
Proof.
  intros Hc [H2 Hf]. unfold parseConfig.
  by rewrite (directive_loop_spec _ _ _ fuel ds c empty_config (blocklist_directive_spec fuel) Hf Hc H2).
Qed.

Lemma blocklist_finish_ok s s' :
  finish s = Ok s' -> config_ok s ->
  config_ok s' /\ c_urls s' <> [] /\ c_bootstrap s' <> [] /\
  c_urls s' = c_urls s /\ c_allow s' = c_allow s.
Proof.
  unfold finish. destruct (length (c_urls s) =? 0)%nat eqn:Hu; [done|]. bprop.
  intros [= <-] [? ? ? ? ?]. split; [|split; [|split; [|done]]]; simpl.
  - split; simpl; try done. destruct (length (c_bootstrap s) =? 0)%nat; [|done].
    constructor; [|constructor; [|constructor]].
    + exists (Addr4 [1; 1; 1; 1]), (lit "53"), 53. split_and!; [by vm_compute|by vm_compute|lia..].
    + exists (Addr4 [9; 9; 9; 9]), (lit "53"), 53. split_and!; [by vm_compute|by vm_compute|lia..].
  - by destruct (c_urls s).
  - destruct (length (c_bootstrap s) =? 0)%nat eqn:Hb; [done|]. bprop. by destruct (c_bootstrap s).
Qed.

Lemma empty_config_ok : config_ok empty_config.
Proof. split; simpl; try constructor; done. Qed.

(** * Properties *)

(** C37: the parser computes a function of the Corefile alone: with fuel for the
    longest block it reads the one directive's properties in order, each adding
    to or replacing a part of the defaults, stops at the first error, and
    rejects arguments on the directive, a second directive and a directive
    without a source; it always terminates. *)
Theorem blocklist_parse_refines (fuel : nat) (c : C) (ds : list directive)
    (Hc : at_pos c (AtStart ds)) (Hfuel : enough fuel ds) :
  parseConfig fuel c =
  match ds with
  | [] => Err (Missing "url")
  | [d] => match d_args d with
           | [] => let? s := fold_props apply_property (d_block d) empty_config in finish s
           | _ => Err TakesNoArguments
           end
  | d :: _ => match d_args d with
              | [] => let? _ := fold_props apply_property (d_block d) empty_config in Err Twice
              | _ => Err TakesNoArguments
              end
  end.
Proof.
  rewrite (parseConfig_spec fuel c ds Hc Hfuel). unfold one_directive, apply_directive.
  destruct ds as [|d [|d2 ds]]; [done| |]; destruct (d_args d) as [|a args]; simpl; try done.
  by destruct (fold_props _ _ _).
Qed.

(** C36: a configuration the parser returns is one the plugin can run on: at least
    one source, each an http or https URL with a host; only blockable names
    allowed; at least one bootstrap server, each an IP address with a port in
    range, so that the resolver's [Dial] never divides by zero; a refresh
    interval of at least a minute and a positive timeout, so that the ticker and
    the timer can be made. *)
Theorem blocklist_config_valid (fuel : nat) (c : C) (ds : list directive) (s : config)
    (Hc : at_pos c (AtStart ds)) (Hfuel : enough fuel ds) (Hs : parseConfig fuel c = Ok s) :
  c_urls s <> [] /\ Forall web_url (c_urls s) /\ Forall blockable (c_allow s) /\
  c_bootstrap s <> [] /\ Forall dns_server (c_bootstrap s) /\
  (forall dial n, snd (snd (Dial dial (BootstrapResolver (c_bootstrap s) n))) <> DialPanic) /\
  60 * Second <= c_refresh s /\ 0 < c_readyTimeout s.
Proof.
  rewrite (parseConfig_spec fuel c ds Hc Hfuel) in Hs.
  destruct (one_directive apply_directive ds empty_config) as [s1|] eqn:E; [|done]. simpl in Hs.
  pose proof (blocklist_one_directive_ok _ _ _ E empty_config_ok) as Hok.
  destruct (blocklist_finish_ok _ _ Hs Hok) as ([? ? ? ? ?] & Hu & Hb & _). split_and!; try done.
  intros dial n. by apply Dial_no_panic.
Qed.

End Laws.
End Parser.

(** * Witnesses *)

(** A URL parser for the examples. *)
Definition sample_urls : UrlLib := fun raw =>
  if has_prefix raw (lit "https://") then Some (lit "https", drop 8 raw) else None.

Definition sample_corefile : list directive :=
  [MkDirective [] [(lit "url", [lit "https://lists.example.com/hosts"]);
                   (lit "bootstrap_dns", [lit "9.9.9.9"; lit "1.1.1.1:5353"; lit "2606:4700:4700::1111"]);
                   (lit "allow", [lit "*.Good.example.com"]);
                   (lit "refresh", [lit "6h"])]].

Definition sample_result : config :=
  MkConfig [lit "https://lists.example.com/hosts"] [lit "good.example.com"]
    [lit "9.9.9.9:53"; lit "1.1.1.1:5353"; lit "[2606:4700:4700::1111]:53"]
    (6 * 3600 * Second) (60 * Second).

Lemma sample_enough : enough 5 sample_corefile.
Proof. split; [lia|repeat constructor; simpl; lia]. Qed.

Lemma blocklist_sample_parses :
  parseConfig (UL := sample_urls) (UC := latin1_case) 5 (AtStart sample_corefile) = Ok sample_result.
Proof. by vm_compute. Qed.

Lemma blocklist_parse_refines_witness :
  parseConfig (UL := sample_urls) (UC := latin1_case) 5 (AtStart (sample_corefile ++ sample_corefile))
  = Err Twice.
Proof.
  rewrite (blocklist_parse_refines (UL := sample_urls) (UC := latin1_case) 5
    (AtStart (sample_corefile ++ sample_corefile))
    (sample_corefile ++ sample_corefile) (position_at _)).
  - by vm_compute.
  - split; [lia|repeat constructor; simpl; lia].
Defined.

Lemma blocklist_config_valid_witness :
  c_urls sample_result <> [] /\ Forall dns_server (c_bootstrap sample_result).
Proof.
  destruct (blocklist_config_valid (UL := sample_urls) (UC := latin1_case) 5 (AtStart sample_corefile)
    sample_corefile sample_result (position_at _) sample_enough blocklist_sample_parses) as (H1 & _ & _ & _ & H2 & _).
  exact (conj H1 H2).
Defined.
