(* ===== verification/RaceSetup.v ===== *)
(** * The race plugin's configuration ([plugin/race/setup.go])

    [parseConfig] and [addUpstreams] over caddy's dispenser, and what a returned
    configuration satisfies.  CoreDNS's address parsing is a parameter. *)

From Stdlib Require Import Lia ZArith Ascii.
From stdpp Require Import base strings option numbers list.
From S2P Require Import Prelude GoStrings GoTime GoParse Race Caddy.

Local Open Scope Z_scope.

(** [plugin.Host.NormalizeExact], [parse.HostPortOrFile], whether
    [tls.NewTLSConfigFromArgs()] succeeds, [parse.Transport]. *)
Class UpstreamLib := {
  NormalizeExact : str -> list str;
  HostPortOrFile : list str -> option (list str);
  NewTLSConfigFromArgs : bool;
  Transport : str -> str * str;
}.

Definition defaultExpire : Z := 10 * Second.

Definition transportDNS : str := lit "dns".
Definition transportTLS : str := lit "tls".

(** A proxy as [addUpstreams] makes it: its TLS server name if it uses TLS. *)
Record upstream := MkUpstream {
  u_addr : str;
  u_trans : str;
  u_tls : option str;
  u_expire : Z;
  u_maxIdle : nat;
}.

Record config := MkConfig {
  c_from : str;
  c_proxies : list upstream;
  c_tlsServerName : str;
  c_expire : Z;
}.

Definition empty_config : config := MkConfig [] [] [] defaultExpire.

(** The switch on a property. *)
Definition apply_property (name : str) (args : list str) (s : config) : result parse_error config :=
  if bool_decide (name = lit "tls_servername") then
    match args with
    | [arg] => Ok (MkConfig (c_from s) (c_proxies s) arg (c_expire s))
    | _ => Err ArgErr
    end
  else if bool_decide (name = lit "expire") then
    match args with
    | [arg] =>
        match ParseDuration arg with
        | None => Err (BadValue name arg)
        | Some d =>
            if d <=? 0 then Err (BadValue name arg)
            else Ok (MkConfig (c_from s) (c_proxies s) (c_tlsServerName s) d)
        end
    | _ => Err ArgErr
    end
  else Err (UnknownProperty name).

Section Parser.
Context {UL : UpstreamLib}.

(** The loop over the hosts. *)
Fixpoint add_hosts (hosts : list str) (s : config) : result parse_error config :=
  match hosts with
  | [] => Ok s
  | host :: hosts =>
      let '(trans, addr) := Transport host in
      if bool_decide (trans <> transportDNS) && bool_decide (trans <> transportTLS)
      then Err (BadValue (lit "to") host)
      else
        let tls := if bool_decide (trans = transportTLS) then Some (c_tlsServerName s) else None in
        let p := MkUpstream addr trans tls (c_expire s) maxIdleConns in
        add_hosts hosts (MkConfig (c_from s) (c_proxies s ++ [p]) (c_tlsServerName s) (c_expire s))
  end.

Definition addUpstreams (to : list str) (s : config) : result parse_error config :=
  match HostPortOrFile to with
  | None => Err (BadValue (lit "to") [])
  | Some hosts => if NewTLSConfigFromArgs then add_hosts hosts s else Err (Missing "tls")
  end.

Section Dispensed.
Context {C : Type} `{D : Dispenser C}.

Definition parse_property : parser C config := fun c s =>
  let name := Val c in
  if bool_decide (name ∈ [lit "tls_servername"; lit "expire"]) then
    let '(args, c) := RemainingArgs c in
    let? s := apply_property name args s in
    Ok (c, s)
  else Err (UnknownProperty name).

(** One directive: the zone, the upstreams, the block, and then the proxies. *)
Definition parse_directive (fuel : nat) : parser C config := fun c s =>
  match Args1 c with
  | None => Err ArgErr
  | Some (from, c) =>
      match NormalizeExact from with
      | [zone] =>
          let s := MkConfig zone (c_proxies s) (c_tlsServerName s) (c_expire s) in
          let '(to, c) := RemainingArgs c in
          if (length to <? 2)%nat then Err (Missing "upstreams")
          else
            let? x := block_loop fuel parse_property c s in
            let? s := addUpstreams to (snd x) in
            Ok (fst x, s)
      | _ => Err (BadValue (lit "from") from)
      end
  end.

Definition parseConfig (fuel : nat) (c : C) : result parse_error config :=
  directive_loop fuel false (parse_directive fuel) c empty_config.

(** [setup]: the plugin is registered with its hooks if its configuration parses. *)
Definition setup (fuel : nat) (c : C) (ctl : controller config) :
    option parse_error * controller config :=
  Caddy.setup (parseConfig fuel c) ctl.

End Dispensed.

(** ** Lifecycle *)

(** [hcInterval], the cadence the connection managers are started with. *)
Definition hcInterval : Z := 500 * Millisecond.

(** A proxy with the interval its connection manager was started with, if it
    runs. *)
Definition managed : Type := (upstream * option Z)%type.

Definition proxies_of (s : config) : list managed := map (fun p => (p, None)) (c_proxies s).

(** [start]: [p.Start(hcInterval)] on every proxy. *)
Definition start (ps : list managed) : list managed := map (fun p => (fst p, Some hcInterval)) ps.

(** [stop]: [p.Stop()] on every proxy. *)
Definition stop (ps : list managed) : list managed := map (fun p => (fst p, None)) ps.

Lemma start_stop (s : config) :
  map fst (start (proxies_of s)) = c_proxies s /\
  Forall (fun p => snd p = Some hcInterval) (start (proxies_of s)) /\
  stop (start (proxies_of s)) = proxies_of s.
Proof.
  unfold start, stop, proxies_of. rewrite !map_map. simpl. rewrite map_id.
  split; [done|]. split; [|done]. induction (c_proxies s); simpl; constructor; done.
Qed.

(** ** What it computes on a Corefile *)

Definition apply_directive (d : directive) (s : config) : result parse_error config :=
  match d_args d with
  | [] => Err ArgErr
  | from :: to =>
      match NormalizeExact from with
      | [zone] =>
          if (length to <? 2)%nat then Err (Missing "upstreams")
          else
            let? s := fold_props apply_property (d_block d)
                        (MkConfig zone (c_proxies s) (c_tlsServerName s) (c_expire s)) in
            addUpstreams to s
      | _ => Err (BadValue (lit "from") from)
      end
  end.

Definition enough (fuel : nat) (ds : list directive) : Prop :=
  (2 <= fuel)%nat /\ Forall (fun d => (length (d_block d) < fuel)%nat) ds.

(** The proxy of a host under a configuration. *)
Definition upstream_of (s : config) (host : str) : upstream :=
  let '(trans, addr) := Transport host in
  MkUpstream addr trans (if bool_decide (trans = transportTLS) then Some (c_tlsServerName s) else None)
    (c_expire s) maxIdleConns.

(** ** Lemmas *)

Lemma add_hosts_spec hosts s s' :
  add_hosts hosts s = Ok s' ->
  s' = MkConfig (c_from s) (c_proxies s ++ map (upstream_of s) hosts) (c_tlsServerName s) (c_expire s) /\
  Forall (fun host => (Transport host).1 = transportDNS \/ (Transport host).1 = transportTLS) hosts.
Proof.
  revert s. induction hosts as [|host hosts IH]; intros s; cbn [add_hosts map].
  { intros [= <-]. rewrite app_nil_r. by destruct s. }
  unfold upstream_of at 1. destruct (Transport host) as [trans addr] eqn:E.
  destruct (_ && _) eqn:Ht; [done|].
  intros H. destruct (IH _ H) as [-> Hf]. simpl. split.
  - by rewrite <- app_assoc.
  - constructor; [|done]. rewrite E. simpl. apply andb_false_iff in Ht as [Ht|Ht]; bprop;
      apply dec_stable in Ht; auto.
Qed.

(** The block changes only the server name and a positive expiry. *)
Lemma fold_props_keeps block s s' :
  fold_props apply_property block s = Ok s' -> 0 < c_expire s ->
  c_from s' = c_from s /\ c_proxies s' = c_proxies s /\ 0 < c_expire s'.
Proof.
  revert s. induction block as [|[name args] block IH]; intros s; cbn [fold_props]; [by intros [= <-]|].
  destruct (apply_property name args s) as [s1|] eqn:E; [|done]. simpl. intros H Hpos.
  unfold apply_property in E. repeat case_bool_decide; try done; destruct args as [|arg [|]]; try done.
  - injection E as <-. by apply IH in H.
  - destruct (ParseDuration arg) as [d|]; [|done]. destruct (d <=? 0) eqn:Hd; [done|]. bprop.
    injection E as <-. by apply IH in H.
Qed.

Section Laws.
Context {C : Type} `{D : Dispenser C} `{!DispenserLaws C D}.

Lemma race_property_spec : implements_prop parse_property apply_property.
Proof.
  intros c name args block ds s Hc. unfold parse_property.
  rewrite (Val_prop c name args block ds Hc).
  destruct (RemainingArgs_prop c name args block ds Hc) as [E Hat].
  destruct (RemainingArgs c) as [args' c']. simpl in E, Hat. subst args'.
  case_bool_decide as Hn.
  - destruct (apply_property name args s); simpl; eauto.
  - assert (apply_property name args s = Err (UnknownProperty name)) as ->; [|done].
    rewrite !not_elem_of_cons in Hn. unfold apply_property.
    by rewrite !bool_decide_eq_false_2 by tauto.
Qed.

Lemma race_directive_spec fuel :
  implements_directive (fun d => (length (d_block d) < fuel)%nat) (parse_directive fuel) apply_directive.
Proof.
  intros c d ds s Hf Hc. unfold parse_directive, apply_directive.
  destruct (d_args d) as [|from to]; [by rewrite (Args1_none c _ _ Hc)|].
  destruct (Args1_some c _ _ _ _ Hc) as (c1 & -> & Hat1).
  destruct (NormalizeExact from) as [|zone [|]]; [done| |done].
  destruct (RemainingArgs_directive c1 _ _ _ Hat1) as [E Hat].
  destruct (RemainingArgs c1) as [args c2]. simpl in E, Hat. subst args.
  destruct (length to <? 2)%nat; [done|].
  pose proof (block_loop_spec parse_property apply_property fuel (d_block d) ds c2
    (MkConfig zone (c_proxies s) (c_tlsServerName s) (c_expire s)) race_property_spec Hat Hf) as Hb.
  destruct (fold_props _ _ _) as [s1|e]; simpl; [|by rewrite Hb].
  destruct Hb as (c3 & -> & Hat3). simpl. destruct (addUpstreams to s1); simpl; eauto.
Qed.

(** * Properties *)

(** What a returned configuration satisfies: exactly one directive, with a
    zone that normalises and at least two addresses, was read; every host the
    addresses stand for became one proxy, in order, speaking plain DNS or TLS,
    the TLS ones with the configured server name wherever in the block it
    stood, all with the same positive expiry and at most [maxIdleConns] pooled
    connections, the depth a leg can drain. *)
Theorem race_config_valid (fuel : nat) (c : C) (ds : list directive) (s : config)
    (Hc : at_pos c (AtStart ds)) (Hfuel : enough fuel ds) (Hne : ds <> [])
    (Hs : parseConfig fuel c = Ok s) :
  exists d from to zone hosts, ds = [d] /\ d_args d = from :: to /\ NormalizeExact from = [zone] /\
    (2 <= length to)%nat /\ HostPortOrFile to = Some hosts /\
    c_from s = zone /\ c_proxies s = map (upstream_of s) hosts /\ 0 < c_expire s /\
    Forall (fun u => (u_trans u = transportDNS /\ u_tls u = None \/
                      u_trans u = transportTLS /\ u_tls u = Some (c_tlsServerName s)) /\
                     u_expire u = c_expire s /\ (u_maxIdle u < maxConnectAttempts)%nat) (c_proxies s).
Proof.
  unfold parseConfig in Hs. destruct Hfuel as [H2 Hf].
  rewrite (directive_loop_spec _ _ _ fuel ds c empty_config (race_directive_spec fuel) Hf Hc H2) in Hs.
  destruct ds as [|d [|d2 ds]]; [done| |simpl in Hs; by destruct (apply_directive d _)].
  simpl in Hs. unfold apply_directive in Hs. destruct (d_args d) as [|from to] eqn:Ea; [done|].
  destruct (NormalizeExact from) as [|zone [|]] eqn:En; [done| |done].
  destruct (length to <? 2)%nat eqn:Hl; [done|]. bprop.
  destruct (fold_props _ _ _) as [s1|] eqn:E1; [|done]. simpl in Hs.
  apply fold_props_keeps in E1 as (Hfrom & Hp & Hexp); [|done]. simpl in *.
  unfold addUpstreams in Hs. destruct (HostPortOrFile to) as [hosts|] eqn:Eh; [|done].
  destruct NewTLSConfigFromArgs; [|done]. apply add_hosts_spec in Hs as [-> Htr]. simpl. rewrite Hp. simpl.
  exists d, from, to, zone, hosts. split_and!; try done.
  apply list.Forall_forall. intros u (host & -> & Hin)%list_elem_of_fmap.
  rewrite list.Forall_forall in Htr. specialize (Htr host Hin).
  unfold upstream_of. destruct (Transport host) as [trans addr]. simpl in *.
  split_and!; [|done|unfold maxConnectAttempts, maxIdleConns; lia].
  destruct Htr as [-> | ->]; [by left|by right].
Qed.

End Laws.
End Parser.

(** * Witness *)

Definition sample_upstreams : UpstreamLib := {|
  NormalizeExact z := [z];
  HostPortOrFile to := Some to;
  NewTLSConfigFromArgs := true;
  Transport h := if has_prefix h (lit "tls://") then (transportTLS, drop 6 h) else (transportDNS, h);
|}.

Definition sample_corefile : list directive :=
  [MkDirective [lit "."; lit "tls://9.9.9.11"; lit "149.112.112.11"]
     [(lit "tls_servername", [lit "dns.quad9.net"]); (lit "expire", [lit "10s"])]].

Definition sample_result : config :=
  MkConfig (lit ".")
    [MkUpstream (lit "9.9.9.11") transportTLS (Some (lit "dns.quad9.net")) (10 * Second) 8;
     MkUpstream (lit "149.112.112.11") transportDNS None (10 * Second) 8]
    (lit "dns.quad9.net") (10 * Second).

Lemma race_sample_parses : parseConfig (UL := sample_upstreams) 3 (AtStart sample_corefile) = Ok sample_result.
Proof. by vm_compute. Qed.

Lemma race_config_valid_witness :
  0 < c_expire sample_result /\ exists d, sample_corefile = [d].
Proof.
  destruct (race_config_valid (UL := sample_upstreams) 3 (AtStart sample_corefile) sample_corefile
    sample_result (position_at _)) as (d & _ & _ & _ & _ & H1 & _ & _ & _ & _ & _ & _ & H2 & _).
  - split; [lia|repeat constructor; simpl; lia].
  - discriminate.
  - exact race_sample_parses.
  - split; [exact H2|exists d; exact H1].
Defined.
