(* ===== verification/PeercacheSetup.v ===== *)
(** * The peercache's configuration ([plugin/peercache/setup.go])

    [parseConfig] and [setup] over caddy's dispenser; [start] and [shutdown] are
    in [PeercacheLifecycle].  Kubernetes' label selectors are a parameter. *)

From Stdlib Require Import Lia ZArith Ascii.
From stdpp Require Import base strings option numbers list.
From S2P Require Import Prelude GoStrings GoTime Netip GoParse Caddy.

Local Open Scope Z_scope.

(** Whether [labels.Parse] accepts a selector. *)
Class LabelLib := labels_Parse : str -> bool.

Definition defaultPort : Z := 8053.

Record config := MkConfig { c_selector : str; c_port : Z }.

Definition empty_config : config := MkConfig [] defaultPort.

Section Parser.
Context {LB : LabelLib}.

(** The switch on a property. *)
Definition apply_property (name : str) (args : list str) (s : config) : result parse_error config :=
  if bool_decide (name = lit "selector") then
    match args with
    | [arg] =>
        if negb (labels_Parse arg) then Err (BadValue name arg) else Ok (MkConfig arg (c_port s))
    | _ => Err ArgErr
    end
  else if bool_decide (name = lit "port") then
    match args with
    | [arg] =>
        match Atoi arg with
        | None => Err (BadValue name arg)
        | Some n =>
            if (n <? 1) || (65535 <? n) then Err (BadValue name arg)
            else Ok (MkConfig (c_selector s) n)
        end
    | _ => Err ArgErr
    end
  else Err (UnknownProperty name).

Section Dispensed.
Context {C : Type} `{D : Dispenser C}.

Definition parse_property : parser C config := fun c s =>
  let name := Val c in
  if bool_decide (name ∈ [lit "selector"; lit "port"]) then
    let '(args, c) := RemainingArgs c in
    let? s := apply_property name args s in
    Ok (c, s)
  else Err (UnknownProperty name).

Definition parse_directive (fuel : nat) : parser C config := fun c s =>
  let '(args, c) := RemainingArgs c in
  if (0 <? length args)%nat then Err TakesNoArguments else block_loop fuel parse_property c s.

Definition parseConfig (fuel : nat) (c : C) : result parse_error config :=
  let? s := directive_loop fuel false (parse_directive fuel) c empty_config in
  if bool_decide (c_selector s = []) then Err (Missing "selector") else Ok s.

(** [setup]: the plugin is registered with its hooks if its configuration parses. *)
Definition setup (fuel : nat) (c : C) (ctl : controller config) :
    option parse_error * controller config :=
  Caddy.setup (parseConfig fuel c) ctl.

End Dispensed.

(** ** Lemmas *)

Definition apply_directive (d : directive) (s : config) : result parse_error config :=
  if (0 <? length (d_args d))%nat then Err TakesNoArguments else fold_props apply_property (d_block d) s.

Definition enough (fuel : nat) (ds : list directive) : Prop :=
  (2 <= fuel)%nat /\ Forall (fun d => (length (d_block d) < fuel)%nat) ds.

Record config_ok (s : config) : Prop := MkConfigOk {
  ok_selector : c_selector s = [] \/ labels_Parse (c_selector s) = true;
  ok_port : 1 <= c_port s <= 65535;
}.

Lemma peer_apply_property_ok name args s s' :
  apply_property name args s = Ok s' -> config_ok s -> config_ok s'.
Proof.
  unfold apply_property. repeat case_bool_decide; try done; destruct args as [|arg [|]]; try done.
  - destruct (labels_Parse arg) eqn:Hl; [|done]. intros [= <-] [? ?]. split; [by right|done].
  - destruct (Atoi arg) as [n|]; [|done]. destruct (_ || _) eqn:Hr; [done|]. bprop.
    intros [= <-] [? ?]. split; simpl; [done|lia].
Qed.

Lemma peer_fold_props_ok block s s' :
  fold_props apply_property block s = Ok s' -> config_ok s -> config_ok s'.
Proof.
  revert s. induction block as [|[name args] block IH]; intros s; cbn [fold_props]; [by intros [= <-]|].
  destruct (apply_property name args s) as [s1|] eqn:E; [|done]. simpl. eauto using peer_apply_property_ok.
Qed.

Section Laws.
Context {C : Type} `{D : Dispenser C} `{!DispenserLaws C D}.

Lemma peer_property_spec : implements_prop parse_property apply_property.
Proof.
  intros c name args block ds s Hc. unfold parse_property.
  rewrite (Val_prop c name args block ds Hc).
  destruct (RemainingArgs_prop c name args block ds Hc) as [E Hat].
  destruct (RemainingArgs c) as [args' c']. simpl in E, Hat. subst args'.
  case_bool_decide as Hn.
  - destruct (apply_property name args s); simpl; eauto.
  - assert (apply_property name args s = Err (UnknownProperty name)) as ->; [|done].
    rewrite !not_elem_of_cons in Hn. unfold apply_property.
    by rewrite !bool_decide_eq_false_2 by tauto.
Qed.

Lemma peer_directive_spec fuel :
  implements_directive (fun d => (length (d_block d) < fuel)%nat) (parse_directive fuel) apply_directive.
Proof.
  intros c d ds s Hf Hc. unfold parse_directive, apply_directive.
  destruct (RemainingArgs_directive c _ _ _ Hc) as [E Hat].
  destruct (RemainingArgs c) as [args c']. simpl in E, Hat. subst args.
  destruct (0 <? length (d_args d))%nat; [done|].
  apply (block_loop_spec parse_property apply_property fuel (d_block d) ds c' s peer_property_spec Hat Hf).
Qed.

(** * Properties *)

(** What a returned configuration satisfies: exactly one directive without
    arguments was read, its properties were applied in order to the defaults,
    the selector is one Kubernetes accepts and not empty, and the port, which
    the listener binds and siblings are dialled on, is a valid port number. *)
Theorem peercache_config_valid (fuel : nat) (c : C) (ds : list directive) (s : config)
    (Hc : at_pos c (AtStart ds)) (Hfuel : enough fuel ds) (Hs : parseConfig fuel c = Ok s) :
  (exists d, ds = [d] /\ d_args d = [] /\ fold_props apply_property (d_block d) empty_config = Ok s) /\
  c_selector s <> [] /\ labels_Parse (c_selector s) = true /\ 1 <= c_port s <= 65535.
Proof.
  unfold parseConfig in Hs. destruct Hfuel as [H2 Hf].
  rewrite (directive_loop_spec _ _ _ fuel ds c empty_config (peer_directive_spec fuel) Hf Hc H2) in Hs.
  destruct (one_directive apply_directive ds empty_config) as [s1|] eqn:E; [|done]. simpl in Hs.
  case_bool_decide as Hsel; [done|]. injection Hs as ->.
  destruct ds as [|d [|d2 ds]]; simpl in E.
  - by injection E as <-.
  - unfold apply_directive in E. destruct (d_args d) as [|a args] eqn:Ea; [|done]. simpl in E.
    pose proof (peer_fold_props_ok _ _ _ E) as [Hl Hp]; [split; [by left|simpl; unfold defaultPort; lia]|].
    split; [by exists d|]. split_and!; try done; [by destruct Hl|lia..].
  - by destruct (apply_directive d empty_config).
Qed.

End Laws.
End Parser.

(** * Witness *)

Definition sample_labels : LabelLib := fun s => negb (bool_decide (s = [])).

Definition sample_corefile : list directive :=
  [MkDirective [] [(lit "selector", [lit "app.kubernetes.io/name=homedns"]); (lit "port", [lit "8053"])]].

Lemma peer_sample_parses :
  parseConfig (LB := sample_labels) 3 (AtStart sample_corefile)
  = Ok (MkConfig (lit "app.kubernetes.io/name=homedns") 8053).
Proof. by vm_compute. Qed.

Lemma peercache_config_valid_witness :
  sample_labels (lit "app.kubernetes.io/name=homedns") = true /\ 1 <= 8053 <= 65535.
Proof.
  destruct (peercache_config_valid (LB := sample_labels) 3 (AtStart sample_corefile) sample_corefile
    (MkConfig (lit "app.kubernetes.io/name=homedns") 8053) (position_at _)) as (_ & _ & H).
  - split; [lia|repeat constructor; simpl; lia].
  - exact peer_sample_parses.
  - exact H.
Defined.
